(** * Request orchestration engine of jarcos-node-network: a shallow embedding

    The development follows the TypeScript sources component by component:
    - [Js]: the fragment of JavaScript values the engine manipulates
      (JSON data, truthiness, [String(v)], [JSON.stringify], [toUpperCase],
      [Array.prototype.sort] on strings);
    - [Errors]: src/errors (error codes and the error classes);
    - [Effect]: the monads in which the asynchronous methods are written;
    - [Retry]: src/retry/retry-manager.ts;
    - [Cache]: src/cache/cache-manager.ts;
    - [Dedup]: src/deduplication/deduplication-manager.ts;
    - [Auth]: src/auth/auth-manager.ts;
    - [Interceptors]: src/interceptors/response.ts (cache) and
      src/interceptors/auth.ts;
    - [Client]: src/utils/validators.ts and src/client.ts.

    Numbers that the sources use as counters, timestamps and status codes are
    integers ([Z], [nat]); delays are exact rationals ([Q]) standing for the
    IEEE doubles of the implementation.  Promises are modelled by identifiers
    that are settled by explicit events, one event per resumption of the
    cooperative scheduler. *)

From Stdlib Require Import ZArith QArith Qminmax Qabs Qpower Lqa Lia.
From Stdlib Require Import List String Ascii Bool Permutation.
From Stdlib Require Import Sorting.Sorted.
From stdpp Require Import base option list gmap strings pretty.

Set Warnings "-register-all".

Local Open Scope Z_scope.
Local Open Scope string_scope.

(* ===================================================================== *)
(** ** JavaScript values *)
(* ===================================================================== *)
Module Js.

(** JSON data: what request bodies, query parameters and cached envelopes
    are made of.  An object is the list of its own enumerable properties in
    enumeration order (insertion order for non-index keys), without
    repeated keys. *)
Inductive JSON : Type :=
| JNull
| JBool (b : bool)
| JNum (n : Z)
| JStr (s : string)
| JArr (items : list JSON)
| JObj (props : list (string * JSON)).

(** [if (v)] for a JSON value. *)
Definition truthy (v : JSON) : bool :=
  match v with
  | JNull => false
  | JBool b => b
  | JNum n => negb (Z.eqb n 0)
  | JStr s => negb (String.eqb s "")
  | JArr _ => true
  | JObj _ => true
  end.

(** [if (v)] for an optional argument: [undefined] is falsy. *)
Definition truthy_opt (v : option JSON) : bool :=
  match v with
  | None => false
  | Some j => truthy j
  end.

(** [xs.join(sep)] on strings. *)
Fixpoint join (sep : string) (xs : list string) : string :=
  match xs with
  | [] => ""
  | [x] => x
  | x :: rest => x +:+ sep +:+ join sep rest
  end.

(** [s.toUpperCase()] on the ASCII letters. *)
Definition upper_ascii (c : ascii) : ascii :=
  let n := nat_of_ascii c in
  if (97 <=? n)%nat && (n <=? 122)%nat then ascii_of_nat (n - 32) else c.

Fixpoint toUpperCase (s : string) : string :=
  match s with
  | EmptyString => EmptyString
  | String c rest => String (upper_ascii c) (toUpperCase rest)
  end.

Definition hex_digit (n : nat) : ascii :=
  if (n <? 10)%nat then ascii_of_nat (48 + n) else ascii_of_nat (87 + n).

(** The double quote character, as a string. *)
Definition dquote : string := String (ascii_of_nat 34) EmptyString.

(** The escape [JSON.stringify] writes for one character of a string. *)
Definition escape_char (c : ascii) : string :=
  let n := nat_of_ascii c in
  if (n =? 34)%nat then "\" +:+ dquote
  else if (n =? 92)%nat then "\\"
  else if (n =? 8)%nat then "\b"
  else if (n =? 12)%nat then "\f"
  else if (n =? 10)%nat then "\n"
  else if (n =? 13)%nat then "\r"
  else if (n =? 9)%nat then "\t"
  else if (n <? 32)%nat then
    "\u00" +:+ String (hex_digit (n / 16)) (String (hex_digit (n mod 16)) "")
  else String c "".

Fixpoint escape (s : string) : string :=
  match s with
  | EmptyString => EmptyString
  | String c rest => escape_char c +:+ escape rest
  end.

Definition quote (s : string) : string := dquote +:+ escape s +:+ dquote.

(** [JSON.stringify(v)]. *)
Fixpoint stringify (v : JSON) : string :=
  match v with
  | JNull => "null"
  | JBool true => "true"
  | JBool false => "false"
  | JNum n => pretty n
  | JStr s => quote s
  | JArr items => "[" +:+ join "," (map stringify items) +:+ "]"
  | JObj props =>
      "{" +:+ join "," (map (fun kv => quote (fst kv) +:+ ":" +:+ stringify (snd kv)) props)
          +:+ "}"
  end.

(** [String(v)], the conversion a template literal applies. *)
Fixpoint toString (v : JSON) : string :=
  match v with
  | JNull => "null"
  | JBool true => "true"
  | JBool false => "false"
  | JNum n => pretty n
  | JStr s => s
  | JArr items =>
      join "," (map (fun i => match i with JNull => "" | _ => toString i end) items)
  | JObj _ => "[object Object]"
  end.

(** [keys.sort()]: the default comparison orders strings by code units. *)
Fixpoint insert_sorted (k : string) (ks : list string) : list string :=
  match ks with
  | [] => [k]
  | k' :: rest =>
      if String.leb k k' then k :: ks else k' :: insert_sorted k rest
  end.

Fixpoint sort (ks : list string) : list string :=
  match ks with
  | [] => []
  | k :: rest => insert_sorted k (sort rest)
  end.

(** [obj[key]] on the property list of an object. *)
Fixpoint prop (props : list (string * JSON)) (key : string) : option JSON :=
  match props with
  | [] => None
  | (k, v) :: rest => if String.eqb k key then Some v else prop rest key
  end.

End Js.

(* ===================================================================== *)
(** ** Errors (src/errors/error-codes.ts, src/errors/api-error.ts) *)
(* ===================================================================== *)
Module Errors.

(** [enum ErrorCode]; the value of each member is its own name. *)
Inductive ErrorCode : Type :=
| NETWORK_ERROR | TIMEOUT_ERROR | CONNECTION_ERROR | DNS_ERROR
| AUTH_ERROR | TOKEN_EXPIRED | TOKEN_INVALID | REFRESH_TOKEN_EXPIRED
| UNAUTHORIZED | FORBIDDEN
| VALIDATION_ERROR | MISSING_REQUIRED_FIELD | INVALID_FORMAT | INVALID_VALUE
| API_ERROR | BAD_REQUEST | NOT_FOUND | METHOD_NOT_ALLOWED | CONFLICT
| RATE_LIMITED | SERVER_ERROR | SERVICE_UNAVAILABLE
| CONFIG_ERROR | CACHE_ERROR | RETRY_EXHAUSTED | REQUEST_CANCELLED
| UNKNOWN_ERROR.

Definition code_string (c : ErrorCode) : string :=
  match c with
  | NETWORK_ERROR => "NETWORK_ERROR" | TIMEOUT_ERROR => "TIMEOUT_ERROR"
  | CONNECTION_ERROR => "CONNECTION_ERROR" | DNS_ERROR => "DNS_ERROR"
  | AUTH_ERROR => "AUTH_ERROR" | TOKEN_EXPIRED => "TOKEN_EXPIRED"
  | TOKEN_INVALID => "TOKEN_INVALID"
  | REFRESH_TOKEN_EXPIRED => "REFRESH_TOKEN_EXPIRED"
  | UNAUTHORIZED => "UNAUTHORIZED" | FORBIDDEN => "FORBIDDEN"
  | VALIDATION_ERROR => "VALIDATION_ERROR"
  | MISSING_REQUIRED_FIELD => "MISSING_REQUIRED_FIELD"
  | INVALID_FORMAT => "INVALID_FORMAT" | INVALID_VALUE => "INVALID_VALUE"
  | API_ERROR => "API_ERROR" | BAD_REQUEST => "BAD_REQUEST"
  | NOT_FOUND => "NOT_FOUND" | METHOD_NOT_ALLOWED => "METHOD_NOT_ALLOWED"
  | CONFLICT => "CONFLICT" | RATE_LIMITED => "RATE_LIMITED"
  | SERVER_ERROR => "SERVER_ERROR"
  | SERVICE_UNAVAILABLE => "SERVICE_UNAVAILABLE"
  | CONFIG_ERROR => "CONFIG_ERROR" | CACHE_ERROR => "CACHE_ERROR"
  | RETRY_EXHAUSTED => "RETRY_EXHAUSTED"
  | REQUEST_CANCELLED => "REQUEST_CANCELLED"
  | UNKNOWN_ERROR => "UNKNOWN_ERROR"
  end.

(** The constructor an error object was built with ([instanceof]).  The
    classes of api-error.ts all extend [BaseApiError] directly, so no two of
    them are related by [instanceof]. *)
Inductive ErrorClass : Type :=
| CError | CTypeError | CAxiosError
| CApiError | CNetworkError | CAuthError | CValidationError
| CConfigError | CCacheError | CRetryExhaustedError.

Definition class_eqb (a b : ErrorClass) : bool :=
  match a, b with
  | CError, CError | CTypeError, CTypeError | CAxiosError, CAxiosError
  | CApiError, CApiError | CNetworkError, CNetworkError
  | CAuthError, CAuthError | CValidationError, CValidationError
  | CConfigError, CConfigError | CCacheError, CCacheError
  | CRetryExhaustedError, CRetryExhaustedError => true
  | _, _ => false
  end.

(** [error.response] of a transport error. *)
Record ErrResponse : Type := mkErrResponse {
  resp_status : Z;
  resp_data : option Js.JSON
}.

(** An error object: the fields the engine reads or writes.  Timestamps,
    stack traces, headers, url and method are left out. *)
Inductive JsError : Type := mkJsError {
  e_class : ErrorClass;
  e_message : string;
  e_code : option string;
  e_status : option Z;
  e_data : option Js.JSON;
  e_response : option ErrResponse;
  e_requestId : option string;
  e_field : option string;
  e_isRetryable : bool;
  e_attempts : option Z;
  e_cause : option JsError;
  e_lastError : option JsError
}.

Definition instanceof (e : JsError) (c : ErrorClass) : bool :=
  class_eqb (e_class e) c.

(** [new Error(message)]. *)
Definition PlainError (message : string) : JsError :=
  mkJsError CError message None None None None None None false None None None.

(** What reading a property of [undefined] throws. *)
Definition TypeError (message : string) : JsError :=
  mkJsError CTypeError message None None None None None None false None None None.

(** [new ApiError({ message })]: the code defaults to [API_ERROR]. *)
Definition ApiError_of_message (message : string) : JsError :=
  mkJsError CApiError message (Some (code_string API_ERROR))
            None None None None None false None None None.

(** [new AuthError(message, code, status)]. *)
Definition AuthError (message : string) (code : ErrorCode)
    (status : option Z) : JsError :=
  mkJsError CAuthError message (Some (code_string code))
            status None None None None false None None None.

(** [new ValidationError(message, field, value)]. *)
Definition ValidationError (message field : string) : JsError :=
  mkJsError CValidationError message (Some (code_string VALIDATION_ERROR))
            None None None None (Some field) false None None None.

(** [new CacheError(message)]. *)
Definition CacheError (message : string) : JsError :=
  mkJsError CCacheError message (Some (code_string CACHE_ERROR))
            None None None None None false None None None.

(** [new ConfigError(message)]. *)
Definition ConfigError (message : string) : JsError :=
  mkJsError CConfigError message (Some (code_string CONFIG_ERROR))
            None None None None None false None None None.

(** [new RetryExhaustedError(attempts, lastError, requestId)]. *)
Definition RetryExhaustedError (attempts : Z) (lastError : JsError)
    (requestId : option string) : JsError :=
  mkJsError CRetryExhaustedError
    (if Z.eqb attempts 1
     then "Request failed on first attempt: " +:+ e_message lastError
     else "Request failed after " +:+ pretty (attempts - 1)
          +:+ " retry attempts: " +:+ e_message lastError)
    (Some (code_string RETRY_EXHAUSTED))
    None None None requestId None false
    (Some attempts) (Some lastError) (Some lastError).

(** The completion of an asynchronous operation. *)
Inductive Outcome (T : Type) : Type :=
| Resolved (v : T)
| Rejected (e : JsError).
Arguments Resolved {T} v.
Arguments Rejected {T} e.

End Errors.


(* ===================================================================== *)
(** ** Stateful code that may throw *)
(* ===================================================================== *)
Module Effect.
Import Errors.

(** A computation over a state [S] that returns an [X] or throws: [await] of
    a rejected promise and [throw] both end in [Rejected]. *)
Definition M (S X : Type) : Type := S -> Outcome X * S.

Definition ret {S X : Type} (x : X) : M S X := fun s => (Resolved x, s).

Definition throw {S X : Type} (e : JsError) : M S X := fun s => (Rejected e, s).

Definition bind {S X Y : Type} (m : M S X) (k : X -> M S Y) : M S Y :=
  fun s =>
    match m s with
    | (Resolved x, s') => k x s'
    | (Rejected e, s') => (Rejected e, s')
    end.

(** [try { m } catch (error) { handler(error) }]. *)
Definition try_catch {S X : Type} (m : M S X) (handler : JsError -> M S X)
    : M S X :=
  fun s =>
    match m s with
    | (Resolved x, s') => (Resolved x, s')
    | (Rejected e, s') => handler e s'
    end.

Definition gets {S X : Type} (f : S -> X) : M S X := fun s => (Resolved (f s), s).

Definition modify {S : Type} (f : S -> S) : M S unit := fun s => (Resolved tt, f s).

(** Run a computation on a component of the state. *)
Definition zoom {S S' X : Type} (proj : S -> S') (upd : S -> S' -> S)
    (m : M S' X) : M S X :=
  fun s => let (r, s') := m (proj s) in (r, upd s s').

Declare Scope effect_scope.
Delimit Scope effect_scope with effect.
Notation "x <- m ;; k" := (bind m (fun x => k))
  (at level 100, m at next level, right associativity) : effect_scope.
Notation "m ;; k" := (bind m (fun _ => k))
  (at level 100, right associativity) : effect_scope.

(** A computation that, besides, may never settle ([None]): it awaits a
    promise that nothing settles, or the model ran out of fuel. *)
Definition PM (S X : Type) : Type := S -> option (Outcome X * S).

Definition pret {S X : Type} (x : X) : PM S X := fun s => Some (Resolved x, s).

Definition pthrow {S X : Type} (e : JsError) : PM S X :=
  fun s => Some (Rejected e, s).

Definition never {S X : Type} : PM S X := fun _ => None.

Definition pbind {S X Y : Type} (m : PM S X) (k : X -> PM S Y) : PM S Y :=
  fun s =>
    match m s with
    | Some (Resolved x, s') => k x s'
    | Some (Rejected e, s') => Some (Rejected e, s')
    | None => None
    end.

Definition ptry_catch {S X : Type} (m : PM S X) (handler : JsError -> PM S X)
    : PM S X :=
  fun s =>
    match m s with
    | Some (Resolved x, s') => Some (Resolved x, s')
    | Some (Rejected e, s') => handler e s'
    | None => None
    end.

(** A computation that always settles, as one that may not. *)
Definition total {S X : Type} (m : M S X) : PM S X := fun s => Some (m s).

Declare Scope partial_scope.
Delimit Scope partial_scope with partial.
Notation "x <- m ;; k" := (pbind m (fun x => k))
  (at level 100, m at next level, right associativity) : partial_scope.
Notation "m ;; k" := (pbind m (fun _ => k))
  (at level 100, right associativity) : partial_scope.

End Effect.
(* ===================================================================== *)
(** ** Retry engine (src/retry/retry-manager.ts) *)
(* ===================================================================== *)
Module Retry.
Import Errors.

(** [interface RetryConfig]: every field is optional. *)
Record RetryConfig : Type := mkRetryConfig {
  rc_enabled : option bool;
  rc_maxAttempts : option Z;
  rc_backoffFactor : option Q;
  rc_baseDelay : option Q;
  rc_maxDelay : option Q;
  rc_retryCondition : option (JsError -> bool);
  rc_retryStatusCodes : option (list Z);
  rc_jitter : option bool
}.

(** The empty configuration [{}]. *)
Definition emptyConfig : RetryConfig :=
  mkRetryConfig None None None None None None None None.

(** [interface RetryOptions], the per-call overrides. *)
Record RetryOptions : Type := mkRetryOptions {
  ro_enabled : option bool;
  ro_maxAttempts : option Z;
  ro_backoffFactor : option Q;
  ro_retryDelay : option Q;
  ro_retryCondition : option (JsError -> bool)
}.

(** The default argument [options = {}]. *)
Definition noOptions : RetryOptions :=
  mkRetryOptions None None None None None.

(** [interface RetryStats]. *)
Record RetryStats : Type := mkRetryStats {
  totalAttempts : nat;
  successfulRetries : nat;
  failedRetries : nat;
  averageRetryDelay : Q;
  maxRetryDelay : Q
}.

(** The state of a [RetryManager]: its merged configuration
    ([Required<RetryConfig>]) and its statistics.  [retryCondition] is [None]
    when it is the manager's own [defaultRetryCondition]. *)
Record RetryManager : Type := mkRetryManager {
  enabled : bool;
  maxAttempts : Z;
  backoffFactor : Q;
  baseDelay : Q;
  maxDelay : Q;
  retryCondition : option (JsError -> bool);
  retryStatusCodes : list Z;
  jitter : bool;
  stats : RetryStats
}.

(** [constructor(config = {})]: the defaults, overridden by [config]. *)
Definition new (config : RetryConfig) : RetryManager :=
  mkRetryManager
    (default true (rc_enabled config))
    (default 3 (rc_maxAttempts config))
    (default (2 # 1)%Q (rc_backoffFactor config))
    (default (1000 # 1)%Q (rc_baseDelay config))
    (default (30000 # 1)%Q (rc_maxDelay config))
    (rc_retryCondition config)
    (default [408; 429; 500; 502; 503; 504] (rc_retryStatusCodes config))
    (default true (rc_jitter config))
    (mkRetryStats 0 0 0 0%Q 0%Q).

(** [xs.includes(x)] on numbers. *)
Definition includesZ (xs : list Z) (x : Z) : bool := existsb (Z.eqb x) xs.

(** [xs.includes(s)] on strings. *)
Definition includesS (xs : list string) (s : string) : bool :=
  existsb (String.eqb s) xs.

(** [error.code === c]. *)
Definition code_is (error : JsError) (c : string) : bool :=
  match e_code error with
  | Some c' => String.eqb c' c
  | None => false
  end.

(** [error.response?.status || error.status]: the first truthy one, else
    the second operand. *)
Definition statusCode (error : JsError) : option Z :=
  match e_response error with
  | Some r => if negb (Z.eqb (resp_status r) 0) then Some (resp_status r)
              else e_status error
  | None => e_status error
  end.

(** The last test of [defaultRetryCondition]: [if (error.code)] and the
    membership of the code in the four retryable [ErrorCode]s. *)
Definition customCodeCondition (error : JsError) : bool :=
  match e_code error with
  | Some c =>
      if negb (String.eqb c "")
      then includesS [code_string NETWORK_ERROR; code_string TIMEOUT_ERROR;
                      code_string SERVICE_UNAVAILABLE; code_string SERVER_ERROR] c
      else false
  | None => false
  end.

(** The four connection-level codes tested first. *)
Definition networkCode (error : JsError) : bool :=
  code_is error "ENOTFOUND" || code_is error "ECONNRESET"
  || code_is error "ECONNREFUSED" || code_is error "ETIMEDOUT".

(** [defaultRetryCondition(error)]. *)
Definition defaultRetryCondition (rm : RetryManager) (error : JsError) : bool :=
  if networkCode error then true
  else
    match statusCode error with
    | Some s =>
        if negb (Z.eqb s 0) then includesZ (retryStatusCodes rm) s
        else customCodeCondition error
    | None => customCodeCondition error
    end.

(** [if (options.retryDelay)]: a delay that is defined and not zero. *)
Definition retryDelay_set (options : RetryOptions) : option Q :=
  match ro_retryDelay options with
  | Some d => if Qeq_bool d 0 then None else Some d
  | None => None
  end.

(** [addJitter(delay)]; [random] is the value [Math.random()] returned. *)
Definition addJitter (random delay : Q) : Q :=
  let jitterRange := (delay * (1 # 10))%Q in
  let jitter := ((random - (1 # 2)) * (2 # 1) * jitterRange)%Q in
  Qmax 0 (delay + jitter).

(** [calculateDelay(attempt, options)]. *)
Definition calculateDelay (rm : RetryManager) (random : Q) (attempt : Z)
    (options : RetryOptions) : Q :=
  let backoffFactor' :=
    match retryDelay_set options with
    | Some _ => 1%Q
    | None => backoffFactor rm
    end in
  match retryDelay_set options with
  | Some d => Qmin d (maxDelay rm)
  | None =>
      let delay := (baseDelay rm * Qpower backoffFactor' (attempt - 1))%Q in
      let delay := if jitter rm then addJitter random delay else delay in
      Qmin delay (maxDelay rm)
  end.

(** [updateStats(delay)]. *)
Definition updateStats (st : RetryStats) (delay : Q) : RetryStats :=
  let totalDelays :=
    (averageRetryDelay st * inject_Z (Z.of_nat (successfulRetries st)) + delay)%Q in
  mkRetryStats (totalAttempts st) (successfulRetries st) (failedRetries st)
    (totalDelays / inject_Z (Z.of_nat (successfulRetries st) + 1))%Q
    (Qmax (maxRetryDelay st) delay).

Definition incr_totalAttempts (st : RetryStats) : RetryStats :=
  mkRetryStats (S (totalAttempts st)) (successfulRetries st) (failedRetries st)
    (averageRetryDelay st) (maxRetryDelay st).

Definition incr_successfulRetries (st : RetryStats) : RetryStats :=
  mkRetryStats (totalAttempts st) (S (successfulRetries st)) (failedRetries st)
    (averageRetryDelay st) (maxRetryDelay st).

Definition incr_failedRetries (st : RetryStats) : RetryStats :=
  mkRetryStats (totalAttempts st) (successfulRetries st) (S (failedRetries st))
    (averageRetryDelay st) (maxRetryDelay st).

(** [this.config.retryCondition]: the configured predicate, or the
    manager's own default one. *)
Definition configRetryCondition (rm : RetryManager) : JsError -> bool :=
  match retryCondition rm with
  | Some f => f
  | None => defaultRetryCondition rm
  end.

Definition with_stats (rm : RetryManager) (st : RetryStats) : RetryManager :=
  mkRetryManager (enabled rm) (maxAttempts rm) (backoffFactor rm) (baseDelay rm)
    (maxDelay rm) (retryCondition rm) (retryStatusCodes rm) (jitter rm) st.

(** [!this.config.enabled && !options.enabled]: the test under which
    [executeWithRetry] calls the operation directly. *)
Definition bypassed (rm : RetryManager) (options : RetryOptions) : bool :=
  negb (enabled rm) && negb (default false (ro_enabled options)).

(** [options.maxAttempts ?? this.config.maxAttempts]. *)
Definition effectiveMaxAttempts (rm : RetryManager) (options : RetryOptions) : Z :=
  default (maxAttempts rm) (ro_maxAttempts options).

(** [options.retryCondition ?? this.config.retryCondition]. *)
Definition effectiveRetryCondition (rm : RetryManager) (options : RetryOptions)
    : JsError -> bool :=
  default (configRetryCondition rm) (ro_retryCondition options).

Section Execute.

Context {T : Type}.

(** The operation and the random source are effects of the environment:
    [operation k] is what the invocation number [k] (counted from 0) of
    [operation()] settles to, [random k] what the call number [k] of
    [Math.random()] returns. *)
Variable operation : nat -> Outcome T.
Variable random : nat -> Q.

(** What one call of [executeWithRetry] did. *)
Record Run : Type := mkRun {
  run_outcome : Outcome T;
  run_calls : nat;
  run_delays : list Q;
  run_onRetry : list (Z * option JsError);
  run_manager : RetryManager
}.

(** The variables of the loop of [executeWithRetry]. *)
Record LoopState : Type := mkLoopState {
  ls_lastError : option JsError;
  ls_calls : nat;
  ls_delays : list Q;
  ls_onRetry : list (Z * option JsError);
  ls_stats : RetryStats
}.

(** The statement after the loop:
    [throw new RetryExhaustedError(attemptCount, lastError!, requestId)];
    the constructor reads [lastError.message]. *)
Definition exhausted (rm : RetryManager) (attemptCount : Z)
    (requestId : option string) (s : LoopState) : Run :=
  mkRun
    (match ls_lastError s with
     | Some e => Rejected (RetryExhaustedError attemptCount e requestId)
     | None => Rejected (TypeError "Cannot read properties of undefined")
     end)
    (ls_calls s) (ls_delays s) (ls_onRetry s) (with_stats rm (ls_stats s)).

(** The part of the loop body that precedes [await operation()]:
    [totalAttempts++] and, from the second attempt on, the delay computed by
    [calculateDelay(attempt - 1, options)], reported to [onRetry], slept and
    recorded by [updateStats]. *)
Definition before_call (rm : RetryManager) (options : RetryOptions)
    (attempt : Z) (s : LoopState) : LoopState :=
  let st := incr_totalAttempts (ls_stats s) in
  if Z.ltb 1 attempt then
    let delay :=
      calculateDelay rm (random (length (ls_delays s))) (attempt - 1) options in
    mkLoopState (ls_lastError s) (ls_calls s)
      (ls_delays s ++ [delay])
      (ls_onRetry s ++ [(attempt - 1, ls_lastError s)])
      (updateStats st delay)
  else
    mkLoopState (ls_lastError s) (ls_calls s) (ls_delays s) (ls_onRetry s) st.

(** The loop [for (attempt = 1; attempt <= maxAttempts; attempt++)]:
    [remaining] counts the iterations the loop condition still allows. *)
Fixpoint attempts (rm : RetryManager) (options : RetryOptions)
    (requestId : option string) (maxAttempts' : Z)
    (retryCondition' : JsError -> bool)
    (remaining : nat) (attempt : Z) (s : LoopState) : Run :=
  match remaining with
  | O => exhausted rm (attempt - 1) requestId s
  | S remaining' =>
      let s1 := before_call rm options attempt s in
      match operation (ls_calls s1) with
      | Resolved result =>
          mkRun (Resolved result) (S (ls_calls s1)) (ls_delays s1) (ls_onRetry s1)
            (with_stats rm
               (if Z.ltb 1 attempt then incr_successfulRetries (ls_stats s1)
                else ls_stats s1))
      | Rejected error =>
          if Z.eqb attempt maxAttempts' || negb (retryCondition' error) then
            exhausted rm attempt requestId
              (mkLoopState (Some error) (S (ls_calls s1)) (ls_delays s1)
                 (ls_onRetry s1)
                 (if Z.ltb 1 attempt then incr_failedRetries (ls_stats s1)
                  else ls_stats s1))
          else
            attempts rm options requestId maxAttempts' retryCondition'
              remaining' (attempt + 1)
              (mkLoopState (Some error) (S (ls_calls s1)) (ls_delays s1)
                 (ls_onRetry s1) (ls_stats s1))
      end
  end.

(** [executeWithRetry(operation, options = {}, requestId)]. *)
Definition executeWithRetry (rm : RetryManager) (options : RetryOptions)
    (requestId : option string) : Run :=
  if bypassed rm options then
    mkRun (operation 0%nat) 1%nat [] [] rm
  else
    attempts rm options requestId
      (effectiveMaxAttempts rm options) (effectiveRetryCondition rm options)
      (Z.to_nat (effectiveMaxAttempts rm options)) 1
      (mkLoopState None 0%nat [] [] (stats rm)).

End Execute.

End Retry.

(* ===================================================================== *)
(** ** Cache store (src/cache/cache-manager.ts, src/types/cache.ts) *)
(* ===================================================================== *)
Module Cache.
Import Errors Effect.
Local Open Scope effect_scope.

(** [interface CacheEntry]; [data] is what [serialize] returned. *)
Record CacheEntry : Type := mkCacheEntry {
  ce_data : string;
  expiresAt : Z;
  createdAt : Z;
  ce_hits : nat
}.

(** [interface CacheStats]. *)
Record CacheStats : Type := mkCacheStats {
  hits : nat;
  misses : nat;
  sets : nat;
  deletes : nat;
  size : nat;
  hitRate : Q
}.

(** [interface CacheAdapter]: the backing store, over its own state [A].
    Every operation may be asynchronous and may fail. *)
Class CacheAdapter (A : Type) : Type := {
  adapter_get : string -> M A (option CacheEntry);
  adapter_set : string -> CacheEntry -> M A unit;
  adapter_delete : string -> M A bool;
  adapter_clear : M A unit;
  adapter_has : string -> M A bool;
  adapter_keys : M A (list string);
  adapter_size : M A nat
}.

(** *** [class MemoryCacheAdapter]: a [Map] in insertion order *)

Record MemoryCacheAdapter : Type := mkMemoryCacheAdapter {
  mem_cache : list (string * CacheEntry);
  mem_maxSize : Z
}.

(** [map.get(key)]. *)
Fixpoint map_get {V : Type} (m : list (string * V)) (key : string) : option V :=
  match m with
  | [] => None
  | (k, v) :: rest => if String.eqb k key then Some v else map_get rest key
  end.

(** [map.has(key)]. *)
Definition map_has {V : Type} (m : list (string * V)) (key : string) : bool :=
  match map_get m key with Some _ => true | None => false end.

(** [map.set(key, value)]: a key already present keeps its place, a new
    key goes last. *)
Fixpoint map_set {V : Type} (m : list (string * V)) (key : string) (value : V)
    : list (string * V) :=
  match m with
  | [] => [(key, value)]
  | (k, v) :: rest =>
      if String.eqb k key then (k, value) :: rest
      else (k, v) :: map_set rest key value
  end.

(** [map.delete(key)]. *)
Definition map_delete {V : Type} (m : list (string * V)) (key : string)
    : list (string * V) :=
  List.filter (fun kv => negb (String.eqb (fst kv) key)) m.

(** [MemoryCacheAdapter.set(key, value)]: at capacity, a new key first
    evicts the oldest entry ([if (firstKey)] skips an empty key). *)
Definition memory_set (key : string) (value : CacheEntry)
    (a : MemoryCacheAdapter) : MemoryCacheAdapter :=
  let cache :=
    if Z.leb (mem_maxSize a) (Z.of_nat (length (mem_cache a)))
       && negb (map_has (mem_cache a) key)
    then
      match mem_cache a with
      | (firstKey, _) :: _ =>
          if negb (String.eqb firstKey "") then map_delete (mem_cache a) firstKey
          else mem_cache a
      | [] => mem_cache a
      end
    else mem_cache a in
  mkMemoryCacheAdapter (map_set cache key value) (mem_maxSize a).

#[export] Instance memoryAdapter : CacheAdapter MemoryCacheAdapter := {
  adapter_get key := gets (fun a => map_get (mem_cache a) key);
  adapter_set key value := modify (memory_set key value);
  adapter_delete key :=
    fun a => (Resolved (map_has (mem_cache a) key),
              mkMemoryCacheAdapter (map_delete (mem_cache a) key) (mem_maxSize a));
  adapter_clear := modify (fun a => mkMemoryCacheAdapter [] (mem_maxSize a));
  adapter_has key := gets (fun a => map_has (mem_cache a) key);
  adapter_keys := gets (fun a => map fst (mem_cache a));
  adapter_size := gets (fun a => length (mem_cache a))
}.

(** *** An adapter whose store cannot be reached

    Every operation fails with [error], as a remote store does when the
    connection is down. *)

Record UnreachableStore : Type := mkUnreachableStore {
  store_error : JsError
}.

#[export] Instance unreachableAdapter : CacheAdapter UnreachableStore := {
  adapter_get _ := fun a => (Rejected (store_error a), a);
  adapter_set _ _ := fun a => (Rejected (store_error a), a);
  adapter_delete _ := fun a => (Rejected (store_error a), a);
  adapter_clear := fun a => (Rejected (store_error a), a);
  adapter_has _ := fun a => (Rejected (store_error a), a);
  adapter_keys := fun a => (Rejected (store_error a), a);
  adapter_size := fun a => (Rejected (store_error a), a)
}.

(** *** [class CacheManager] *)

(** [interface CacheOptions]: only [ttl] is read. *)
Record CacheOptions : Type := mkCacheOptions {
  co_ttl : option Z
}.

Definition noCacheOptions : CacheOptions := mkCacheOptions None.

(** The manager: its merged configuration, its adapter and its statistics. *)
Record CacheManager (A : Type) : Type := mkCacheManager {
  cm_enabled : bool;
  defaultTTL : Z;
  keyPrefix : string;
  adapter : A;
  stats : CacheStats
}.
Arguments mkCacheManager {A} _ _ _ _ _.
Arguments cm_enabled {A} _.
Arguments defaultTTL {A} _.
Arguments keyPrefix {A} _.
Arguments adapter {A} _.
Arguments stats {A} _.

(** [new CacheManager(config)] with the default in-memory adapter. *)
Definition new (enabled : option bool) (ttl : option Z) (maxSize : option Z)
    (prefix : option string) : CacheManager MemoryCacheAdapter :=
  mkCacheManager (default true enabled) (default 300000 ttl)
    (default "api_cache_" prefix)
    (mkMemoryCacheAdapter [] (default 1000 maxSize))
    (mkCacheStats 0 0 0 0 0 0%Q).

Section Manager.

Context {A : Type} `{CacheAdapter A}.

(** The cached values and the configured [serialize] and [deserialize]
    ([JSON.stringify] and [JSON.parse] by default; parsing may throw). *)
Context {Data : Type}.
Variable serialize : Data -> string.
Variable deserialize : string -> Outcome Data.

Definition with_adapter (cm : CacheManager A) (a : A) : CacheManager A :=
  mkCacheManager (cm_enabled cm) (defaultTTL cm) (keyPrefix cm) a (stats cm).

Definition with_stats (cm : CacheManager A) (st : CacheStats) : CacheManager A :=
  mkCacheManager (cm_enabled cm) (defaultTTL cm) (keyPrefix cm) (adapter cm) st.

(** A call on [this.adapter]. *)
Definition on_adapter {X : Type} (m : M A X) : M (CacheManager A) X :=
  zoom adapter with_adapter m.

(** [buildKey(key)]. *)
Definition buildKey (cm : CacheManager A) (key : string) : string :=
  keyPrefix cm +:+ key.

(** [isExpired(entry)], at the time [now] that [Date.now()] returns. *)
Definition isExpired (now : Z) (entry : CacheEntry) : bool :=
  Z.ltb (expiresAt entry) now.

(** [updateHitRate()]. *)
Definition updateHitRate (st : CacheStats) : CacheStats :=
  let total := (hits st + misses st)%nat in
  mkCacheStats (hits st) (misses st) (sets st) (deletes st) (size st)
    (if (0 <? total)%nat
     then (inject_Z (Z.of_nat (hits st)) / inject_Z (Z.of_nat total))%Q
     else 0%Q).

(** [this.stats.misses++; this.updateHitRate()]. *)
Definition count_miss : M (CacheManager A) unit :=
  modify (fun cm =>
    with_stats cm
      (updateHitRate
         (mkCacheStats (hits (stats cm)) (S (misses (stats cm))) (sets (stats cm))
            (deletes (stats cm)) (size (stats cm)) (hitRate (stats cm))))).

(** [this.stats.hits++; this.updateHitRate()]. *)
Definition count_hit : M (CacheManager A) unit :=
  modify (fun cm =>
    with_stats cm
      (updateHitRate
         (mkCacheStats (S (hits (stats cm))) (misses (stats cm)) (sets (stats cm))
            (deletes (stats cm)) (size (stats cm)) (hitRate (stats cm))))).

(** [this.stats.size = await this.adapter.size()]. *)
Definition refresh_size : M (CacheManager A) unit :=
  n <- on_adapter adapter_size ;;
  modify (fun cm =>
    with_stats cm
      (mkCacheStats (hits (stats cm)) (misses (stats cm)) (sets (stats cm))
         (deletes (stats cm)) n (hitRate (stats cm)))).

(** [catch (error) { throw new CacheError(`${what}: ${error.message}`) }]. *)
Definition as_CacheError {X : Type} (what : string) (m : M (CacheManager A) X)
    : M (CacheManager A) X :=
  try_catch m (fun error => throw (CacheError (what +:+ ": " +:+ e_message error))).

(** [delete(key)]. *)
Definition delete (key : string) : M (CacheManager A) bool :=
  fun cm =>
    if negb (cm_enabled cm) then (Resolved false, cm)
    else
      as_CacheError "Failed to delete cache entry"
        (deleted <- on_adapter (adapter_delete (buildKey cm key)) ;;
         (if deleted : bool then
            modify (fun cm =>
              with_stats cm
                (mkCacheStats (hits (stats cm)) (misses (stats cm))
                   (sets (stats cm)) (S (deletes (stats cm))) (size (stats cm))
                   (hitRate (stats cm)))) ;;
            refresh_size
          else ret tt) ;;
         ret deleted) cm.

(** [get(key)], called when the clock reads [now]. *)
Definition get (key : string) (now : Z) : M (CacheManager A) (option Data) :=
  fun cm =>
    if negb (cm_enabled cm) then (Resolved None, cm)
    else
      as_CacheError "Failed to get cache entry"
        (entry <- on_adapter (adapter_get (buildKey cm key)) ;;
         match entry with
         | None => count_miss ;; ret None
         | Some entry =>
             if isExpired now entry then
               delete key ;; count_miss ;; ret None
             else
               on_adapter
                 (adapter_set (buildKey cm key)
                    (mkCacheEntry (ce_data entry) (expiresAt entry)
                       (createdAt entry) (S (ce_hits entry)))) ;;
               count_hit ;;
               match deserialize (ce_data entry) with
               | Resolved d => ret (Some d)
               | Rejected e => throw e
               end
         end) cm.

(** [set(key, data, options = {})], called when the clock reads [now]. *)
Definition set (key : string) (data : Data) (options : CacheOptions) (now : Z)
    : M (CacheManager A) unit :=
  fun cm =>
    if negb (cm_enabled cm) then (Resolved tt, cm)
    else
      as_CacheError "Failed to set cache entry"
        (let ttl := default (defaultTTL cm) (co_ttl options) in
         on_adapter
           (adapter_set (buildKey cm key)
              (mkCacheEntry (serialize data) (now + ttl) now 0)) ;;
         modify (fun cm =>
           with_stats cm
             (mkCacheStats (hits (stats cm)) (misses (stats cm))
                (S (sets (stats cm))) (deletes (stats cm)) (size (stats cm))
                (hitRate (stats cm)))) ;;
         refresh_size) cm.

End Manager.

(** [buildCacheKey(url, method, params, body)].  [params] is the property
    list of the parameter object, [body] any JSON value. *)
Definition buildCacheKey (url method : string)
    (params : option (list (string * Js.JSON))) (body : option Js.JSON) : string :=
  let parts := [Js.toUpperCase method; url] in
  let parts :=
    match params with
    | Some props =>
        if (0 <? length (map fst props))%nat then
          let sortedParams :=
            Js.join "&"
              (map (fun key =>
                      key +:+ "=" +:+
                      match Js.prop props key with
                      | Some v => Js.toString v
                      | None => "undefined"
                      end)
                   (Js.sort (map fst props))) in
          (parts ++ ["params:" +:+ sortedParams])%list
        else parts
    | None => parts
    end in
  let parts :=
    match body with
    | Some b =>
        if Js.truthy b then
          let bodyStr := match b with Js.JStr s => s | _ => Js.stringify b end in
          (parts ++ ["body:" +:+ bodyStr])%list
        else parts
    | None => parts
    end in
  Js.join "|" parts.

End Cache.

(* ===================================================================== *)
(** ** Requests, responses and the logger (src/types/api.ts, src/logging) *)
(* ===================================================================== *)
Module Http.
Import Errors.

(** The configuration object of one request as the transport sees it: the
    caller's [ApiRequestConfig] with [method] and [url], and the fields the
    interceptors add ([_retry], [metadata.requestId]). *)
Record RequestConfig : Type := mkRequestConfig {
  rq_method : string;
  rq_url : string;
  rq_headers : option (list (string * Js.JSON));
  rq_params : option (list (string * Js.JSON));
  rq_data : option Js.JSON;
  rq_cache : option Cache.CacheOptions;
  rq_skipAuth : bool;
  rq_skipCache : bool;
  rq_skipRetry : bool;
  rq_retry : bool;
  rq_requestId : option string
}.

(** [interface ApiResponse]. *)
Record Response : Type := mkResponse {
  status : Z;
  statusText : string;
  headers : list (string * string);
  data : option Js.JSON;
  config : RequestConfig;
  fromCache : bool
}.

(** What the response interceptor stores in the cache. *)
Record Envelope : Type := mkEnvelope {
  env_status : Z;
  env_statusText : string;
  env_headers : list (string * string);
  env_data : option Js.JSON
}.

(** The calls made on the logger, in order.  Whether the logger prints them
    is its own business. *)
Inductive LogCall : Type :=
| LogWarn (message : string) (error : JsError)
| LogCacheHit (key : string)
| LogCacheMiss (key : string)
| LogCacheSet (key : string) (ttl : Z)
| LogAuth (event : string) (requestId : string).

End Http.

(* ===================================================================== *)
(** ** Single-flight table (src/deduplication/deduplication-manager.ts) *)
(* ===================================================================== *)
Module Dedup.
Import Errors.

(** A key generator [(method, url, data, params) => string]. *)
Definition KeyGenerator : Type :=
  string -> string -> option Js.JSON -> option Js.JSON -> string.

(** [defaultKeyGenerator(method, url, data, params)]. *)
Definition defaultKeyGenerator : KeyGenerator :=
  fun method url data params =>
    let baseKey := Js.toUpperCase method +:+ ":" +:+ url in
    let paramsString :=
      match params with
      | Some p => if Js.truthy p then Js.stringify p else ""
      | None => ""
      end in
    let dataString :=
      match data with
      | Some d => if Js.truthy d then Js.stringify d else ""
      | None => ""
      end in
    baseKey +:+ ":" +:+ paramsString +:+ ":" +:+ dataString.

(** [interface DeduplicationConfig]. *)
Record DeduplicationConfig : Type := mkDeduplicationConfig {
  dc_enabled : option bool;
  dc_keyGenerator : option KeyGenerator;
  dc_timeout : option Z
}.

(** [interface PendingRequest]: promises are named by numbers; the abort
    controller of a request is named by the promise it belongs to. *)
Record PendingRequest : Type := mkPendingRequest {
  promise : nat;
  timestamp : Z
}.

(** [interface DeduplicationStats]. *)
Record DeduplicationStats : Type := mkDeduplicationStats {
  totalRequests : nat;
  deduplicatedRequests : nat;
  activeRequests : nat;
  deduplicationRate : Q
}.

(** The fields of a [DeduplicationManager]. *)
Record DeduplicationManager : Type := mkDeduplicationManager {
  enabled : bool;
  pendingRequests : gmap string PendingRequest;
  keyGenerator : KeyGenerator;
  timeout : Z;
  stats : DeduplicationStats
}.

(** [constructor(config = { enabled: true })]. *)
Definition new (config : DeduplicationConfig) : DeduplicationManager :=
  mkDeduplicationManager
    (default true (dc_enabled config))
    ∅
    (default defaultKeyGenerator (dc_keyGenerator config))
    (default 30000 (dc_timeout config))
    (mkDeduplicationStats 0 0 0 0%Q).

Section Manager.

(** The type of the values requests resolve to. *)
Context {T : Type}.

(** An invocation of a request executor that has not settled yet: the key
    whose table entry its [finally] handler deletes, if the invocation was
    wrapped by [createManagedRequest]. *)
Record Execution : Type := mkExecution {
  ex_key : option string
}.

(** The manager together with the promises it handed out.  Each invocation
    of a [requestExecutor] creates one promise, numbered by [executions]: the
    executor's own promise when deduplication is off, the promise of
    [createManagedRequest] around it otherwise. *)
Record State : Type := mkState {
  manager : DeduplicationManager;
  executions : nat;
  running : gmap nat Execution;
  aborted : gset nat;
  settled : gmap nat (Outcome T)
}.

Definition initial (config : DeduplicationConfig) : State :=
  mkState (new config) 0 ∅ ∅ ∅.

Definition with_pending (m : DeduplicationManager)
    (p : gmap string PendingRequest) (st : DeduplicationStats)
    : DeduplicationManager :=
  mkDeduplicationManager (enabled m) p (keyGenerator m) (timeout m) st.

(** [updateDeduplicationRate()]. *)
Definition updateDeduplicationRate (st : DeduplicationStats) : DeduplicationStats :=
  if (0 <? totalRequests st)%nat then
    mkDeduplicationStats (totalRequests st) (deduplicatedRequests st)
      (activeRequests st)
      (inject_Z (Z.of_nat (deduplicatedRequests st))
       / inject_Z (Z.of_nat (totalRequests st)) * (100 # 1))%Q
  else st.

(** [executeRequest(method, url, requestExecutor, data, params)], called
    when the clock reads [now]: the promise returned and the state after the
    synchronous part of the call. *)
Definition executeRequest (method url : string) (data params : option Js.JSON)
    (now : Z) (s : State) : nat * State :=
  let m := manager s in
  if negb (enabled m) then
    (executions s,
     mkState m (S (executions s))
       (<[executions s := mkExecution None]> (running s)) (aborted s) (settled s))
  else
    let key := keyGenerator m method url data params in
    let st1 :=
      mkDeduplicationStats (S (totalRequests (stats m)))
        (deduplicatedRequests (stats m)) (activeRequests (stats m))
        (deduplicationRate (stats m)) in
    match pendingRequests m !! key with
    | Some existingRequest =>
        let st2 :=
          updateDeduplicationRate
            (mkDeduplicationStats (totalRequests st1)
               (S (deduplicatedRequests st1)) (activeRequests st1)
               (deduplicationRate st1)) in
        (promise existingRequest,
         mkState (with_pending m (pendingRequests m) st2) (executions s)
           (running s) (aborted s) (settled s))
    | None =>
        let p := executions s in
        let pending := <[key := mkPendingRequest p now]> (pendingRequests m) in
        let st2 :=
          mkDeduplicationStats (totalRequests st1) (deduplicatedRequests st1)
            (size pending) (deduplicationRate st1) in
        (p,
         mkState (with_pending m pending st2) (S (executions s))
           (<[p := mkExecution (Some key)]> (running s)) (aborted s) (settled s))
    end.

(** The settlement of [createManagedRequest]: a failure of an aborted
    request is replaced by the cancellation error. *)
Definition managed_outcome (wasAborted : bool) (o : Outcome T) : Outcome T :=
  match o with
  | Resolved result => Resolved result
  | Rejected error =>
      if wasAborted
      then Rejected (PlainError "Request was cancelled due to deduplication")
      else Rejected error
  end.

(** The executor invoked for promise [p] settles with [o]; for a managed
    promise the [finally] handler then deletes the table entry of its key. *)
Definition settle (p : nat) (o : Outcome T) (s : State) : State :=
  match running s !! p with
  | None => s
  | Some (mkExecution None) =>
      mkState (manager s) (executions s) (delete p (running s)) (aborted s)
        (<[p := o]> (settled s))
  | Some (mkExecution (Some key)) =>
      let m := manager s in
      let pending := delete key (pendingRequests m) in
      let st :=
        mkDeduplicationStats (totalRequests (stats m))
          (deduplicatedRequests (stats m)) (size pending)
          (deduplicationRate (stats m)) in
      mkState (with_pending m pending st) (executions s)
        (delete p (running s)) (aborted s)
        (<[p := managed_outcome (bool_decide (p ∈ aborted s)) o]> (settled s))
  end.

(** [now - request.timestamp > this.timeout]. *)
Definition expired (m : DeduplicationManager) (now : Z)
    (request : PendingRequest) : Prop :=
  (timeout m < now - timestamp request)%Z.

#[export] Instance expired_dec m now request : Decision (expired m now request).
Proof. unfold expired. apply _. Defined.

(** [cleanupExpiredRequests()], run by the timer when the clock reads
    [now]. *)
Definition cleanupExpiredRequests (now : Z) (s : State) : State :=
  let m := manager s in
  let gone := filter (fun kr => expired m now (snd kr)) (pendingRequests m) in
  let kept := filter (fun kr => ~ expired m now (snd kr)) (pendingRequests m) in
  let st :=
    if (0 <? size gone)%nat then
      mkDeduplicationStats (totalRequests (stats m))
        (deduplicatedRequests (stats m)) (size kept)
        (deduplicationRate (stats m))
    else stats m in
  mkState (with_pending m kept st) (executions s) (running s)
    (aborted s ∪ list_to_set (map (fun kr => promise (snd kr)) (map_to_list gone)))
    (settled s).

(** [clear()]. *)
Definition clear (s : State) : State :=
  let m := manager s in
  let st :=
    mkDeduplicationStats (totalRequests (stats m))
      (deduplicatedRequests (stats m)) 0 (deduplicationRate (stats m)) in
  mkState (with_pending m ∅ st) (executions s) (running s)
    (aborted s ∪
       list_to_set (map (fun kr => promise (snd kr))
                        (map_to_list (pendingRequests m))))
    (settled s).

(** What can happen to a manager, one resumption of the scheduler at a
    time. *)
Inductive Event : Type :=
| Request (method url : string) (data params : option Js.JSON) (now : Z)
| Settle (p : nat) (o : Outcome T)
| Sweep (now : Z)
| Clear.

Definition step (s : State) (ev : Event) : State :=
  match ev with
  | Request method url data params now =>
      snd (executeRequest method url data params now s)
  | Settle p o => settle p o s
  | Sweep now => cleanupExpiredRequests now s
  | Clear => clear s
  end.

(** The states a manager built from [config] can be in. *)
Inductive reachable (config : DeduplicationConfig) : State -> Prop :=
| reachable_initial : reachable config (initial config)
| reachable_step s ev : reachable config s -> reachable config (step s ev).

(** Identical requests issued one after the other, none awaited, one per
    clock reading of [times]: the promises returned, in order, and the state
    afterwards. *)
Fixpoint requests (times : list Z) (method url : string)
    (data params : option Js.JSON) (s : State) : list nat * State :=
  match times with
  | [] => ([], s)
  | now :: times' =>
      let (p, s1) := executeRequest method url data params now s in
      let (ps, s2) := requests times' method url data params s1 in
      (p :: ps, s2)
  end.

End Manager.

Arguments State : clear implicits.
Arguments Event : clear implicits.

End Dedup.

(* ===================================================================== *)
(** ** Credential refresh coordinator (src/auth/auth-manager.ts) *)
(* ===================================================================== *)
Module Auth.
Import Errors Effect.

(** The two built-in token storages ([MemoryTokenStorage],
    [BrowserTokenStorage]): an access token and a refresh token, each
    possibly absent. *)
Record TokenStorage : Type := mkTokenStorage {
  stored_accessToken : option string;
  stored_refreshToken : option string
}.

(** [interface AuthResponse], the body the login and refresh endpoints
    answer with. *)
Record AuthResponse : Type := mkAuthResponse {
  ar_accessToken : string;
  ar_refreshToken : option string;
  ar_expiresIn : option Z
}.

(** [interface AuthTokens], the argument of [setTokens]. *)
Record AuthTokens : Type := mkAuthTokens {
  at_accessToken : string;
  at_refreshToken : option string;
  at_expiresIn : option Z
}.

(** The fields of an [AuthManager] that the refresh protocol reads or
    writes.  [axiosInstance] tells whether [setAxiosInstance] was called,
    [refreshPromise] names the promise stored in the field, [refreshTimer]
    holds the delay of the timer that is armed. *)
Record AuthManager : Type := mkAuthManager {
  enabled : bool;
  autoRefresh : bool;
  refreshThreshold : Z;
  bearerPrefix : string;
  tokenHeader : string;
  storage : TokenStorage;
  axiosInstance : bool;
  refreshPromise : option nat;
  refreshTimer : option Z
}.

(** [interface AuthConfig]: the fields above that can be configured. *)
Record AuthConfig : Type := mkAuthConfig {
  ac_enabled : option bool;
  ac_autoRefresh : option bool;
  ac_refreshThreshold : option Z;
  ac_bearerPrefix : option string;
  ac_tokenHeader : option string
}.

(** [new AuthManager(config)] over a storage that holds [stored], followed
    by [setAxiosInstance] as the client does. *)
Definition new (config : AuthConfig) (stored : TokenStorage) : AuthManager :=
  mkAuthManager
    (default true (ac_enabled config))
    (default true (ac_autoRefresh config))
    (default 300000 (ac_refreshThreshold config))
    (default "Bearer" (ac_bearerPrefix config))
    (default "Authorization" (ac_tokenHeader config))
    stored true None None.

Definition with_storage (m : AuthManager) (st : TokenStorage)
    (timer : option Z) : AuthManager :=
  mkAuthManager (enabled m) (autoRefresh m) (refreshThreshold m)
    (bearerPrefix m) (tokenHeader m) st (axiosInstance m) (refreshPromise m) timer.

Definition with_refreshPromise (m : AuthManager) (p : option nat) : AuthManager :=
  mkAuthManager (enabled m) (autoRefresh m) (refreshThreshold m)
    (bearerPrefix m) (tokenHeader m) (storage m) (axiosInstance m) p
    (refreshTimer m).

(** [if (s)] for an optional string. *)
Definition truthy_string (s : option string) : bool :=
  match s with
  | Some x => negb (String.eqb x "")
  | None => false
  end.

(** [setTokens(tokens)]; the timer is armed by [scheduleTokenRefresh]. *)
Definition setTokens (tokens : AuthTokens) (m : AuthManager) : AuthManager :=
  if negb (enabled m) then m
  else
    let st :=
      mkTokenStorage (Some (at_accessToken tokens))
        (if truthy_string (at_refreshToken tokens) then at_refreshToken tokens
         else stored_refreshToken (storage m)) in
    let timer :=
      match at_expiresIn tokens with
      | Some expiresIn =>
          if autoRefresh m && negb (Z.eqb expiresIn 0)
          then Some (Z.max (expiresIn * 1000 - refreshThreshold m) 0)
          else refreshTimer m
      | None => refreshTimer m
      end in
    with_storage m st timer.

(** [clearTokens()]. *)
Definition clearTokens (m : AuthManager) : AuthManager :=
  with_storage m (mkTokenStorage None None) None.

(** The guards of [performTokenRefresh] on the refresh token it read: the
    error thrown before any request is made, if any. *)
Definition refresh_guard (m : AuthManager) (stored : option string)
    : option JsError :=
  if negb (truthy_string stored) then
    Some (AuthError "No refresh token available" REFRESH_TOKEN_EXPIRED None)
  else if negb (axiosInstance m) then
    Some (AuthError "Axios instance not configured" CONFIG_ERROR None)
  else None.

(** [error.response?.data?.message || 'Token refresh failed']. *)
Definition refresh_failure_message (error : JsError) : string :=
  match e_response error with
  | Some (mkErrResponse _ (Some (Js.JObj props))) =>
      match Js.prop props "message" with
      | Some m => if Js.truthy m then Js.toString m else "Token refresh failed"
      | None => "Token refresh failed"
      end
  | _ => "Token refresh failed"
  end.

(** The [try]/[catch] of [performTokenRefresh], from the answer [response]
    of the refresh endpoint to the request made with [stored]. *)
Definition refresh_finish (stored : string) (response : Outcome AuthResponse)
    (m : AuthManager) : Outcome string * AuthManager :=
  match response with
  | Resolved authData =>
      (Resolved (ar_accessToken authData),
       setTokens
         (mkAuthTokens (ar_accessToken authData)
            (match ar_refreshToken authData with
             | Some r => Some r
             | None => Some stored
             end)
            (ar_expiresIn authData)) m)
  | Rejected error =>
      (Rejected
         (AuthError (refresh_failure_message error) REFRESH_TOKEN_EXPIRED
            (option_map resp_status (e_response error))),
       clearTokens m)
  end.

(** *** The coordinator, one resumption at a time *)

(** Where an invocation of [performTokenRefresh] waits: for the storage to
    answer [getRefreshToken()] with [stored], or for the refresh endpoint to
    answer the request number [post]. *)
Inductive Phase : Type :=
| ReadingStorage (stored : option string)
| Posting (stored : string) (post : nat).

(** The manager with the promises of its refreshes.  [created] counts the
    invocations of [performTokenRefresh], each of which makes one promise;
    [tasks] holds those still running; [waiting] names the promises whose
    first caller has not yet run the [finally] of [refreshToken]; [posts]
    counts the requests sent to the refresh endpoint. *)
Record State : Type := mkState {
  manager : AuthManager;
  created : nat;
  tasks : gmap nat Phase;
  waiting : gset nat;
  settled : gmap nat (Outcome string);
  posts : nat
}.

Definition initial (config : AuthConfig) (stored : TokenStorage) : State :=
  mkState (new config stored) 0 ∅ ∅ ∅ 0.

(** What a call of [refreshToken()] hands to its caller at once. *)
Inductive Call : Type :=
| Threw (e : JsError)
| Returned (p : nat).

(** [refreshToken()] up to its first suspension: the guard on [enabled],
    the test of [refreshPromise], and the start of [performTokenRefresh],
    which reads the refresh token from the storage. *)
Definition refreshToken (s : State) : Call * State :=
  let m := manager s in
  if negb (enabled m) then
    (Threw (AuthError "Authentication disabled" CONFIG_ERROR None), s)
  else
    match refreshPromise m with
    | Some p => (Returned p, s)
    | None =>
        let p := created s in
        (Returned p,
         mkState (with_refreshPromise m (Some p)) (S (created s))
           (<[p := ReadingStorage (stored_refreshToken (storage m))]> (tasks s))
           ({[p]} ∪ waiting s) (settled s) (posts s))
    end.

(** [performTokenRefresh] resumes with the refresh token it read: it throws
    or sends the request to the refresh endpoint. *)
Definition resume (p : nat) (s : State) : State :=
  match tasks s !! p with
  | Some (ReadingStorage stored) =>
      match refresh_guard (manager s) stored with
      | Some e =>
          mkState (manager s) (created s) (delete p (tasks s)) (waiting s)
            (<[p := Rejected e]> (settled s)) (posts s)
      | None =>
          mkState (manager s) (created s)
            (<[p := Posting (default "" stored) (posts s)]> (tasks s))
            (waiting s) (settled s) (S (posts s))
      end
  | _ => s
  end.

(** The refresh endpoint answers the request of [p] with [response]. *)
Definition respond (p : nat) (response : Outcome AuthResponse) (s : State)
    : State :=
  match tasks s !! p with
  | Some (Posting stored _) =>
      let (o, m) := refresh_finish stored response (manager s) in
      mkState m (created s) (delete p (tasks s)) (waiting s)
        (<[p := o]> (settled s)) (posts s)
  | _ => s
  end.

(** The first caller of [p] resumes after [await this.refreshPromise]:
    [finally { this.refreshPromise = undefined }]. *)
Definition finally (p : nat) (s : State) : State :=
  match settled s !! p with
  | Some _ =>
      if bool_decide (p ∈ waiting s) then
        mkState (with_refreshPromise (manager s) None) (created s) (tasks s)
          (waiting s ∖ {[p]}) (settled s) (posts s)
      else s
  | None => s
  end.

Inductive Event : Type :=
| RefreshToken
| Resume (p : nat)
| Respond (p : nat) (response : Outcome AuthResponse)
| Finally (p : nat)
| SetTokens (tokens : AuthTokens)
| ClearTokens.

Definition step (s : State) (ev : Event) : State :=
  match ev with
  | RefreshToken => snd (refreshToken s)
  | Resume p => resume p s
  | Respond p response => respond p response s
  | Finally p => finally p s
  | SetTokens tokens =>
      mkState (setTokens tokens (manager s)) (created s) (tasks s) (waiting s)
        (settled s) (posts s)
  | ClearTokens =>
      mkState (clearTokens (manager s)) (created s) (tasks s) (waiting s)
        (settled s) (posts s)
  end.

(** The states a manager can be in, from a configuration and a storage. *)
Inductive reachable (config : AuthConfig) (stored : TokenStorage)
    : State -> Prop :=
| reachable_initial : reachable config stored (initial config stored)
| reachable_step s ev :
    reachable config stored s -> reachable config stored (step s ev).

(** The requests to the refresh endpoint that are waiting for an answer. *)
Definition is_posting (phase : Phase) : bool :=
  match phase with
  | Posting _ _ => true
  | ReadingStorage _ => false
  end.

Definition posting (s : State) : gmap nat Phase :=
  filter (fun kv => is_posting (snd kv) = true) (tasks s).

(** *** [await refreshToken()] without interleaving *)

(** The promise [p] is awaited while nothing else runs: its task resumes,
    the refresh endpoint answers the request number [k] with [endpoint k],
    and the [finally] of the first caller runs.  The result is [None] when
    nothing settles [p]. *)
Definition await_refresh (endpoint : nat -> Outcome AuthResponse) (p : nat)
    (s : State) : option (Outcome string * State) :=
  let s1 := resume p s in
  let s2 :=
    match tasks s1 !! p with
    | Some (Posting _ k) => respond p (endpoint k) s1
    | _ => s1
    end in
  let s3 := finally p s2 in
  match settled s3 !! p with
  | Some o => Some (o, s3)
  | None => None
  end.

(** [await this.authManager.refreshToken()]. *)
Definition refreshToken_await (endpoint : nat -> Outcome AuthResponse)
    : PM State string :=
  fun s =>
    match refreshToken s with
    | (Threw e, s') => Some (Rejected e, s')
    | (Returned p, s') => await_refresh endpoint p s'
    end.

End Auth.

(* ===================================================================== *)
(** ** Response interceptors (src/interceptors/response.ts, auth.ts) *)
(* ===================================================================== *)
Module Interceptors.
Import Errors Effect Http.

(** *** [ResponseInterceptors.createCacheInterceptor] *)

Section CacheInterceptor.

Context {A : Type} `{Cache.CacheAdapter A}.
Variable serialize : Envelope -> string.

(** The cache manager and the logger the interceptor was built with. *)
Record CacheSide : Type := mkCacheSide {
  cs_cache : Cache.CacheManager A;
  cs_log : list LogCall
}.

Definition on_cache {X : Type} (m : M (Cache.CacheManager A) X) : M CacheSide X :=
  zoom cs_cache (fun s c => mkCacheSide c (cs_log s)) m.

Definition log (call : LogCall) : M CacheSide unit :=
  modify (fun s => mkCacheSide (cs_cache s) (cs_log s ++ [call])).

(** [shouldCache(response)]. *)
Definition shouldCache (response : Response) : bool :=
  String.eqb (Js.toUpperCase (rq_method (config response))) "GET"
  && Z.leb 200 (status response) && Z.ltb (status response) 300.

(** [this.buildCacheKey(response.config)]. *)
Definition buildCacheKey (cfg : RequestConfig) : string :=
  let method :=
    if String.eqb (Js.toUpperCase (rq_method cfg)) "" then "GET"
    else Js.toUpperCase (rq_method cfg) in
  Cache.buildCacheKey (rq_url cfg) method (rq_params cfg) (rq_data cfg).

(** [cacheOptions?.ttl || 0]. *)
Definition logged_ttl (options : option Cache.CacheOptions) : Z :=
  match options with
  | Some o => default 0 (Cache.co_ttl o)
  | None => 0
  end.

(** [onFulfilled(response)] of the cache interceptor, when the clock reads
    [now]. *)
Definition cache_onFulfilled (response : Response) (now : Z)
    : M CacheSide Response :=
  fun s =>
    let cfg := config response in
    if negb (rq_skipCache cfg) && Cache.cm_enabled (cs_cache s)
       && shouldCache response
    then
      bind
        (try_catch
           (bind
              (on_cache
                 (Cache.set serialize (buildCacheKey cfg)
                    (mkEnvelope (status response) (statusText response)
                       (headers response) (data response))
                    (default Cache.noCacheOptions (rq_cache cfg)) now))
              (fun _ => log (LogCacheSet (buildCacheKey cfg)
                                         (logged_ttl (rq_cache cfg)))))
           (fun error => log (LogWarn "Failed to cache response" error)))
        (fun _ => ret response) s
    else (Resolved response, s).

End CacheInterceptor.

(** *** [AuthInterceptors] *)

Section AuthInterceptor.
Local Open Scope partial_scope.

(** The client as the interceptors see it: the coordinator, the keys of the
    [refreshPromises] map of the interceptor, the requests handed to the
    network, the logger, and the number of readings made so far of what the
    environment decides (the clock, the request identifiers). *)
Record World : Type := mkWorld {
  w_auth : Auth.State;
  w_refreshPromises : gset string;
  w_sent : list RequestConfig;
  w_log : list LogCall;
  w_reads : nat
}.

(** The collaborators of the interceptor.  [refreshToken] is
    [await this.authManager.refreshToken()] and [inflight requestId] what a
    promise stored in [refreshPromises] settles to; in [ApiClient] the manager
    sends its request with the very instance that carries this interceptor
    (see [Instance]). *)
Variable refreshToken : PM World string.
Variable inflight : string -> option (Outcome Response).

Definition with_auth (w : World) (a : Auth.State) : World :=
  mkWorld a (w_refreshPromises w) (w_sent w) (w_log w) (w_reads w).

Definition logAuth (event requestId : string) : PM World unit :=
  fun w =>
    Some (Resolved tt,
          mkWorld (w_auth w) (w_refreshPromises w) (w_sent w)
            (w_log w ++ [LogAuth event requestId]) (w_reads w)).

(** [await this.authManager.clearTokens()]. *)
Definition clearTokens : PM World unit :=
  fun w =>
    Some (Resolved tt,
          with_auth w (Auth.step (w_auth w) Auth.ClearTokens)).

Definition set_refreshPromise (requestId : string) : PM World unit :=
  fun w =>
    Some (Resolved tt,
          mkWorld (w_auth w) ({[requestId]} ∪ w_refreshPromises w) (w_sent w)
            (w_log w) (w_reads w)).

Definition delete_refreshPromise (requestId : string) : PM World unit :=
  fun w =>
    Some (Resolved tt,
          mkWorld (w_auth w) (w_refreshPromises w ∖ {[requestId]}) (w_sent w)
            (w_log w) (w_reads w)).

(** [originalRequest.headers[authHeader] = `${bearerPrefix} ${newToken}`]. *)
Definition set_header (headers : option (list (string * Js.JSON)))
    (name value : string) : option (list (string * Js.JSON)) :=
  Some (Cache.map_set (default [] headers) name (Js.JStr value)).

(** [performTokenRefreshAndRetry(originalRequest, requestId)]; [replay] is
    [this.axiosInstance]. *)
Definition performTokenRefreshAndRetry
    (replay : RequestConfig -> PM World Response)
    (originalRequest : RequestConfig) (requestId : string)
    : PM World Response :=
  ptry_catch
    (newToken <- refreshToken ;;
     logAuth "token_refreshed" requestId ;;
     fun w =>
       let m := Auth.manager (w_auth w) in
       replay
         (mkRequestConfig (rq_method originalRequest) (rq_url originalRequest)
            (set_header (rq_headers originalRequest) (Auth.tokenHeader m)
               (Auth.bearerPrefix m +:+ " " +:+ newToken))
            (rq_params originalRequest) (rq_data originalRequest)
            (rq_cache originalRequest) (rq_skipAuth originalRequest)
            (rq_skipCache originalRequest) true (rq_retry originalRequest)
            (rq_requestId originalRequest)) w)
    (fun _ =>
       pthrow (AuthError "Failed to refresh authentication token"
                 REFRESH_TOKEN_EXPIRED None)).

(** [originalRequest._retry = true]. *)
Definition mark_retried (request : RequestConfig) : RequestConfig :=
  mkRequestConfig (rq_method request) (rq_url request) (rq_headers request)
    (rq_params request) (rq_data request) (rq_cache request)
    (rq_skipAuth request) (rq_skipCache request) (rq_skipRetry request)
    true (rq_requestId request).

(** [originalRequest.metadata?.requestId || 'unknown']. *)
Definition requestId_of (request : RequestConfig) : string :=
  match rq_requestId request with
  | Some r => if String.eqb r "" then "unknown" else r
  | None => "unknown"
  end.

(** [handleUnauthorized(error, originalRequest)]. *)
Definition handleUnauthorized (replay : RequestConfig -> PM World Response)
    (error : JsError) (originalRequest : RequestConfig) : PM World Response :=
  fun w =>
    if negb (Auth.enabled (Auth.manager (w_auth w))) then pthrow error w
    else
      let requestId := requestId_of originalRequest in
      if rq_retry originalRequest then
        (logAuth "token_refresh_failed_retry" requestId ;;
         clearTokens ;;
         pthrow (AuthError "Authentication failed after token refresh"
                   TOKEN_EXPIRED None)) w
      else if bool_decide (requestId ∈ w_refreshPromises w) then
        match inflight requestId with
        | Some o => Some (o, w)
        | None => None
        end
      else
        ptry_catch
          (logAuth "token_refresh_attempt" requestId ;;
           set_refreshPromise requestId ;;
           result <- performTokenRefreshAndRetry replay
                       (mark_retried originalRequest) requestId ;;
           delete_refreshPromise requestId ;;
           pret result)
          (fun refreshError =>
             delete_refreshPromise requestId ;;
             logAuth "token_refresh_failed" requestId ;;
             clearTokens ;;
             pthrow (if instanceof refreshError CAuthError then refreshError
                     else error)) w.

(** [error.response?.status === code]. *)
Definition response_status_is (error : JsError) (code : Z) : bool :=
  match e_response error with
  | Some r => Z.eqb (resp_status r) code
  | None => false
  end.

(** [onRejected(error)] of the interceptor of
    [createAuthResponseInterceptor]; [originalRequest] is [error.config]. *)
Definition onRejected (replay : RequestConfig -> PM World Response)
    (error : JsError) (originalRequest : RequestConfig) : PM World Response :=
  if response_status_is error 401 && negb (rq_retry originalRequest) then
    handleUnauthorized replay error originalRequest
  else if response_status_is error 403 then
    logAuth "access_forbidden" (requestId_of originalRequest) ;;
    pthrow error
  else pthrow error.

(** [onFulfilled(response)] of the same interceptor. *)
Definition onFulfilled (response : Response) : PM World Response :=
  fun w =>
    match rq_requestId (config response) with
    | Some requestId =>
        if negb (String.eqb requestId "")
           && bool_decide (requestId ∈ w_refreshPromises w)
        then (delete_refreshPromise requestId ;; pret response) w
        else pret response w
    | None => pret response w
    end.

End AuthInterceptor.

End Interceptors.

(* ===================================================================== *)
(** ** Request orchestrator (src/utils/validators.ts, src/client.ts) *)
(* ===================================================================== *)
Module Client.
Import Errors Effect Http.

(** [interface ApiRequestConfig], the per-call configuration.  [data] is
    [None] when the property is [undefined]. *)
Record ApiRequestConfig : Type := mkApiRequestConfig {
  headers : option (list (string * Js.JSON));
  params : option (list (string * Js.JSON));
  data : option Js.JSON;
  cache : option Cache.CacheOptions;
  retry : option Retry.RetryOptions;
  skipAuth : bool;
  skipCache : bool;
  skipRetry : bool
}.

(** The default argument [config = {}]. *)
Definition noConfig : ApiRequestConfig :=
  mkApiRequestConfig None None None None None false false false.

(** *** [class RequestValidator] *)

(** The white space that [trim()] removes, among the ASCII characters. *)
Definition is_space (c : ascii) : bool :=
  let n := nat_of_ascii c in
  (n =? 32)%nat || ((9 <=? n)%nat && (n <=? 13)%nat).

(** [s.trim().length === 0]. *)
Fixpoint blank (s : string) : bool :=
  match s with
  | EmptyString => true
  | String c rest => is_space c && blank rest
  end.

(** [validateUrl(url)]. *)
Definition validateUrl (url : string) : Outcome unit :=
  if String.eqb url "" then
    Rejected (ValidationError "URL is required and must be a string" "url")
  else if blank url then
    Rejected (ValidationError "URL cannot be empty" "url")
  else Resolved tt.

Definition validMethods : list string :=
  ["GET"; "POST"; "PUT"; "PATCH"; "DELETE"; "HEAD"; "OPTIONS"].

(** [validateMethod(method)]. *)
Definition validateMethod (method : string) : Outcome unit :=
  if negb (Retry.includesS validMethods (Js.toUpperCase method)) then
    Rejected
      (ValidationError
         ("Invalid HTTP method. Must be one of: " +:+ Js.join ", " validMethods)
         "method")
  else Resolved tt.

(** [typeof value !== 'string' && typeof value !== 'number']. *)
Definition bad_header_value (v : Js.JSON) : bool :=
  match v with
  | Js.JStr _ | Js.JNum _ => false
  | _ => true
  end.

(** [validateHeaders(headers)], on the property list of the headers
    object. *)
Definition validateHeaders (hdrs : option (list (string * Js.JSON)))
    : Outcome unit :=
  match hdrs with
  | Some entries =>
      if existsb (fun kv => bad_header_value (snd kv)) entries then
        Rejected
          (ValidationError "Header values must be strings or numbers" "headers")
      else Resolved tt
  | None => Resolved tt
  end.

Definition methodsWithBody : list string := ["POST"; "PUT"; "PATCH"].

(** [validateData(data, method)]. *)
Definition validateData (body : option Js.JSON) (method : string)
    : Outcome unit :=
  let upperMethod := Js.toUpperCase method in
  if negb (Retry.includesS methodsWithBody upperMethod)
     && match body with Some _ => true | None => false end
  then
    Rejected
      (ValidationError (upperMethod +:+ " requests should not have a body") "data")
  else Resolved tt.

(** *** [class ApiClient] *)

Section ApiClient.

Context {A : Type} `{Cache.CacheAdapter A}.
Variable serialize : Envelope -> string.
Variable deserialize : string -> Outcome Envelope.

(** The managers of a client and its logger. *)
Record ApiClient : Type := mkApiClient {
  cacheManager : Cache.CacheManager A;
  deduplicationManager : Dedup.State Response;
  logger : list LogCall
}.

(** [this.executeWithRetry(requestConfig, config)]: the execution of the
    request through the retry engine and the transport, taken as given
    here. *)
Variable executeWithRetry :
  RequestConfig -> ApiRequestConfig -> M ApiClient Response.

Definition on_cacheManager {X : Type} (m : M (Cache.CacheManager A) X)
    : M ApiClient X :=
  zoom cacheManager
    (fun c cm => mkApiClient cm (deduplicationManager c) (logger c)) m.

Definition log (call : LogCall) : M ApiClient unit :=
  modify (fun c =>
    mkApiClient (cacheManager c) (deduplicationManager c) (logger c ++ [call])).

(** The [ApiResponse] built from a cached envelope. *)
Definition cached_response (method url : string) (cfg : ApiRequestConfig)
    (cachedData : Envelope) : Response :=
  mkResponse (env_status cachedData) (env_statusText cachedData)
    (env_headers cachedData) (env_data cachedData)
    (mkRequestConfig method url (headers cfg) (params cfg) (data cfg) (cache cfg)
       (skipAuth cfg) (skipCache cfg) (skipRetry cfg) false None)
    true.

(** [tryGetFromCache(method, url, config)], when the clock reads [now]. *)
Definition tryGetFromCache (method url : string) (cfg : ApiRequestConfig)
    (now : Z) : M ApiClient (option Response) :=
  fun c =>
    if skipCache cfg || negb (Cache.cm_enabled (cacheManager c))
       || negb (String.eqb method "GET")
    then (Resolved None, c)
    else
      try_catch
        (let cacheKey := Cache.buildCacheKey url method (params cfg) (data cfg) in
         bind (on_cacheManager (Cache.get deserialize cacheKey now))
           (fun cachedData =>
              match cachedData with
              | Some envelope =>
                  bind (log (LogCacheHit cacheKey))
                    (fun _ => ret (Some (cached_response method url cfg envelope)))
              | None =>
                  bind (log (LogCacheMiss cacheKey)) (fun _ => ret None)
              end))
        (fun error =>
           bind (log (LogWarn "Cache lookup failed" error)) (fun _ => ret None))
        c.

(** The request executor that [request] hands to the single-flight table:
    the cache probe, then the execution. *)
Definition requestExecutor (method url : string) (cfg : ApiRequestConfig)
    (now : Z) : M ApiClient Response :=
  bind (tryGetFromCache method url cfg now)
    (fun response =>
       match response with
       | Some r => ret r
       | None =>
           executeWithRetry
             (mkRequestConfig method url (headers cfg) (params cfg) (data cfg)
                (cache cfg) (skipAuth cfg) (skipCache cfg) (skipRetry cfg)
                false None)
             cfg
       end).

(** The four validations of [request], in order: the first error thrown. *)
Definition validate (method url : string) (cfg : ApiRequestConfig)
    : Outcome unit :=
  match validateUrl url with
  | Rejected e => Rejected e
  | Resolved _ =>
      match validateMethod method with
      | Rejected e => Rejected e
      | Resolved _ =>
          match validateHeaders (headers cfg) with
          | Rejected e => Rejected e
          | Resolved _ => validateData (data cfg) method
          end
      end
  end.

(** The [catch] of [request]: what it throws for a caught [error]. *)
Definition rethrown (error : JsError) : JsError :=
  if instanceof error CApiError then error
  else if instanceof error CRetryExhaustedError then error
  else ApiError_of_message (e_message error).

Definition rethrow (o : Outcome Response) : Outcome Response :=
  match o with
  | Resolved r => Resolved r
  | Rejected e => Rejected (rethrown e)
  end.

(** What a call of [request] comes to when nothing else runs meanwhile: its
    own outcome, or that of the pending promise it was collapsed with, passed
    through the [catch] of [request] when that promise settles. *)
Inductive Result : Type :=
| Completed (o : Outcome Response)
| Collapsed (p : nat).

Definition with_dedup (c : ApiClient) (d : Dedup.State Response) : ApiClient :=
  mkApiClient (cacheManager c) d (logger c).

(** [request(method, url, config)], called when the clock reads [now]. *)
Definition request (method url : string) (cfg : ApiRequestConfig) (now : Z)
    (c : ApiClient) : Result * ApiClient :=
  match validate method url cfg with
  | Rejected error => (Completed (Rejected (rethrown error)), c)
  | Resolved _ =>
      let d := deduplicationManager c in
      let (p, d1) :=
        Dedup.executeRequest method url (data cfg)
          (option_map Js.JObj (params cfg)) now d in
      if (Dedup.executions d1 =? Dedup.executions d)%nat then
        (Collapsed p, with_dedup c d1)
      else
        let (o, c2) := requestExecutor method url cfg now (with_dedup c d1) in
        let d3 := Dedup.settle p o (deduplicationManager c2) in
        (Completed
           (rethrow (default o (Dedup.settled d3 !! p))),
         with_dedup c2 d3)
  end.

End ApiClient.

End Client.

(* ===================================================================== *)
(** ** Error codes of responses and the error made of a transport error
       (src/errors/error-codes.ts, src/errors/api-error.ts) *)
(* ===================================================================== *)
Module ApiErrors.
Import Errors.

(** [ErrorMessages[code]]. *)
Definition ErrorMessages (code : ErrorCode) : string :=
  match code with
  | NETWORK_ERROR => "Network connection failed"
  | TIMEOUT_ERROR => "Request timed out"
  | CONNECTION_ERROR => "Unable to connect to server"
  | DNS_ERROR => "DNS resolution failed"
  | AUTH_ERROR => "Authentication failed"
  | TOKEN_EXPIRED => "Access token has expired"
  | TOKEN_INVALID => "Invalid access token"
  | REFRESH_TOKEN_EXPIRED => "Refresh token has expired"
  | UNAUTHORIZED => "Access denied - authentication required"
  | FORBIDDEN => "Access denied - insufficient permissions"
  | VALIDATION_ERROR => "Request validation failed"
  | MISSING_REQUIRED_FIELD => "Required field is missing"
  | INVALID_FORMAT => "Invalid data format"
  | INVALID_VALUE => "Invalid field value"
  | API_ERROR => "API request failed"
  | BAD_REQUEST => "Invalid request parameters"
  | NOT_FOUND => "Resource not found"
  | METHOD_NOT_ALLOWED => "HTTP method not allowed"
  | CONFLICT => "Resource conflict"
  | RATE_LIMITED => "Too many requests - rate limit exceeded"
  | SERVER_ERROR => "Internal server error"
  | SERVICE_UNAVAILABLE => "Service temporarily unavailable"
  | CONFIG_ERROR => "Invalid configuration"
  | CACHE_ERROR => "Cache operation failed"
  | RETRY_EXHAUSTED => "Maximum retry attempts exceeded"
  | REQUEST_CANCELLED => "Request was cancelled"
  | UNKNOWN_ERROR => "An unknown error occurred"
  end.

(** [getErrorCodeFromStatus(status)]. *)
Definition getErrorCodeFromStatus (status : Z) : ErrorCode :=
  if Z.eqb status 400 then BAD_REQUEST
  else if Z.eqb status 401 then UNAUTHORIZED
  else if Z.eqb status 403 then FORBIDDEN
  else if Z.eqb status 404 then NOT_FOUND
  else if Z.eqb status 405 then METHOD_NOT_ALLOWED
  else if Z.eqb status 409 then CONFLICT
  else if Z.eqb status 429 then RATE_LIMITED
  else if Z.eqb status 500 then SERVER_ERROR
  else if Z.eqb status 502 || Z.eqb status 503 || Z.eqb status 504
  then SERVICE_UNAVAILABLE
  else if Z.leb 400 status && Z.ltb status 500 then API_ERROR
  else if Z.leb 500 status then SERVER_ERROR
  else UNKNOWN_ERROR.

(** [code === other] on the members of the enumeration. *)
Definition code_eqb (a b : ErrorCode) : bool :=
  String.eqb (code_string a) (code_string b).

(** [(response?.data as any)?.message]. *)
Definition data_message (response : option ErrResponse) : option Js.JSON :=
  match response with
  | Some (mkErrResponse _ (Some (Js.JObj props))) => Js.prop props "message"
  | _ => None
  end.

(** [a || b] on strings. *)
Definition or_string (a b : string) : string :=
  if negb (String.eqb a "") then a else b.

(** [ApiError.fromAxiosError(error, requestId)].  The message is the first
    truthy one of the message of the response body, the message of the
    error, the message of the code and ['Unknown error']; the [Error]
    constructor turns it into a string. *)
Definition fromAxiosError (error : JsError) (requestId : option string)
    : JsError :=
  let response := e_response error in
  let code :=
    match response with
    | Some r => getErrorCodeFromStatus (resp_status r)
    | None =>
        if Retry.code_is error "ECONNABORTED" then TIMEOUT_ERROR
        else NETWORK_ERROR
    end in
  let fallback :=
    or_string (e_message error) (or_string (ErrorMessages code) "Unknown error") in
  let message :=
    match data_message response with
    | Some m => if Js.truthy m then Js.toString m else fallback
    | None => fallback
    end in
  let isRetryable :=
    code_eqb code NETWORK_ERROR || code_eqb code TIMEOUT_ERROR
    || code_eqb code SERVICE_UNAVAILABLE
    || match response with
       | Some r => negb (Z.eqb (resp_status r) 0) && Z.leb 500 (resp_status r)
       | None => false
       end in
  mkJsError CApiError message (Some (code_string code))
    (option_map resp_status response)
    (match response with Some r => resp_data r | None => None end)
    None requestId None isRetryable None (Some error) None.

(** [onRejected] of [ResponseInterceptors.createErrorTransformInterceptor]:
    the transport error is replaced by the [ApiError] made of it, with the
    request id of [error.config.metadata]. *)
Definition errorTransform_onRejected (error : JsError)
    (requestId : option string) : Outcome Http.Response :=
  Rejected (fromAxiosError error requestId).

End ApiErrors.

(* ===================================================================== *)
(** ** Helpers (src/utils/helpers.ts) *)
(* ===================================================================== *)
Module Helpers.
Import Errors.

(** *** Configuration objects *)

(** The values a configuration object holds.  A property may be present
    with the value [undefined]; functions are named.  An object is the list
    of its own enumerable properties in enumeration order (insertion order
    for keys that are not array indices), without repeated keys. *)
Inductive Value : Type :=
| VUndefined
| VNull
| VBool (b : bool)
| VNum (n : Q)
| VStr (s : string)
| VFun (name : string)
| VArr (items : list Value)
| VObj (props : list (string * Value)).

(** [isObject(value)]. *)
Definition isObject (value : Value) : bool :=
  match value with
  | VObj _ => true
  | _ => false
  end.

(** [obj[key]], [None] when [obj] has no such property. *)
Fixpoint prop (props : list (string * Value)) (key : string) : option Value :=
  match props with
  | [] => None
  | (k, v) :: rest => if String.eqb k key then Some v else prop rest key
  end.

(** [obj[key] = value]: a property that exists keeps its place, a new one
    goes last. *)
Fixpoint assign (props : list (string * Value)) (key : string) (value : Value)
    : list (string * Value) :=
  match props with
  | [] => [(key, value)]
  | (k, v) :: rest =>
      if String.eqb k key then (k, value) :: rest
      else (k, v) :: assign rest key value
  end.

(** The loop [for (const key in source)] of [deepMerge] over the properties
    [src] that are left, on the [result] so far; [merge] is [deepMerge] on
    the nested objects. *)
Definition merge_props
    (merge : Value -> list (string * Value) -> list (string * Value))
    : list (string * Value) -> list (string * Value) -> list (string * Value) :=
  fix loop (src result : list (string * Value)) {struct src} :=
    match src with
    | [] => result
    | (key, sourceValue) :: rest =>
        loop rest
          (match sourceValue, prop result key with
           | VObj _, Some (VObj targetValue) =>
               assign result key (VObj (merge sourceValue targetValue))
           | VUndefined, _ => result
           | _, _ => assign result key sourceValue
           end)
    end.

(** [deepMerge(target, source)], by recursion on [source]. *)
Fixpoint deepMerge_into (source : Value) (target : list (string * Value))
    {struct source} : list (string * Value) :=
  match source with
  | VObj props => merge_props deepMerge_into props target
  | _ => target
  end.

Definition deepMerge (target source : list (string * Value))
    : list (string * Value) :=
  deepMerge_into (VObj source) target.

(** [mergeConfigs(defaultConfig, environmentConfig, userConfig)]. *)
Definition mergeConfigs (defaultConfig environmentConfig userConfig
    : list (string * Value)) : list (string * Value) :=
  deepMerge (deepMerge defaultConfig environmentConfig) userConfig.

(** The value at the end of a path of property names. *)
Fixpoint at_path (path : list string) (value : Value) : option Value :=
  match path with
  | [] => Some value
  | key :: rest =>
      match value with
      | VObj props =>
          match prop props key with
          | Some v => at_path rest v
          | None => None
          end
      | _ => None
      end
  end.

(** An object literal: no key is written twice, at any depth. *)
Fixpoint well_formed (value : Value) : Prop :=
  match value with
  | VObj props =>
      List.NoDup (map fst props) /\
      (fix all (l : list (string * Value)) : Prop :=
         match l with
         | [] => True
         | (_, v) :: rest => well_formed v /\ all rest
         end) props
  | _ => True
  end.

(** *** Strings *)

(** [str.substring(0, end)] for an integer [end]: a negative [end] counts
    as 0, one past the length as the length. *)
Definition substring0 (str : string) (end_ : Z) : string :=
  String.substring 0 (Z.to_nat end_) str.

(** [truncateString(str, maxLength)]. *)
Definition truncateString (str : string) (maxLength : Z) : string :=
  if Z.leb (Z.of_nat (String.length str)) maxLength then str
  else substring0 str (maxLength - 3) +:+ "...".

(** *** Errors *)

(** [isRetryableError(error)]. *)
Definition isRetryableError (error : JsError) : bool :=
  if Retry.code_is error "ENOTFOUND" || Retry.code_is error "ECONNRESET"
     || Retry.code_is error "ECONNREFUSED" || Retry.code_is error "ETIMEDOUT"
  then true
  else
    match e_response error with
    | Some r =>
        let status := resp_status r in
        if negb (Z.eqb status 0)
        then Z.eqb status 408 || Z.eqb status 429 || Z.leb 500 status
        else false
    | None => false
    end.

End Helpers.

(* ===================================================================== *)
(** ** Configuration validator (src/utils/validators.ts) and
       [ApiClient.updateConfig] (src/client.ts) *)
(* ===================================================================== *)
Module Validators.
Import Errors Helpers.

(** *** What the validator reads of a value of type [any]

    Numbers are the finite ones: [NaN] and the infinities are not values of
    [Value]. *)

(** [if (value)]. *)
Definition truthy (value : Value) : bool :=
  match value with
  | VUndefined | VNull => false
  | VBool b => b
  | VNum n => negb (Qeq_bool n 0)
  | VStr s => negb (String.eqb s "")
  | VFun _ | VArr _ | VObj _ => true
  end.

(** [value.key] on a value that is neither [null] nor [undefined], for the
    keys of the configuration: an object answers with its own property, any
    other value with [undefined]. *)
Definition get (value : Value) (key : string) : Value :=
  match value with
  | VObj props => default VUndefined (prop props key)
  | _ => VUndefined
  end.

(** [value !== undefined]. *)
Definition defined (value : Value) : bool :=
  match value with
  | VUndefined => false
  | _ => true
  end.

(** [typeof value !== 'number' || test(value)]. *)
Definition not_number_or (test : Q -> bool) (value : Value) : bool :=
  match value with
  | VNum n => test n
  | _ => true
  end.

(** [n < bound] and [n > bound]. *)
Definition below (bound n : Q) : bool :=
  match Qcompare n bound with Lt => true | _ => false end.

Definition above (bound n : Q) : bool :=
  match Qcompare n bound with Gt => true | _ => false end.

(** [names.includes(value)], for an array of strings. *)
Definition includes (names : list string) (value : Value) : bool :=
  match value with
  | VStr s => existsb (String.eqb s) names
  | _ => false
  end.

Section ConfigValidator.

(** [new URL(s)]: whether the constructor accepts the string. *)
Variable URL : string -> bool.

(** [validateBaseURL(baseURL)]. *)
Definition validateBaseURL (baseURL : Value) : Outcome unit :=
  if truthy baseURL
     && negb match baseURL with VStr _ => true | _ => false end
  then Rejected (ValidationError "baseURL must be a string" "baseURL")
  else
    match baseURL with
    | VStr s =>
        if truthy baseURL && (0 <? String.length s)%nat then
          if URL s then Resolved tt
          else Rejected (ValidationError "baseURL must be a valid URL" "baseURL")
        else Resolved tt
    | _ => Resolved tt
    end.

(** [validateTimeout(timeout)]. *)
Definition validateTimeout (timeout : Value) : Outcome unit :=
  if defined timeout then
    if not_number_or (below 0) timeout then
      Rejected (ValidationError "timeout must be a positive number" "timeout")
    else if match timeout with VNum n => above (300000 # 1) n | _ => false end
    then
      Rejected (ValidationError "timeout should not exceed 5 minutes" "timeout")
    else Resolved tt
  else Resolved tt.

(** [validateAuth(auth)]. *)
Definition validateAuth (auth : Value) : Outcome unit :=
  if negb (truthy auth) then Resolved tt
  else if defined (get auth "refreshThreshold")
          && not_number_or (below 0) (get auth "refreshThreshold")
  then
    Rejected (ValidationError "auth.refreshThreshold must be a positive number"
                "auth.refreshThreshold")
  else if truthy (get auth "tokenStorage")
          && negb (includes ["localStorage"; "sessionStorage"; "memory"; "custom"]
                     (get auth "tokenStorage"))
  then
    Rejected
      (ValidationError
         "auth.tokenStorage must be one of: localStorage, sessionStorage, memory, custom"
         "auth.tokenStorage")
  else Resolved tt.

(** [validateCache(cache)]. *)
Definition validateCache (cache : Value) : Outcome unit :=
  if negb (truthy cache) then Resolved tt
  else if defined (get cache "defaultTTL")
          && not_number_or (below 0) (get cache "defaultTTL")
  then
    Rejected (ValidationError "cache.defaultTTL must be a positive number"
                "cache.defaultTTL")
  else if defined (get cache "maxSize")
          && not_number_or (below 1) (get cache "maxSize")
  then
    Rejected (ValidationError "cache.maxSize must be a positive number"
                "cache.maxSize")
  else Resolved tt.

(** [validateRetry(retry)]. *)
Definition validateRetry (retry : Value) : Outcome unit :=
  if negb (truthy retry) then Resolved tt
  else if defined (get retry "maxAttempts")
          && not_number_or (fun n => below 1 n || above (10 # 1) n)
               (get retry "maxAttempts")
  then
    Rejected (ValidationError "retry.maxAttempts must be between 1 and 10"
                "retry.maxAttempts")
  else if defined (get retry "backoffFactor")
          && not_number_or (below 1) (get retry "backoffFactor")
  then
    Rejected (ValidationError "retry.backoffFactor must be >= 1"
                "retry.backoffFactor")
  else if defined (get retry "baseDelay")
          && not_number_or (below 0) (get retry "baseDelay")
  then
    Rejected (ValidationError "retry.baseDelay must be a positive number"
                "retry.baseDelay")
  else Resolved tt.

(** [validateLogging(logging)]. *)
Definition validateLogging (logging : Value) : Outcome unit :=
  if negb (truthy logging) then Resolved tt
  else if truthy (get logging "level")
          && negb (includes ["error"; "warn"; "info"; "debug"; "trace"]
                     (get logging "level"))
  then
    Rejected
      (ValidationError
         "logging.level must be one of: error, warn, info, debug, trace"
         "logging.level")
  else if defined (get logging "maxLogLength")
          && not_number_or (below (10 # 1)) (get logging "maxLogLength")
  then
    Rejected (ValidationError "logging.maxLogLength must be >= 10"
                "logging.maxLogLength")
  else Resolved tt.

(** One validation after another: the first error thrown. *)
Definition and_then (first : Outcome unit) (next : Outcome unit) : Outcome unit :=
  match first with
  | Rejected error => Rejected error
  | Resolved _ => next
  end.

(** [validateConfig(config)]. *)
Definition validateConfig (config : list (string * Value)) : Outcome unit :=
  and_then (validateBaseURL (get (VObj config) "baseURL"))
    (and_then (validateTimeout (get (VObj config) "timeout"))
       (and_then (validateAuth (get (VObj config) "auth"))
          (and_then (validateCache (get (VObj config) "cache"))
             (and_then (validateRetry (get (VObj config) "retry"))
                (validateLogging (get (VObj config) "logging")))))).

(** *** [ApiClient.updateConfig]

    The configuration of the client and the defaults of its transport that
    the method writes; the merge of the transport's headers and the logger
    are left out. *)
Record ClientConfig : Type := mkClientConfig {
  config : list (string * Value);
  axios_baseURL : Value;
  axios_timeout : Value
}.

(** [updateConfig(newConfig)]: the new configuration is stored before it is
    validated. *)
Definition updateConfig (newConfig : list (string * Value)) (c : ClientConfig)
    : Outcome unit * ClientConfig :=
  let merged := mergeConfigs (config c) [("baseURL", VStr "")] newConfig in
  let c1 := mkClientConfig merged (axios_baseURL c) (axios_timeout c) in
  match validateConfig merged with
  | Rejected error => (Rejected error, c1)
  | Resolved _ =>
      (Resolved tt,
       mkClientConfig merged (get (VObj merged) "baseURL")
         (get (VObj merged) "timeout"))
  end.

End ConfigValidator.

(** *** Typed configurations as the objects the validator is given *)

(** The property [name] when the field is set. *)
Definition field {X : Type} (name : string) (inject : X -> Value)
    (value : option X) : list (string * Value) :=
  match value with
  | Some x => [(name, inject x)]
  | None => []
  end.

(** A [RetryConfig] as an object. *)
Definition retry_object (rc : Retry.RetryConfig) : Value :=
  VObj (field "enabled" VBool (Retry.rc_enabled rc)
        ++ field "maxAttempts" (fun n => VNum (inject_Z n)) (Retry.rc_maxAttempts rc)
        ++ field "backoffFactor" VNum (Retry.rc_backoffFactor rc)
        ++ field "baseDelay" VNum (Retry.rc_baseDelay rc)
        ++ field "maxDelay" VNum (Retry.rc_maxDelay rc)
        ++ field "retryCondition" (fun _ => VFun "retryCondition")
             (Retry.rc_retryCondition rc)
        ++ field "retryStatusCodes"
             (fun codes => VArr (map (fun n => VNum (inject_Z n)) codes))
             (Retry.rc_retryStatusCodes rc)
        ++ field "jitter" VBool (Retry.rc_jitter rc))%list.

(** The arguments of [new CacheManager(config)] as an object. *)
Definition cache_object (enabled : option bool) (ttl maxSize : option Z)
    (prefix : option string) : Value :=
  VObj (field "enabled" VBool enabled
        ++ field "defaultTTL" (fun n => VNum (inject_Z n)) ttl
        ++ field "maxSize" (fun n => VNum (inject_Z n)) maxSize
        ++ field "keyPrefix" VStr prefix)%list.

End Validators.

(* ===================================================================== *)
(** ** Cache store: the other methods of [CacheManager]
       (src/cache/cache-manager.ts) and [ApiClient.invalidateCache] *)
(* ===================================================================== *)
Module CacheAdmin.
Import Errors Effect Cache.
Local Open Scope effect_scope.

Section Manager.

Context {A : Type} `{CacheAdapter A}.

(** [this.stats.size = n]. *)
Definition set_size (n : nat) : M (CacheManager A) unit :=
  modify (fun cm =>
    with_stats cm
      (mkCacheStats (hits (stats cm)) (misses (stats cm)) (sets (stats cm))
         (deletes (stats cm)) n (hitRate (stats cm)))).

(** [clear()]. *)
Definition clear : M (CacheManager A) unit :=
  fun cm =>
    if negb (cm_enabled cm) then (Resolved tt, cm)
    else
      as_CacheError "Failed to clear cache"
        (on_adapter adapter_clear ;; set_size 0) cm.

(** [has(key)], called when the clock reads [now]: any error is answered
    with [false]. *)
Definition has (key : string) (now : Z) : M (CacheManager A) bool :=
  fun cm =>
    if negb (cm_enabled cm) then (Resolved false, cm)
    else
      try_catch
        (exists_ <- on_adapter (adapter_has (buildKey cm key)) ;;
         if negb exists_ then ret false
         else
           entry <- on_adapter (adapter_get (buildKey cm key)) ;;
           match entry with
           | Some e =>
               if isExpired now e then (delete key ;; ret false) else ret true
           | None => delete key ;; ret false
           end)
        (fun _ => ret false) cm.

(** A loop [for (const key of keys)] that counts the keys on which [body]
    answers [true]. *)
Fixpoint count_keys {St : Type} (body : string -> M St bool)
    (keys : list string) (count : nat) : M St nat :=
  match keys with
  | [] => ret count
  | key :: rest =>
      counted <- body key ;;
      count_keys body rest (if counted : bool then S count else count)
  end.

(** [cleanup()], called when the clock reads [now]. *)
Definition cleanup (now : Z) : M (CacheManager A) nat :=
  fun cm =>
    if negb (cm_enabled cm) then (Resolved 0%nat, cm)
    else
      as_CacheError "Failed to cleanup cache"
        (keys <- on_adapter adapter_keys ;;
         cleanedCount <-
           count_keys
             (fun key =>
                entry <- on_adapter (adapter_get key) ;;
                match entry with
                | Some e =>
                    if isExpired now e
                    then (on_adapter (adapter_delete key) ;; ret true)
                    else ret false
                | None => ret false
                end)
             keys 0 ;;
         (if (0 <? cleanedCount)%nat then refresh_size else ret tt) ;;
         ret cleanedCount) cm.

(** [new RegExp(pattern)]: the test of the expression on a string, or the
    error the constructor throws on a pattern that is not one. *)
Variable RegExp : string -> Outcome (string -> bool).

(** [invalidatePattern(pattern)]. *)
Definition invalidatePattern (pattern : string) : M (CacheManager A) nat :=
  fun cm =>
    if negb (cm_enabled cm) then (Resolved 0%nat, cm)
    else
      as_CacheError "Failed to invalidate pattern"
        (keys <- on_adapter adapter_keys ;;
         match RegExp pattern with
         | Rejected error => throw error
         | Resolved test =>
             deletedCount <-
               count_keys
                 (fun key =>
                    if test key then on_adapter (adapter_delete key)
                    else ret false)
                 keys 0 ;;
             (if (0 <? deletedCount)%nat then refresh_size else ret tt) ;;
             ret deletedCount
         end) cm.

(** [ApiClient.invalidateCache(pattern)] on the cache manager of the
    client: an absent or empty pattern clears the cache. *)
Definition invalidateCache (pattern : option string) : M (CacheManager A) nat :=
  fun cm =>
    if negb (cm_enabled cm) then (Resolved 0%nat, cm)
    else
      match pattern with
      | Some p =>
          if negb (String.eqb p "") then invalidatePattern p cm
          else (clear ;; ret 0%nat) cm
      | None => (clear ;; ret 0%nat) cm
      end.

End Manager.

(** *** The manager over the in-memory store, one call at a time *)

Section Calls.

Context {Data : Type}.
Variable serialize : Data -> string.
Variable deserialize : string -> Outcome Data.
Variable RegExp : string -> Outcome (string -> bool).

(** A call of a method of the manager. *)
Inductive Call : Type :=
| CallGet (key : string) (now : Z)
| CallSet (key : string) (data : Data) (options : CacheOptions) (now : Z)
| CallDelete (key : string)
| CallClear
| CallHas (key : string) (now : Z)
| CallCleanup (now : Z)
| CallInvalidatePattern (pattern : string).

(** The manager after the call. *)
Definition after (cm : CacheManager MemoryCacheAdapter) (call : Call)
    : CacheManager MemoryCacheAdapter :=
  match call with
  | CallGet key now => snd (Cache.get deserialize key now cm)
  | CallSet key data options now => snd (Cache.set serialize key data options now cm)
  | CallDelete key => snd (Cache.delete key cm)
  | CallClear => snd (clear cm)
  | CallHas key now => snd (has key now cm)
  | CallCleanup now => snd (cleanup now cm)
  | CallInvalidatePattern pattern => snd (invalidatePattern RegExp pattern cm)
  end.

(** The managers that calls can make of a new one. *)
Inductive reachable (enabled : option bool) (ttl maxSize : option Z)
    (prefix : option string) : CacheManager MemoryCacheAdapter -> Prop :=
| reachable_new : reachable enabled ttl maxSize prefix (new enabled ttl maxSize prefix)
| reachable_after cm call :
    reachable enabled ttl maxSize prefix cm ->
    reachable enabled ttl maxSize prefix (after cm call).

End Calls.

End CacheAdmin.

(* ===================================================================== *)
(** ** The other methods of [AuthManager] (src/auth/auth-manager.ts) *)
(* ===================================================================== *)
Module AuthMore.
Import Errors Effect Http Auth.
Local Open Scope partial_scope.

(** A change of the manager inside the coordinator. *)
Definition on_manager (f : AuthManager -> AuthManager) (s : State) : State :=
  mkState (f (manager s)) (created s) (tasks s) (waiting s) (settled s)
    (posts s).

(** [error.response?.data?.message || fallback]. *)
Definition failure_message (fallback : string) (error : JsError) : string :=
  match e_response error with
  | Some (mkErrResponse _ (Some (Js.JObj props))) =>
      match Js.prop props "message" with
      | Some m => if Js.truthy m then Js.toString m else fallback
      | None => fallback
      end
  | _ => fallback
  end.

Section Manager.

(** [parseJwtPayload(token).exp]: the expiry claim of the token, in
    seconds, when the payload can be read and holds a number there. *)
Variable exp : string -> option Q.

(** What the request number [k] to the refresh endpoint settles to. *)
Variable endpoint : nat -> Outcome AuthResponse.

(** [isTokenExpiringSoon(token)], when the clock reads [now]. *)
Definition isTokenExpiringSoon (m : AuthManager) (token : string) (now : Z)
    : bool :=
  match exp token with
  | Some seconds =>
      if Qeq_bool seconds 0 then false
      else Qle_bool (seconds * (1000 # 1) - inject_Z now)
                    (inject_Z (refreshThreshold m))
  | None => false
  end.

(** [await this.clearTokens()] inside the coordinator. *)
Definition clearTokens_now : PM State unit :=
  fun s => Some (Resolved tt, on_manager clearTokens s).

(** [getAccessToken()], when the clock reads [now] and nothing else runs
    until it returns. *)
Definition getAccessToken (now : Z) : PM State (option string) :=
  fun s =>
    let m := manager s in
    if negb (enabled m) then pret None s
    else
      match stored_accessToken (storage m) with
      | Some token =>
          if negb (truthy_string (Some token)) then pret None s
          else if autoRefresh m && isTokenExpiringSoon m token now then
            ptry_catch
              (newToken <- refreshToken_await endpoint ;; pret (Some newToken))
              (fun _ =>
                 clearTokens_now ;;
                 pthrow (AuthError "Failed to refresh token" TOKEN_EXPIRED None))
              s
          else pret (Some token) s
      | None => pret None s
      end.

(** [login(credentials)]; [answer] is what the login endpoint settles
    to. *)
Definition login (answer : Outcome AuthResponse) (s : State)
    : Outcome AuthResponse * State :=
  if negb (axiosInstance (manager s)) then
    (Rejected (AuthError "Axios instance not configured" CONFIG_ERROR None), s)
  else
    match answer with
    | Resolved authData =>
        (Resolved authData,
         on_manager
           (setTokens
              (mkAuthTokens (ar_accessToken authData) (ar_refreshToken authData)
                 (ar_expiresIn authData))) s)
    | Rejected error =>
        (Rejected
           (AuthError (failure_message "Login failed" error) AUTH_ERROR
              (option_map resp_status (e_response error))), s)
    end.

(** [logout()]; [logoutEndpoint] is the configured path and [answer] what
    the logout endpoint settles to. *)
Definition logout (logoutEndpoint : string) (answer : Outcome unit)
    : M State unit :=
  bind
    (fun s =>
       if axiosInstance (manager s) && negb (String.eqb logoutEndpoint "") then
         try_catch (fun s' => (answer, s')) (fun _ => ret tt) s
       else ret tt s)
    (fun _ => modify (on_manager clearTokens)).

End Manager.

End AuthMore.

(* ===================================================================== *)
(** ** The transport of the client with its interceptors
       (src/client.ts, [createAxiosInstance] and [setupInterceptors];
        src/interceptors/request.ts, response.ts, auth.ts) *)
(* ===================================================================== *)
Module Instance.
Import Errors Effect Http Interceptors.
Local Open Scope partial_scope.

(** [validMethods] of the validation interceptor. *)
Definition validMethods : list string :=
  ["GET"; "POST"; "PUT"; "PATCH"; "DELETE"; "HEAD"; "OPTIONS"].

(** [{ ...target, ...source }] on property lists. *)
Definition spread (target source : list (string * Js.JSON))
    : list (string * Js.JSON) :=
  fold_left (fun acc kv => Cache.map_set acc (fst kv) (snd kv)) source target.

(** [config.metadata = { requestId, startTime }]. *)
Definition with_metadata (config : RequestConfig) (requestId : string)
    : RequestConfig :=
  mkRequestConfig (rq_method config) (rq_url config) (rq_headers config)
    (rq_params config) (rq_data config) (rq_cache config) (rq_skipAuth config)
    (rq_skipCache config) (rq_skipRetry config) (rq_retry config)
    (Some requestId).

(** [config.headers = headers]. *)
Definition with_headers (config : RequestConfig)
    (headers : option (list (string * Js.JSON))) : RequestConfig :=
  mkRequestConfig (rq_method config) (rq_url config) headers
    (rq_params config) (rq_data config) (rq_cache config) (rq_skipAuth config)
    (rq_skipCache config) (rq_skipRetry config) (rq_retry config)
    (rq_requestId config).

(** The response that axios makes of what the network answered to
    [config]. *)
Definition answered (response : Response) (config : RequestConfig) : Response :=
  mkResponse (status response) (statusText response) (headers response)
    (data response) config (fromCache response).

(** [m.then(k, k)]: the next handler runs on what [m] settles to. *)
Definition settle {X Y : Type} (m : PM World X)
    (k : Outcome X -> PM World Y) : PM World Y :=
  fun w =>
    match m w with
    | Some (o, w') => k o w'
    | None => None
    end.

Section Client.

(** *** The environment

    [exp token] is [parseJwtPayload(token).exp], the expiry claim in
    seconds, when the payload can be read and holds a number there.  The
    reading number [k] of the environment gives [clock k] for [Date.now()],
    [generateRequestId k] for [generateRequestId()] and [toISOString k] for
    [new Date().toISOString()].  [network k config] is what the network
    answers to the request number [k] handed to it, which is [config]; it
    rejects with the [AxiosError]s of axios, the only errors that carry the
    [config] of their request.  [authData response] is [response.data] read
    as an [AuthResponse]. *)
Variable exp : string -> option Q.
Variable clock : nat -> Z.
Variable generateRequestId : nat -> string.
Variable toISOString : nat -> string.
Variable network : nat -> RequestConfig -> Outcome Response.
Variable authData : Response -> Auth.AuthResponse.

(** [this.config.headers] and [refreshEndpoint] of the client's
    configuration. *)
Variable defaultHeaders : list (string * string).
Variable refreshEndpoint : string.

(** One reading of the environment. *)
Definition reading {X : Type} (oracle : nat -> X) : PM World X :=
  fun w =>
    Some (Resolved (oracle (w_reads w)),
          mkWorld (w_auth w) (w_refreshPromises w) (w_sent w) (w_log w)
            (S (w_reads w))).

(** *** [AuthManager] inside the client

    [setAxiosInstance(this.axiosInstance)] hands the manager the instance
    that carries the interceptors: [post] below is [this.axiosInstance.post]
    of that instance. *)

(** [{ method: 'post', url: refreshEndpoint, data: { refreshToken } }]. *)
Definition refresh_request (stored : string) : RequestConfig :=
  mkRequestConfig "post" refreshEndpoint None None
    (Some (Js.JObj [("refreshToken", Js.JStr stored)])) None
    false false false false None.

(** The first caller of the promise [p] resumes once it is settled: the
    [finally] of [refreshToken], then the outcome. *)
Definition await_settled (p : nat) : PM World string :=
  fun w =>
    let a := Auth.finally p (w_auth w) in
    match Auth.settled a !! p with
    | Some o => Some (o, with_auth w a)
    | None => None
    end.

(** [await this.authManager.refreshToken()].  One call runs at a time: a
    promise found in flight belongs to a refresh whose request is waiting
    for the present call to return, so that awaiting it never ends unless it
    is settled already. *)
Definition refreshToken (post : RequestConfig -> PM World Response)
    : PM World string :=
  fun w =>
    match Auth.refreshToken (w_auth w) with
    | (Auth.Threw e, a) => Some (Rejected e, with_auth w a)
    | (Auth.Returned p, a) =>
        match Auth.refreshPromise (Auth.manager (w_auth w)) with
        | Some _ =>
            match Auth.settled a !! p with
            | Some o => Some (o, with_auth w a)
            | None => None
            end
        | None =>
            let a1 := Auth.resume p a in
            match Auth.tasks a1 !! p with
            | Some (Auth.Posting stored _) =>
                settle (post (refresh_request stored))
                  (fun answer w2 =>
                     await_settled p
                       (with_auth w2
                          (Auth.respond p
                             (match answer with
                              | Resolved response => Resolved (authData response)
                              | Rejected error => Rejected error
                              end)
                             (w_auth w2))))
                  (with_auth w a1)
            | _ => await_settled p (with_auth w a1)
            end
        end
    end.

(** [await this.isTokenExpiringSoon(token)]. *)
Definition isTokenExpiringSoon (token : string) : PM World bool :=
  now <- reading clock ;;
  fun w =>
    pret (AuthMore.isTokenExpiringSoon exp (Auth.manager (w_auth w)) token now) w.

(** [getAccessToken()]; [refresh] is [this.refreshToken()]. *)
Definition getAccessToken (refresh : PM World string)
    : PM World (option string) :=
  fun w =>
    let m := Auth.manager (w_auth w) in
    if negb (Auth.enabled m) then pret None w
    else
      match Auth.stored_accessToken (Auth.storage m) with
      | Some token =>
          if negb (Auth.truthy_string (Some token)) then pret None w
          else
            (due <- (if Auth.autoRefresh m then isTokenExpiringSoon token
                     else pret false) ;;
             if due : bool then
               ptry_catch
                 (newToken <- refresh ;; pret (Some newToken))
                 (fun _ =>
                    clearTokens ;;
                    pthrow (AuthError "Failed to refresh token" TOKEN_EXPIRED None))
             else pret (Some token)) w
      | None => pret None w
      end.

(** *** Request interceptors (src/interceptors/request.ts)

    The calls on the logger are left out; no request sets [skipLogging],
    and the [timeout] of a request, its own or the client's, is not
    negative. *)

(** [createLoggingInterceptor().onFulfilled]: a new [metadata] with a new
    request identifier replaces the one the request came with. *)
Definition logging_onFulfilled (config : RequestConfig) : PM World RequestConfig :=
  requestId <- reading generateRequestId ;;
  pret (with_metadata config requestId).

(** [createRetryMetadataInterceptor().onFulfilled]: [retryCount] of the new
    [metadata] becomes 0, and no header is added for it. *)
Definition retryMetadata_onFulfilled (config : RequestConfig)
    : PM World RequestConfig :=
  pret config.

(** [createAuthInterceptor().onFulfilled]. *)
Definition auth_onFulfilled (refresh : PM World string) (config : RequestConfig)
    : PM World RequestConfig :=
  fun w =>
    if negb (Auth.enabled (Auth.manager (w_auth w))) then pret config w
    else if rq_skipAuth config then pret config w
    else
      ptry_catch
        (token <- getAccessToken refresh ;;
         if Auth.truthy_string token then
           fun w' =>
             let m := Auth.manager (w_auth w') in
             pret
               (with_headers config
                  (set_header (rq_headers config) (Auth.tokenHeader m)
                     (Auth.bearerPrefix m +:+ " " +:+ default "" token)))
               w'
         else pret config)
        (fun _ => pret config) w.

(** [createHeadersInterceptor(this.config.headers).onFulfilled]. *)
Definition headers_onFulfilled (config : RequestConfig) : PM World RequestConfig :=
  let merged :=
    spread
      (spread
         [("Content-Type", Js.JStr "application/json");
          ("Accept", Js.JStr "application/json")]
         (map (fun kv => (fst kv, Js.JStr (snd kv))) defaultHeaders))
      (default [] (rq_headers config)) in
  identified <-
    (if Js.truthy_opt (Js.prop merged "X-Request-ID") then pret merged
     else
       requestId <- reading generateRequestId ;;
       pret (Cache.map_set merged "X-Request-ID" (Js.JStr requestId))) ;;
  timestamp <- reading toISOString ;;
  pret (with_headers config
          (Some (Cache.map_set identified "X-Request-Timestamp"
                   (Js.JStr timestamp)))).

(** [createValidationInterceptor().onFulfilled]. *)
Definition validation_onFulfilled (config : RequestConfig)
    : PM World RequestConfig :=
  if String.eqb (rq_url config) "" then
    pthrow (PlainError "Request URL is required")
  else
    let method := Js.toUpperCase (rq_method config) in
    if negb (String.eqb method "") && negb (Retry.includesS validMethods method)
    then pthrow (PlainError ("Invalid HTTP method: " +:+ method))
    else pret config.

(** The request interceptors in the order axios runs them, the last
    registered first: logging, retry metadata, auth, headers, validation.
    Their [onRejected] hand the error on. *)
Definition request_interceptors (refresh : PM World string)
    (config : RequestConfig) : PM World RequestConfig :=
  config <- logging_onFulfilled config ;;
  config <- retryMetadata_onFulfilled config ;;
  config <- auth_onFulfilled refresh config ;;
  config <- headers_onFulfilled config ;;
  validation_onFulfilled config.

(** The request goes to the network. *)
Definition dispatch (config : RequestConfig) : PM World Response :=
  fun w =>
    Some (match network (length (w_sent w)) config with
          | Resolved response => Resolved (answered response config)
          | Rejected error => Rejected error
          end,
          mkWorld (w_auth w) (w_refreshPromises w) (w_sent w ++ [config])
            (w_log w) (w_reads w)).

(** *** Response interceptors (src/interceptors/response.ts, auth.ts) *)

(** The retry metadata, rate limit and logging interceptors, and
    [onRejected] of the cache interceptor: what they are given is what they
    hand on.  So does [onFulfilled] of the cache interceptor
    ([Interceptors.cache_onFulfilled]), whose cache is not part of this
    world. *)
Definition handed_on (o : Outcome Response) : PM World Response :=
  fun w => Some (o, w).

(** The interceptor of [createAuthResponseInterceptor]; [sent] is
    [error.config].  The promises of [refreshPromises] are those of calls
    waiting for the present one, and none of them settles meanwhile. *)
Definition authResponse (refresh : PM World string)
    (replay : RequestConfig -> PM World Response) (sent : RequestConfig)
    (o : Outcome Response) : PM World Response :=
  match o with
  | Resolved response => onFulfilled response
  | Rejected error => onRejected refresh (fun _ => None) replay error sent
  end.

(** [error.config?.metadata?.requestId]. *)
Definition config_requestId (error : JsError) (sent : RequestConfig)
    : option string :=
  if instanceof error CAxiosError then rq_requestId sent else None.

(** The interceptor of [createErrorTransformInterceptor]. *)
Definition errorTransform (sent : RequestConfig) (o : Outcome Response)
    : PM World Response :=
  match o with
  | Resolved response => pret response
  | Rejected error =>
      pthrow (ApiErrors.fromAxiosError error (config_requestId error sent))
  end.

(** The response interceptors in the order of their registration:
    retry metadata, rate limit, cache, auth, logging, error transform. *)
Definition response_interceptors (refresh : PM World string)
    (replay : RequestConfig -> PM World Response) (sent : RequestConfig)
    (o : Outcome Response) : PM World Response :=
  settle
    (settle
       (settle
          (settle (settle (handed_on o) handed_on) handed_on)
          (authResponse refresh replay sent))
       handed_on)
    (errorTransform sent).

(** [this.axiosInstance(request)]: the request interceptors, the network
    unless one of them threw, and the response interceptors.  The manager
    and the auth interceptor call this same instance, for the refresh and
    for the replay; [fuel] bounds the depth of these calls, and the result is
    [None] when it does not suffice or when the call never settles. *)
Fixpoint axiosInstance (fuel : nat) (request : RequestConfig)
    : PM World Response :=
  match fuel with
  | O => never
  | S fuel' =>
      let refresh := refreshToken (axiosInstance fuel') in
      settle (request_interceptors refresh request)
        (fun prepared =>
           match prepared with
           | Resolved config =>
               settle (dispatch config)
                 (response_interceptors refresh (axiosInstance fuel') config)
           | Rejected error =>
               response_interceptors refresh (axiosInstance fuel') request
                 (Rejected error)
           end)
  end.

End Client.

End Instance.

(* ===================================================================== *)
(** ** Properties of the JavaScript fragment *)
(* ===================================================================== *)
Module JsFacts.
Import Js.

(** *** The order of [sort] on strings *)

Lemma compare_not_Gt_trans (a : string) :
  forall b c,
    String.compare a b <> Gt -> String.compare b c <> Gt ->
    String.compare a c <> Gt.
Proof.
  induction a as [|x a IH]; intros [|y b] [|z c]; simpl; try congruence.
  unfold Ascii.compare.
  destruct (N.compare_spec (N_of_ascii x) (N_of_ascii y)) as [Hxy|Hxy|Hxy];
    destruct (N.compare_spec (N_of_ascii y) (N_of_ascii z)) as [Hyz|Hyz|Hyz];
    destruct (N.compare_spec (N_of_ascii x) (N_of_ascii z)) as [Hxz|Hxz|Hxz];
    try congruence; try lia.
  apply IH.
Qed.

Lemma leb_trans (a b c : string) :
  String.leb a b = true -> String.leb b c = true -> String.leb a c = true.
Proof.
  unfold String.leb. intros Hab Hbc.
  pose proof (compare_not_Gt_trans a b c) as H.
  destruct (String.compare a b), (String.compare b c), (String.compare a c);
    try discriminate; try reflexivity; exfalso; apply H; congruence.
Qed.

Lemma leb_refl (a : string) : String.leb a a = true.
Proof. destruct (String.leb_total a a); assumption. Qed.

Definition le (a b : string) : Prop := String.leb a b = true.

Lemma insert_sorted_perm k ks : Permutation (insert_sorted k ks) (k :: ks).
Proof.
  induction ks as [|k' rest IH]; simpl; [reflexivity|].
  destruct (String.leb k k'); [reflexivity|].
  rewrite IH. apply perm_swap.
Qed.

Lemma sort_perm ks : Permutation (sort ks) ks.
Proof.
  induction ks as [|k rest IH]; simpl; [reflexivity|].
  rewrite insert_sorted_perm. now apply perm_skip.
Qed.

Lemma insert_sorted_sorted k ks :
  StronglySorted le ks -> StronglySorted le (insert_sorted k ks).
Proof.
  induction 1 as [|k' rest Hs IH Hall]; simpl.
  - repeat constructor.
  - destruct (String.leb k k') eqn:Hk.
    + constructor; [now constructor|].
      constructor; [exact Hk|].
      eapply List.Forall_impl; [|exact Hall].
      intros c Hc. now apply (leb_trans k k' c).
    + constructor; [exact IH|].
      assert (le k' k) as Hk'.
      { destruct (String.leb_total k k') as [H|H]; [congruence | exact H]. }
      rewrite List.Forall_forall in Hall |- *.
      intros c Hc.
      apply (Permutation_in _ (insert_sorted_perm k rest)) in Hc.
      destruct Hc as [<-|Hc]; [exact Hk' | now apply Hall].
Qed.

Lemma sort_sorted ks : StronglySorted le (sort ks).
Proof.
  induction ks as [|k rest IH]; simpl; [constructor|].
  now apply insert_sorted_sorted.
Qed.

(** Two sorted lists with the same elements are the same list. *)
Lemma sorted_perm_eq (l1 : list string) :
  forall l2,
    StronglySorted le l1 -> StronglySorted le l2 -> Permutation l1 l2 ->
    l1 = l2.
Proof.
  induction l1 as [|x l1 IH]; intros l2 H1 H2 Hp.
  - apply Permutation_nil in Hp. now subst.
  - destruct l2 as [|y l2]; [symmetry in Hp; now apply Permutation_nil in Hp|].
    inversion H1 as [|? ? Hs1 Hall1]; subst.
    inversion H2 as [|? ? Hs2 Hall2]; subst.
    assert (x = y) as ->.
    { assert (In x (y :: l2)) as Hx
        by (eapply Permutation_in; [exact Hp | now left]).
      assert (In y (x :: l1)) as Hy
        by (eapply Permutation_in; [symmetry; exact Hp | now left]).
      destruct Hx as [Hx|Hx]; [now subst|].
      destruct Hy as [Hy|Hy]; [now subst|].
      rewrite List.Forall_forall in Hall1, Hall2.
      apply String.leb_antisym; [apply Hall1, Hy | apply Hall2, Hx]. }
    f_equal. apply IH; try assumption.
    eapply Permutation_cons_inv. exact Hp.
Qed.

(** [sort] does not depend on the order of the keys it is given. *)
Lemma sort_permutation l1 l2 : Permutation l1 l2 -> sort l1 = sort l2.
Proof.
  intros Hp. apply sorted_perm_eq; try apply sort_sorted.
  rewrite !sort_perm. exact Hp.
Qed.

(** *** Property lookup *)

Lemma prop_In props key v :
  List.NoDup (map fst props) -> In (key, v) props -> prop props key = Some v.
Proof.
  induction props as [|[k w] rest IH]; simpl; intros Hnd Hin; [contradiction|].
  inversion Hnd as [|? ? Hnot Hnd']; subst.
  destruct Hin as [Heq|Hin].
  - inversion Heq; subst. now rewrite String.eqb_refl.
  - destruct (String.eqb k key) eqn:Hk.
    + apply String.eqb_eq in Hk. subst k. exfalso. apply Hnot.
      apply in_map_iff. exists (key, v). now split.
    + now apply IH.
Qed.

Lemma prop_None props key :
  ~ In key (map fst props) -> prop props key = None.
Proof.
  induction props as [|[k w] rest IH]; simpl; intros Hnot; [reflexivity|].
  destruct (String.eqb k key) eqn:Hk.
  - apply String.eqb_eq in Hk. subst k. exfalso. apply Hnot. now left.
  - apply IH. intros Hin. apply Hnot. now right.
Qed.

(** The value of a property does not depend on the order of the
    properties. *)
Lemma prop_permutation props1 props2 key :
  List.NoDup (map fst props1) -> Permutation props1 props2 ->
  prop props1 key = prop props2 key.
Proof.
  intros Hnd Hp.
  assert (List.NoDup (map fst props2)) as Hnd2.
  { eapply Permutation_NoDup; [|exact Hnd]. now apply Permutation_map. }
  destruct (prop props1 key) as [v|] eqn:H1.
  - symmetry. apply prop_In; [exact Hnd2|].
    eapply Permutation_in; [exact Hp|].
    clear -H1. induction props1 as [|[k w] rest IH]; simpl in *; [discriminate|].
    destruct (String.eqb k key) eqn:Hk.
    + apply String.eqb_eq in Hk. inversion H1; subst. now left.
    + right. now apply IH.
  - symmetry. apply prop_None. intros Hin.
    assert (In key (map fst props1)) as Hin1.
    { eapply Permutation_in; [|exact Hin]. symmetry. now apply Permutation_map. }
    clear -H1 Hin1. induction props1 as [|[k w] rest IH]; simpl in *; [contradiction|].
    destruct (String.eqb k key) eqn:Hk; [discriminate|].
    destruct Hin1 as [Heq|Hin1]; [subst; now rewrite String.eqb_refl in Hk|].
    now apply IH.
Qed.

End JsFacts.

(* ===================================================================== *)
(** ** Properties of the retry engine *)
(* ===================================================================== *)
Module RetryFacts.
Import Errors Retry.

Section Loop.

Context {T : Type}.
Variable operation : nat -> Outcome T.
Variable random : nat -> Q.
Variables (rm : RetryManager) (options : RetryOptions).
Variable requestId : option string.
Variable maxAttempts' : Z.
Variable retryCondition' : JsError -> bool.

Let loop := attempts operation random rm options requestId maxAttempts'
                     retryCondition'.

Lemma before_call_calls attempt s :
  ls_calls (before_call random rm options attempt s) = ls_calls s.
Proof. unfold before_call. destruct (Z.ltb 1 attempt); reflexivity. Qed.

(** One iteration that fails and is followed by another one. *)
Lemma attempts_continue remaining attempt s e :
  operation (ls_calls s) = Rejected e ->
  Z.eqb attempt maxAttempts' = false ->
  retryCondition' e = true ->
  loop (S remaining) attempt s
  = loop remaining (attempt + 1)
      (mkLoopState (Some e) (S (ls_calls s))
         (ls_delays (before_call random rm options attempt s))
         (ls_onRetry (before_call random rm options attempt s))
         (ls_stats (before_call random rm options attempt s))).
Proof.
  intros Hop Hne Hc. unfold loop. cbn [attempts].
  rewrite before_call_calls, Hop, Hne, Hc. reflexivity.
Qed.

(** An iteration whose attempt fails with an error the predicate refuses
    leaves the loop at once. *)
Lemma attempts_refused remaining attempt s e :
  operation (ls_calls s) = Rejected e ->
  retryCondition' e = false ->
  run_calls (loop (S remaining) attempt s) = S (ls_calls s) /\
  run_outcome (loop (S remaining) attempt s)
  = Rejected (RetryExhaustedError attempt e requestId).
Proof.
  intros Hop Hcond. unfold loop. cbn [attempts].
  rewrite before_call_calls, Hop, Hcond, orb_true_r. simpl. auto.
Qed.

(** When every attempt fails with an error the predicate accepts, the loop
    runs until the attempt number reaches [maxAttempts']. *)
Lemma attempts_all_retryable remaining :
  forall attempt s,
    (attempt + Z.of_nat remaining = maxAttempts')%Z ->
    (forall k, (ls_calls s <= k < ls_calls s + S remaining)%nat ->
               exists e, operation k = Rejected e /\ retryCondition' e = true) ->
    run_calls (loop (S remaining) attempt s) = (ls_calls s + S remaining)%nat /\
    exists e, operation (ls_calls s + remaining)%nat = Rejected e /\
              run_outcome (loop (S remaining) attempt s)
              = Rejected (RetryExhaustedError maxAttempts' e requestId).
Proof.
  unfold loop.
  induction remaining as [|r IH]; intros attempt s Hlast Hall.
  - assert (attempt = maxAttempts') as -> by lia.
    destruct (Hall (ls_calls s)) as [e [Hop Hc]]; [lia|].
    cbn [attempts].
    replace (ls_calls s + 0)%nat with (ls_calls s) by lia.
    rewrite before_call_calls, Hop, Z.eqb_refl. simpl.
    split; [lia | exists e; auto].
  - destruct (Hall (ls_calls s)) as [e [Hop Hc]]; [lia|].
    assert (Z.eqb attempt maxAttempts' = false) as Hne by (apply Z.eqb_neq; lia).
    pose proof (attempts_continue (S r) attempt s e Hop Hne Hc) as Hstep.
    unfold loop in Hstep. rewrite Hstep. clear Hstep.
    set (s2 := mkLoopState _ _ _ _ _).
    destruct (IH (attempt + 1)%Z s2) as [Hcalls [e' [Hop' Hout]]].
    + lia.
    + intros k Hk. apply Hall. subst s2; simpl in *; lia.
    + split.
      * rewrite Hcalls. subst s2; simpl. lia.
      * exists e'. split; [|exact Hout].
        rewrite <- Hop'. f_equal. subst s2; simpl. lia.
Qed.

(** The delay slept before the attempt number [k + 2]: the value of
    [calculateDelay(k + 1, options)]. *)
Definition nth_delay (k : nat) : Q :=
  calculateDelay rm (random k) (Z.of_nat k + 1) options.

Lemma before_call_delays attempt s :
  (1 <= attempt)%Z ->
  ls_delays s = map nth_delay (seq 0 (Z.to_nat (attempt - 2))) ->
  ls_delays (before_call random rm options attempt s)
  = map nth_delay (seq 0 (Z.to_nat (attempt - 1))).
Proof.
  intros Ha Hd. unfold before_call.
  destruct (Z.ltb 1 attempt) eqn:Hlt; simpl.
  - apply Z.ltb_lt in Hlt. rewrite Hd.
    rewrite length_map, length_seq.
    replace (Z.to_nat (attempt - 1)) with (S (Z.to_nat (attempt - 2))) by lia.
    rewrite seq_S, map_app. simpl. unfold nth_delay at 3.
    do 3 f_equal. lia.
  - apply Z.ltb_ge in Hlt. rewrite Hd.
    replace (Z.to_nat (attempt - 2)) with 0%nat by lia.
    replace (Z.to_nat (attempt - 1)) with 0%nat by lia. reflexivity.
Qed.

(** When every attempt fails with an error the predicate accepts, the delays
    slept are those computed by [calculateDelay] at 1, 2, ...,
    [maxAttempts' - 1]. *)
Lemma attempts_delays remaining :
  forall attempt s,
    (1 <= attempt)%Z ->
    (attempt + Z.of_nat remaining = maxAttempts')%Z ->
    ls_delays s = map nth_delay (seq 0 (Z.to_nat (attempt - 2))) ->
    (forall k, (ls_calls s <= k < ls_calls s + S remaining)%nat ->
               exists e, operation k = Rejected e /\ retryCondition' e = true) ->
    run_delays (loop (S remaining) attempt s)
    = map nth_delay (seq 0 (Z.to_nat (maxAttempts' - 1))).
Proof.
  unfold loop.
  induction remaining as [|r IH]; intros attempt s Ha Hlast Hd Hall.
  - assert (attempt = maxAttempts') as -> by lia.
    destruct (Hall (ls_calls s)) as [e [Hop Hc]]; [lia|].
    cbn [attempts]. rewrite before_call_calls, Hop, Z.eqb_refl. simpl.
    now apply before_call_delays.
  - destruct (Hall (ls_calls s)) as [e [Hop Hc]]; [lia|].
    assert (Z.eqb attempt maxAttempts' = false) as Hne by (apply Z.eqb_neq; lia).
    pose proof (attempts_continue (S r) attempt s e Hop Hne Hc) as Hstep.
    unfold loop in Hstep. rewrite Hstep. clear Hstep.
    apply IH.
    + lia.
    + lia.
    + simpl. replace (attempt + 1 - 2)%Z with (attempt - 1)%Z by lia.
      now apply before_call_delays.
    + intros k Hk. apply Hall. simpl in *; lia.
Qed.

End Loop.

(** The error raised after the loop carries the attempt count and the last
    underlying error itself, hence its status and data. *)
Lemma RetryExhaustedError_carries attempts lastError requestId :
  let x := RetryExhaustedError attempts lastError requestId in
  e_class x = CRetryExhaustedError /\
  e_attempts x = Some attempts /\
  e_lastError x = Some lastError /\
  option_map e_status (e_lastError x) = Some (e_status lastError) /\
  option_map e_data (e_lastError x) = Some (e_data lastError) /\
  option_map e_response (e_lastError x) = Some (e_response lastError).
Proof. simpl. repeat split. Qed.

(** With retries switched off the operation is called once and its own
    error is what the caller sees. *)
Lemma executeWithRetry_bypassed {T} (operation : nat -> Outcome T) random
    rm options requestId :
  bypassed rm options = true ->
  executeWithRetry operation random rm options requestId
  = mkRun (operation 0%nat) 1%nat [] [] rm.
Proof. intros H. unfold executeWithRetry. rewrite H. reflexivity. Qed.

(** C4. Attempt counts and terminal condition of [executeWithRetry], for a
    manager on which retries are active and a policy of at least one attempt:
    when the first error is refused by the retry predicate the operation is
    invoked exactly once; when every attempt fails with an error the
    predicate accepts it is invoked exactly [maxAttempts] times; in both
    cases the call is rejected with a [RetryExhaustedError] that carries the
    attempt count (1 in the first case, also when [maxAttempts] is 1 in the
    second) and the last underlying error with its status and data. *)
Theorem C4_retry_attempt_counts {T} (operation : nat -> Outcome T)
    (random : nat -> Q) (rm : RetryManager) (options : RetryOptions)
    (requestId : option string) :
  bypassed rm options = false ->
  (1 <= effectiveMaxAttempts rm options)%Z ->
  let run := executeWithRetry operation random rm options requestId in
  let n := effectiveMaxAttempts rm options in
  (forall e,
      operation 0%nat = Rejected e ->
      effectiveRetryCondition rm options e = false ->
      run_calls run = 1%nat /\
      run_outcome run = Rejected (RetryExhaustedError 1 e requestId) /\
      e_attempts (RetryExhaustedError 1 e requestId) = Some 1%Z /\
      e_lastError (RetryExhaustedError 1 e requestId) = Some e) /\
  ((forall k, (k < Z.to_nat n)%nat ->
              exists e, operation k = Rejected e /\
                        effectiveRetryCondition rm options e = true) ->
   run_calls run = Z.to_nat n /\
   exists e, operation (Z.to_nat n - 1)%nat = Rejected e /\
             run_outcome run = Rejected (RetryExhaustedError n e requestId) /\
             e_attempts (RetryExhaustedError n e requestId) = Some n /\
             e_lastError (RetryExhaustedError n e requestId) = Some e /\
             option_map e_status (e_lastError (RetryExhaustedError n e requestId))
             = Some (e_status e) /\
             option_map e_data (e_lastError (RetryExhaustedError n e requestId))
             = Some (e_data e)).
Proof.
  intros Hon Hmax run n. subst run. unfold executeWithRetry. rewrite Hon.
  fold n. destruct (Z.to_nat n) as [|r] eqn:Hn; [lia|].
  split.
  - intros e Hop Hcond.
    destruct (attempts_refused operation random rm options requestId n
                (effectiveRetryCondition rm options) r 1
                (mkLoopState None 0%nat [] [] (stats rm)) e Hop Hcond) as [Hc Ho].
    repeat split; assumption.
  - intros Hall.
    destruct (attempts_all_retryable operation random rm options requestId n
                (effectiveRetryCondition rm options) r 1
                (mkLoopState None 0%nat [] [] (stats rm))) as [Hc [e [Hop Ho]]].
    + lia.
    + intros k Hk. apply Hall. simpl in Hk. lia.
    + split; [exact Hc|]. exists e. simpl in Hop.
      replace (S r - 1)%nat with r by lia.
      repeat split; assumption.
Qed.

(** C4 at the policy of the specification: three attempts, one refused error
    or three accepted ones. *)
Lemma C4_retry_attempt_counts_witness :
  let op : nat -> Outcome nat :=
    fun _ => Rejected (mkJsError CAxiosError "unavailable" None (Some 503%Z)
                         None None None None false None None None) in
  let run := executeWithRetry op (fun _ => (1 # 2)%Q) (new emptyConfig)
               noOptions None in
  run_calls run = 3%nat /\
  exists e, run_outcome run = Rejected (RetryExhaustedError 3 e None).
Proof.
  intros op run.
  destruct (C4_retry_attempt_counts op (fun _ => (1 # 2)%Q) (new emptyConfig)
              noOptions None) as [_ H].
  - reflexivity.
  - vm_compute. discriminate.
  - destruct H as [Hc [e [_ [Ho _]]]].
    + intros k Hk. eexists. split; reflexivity.
    + split; [exact Hc | exists e; exact Ho].
Defined.

(** *** The retry predicate *)

(** An error that carries nothing but an HTTP status. *)
Definition status_error (status : Z) : JsError :=
  mkJsError CAxiosError "Request failed" None None None
            (Some (mkErrResponse status None)) None None false None None None.

Lemma includesZ_In xs x : includesZ xs x = true <-> In x xs.
Proof.
  unfold includesZ. rewrite existsb_exists. split.
  - intros [y [Hy Heq]]. apply Z.eqb_eq in Heq. now subst.
  - intros H. exists x. split; [exact H | apply Z.eqb_refl].
Qed.

(** The predicate on an error with a truthy status and none of the four
    connection-level codes: membership of the status in the configured list. *)
Lemma defaultRetryCondition_status rm e s :
  networkCode e = false -> statusCode e = Some s -> s <> 0%Z ->
  defaultRetryCondition rm e = includesZ (retryStatusCodes rm) s.
Proof.
  intros Hn Hs Hz. unfold defaultRetryCondition. rewrite Hn, Hs.
  apply Z.eqb_neq in Hz. now rewrite Hz.
Qed.

(** C5, as stated, fails on the code: with the default configuration an error
    whose response status is 501 (a 5xx status) is not retried. *)
Lemma C5_counterexample :
  ~ (forall e s,
        statusCode e = Some s -> s <> 0%Z ->
        (defaultRetryCondition (new emptyConfig) e = true <->
         s = 408 \/ s = 429 \/ 500 <= s <= 599)%Z).
Proof.
  intros H.
  destruct (H (status_error 501) 501%Z) as [_ Hback].
  - reflexivity.
  - discriminate.
  - assert (defaultRetryCondition (new emptyConfig) (status_error 501) = true)
      as Habs by (apply Hback; right; right; lia).
    vm_compute in Habs. discriminate.
Qed.

(** The predicate of any manager, whatever its list of status codes. *)
Lemma defaultRetryCondition_configured rm e s :
  networkCode e = false -> statusCode e = Some s -> s <> 0%Z ->
  (defaultRetryCondition rm e = true <-> In s (retryStatusCodes rm)).
Proof.
  intros Hn Hs Hz. rewrite (defaultRetryCondition_status rm e s Hn Hs Hz).
  apply includesZ_In.
Qed.

(** The predicate on an error without a truthy status and without a
    connection-level code: the test of the four error codes of the
    library. *)
Lemma defaultRetryCondition_no_status rm e :
  networkCode e = false ->
  statusCode e = None \/ statusCode e = Some 0%Z ->
  (defaultRetryCondition rm e = true <->
   e_code e = Some "NETWORK_ERROR" \/ e_code e = Some "TIMEOUT_ERROR" \/
   e_code e = Some "SERVICE_UNAVAILABLE" \/ e_code e = Some "SERVER_ERROR").
Proof.
  intros Hn Hs. unfold defaultRetryCondition. rewrite Hn.
  assert (customCodeCondition e = true <->
          e_code e = Some "NETWORK_ERROR" \/ e_code e = Some "TIMEOUT_ERROR" \/
          e_code e = Some "SERVICE_UNAVAILABLE" \/ e_code e = Some "SERVER_ERROR")
    as Hcustom.
  { unfold customCodeCondition, includesS.
    destruct (e_code e) as [c|]; [|split; [discriminate | intuition discriminate]].
    destruct (String.eqb_spec c "") as [->|Hc]; simpl.
    - split; [discriminate | intuition discriminate].
    - rewrite !orb_false_r, !orb_true_iff, !String.eqb_eq.
      split; intros H; intuition congruence. }
  destruct Hs as [-> | ->]; simpl; exact Hcustom.
Qed.

(** C5 (amended). The default retry condition of any manager returns true
    for the connection-level codes ENOTFOUND, ECONNRESET, ECONNREFUSED and
    ETIMEDOUT, whatever the status.  For any other error carrying a status
    that is not 0 ([error.response.status], else [error.status]) it returns
    true if and only if the status is one of the configured
    [retryStatusCodes]; with the default list, which is 408, 429, 500, 502,
    503 and 504, it therefore returns false for every other 4xx status and
    also for the 5xx statuses that are not in the list.  For any other error
    without a status (or with the status 0) it returns true if and only if
    the code of the error is NETWORK_ERROR, TIMEOUT_ERROR,
    SERVICE_UNAVAILABLE or SERVER_ERROR. *)
Theorem C5_default_retry_predicate (rm : RetryManager) (e : JsError) :
  retryStatusCodes (new emptyConfig) = [408; 429; 500; 502; 503; 504]%Z /\
  (networkCode e = true -> defaultRetryCondition rm e = true) /\
  (networkCode e = false ->
   (forall s, statusCode e = Some s -> s <> 0%Z ->
      (defaultRetryCondition rm e = true <-> In s (retryStatusCodes rm)) /\
      (retryStatusCodes rm = [408; 429; 500; 502; 503; 504]%Z ->
       (defaultRetryCondition rm e = true <->
        s = 408 \/ s = 429 \/ s = 500 \/ s = 502 \/ s = 503 \/ s = 504)%Z /\
       ((400 <= s <= 499)%Z -> s <> 408%Z -> s <> 429%Z ->
        defaultRetryCondition rm e = false) /\
       ((500 <= s <= 599)%Z -> s <> 500%Z -> s <> 502%Z -> s <> 503%Z ->
        s <> 504%Z -> defaultRetryCondition rm e = false))) /\
   (statusCode e = None \/ statusCode e = Some 0%Z ->
    (defaultRetryCondition rm e = true <->
     e_code e = Some "NETWORK_ERROR" \/ e_code e = Some "TIMEOUT_ERROR" \/
     e_code e = Some "SERVICE_UNAVAILABLE" \/ e_code e = Some "SERVER_ERROR"))).
Proof.
  split; [reflexivity|]. split.
  - intros Hn. unfold defaultRetryCondition. now rewrite Hn.
  - intros Hn. split.
    + intros s Hs Hz.
      pose proof (defaultRetryCondition_configured rm e s Hn Hs Hz) as Hconf.
      split; [exact Hconf|]. intros Hlist.
      assert (defaultRetryCondition rm e = true <->
              s = 408 \/ s = 429 \/ s = 500 \/ s = 502 \/ s = 503 \/ s = 504)%Z
        as Hiff.
      { rewrite Hconf, Hlist. simpl. intuition lia. }
      split; [exact Hiff|]. split.
      * intros Hr H1 H2. apply not_true_is_false. rewrite Hiff. lia.
      * intros Hr H1 H2 H3 H4. apply not_true_is_false. rewrite Hiff. lia.
    + intros Hs. now apply defaultRetryCondition_no_status.
Qed.

(** *** The backoff delay *)

Local Open Scope Q_scope.

Lemma Qmin_comm_eq (a b : Q) : Qmin a b == Qmin b a.
Proof.
  destruct (Q.min_spec a b) as [[H1 ->]|[H1 ->]];
    destruct (Q.min_spec b a) as [[H2 ->]|[H2 ->]]; lra.
Qed.

(** Without jitter and without a fixed delay, [calculateDelay] is the capped
    exponential. *)
Lemma calculateDelay_plain rm random attempt options :
  jitter rm = false -> retryDelay_set options = None ->
  calculateDelay rm random attempt options
  == Qmin (maxDelay rm) (baseDelay rm * backoffFactor rm ^ (attempt - 1)).
Proof.
  intros Hj Hd. unfold calculateDelay. rewrite Hd, Hj. apply Qmin_comm_eq.
Qed.

(** The jittered delay stays within ten per cent of the delay it perturbs. *)
Lemma addJitter_bounds random delay :
  0 <= random -> random < 1 -> 0 <= delay ->
  (9 # 10) * delay <= addJitter random delay /\
  addJitter random delay <= (11 # 10) * delay.
Proof.
  intros Hr0 Hr1 Hd. unfold addJitter.
  assert (0 <= random * delay) as Ht0 by (apply Qmult_le_0_compat; assumption).
  assert (random * delay <= delay) as Ht1.
  { apply Qle_trans with (1 * delay); [|lra].
    apply Qmult_le_compat_r; [apply Qlt_le_weak; assumption | assumption]. }
  assert (delay + (random - (1 # 2)) * (2 # 1) * (delay * (1 # 10))
          == (9 # 10) * delay + (2 # 10) * (random * delay)) as Heq by ring.
  destruct (Q.max_spec 0 (delay + (random - (1 # 2)) * (2 # 1) * (delay * (1 # 10))))
    as [[Hlt ->]|[Hle ->]]; lra.
Qed.

(** With jitter and without a fixed delay, [calculateDelay] stays within ten
    per cent of the capped exponential and under the cap. *)
Lemma calculateDelay_jitter rm random attempt options :
  jitter rm = true -> retryDelay_set options = None ->
  0 <= baseDelay rm -> 0 <= backoffFactor rm ->
  0 <= random -> random < 1 ->
  let capped := Qmin (maxDelay rm) (baseDelay rm * backoffFactor rm ^ (attempt - 1)) in
  Qabs (calculateDelay rm random attempt options - capped) <= (1 # 10) * Qabs capped /\
  calculateDelay rm random attempt options <= maxDelay rm.
Proof.
  intros Hj Hd Hb Hf Hr0 Hr1 capped. subst capped.
  unfold calculateDelay. rewrite Hd, Hj.
  set (E := baseDelay rm * backoffFactor rm ^ (attempt - 1)).
  assert (0 <= E) as HE
    by (apply Qmult_le_0_compat; [assumption | apply Qpower_0_le; assumption]).
  destruct (addJitter_bounds random E Hr0 Hr1 HE) as [Hlo Hhi].
  set (J := addJitter random E) in *.
  split.
  - destruct (Q.min_spec J (maxDelay rm)) as [[H1 ->]|[H1 ->]];
      destruct (Q.min_spec (maxDelay rm) E) as [[H2 ->]|[H2 ->]];
      apply Qabs_case; intros; apply Qabs_case; intros; lra.
  - destruct (Q.min_spec J (maxDelay rm)) as [[H1 ->]|[H1 ->]]; lra.
Qed.

Close Scope Q_scope.

(** The delays of a run in which every attempt fails with a retryable
    error. *)
Lemma executeWithRetry_delays {T} (operation : nat -> Outcome T) random rm
    options requestId :
  bypassed rm options = false ->
  (1 <= effectiveMaxAttempts rm options)%Z ->
  (forall k, (k < Z.to_nat (effectiveMaxAttempts rm options))%nat ->
             exists e, operation k = Rejected e /\
                       effectiveRetryCondition rm options e = true) ->
  run_delays (executeWithRetry operation random rm options requestId)
  = map (nth_delay random rm options)
        (seq 0 (Z.to_nat (effectiveMaxAttempts rm options - 1))).
Proof.
  intros Hon Hmax Hall. unfold executeWithRetry. rewrite Hon.
  destruct (Z.to_nat (effectiveMaxAttempts rm options)) as [|r] eqn:Hn; [lia|].
  apply attempts_delays.
  - lia.
  - lia.
  - reflexivity.
  - intros k Hk. apply Hall. simpl in Hk. lia.
Qed.

(** C6. Backoff delay formula.  For a policy without a fixed per-call
    [retryDelay], the delay computed after the failed attempt number [n]
    ([n >= 1], before attempt [n + 1]) is [calculateDelay(n, options)]; with
    jitter disabled it equals [min(maxDelay, baseDelay * backoffFactor^(n-1))];
    with jitter enabled (and a non-negative base delay and factor, as the
    configuration validator requires) it lies within ten per cent of that
    capped exponential and never exceeds [maxDelay].  Delays are exact
    rationals; [random] is the value drawn from [Math.random()]. *)
Theorem C6_backoff_delay (rm : RetryManager) (options : RetryOptions)
    (n : Z) (random : nat -> Q) :
  (1 <= n)%Z ->
  retryDelay_set options = None ->
  let capped :=
    Qmin (maxDelay rm) (baseDelay rm * backoffFactor rm ^ (n - 1))%Q in
  let delay := nth_delay random rm options (Z.to_nat (n - 1)) in
  delay = calculateDelay rm (random (Z.to_nat (n - 1))) n options /\
  (forall T (operation : nat -> Outcome T) requestId,
      bypassed rm options = false ->
      (n < effectiveMaxAttempts rm options)%Z ->
      (forall k, (k < Z.to_nat (effectiveMaxAttempts rm options))%nat ->
                 exists e, operation k = Rejected e /\
                           effectiveRetryCondition rm options e = true) ->
      nth_error (run_delays (executeWithRetry operation random rm options requestId))
                (Z.to_nat (n - 1)) = Some delay) /\
  (jitter rm = false -> (delay == capped)%Q) /\
  (jitter rm = true ->
   (0 <= baseDelay rm)%Q -> (0 <= backoffFactor rm)%Q ->
   (0 <= random (Z.to_nat (n - 1)))%Q -> (random (Z.to_nat (n - 1)) < 1)%Q ->
   (Qabs (delay - capped) <= (1 # 10) * Qabs capped)%Q /\
   (delay <= maxDelay rm)%Q).
Proof.
  intros Hn Hd capped delay.
  assert (delay = calculateDelay rm (random (Z.to_nat (n - 1))) n options) as Hdelay.
  { subst delay. unfold nth_delay. f_equal. lia. }
  split; [exact Hdelay|]. split; [|split].
  - intros T operation requestId Hon Hlt Hall.
    rewrite (executeWithRetry_delays operation random rm options requestId Hon);
      [|lia|exact Hall].
    rewrite nth_error_map.
    rewrite nth_error_seq.
    destruct (Nat.ltb_spec (Z.to_nat (n - 1))
                (Z.to_nat (effectiveMaxAttempts rm options - 1))) as [_|Hge];
      [reflexivity | lia].
  - intros Hj. rewrite Hdelay. now apply calculateDelay_plain.
  - intros Hj Hb Hf Hr0 Hr1. rewrite Hdelay.
    now apply calculateDelay_jitter.
Qed.

(** C6 at the policy of the specification without jitter: the second delay
    is twice the base delay. *)
Lemma C6_backoff_delay_witness :
  let rm := new (mkRetryConfig None None None None None None None (Some false)) in
  (calculateDelay rm (1 # 2) 2 noOptions == 2000 # 1)%Q /\
  (calculateDelay rm (1 # 2) 1 noOptions == 1000 # 1)%Q.
Proof.
  intros rm. split.
  - destruct (C6_backoff_delay rm noOptions 2 (fun _ => (1 # 2)%Q))
      as [H1 [_ [H3 _]]]; [lia | reflexivity |].
    rewrite <- H1. rewrite (H3 eq_refl). reflexivity.
  - destruct (C6_backoff_delay rm noOptions 1 (fun _ => (1 # 2)%Q))
      as [H1 [_ [H3 _]]]; [lia | reflexivity |].
    rewrite <- H1. rewrite (H3 eq_refl). reflexivity.
Defined.

End RetryFacts.

(* ===================================================================== *)
(** ** Properties of the cache store *)
(* ===================================================================== *)
Module CacheFacts.
Import Errors Effect Cache.

(** *** The in-memory adapter *)

Lemma map_get_set_same {V} (m : list (string * V)) key value :
  map_get (map_set m key value) key = Some value.
Proof.
  induction m as [|[k v] rest IH]; simpl.
  - now rewrite String.eqb_refl.
  - destruct (String.eqb k key) eqn:Hk; simpl; now rewrite Hk.
Qed.

Lemma map_get_delete_same {V} (m : list (string * V)) key :
  map_get (map_delete m key) key = None.
Proof.
  induction m as [|[k v] rest IH]; [reflexivity|].
  unfold map_delete in *. simpl.
  destruct (String.eqb k key) eqn:Hk; simpl; [exact IH|].
  now rewrite Hk.
Qed.

Lemma memory_set_get key value a :
  map_get (mem_cache (memory_set key value a)) key = Some value.
Proof. unfold memory_set. simpl. apply map_get_set_same. Qed.

Section Ttl.

Context {Data : Type}.
Variable serialize : Data -> string.
Variable deserialize : string -> Outcome Data.

Local Abbreviation Manager := (CacheManager MemoryCacheAdapter).

(** The store holds, under [key], the serialisation of [data] with the
    expiry time [expiry]. *)
Definition stores (cm : Manager) (key : string) (data : Data) (expiry : Z) : Prop :=
  exists entry,
    map_get (mem_cache (adapter cm)) (buildKey cm key) = Some entry /\
    ce_data entry = serialize data /\ expiresAt entry = expiry.

(** The store holds nothing under [key]. *)
Definition absent (cm : Manager) (key : string) : Prop :=
  map_get (mem_cache (adapter cm)) (buildKey cm key) = None.

(** The part of the configuration that no operation changes. *)
Definition same_config (cm cm' : Manager) : Prop :=
  cm_enabled cm' = cm_enabled cm /\ keyPrefix cm' = keyPrefix cm /\
  defaultTTL cm' = defaultTTL cm.

Lemma set_stores (cm : Manager) key data options now :
  cm_enabled cm = true ->
  fst (set serialize key data options now cm) = Resolved tt /\
  stores (snd (set serialize key data options now cm)) key data
         (now + default (defaultTTL cm) (co_ttl options)) /\
  same_config cm (snd (set serialize key data options now cm)).
Proof.
  intros Hen. unfold set. rewrite Hen. simpl.
  split; [reflexivity|]. split; [|repeat split].
  eexists. split; [unfold buildKey; simpl; apply memory_set_get|].
  split; reflexivity.
Qed.

Lemma get_hit (cm : Manager) key data expiry now :
  cm_enabled cm = true ->
  deserialize (serialize data) = Resolved data ->
  stores cm key data expiry ->
  (now <= expiry)%Z ->
  fst (get deserialize key now cm) = Resolved (Some data) /\
  stores (snd (get deserialize key now cm)) key data expiry /\
  same_config cm (snd (get deserialize key now cm)).
Proof.
  intros Hen Hround [entry [Hget [Hdata Hexp]]] Hnow.
  unfold get. rewrite Hen. simpl.
  unfold as_CacheError, try_catch, bind, on_adapter, zoom. simpl.
  rewrite Hget. unfold isExpired.
  assert (Z.ltb (expiresAt entry) now = false) as -> by (apply Z.ltb_ge; lia).
  simpl. rewrite Hdata, Hround. simpl.
  split; [reflexivity|]. split; [|repeat split].
  eexists. split; [apply memory_set_get|].
  split; [reflexivity | exact Hexp].
Qed.

Lemma get_expired (cm : Manager) key data expiry now :
  cm_enabled cm = true ->
  stores cm key data expiry ->
  (expiry < now)%Z ->
  fst (get deserialize key now cm) = Resolved None /\
  absent (snd (get deserialize key now cm)) key /\
  same_config cm (snd (get deserialize key now cm)).
Proof.
  intros Hen [entry [Hget [Hdata Hexp]]] Hnow.
  unfold absent. unfold buildKey in *.
  unfold get. rewrite Hen. simpl.
  unfold as_CacheError, try_catch, bind, on_adapter, zoom, buildKey. simpl.
  rewrite Hget. unfold isExpired.
  assert (Z.ltb (expiresAt entry) now = true) as -> by (apply Z.ltb_lt; lia).
  unfold delete. simpl. rewrite Hen. simpl.
  unfold as_CacheError, try_catch, bind, on_adapter, zoom, buildKey. simpl.
  unfold map_has. rewrite Hget. simpl.
  split; [reflexivity|]. split; [|repeat split].
  apply map_get_delete_same.
Qed.

Lemma get_absent (cm : Manager) key now :
  cm_enabled cm = true ->
  absent cm key ->
  fst (get deserialize key now cm) = Resolved None /\
  absent (snd (get deserialize key now cm)) key /\
  same_config cm (snd (get deserialize key now cm)).
Proof.
  intros Hen Habs. unfold absent in Habs.
  unfold get. rewrite Hen. simpl.
  unfold as_CacheError, try_catch, bind, on_adapter, zoom. simpl.
  rewrite Habs. simpl.
  split; [reflexivity|]. split; [exact Habs | repeat split].
Qed.

(** The manager after reading [key] at each of the times [reads] in turn. *)
Definition after_reads (key : string) (reads : list Z) (cm : Manager) : Manager :=
  fold_left (fun cm now => snd (get deserialize key now cm)) reads cm.

Lemma after_reads_before_expiry key data expiry reads :
  deserialize (serialize data) = Resolved data ->
  Forall (fun now => now <= expiry)%Z reads ->
  forall cm,
    cm_enabled cm = true -> stores cm key data expiry ->
    cm_enabled (after_reads key reads cm) = true /\
    stores (after_reads key reads cm) key data expiry.
Proof.
  intros Hround Hreads. induction Hreads as [|now reads Hnow _ IH]; intros cm Hen Hst.
  - now split.
  - simpl.
    destruct (get_hit cm key data expiry now Hen Hround Hst Hnow)
      as [_ [Hst' [Hen' _]]].
    apply IH; [congruence | exact Hst'].
Qed.

Lemma after_reads_any key data expiry reads :
  deserialize (serialize data) = Resolved data ->
  forall cm,
    cm_enabled cm = true ->
    stores cm key data expiry \/ absent cm key ->
    cm_enabled (after_reads key reads cm) = true /\
    keyPrefix (after_reads key reads cm) = keyPrefix cm /\
    (stores (after_reads key reads cm) key data expiry \/
     absent (after_reads key reads cm) key).
Proof.
  intros Hround. induction reads as [|now reads IH]; intros cm Hen Hst.
  - now repeat split.
  - simpl. destruct Hst as [Hst|Habs].
    + destruct (Z_le_gt_dec now expiry) as [Hle|Hgt].
      * destruct (get_hit cm key data expiry now Hen Hround Hst Hle)
          as [_ [Hst' [Hen' [Hp' _]]]].
        rewrite <- Hp'. apply IH; [congruence | now left].
      * destruct (get_expired cm key data expiry now Hen Hst)
          as [_ [Ha [Hen' [Hp' _]]]]; [lia|].
        rewrite <- Hp'. apply IH; [congruence | now right].
    + destruct (get_absent cm key now Hen Habs) as [_ [Ha [Hen' [Hp' _]]]].
      rewrite <- Hp'. apply IH; [congruence | now right].
Qed.

End Ttl.

(** C8. Cache TTL semantics with lazy expiry, on an enabled manager over the
    default in-memory store, for values that [deserialize] reads back from
    their serialisation: after [set(key, data, options)] at time [t0] with
    time-to-live [T] ([options.ttl], else the default), every [get(key)] at a
    time [t <= t0 + T], hence every one before [t0 + T], returns the stored
    data, also after earlier reads that came before expiry; and a [get(key)]
    at a time after [t0 + T] returns null and leaves the store without the
    entry, whatever reads came before. *)
Theorem C8_cache_ttl_lazy_expiry {Data : Type} (serialize : Data -> string)
    (deserialize : string -> Outcome Data)
    (cm : CacheManager MemoryCacheAdapter) (key : string) (data : Data)
    (options : CacheOptions) (t0 : Z) (reads : list Z) (t : Z) :
  cm_enabled cm = true ->
  deserialize (serialize data) = Resolved data ->
  let T := default (defaultTTL cm) (co_ttl options) in
  let stored := snd (set serialize key data options t0 cm) in
  let before := after_reads deserialize key reads stored in
  fst (set serialize key data options t0 cm) = Resolved tt /\
  ((t <= t0 + T)%Z -> Forall (fun r => r <= t0 + T)%Z reads ->
   fst (get deserialize key t before) = Resolved (Some data)) /\
  ((t0 + T < t)%Z ->
   fst (get deserialize key t before) = Resolved None /\
   map_get (mem_cache (adapter (snd (get deserialize key t before))))
           (buildKey cm key) = None).
Proof.
  intros Hen Hround T stored before.
  destruct (set_stores serialize cm key data options t0 Hen)
    as [Hset [Hst [Hen' [Hpre _]]]].
  fold stored in Hst, Hen', Hpre. fold T in Hst.
  assert (cm_enabled stored = true) as Hens by congruence.
  split; [exact Hset|]. split.
  - intros Ht Hreads.
    destruct (after_reads_before_expiry serialize deserialize key data (t0 + T)
                reads Hround Hreads stored Hens Hst) as [Hen2 Hst2].
    fold before in Hen2, Hst2.
    now destruct (get_hit serialize deserialize before key data (t0 + T) t
                    Hen2 Hround Hst2 Ht).
  - intros Ht.
    destruct (after_reads_any serialize deserialize key data (t0 + T) reads
                Hround stored Hens (or_introl Hst)) as [Hen2 [Hp Hst2]].
    fold before in Hen2, Hp, Hst2. rewrite Hpre in Hp.
    destruct Hst2 as [Hst2|Habs].
    + destruct (get_expired serialize deserialize before key data (t0 + T) t
                  Hen2 Hst2 Ht) as [Hr [Ha [_ [Hp' _]]]].
      split; [exact Hr|]. unfold absent, buildKey in Ha.
      unfold buildKey. now rewrite Hp', Hp in Ha.
    + destruct (get_absent deserialize before key t Hen2 Habs)
        as [Hr [Ha [_ [Hp' _]]]].
      split; [exact Hr|]. unfold absent, buildKey in Ha.
      unfold buildKey. now rewrite Hp', Hp in Ha.
Qed.

(** C8 on an entry stored at time 1000 with the default time-to-live of
    300000: a hit at 301000, a miss at 301001. *)
Lemma C8_cache_ttl_lazy_expiry_witness :
  let cm := new None None None None in
  let stored := snd (set (fun s : string => s) "k" "v" noCacheOptions 1000 cm) in
  fst (get (fun s : string => Resolved s) "k" 301000 stored) = Resolved (Some "v") /\
  fst (get (fun s : string => Resolved s) "k" 301001 stored) = Resolved None.
Proof.
  intros cm stored.
  destruct (C8_cache_ttl_lazy_expiry (fun s : string => s)
              (fun s : string => Resolved s) cm "k" "v" noCacheOptions 1000 []
              301000 eq_refl eq_refl) as [_ [Hhit _]].
  destruct (C8_cache_ttl_lazy_expiry (fun s : string => s)
              (fun s : string => Resolved s) cm "k" "v" noCacheOptions 1000 []
              301001 eq_refl eq_refl) as [_ [_ Hmiss]].
  split.
  - apply Hhit; [vm_compute; discriminate | constructor].
  - apply Hmiss. reflexivity.
Defined.

End CacheFacts.

(* ===================================================================== *)
(** ** Properties of the request fingerprints *)
(* ===================================================================== *)
Module KeyFacts.
Import Js JsFacts.

(** The parameter maps [{a: 1, b: 2}] and [{b: 2, a: 1}]. *)
Definition params_ab : list (string * JSON) := [("a", JNum 1); ("b", JNum 2)].
Definition params_ba : list (string * JSON) := [("b", JNum 2); ("a", JNum 1)].

(** The key of the cache does not depend on the order in which the
    parameters were inserted. *)
Lemma buildCacheKey_permutation url method body props1 props2 :
  List.NoDup (map fst props1) -> Permutation props1 props2 ->
  Cache.buildCacheKey url method (Some props1) body
  = Cache.buildCacheKey url method (Some props2) body.
Proof.
  intros Hnd Hp. unfold Cache.buildCacheKey.
  assert (Permutation (map fst props1) (map fst props2)) as Hkeys
    by now apply Permutation_map.
  rewrite (Permutation_length Hkeys).
  rewrite (sort_permutation _ _ Hkeys).
  rewrite (map_ext
             (fun key => key +:+ "=" +:+
                         match prop props1 key with
                         | Some v => toString v
                         | None => "undefined"
                         end)
             (fun key => key +:+ "=" +:+
                         match prop props2 key with
                         | Some v => toString v
                         | None => "undefined"
                         end)).
  - reflexivity.
  - intros key. now rewrite (prop_permutation props1 props2 key Hnd Hp).
Qed.

(** The default key of the single-flight table on the two orders of the
    same parameters. *)
Lemma defaultKeyGenerator_ab_ba :
  Dedup.defaultKeyGenerator "GET" "/users" None (Some (JObj params_ab))
  <> Dedup.defaultKeyGenerator "GET" "/users" None (Some (JObj params_ba)).
Proof. vm_compute. discriminate. Qed.

(** C7, as stated, fails on the code: the default key generator of the
    single-flight table serialises the parameters with [JSON.stringify], in
    insertion order, so [{a: 1, b: 2}] and [{b: 2, a: 1}] get different
    keys. *)
Lemma C7_counterexample :
  ~ (forall method url body props1 props2,
        List.NoDup (map fst props1) -> Permutation props1 props2 ->
        Cache.buildCacheKey url method (Some props1) body
        = Cache.buildCacheKey url method (Some props2) body /\
        Dedup.defaultKeyGenerator method url body (Some (JObj props1))
        = Dedup.defaultKeyGenerator method url body (Some (JObj props2))).
Proof.
  intros H.
  destruct (H "GET" "/users" None params_ab params_ba) as [_ Hd].
  - repeat constructor; simpl; intuition discriminate.
  - apply perm_swap.
  - now apply defaultKeyGenerator_ab_ba.
Qed.

(** C7 (amended). Both key builders are functions of the method, URL, body
    and parameter map; the cache key builder sorts the parameter keys, so two
    parameter maps holding the same key-value pairs in different insertion
    orders get the same cache key; the default key generator of the
    single-flight table keeps the insertion order of the parameters, and the
    keys it gives [{a: 1, b: 2}] and [{b: 2, a: 1}] differ. *)
Theorem C7_fingerprint_order (method url : string) (body : option JSON)
    (props1 props2 : list (string * JSON)) :
  List.NoDup (map fst props1) -> Permutation props1 props2 ->
  Cache.buildCacheKey url method (Some props1) body
  = Cache.buildCacheKey url method (Some props2) body /\
  Dedup.defaultKeyGenerator "GET" "/users" None (Some (JObj params_ab))
  <> Dedup.defaultKeyGenerator "GET" "/users" None (Some (JObj params_ba)).
Proof.
  intros Hnd Hp. split.
  - now apply buildCacheKey_permutation.
  - exact defaultKeyGenerator_ab_ba.
Qed.

(** C7 on [{a: 1, b: 2}] and [{b: 2, a: 1}]. *)
Lemma C7_fingerprint_order_witness :
  Cache.buildCacheKey "/users" "get" (Some params_ab) None
  = Cache.buildCacheKey "/users" "get" (Some params_ba) None.
Proof.
  apply (C7_fingerprint_order "get" "/users" None params_ab params_ba).
  - repeat constructor; simpl; intuition discriminate.
  - apply perm_swap.
Defined.

End KeyFacts.

(* ===================================================================== *)
(** ** Properties of the single-flight table *)
(* ===================================================================== *)
Module DedupFacts.
Import Errors Dedup.

Section Facts.

Context {T : Type}.
Variable config : DeduplicationConfig.

Local Abbreviation State := (Dedup.State T).

(** What holds of every state of a manager: the flag and the key generator
    are those of the configuration, a disabled manager has an empty table,
    and the promises named by the table or aborted were created before. *)
Record invariant (s : State) : Prop := mkInvariant {
  inv_enabled : enabled (manager s) = default true (dc_enabled config);
  inv_disabled :
    enabled (manager s) = false -> pendingRequests (manager s) = ∅;
  inv_pending :
    forall key request,
      pendingRequests (manager s) !! key = Some request ->
      (promise request < executions s)%nat;
  inv_aborted : forall p, p ∈ aborted s -> (p < executions s)%nat
}.

Lemma pending_invariant_initial : invariant (initial config).
Proof.
  split; simpl; try reflexivity.
  - intros key request H. rewrite lookup_empty in H. discriminate.
  - intros p H. set_solver.
Qed.

Lemma invariant_executeRequest s method url data params now :
  invariant s -> invariant (snd (executeRequest method url data params now s)).
Proof.
  intros [He Hd Hp Ha]. unfold executeRequest.
  destruct (enabled (manager s)) eqn:Hen; simpl.
  - destruct (pendingRequests (manager s) !! _) as [existing|] eqn:Hlook; simpl.
    + split; simpl; auto; try (intros; congruence).
    + split; simpl; eauto using Nat.lt_lt_succ_r; try (intros; congruence).
      intros key request Hl.
      destruct (decide (keyGenerator (manager s) method url data params = key))
        as [Heq|Hne].
      * subst key. rewrite lookup_insert_eq in Hl. inversion Hl; subst.
        simpl. lia.
      * rewrite lookup_insert_ne in Hl by exact Hne.
        eauto using Nat.lt_lt_succ_r.
  - split; simpl; eauto using Nat.lt_lt_succ_r.
Qed.

Lemma invariant_settle s p o : invariant s -> invariant (settle p o s).
Proof.
  intros [He Hd Hp Ha]. unfold settle.
  destruct (running s !! p) as [[[key|]]|]; simpl.
  - split; simpl; auto.
    + intros Hen. rewrite (Hd Hen). apply delete_empty.
    + intros key' request Hl. apply lookup_delete_Some in Hl as [_ Hl]. eauto.
  - split; simpl; auto.
  - now split.
Qed.

Lemma invariant_cleanup s now : invariant s -> invariant (cleanupExpiredRequests now s).
Proof.
  intros [He Hd Hp Ha]. unfold cleanupExpiredRequests. split; simpl; auto.
  - intros Hen. rewrite (Hd Hen). apply map_filter_empty.
  - intros key request Hl. apply map_lookup_filter_Some in Hl as [Hl _]. eauto.
  - intros p Hin. apply elem_of_union in Hin as [Hin|Hin]; [eauto|].
    apply elem_of_list_to_set, list_elem_of_In, in_map_iff in Hin
      as [[key request] [<- Hin]].
    apply list_elem_of_In, elem_of_map_to_list, map_lookup_filter_Some in Hin
      as [Hl _]. simpl. eauto.
Qed.

Lemma invariant_clear s : invariant s -> invariant (clear s).
Proof.
  intros [He Hd Hp Ha]. unfold clear. split; simpl; auto.
  - intros key request Hl. rewrite lookup_empty in Hl. discriminate.
  - intros p Hin. apply elem_of_union in Hin as [Hin|Hin]; [eauto|].
    apply elem_of_list_to_set, list_elem_of_In, in_map_iff in Hin
      as [[key request] [<- Hin]].
    apply list_elem_of_In, elem_of_map_to_list in Hin. simpl. eauto.
Qed.

Lemma pending_reachable_invariant s : reachable config s -> invariant s.
Proof.
  induction 1 as [|s ev _ IH].
  - apply pending_invariant_initial.
  - destruct ev; simpl.
    + now apply invariant_executeRequest.
    + now apply invariant_settle.
    + now apply invariant_cleanup.
    + now apply invariant_clear.
Qed.

(** A call that finds an entry under its key returns the promise of the
    entry and invokes no executor. *)
Lemma executeRequest_existing (s : State) method url data params now existing :
  invariant s ->
  pendingRequests (manager s) !! keyGenerator (manager s) method url data params
  = Some existing ->
  fst (executeRequest method url data params now s) = promise existing /\
  executions (snd (executeRequest method url data params now s)) = executions s /\
  running (snd (executeRequest method url data params now s)) = running s /\
  aborted (snd (executeRequest method url data params now s)) = aborted s /\
  pendingRequests (manager (snd (executeRequest method url data params now s)))
  = pendingRequests (manager s) /\
  keyGenerator (manager (snd (executeRequest method url data params now s)))
  = keyGenerator (manager s) /\
  enabled (manager (snd (executeRequest method url data params now s)))
  = enabled (manager s).
Proof.
  intros Hinv Hl. unfold executeRequest.
  destruct (enabled (manager s)) eqn:Hen; simpl.
  - rewrite Hl. simpl. repeat split; auto.
  - rewrite (inv_disabled s Hinv Hen), lookup_empty in Hl. discriminate.
Qed.

(** A call of an enabled manager that finds no entry invokes the executor
    and registers the new promise before it returns. *)
Lemma executeRequest_fresh (s : State) method url data params now :
  enabled (manager s) = true ->
  pendingRequests (manager s) !! keyGenerator (manager s) method url data params
  = None ->
  let s' := snd (executeRequest method url data params now s) in
  fst (executeRequest method url data params now s) = executions s /\
  executions s' = S (executions s) /\
  pendingRequests (manager s') !! keyGenerator (manager s) method url data params
  = Some (mkPendingRequest (executions s) now) /\
  running s'
  = <[executions s :=
        mkExecution (Some (keyGenerator (manager s) method url data params))]>
      (running s) /\
  aborted s' = aborted s /\
  keyGenerator (manager s') = keyGenerator (manager s) /\
  enabled (manager s') = true.
Proof.
  intros Hen Hl. unfold executeRequest. rewrite Hen. simpl. rewrite Hl. simpl.
  repeat split; auto. apply lookup_insert_eq.
Qed.

(** Requests that all find the entry of promise [p] under their key. *)
Lemma requests_existing times :
  forall (s : State) method url data params p,
    invariant s ->
    (exists request,
        pendingRequests (manager s) !! keyGenerator (manager s) method url data params
        = Some request /\ promise request = p) ->
    let r := requests times method url data params s in
    Forall (fun q => q = p) (fst r) /\
    length (fst r) = length times /\
    executions (snd r) = executions s /\
    running (snd r) = running s /\
    aborted (snd r) = aborted s.
Proof.
  induction times as [|now times IH]; intros s method url data params p Hinv Hex.
  - simpl. repeat split; auto.
  - destruct Hex as [request [Hl Hp]].
    destruct (executeRequest_existing s method url data params now request Hinv Hl)
      as [Hfst [Hexec [Hrun [Hab [Hpend [Hkg Hen]]]]]].
    pose proof (invariant_executeRequest s method url data params now Hinv) as Hinv'.
    simpl.
    destruct (executeRequest method url data params now s) as [q s1] eqn:Hcall.
    simpl in *.
    specialize (IH s1 method url data params p Hinv').
    destruct (requests times method url data params s1) as [ps s2] eqn:Hrest.
    simpl in *.
    destruct IH as [Hall [Hlen [Hexec2 [Hrun2 Hab2]]]].
    { exists request. rewrite Hkg, Hpend. auto. }
    repeat split; try congruence.
    constructor; [congruence | exact Hall].
Qed.

(** The limit of the guarantee: an entry older than the timeout is dropped
    by the sweep while its execution is still running, and the next identical
    request invokes its executor again. *)
Lemma executeRequest_after_sweep (s : State) method url data params now existing :
  invariant s ->
  pendingRequests (manager s) !! keyGenerator (manager s) method url data params
  = Some existing ->
  (timeout (manager s) < now - timestamp existing)%Z ->
  let swept := cleanupExpiredRequests now s in
  running swept = running s /\
  fst (executeRequest method url data params now swept) = executions s /\
  fst (executeRequest method url data params now swept) <> promise existing /\
  executions (snd (executeRequest method url data params now swept))
  = S (executions s).
Proof.
  intros Hinv Hl Hold swept.
  assert (enabled (manager s) = true) as Hen.
  { destruct (enabled (manager s)) eqn:Hen; [reflexivity|].
    rewrite (inv_disabled s Hinv Hen), lookup_empty in Hl. discriminate. }
  assert (pendingRequests (manager swept)
          !! keyGenerator (manager swept) method url data params = None) as Hgone.
  { unfold swept, cleanupExpiredRequests. simpl.
    apply map_lookup_filter_None. right. intros request Hl' Hkeep.
    rewrite Hl in Hl'. inversion Hl'; subst. apply Hkeep. exact Hold. }
  destruct (executeRequest_fresh swept method url data params now Hen Hgone)
    as [Hfst [Hexec _]].
  split; [reflexivity|]. split; [exact Hfst|]. split; [|exact Hexec].
  rewrite Hfst. pose proof (inv_pending s Hinv _ _ Hl). simpl. lia.
Qed.

End Facts.

(** C1. Single-flight deduplication.  In every state a manager can reach, a
    call of [executeRequest] whose key has an entry in the pending-requests
    table returns the promise of that entry and invokes no executor.  Hence
    any number of identical requests issued to an enabled manager before any
    of them settles, starting without an entry for their key, invoke the
    executor exactly once and all return one and the same promise, so that
    every caller observes the outcome, value or error, with which that
    execution settles. *)
Theorem C1_single_flight {T : Type} (config : DeduplicationConfig)
    (s : Dedup.State T) (method url : string) (data params : option Js.JSON) :
  reachable config s ->
  let key := keyGenerator (manager s) method url data params in
  (forall existing now,
      pendingRequests (manager s) !! key = Some existing ->
      fst (executeRequest method url data params now s) = promise existing /\
      executions (snd (executeRequest method url data params now s))
      = executions s) /\
  (forall times,
      enabled (manager s) = true ->
      pendingRequests (manager s) !! key = None ->
      times <> [] ->
      let promises := fst (requests times method url data params s) in
      let s' := snd (requests times method url data params s) in
      executions s' = S (executions s) /\
      length promises = length times /\
      Forall (fun p => p = executions s) promises /\
      forall o, Forall (fun p => settled (settle (executions s) o s') !! p = Some o)
                       promises).
Proof.
  intros Hreach key. pose proof (pending_reachable_invariant config s Hreach) as Hinv.
  split.
  - intros existing now Hl.
    destruct (executeRequest_existing config s method url data params now existing
                Hinv Hl) as [H1 [H2 _]].
    now split.
  - intros times Hen Hl Hne promises s'.
    destruct times as [|now times]; [congruence|].
    subst promises s'. simpl.
    destruct (executeRequest_fresh s method url data params now Hen Hl)
      as [Hfst [Hexec [Hpend [Hrun [Hab [Hkg Hen']]]]]].
    pose proof (invariant_executeRequest config s method url data params now Hinv)
      as Hinv'.
    destruct (executeRequest method url data params now s) as [q s1] eqn:Hcall.
    simpl in *. subst q.
    destruct (requests_existing config times s1 method url data params
                (executions s) Hinv') as [Hall [Hlen [Hexec2 [Hrun2 Hab2]]]].
    { eexists. rewrite Hkg. split; [exact Hpend | reflexivity]. }
    destruct (requests times method url data params s1) as [ps s2] eqn:Hrest.
    simpl in *.
    assert (forall o, settled (settle (executions s) o s2) !! executions s = Some o)
      as Hsettled.
    { intros o. unfold settle. rewrite Hrun2, Hrun, lookup_insert_eq. simpl.
      rewrite lookup_insert_eq. f_equal.
      assert (executions s ∉ aborted s2) as Hnot.
      { rewrite Hab2, Hab. intros Hin.
        pose proof (inv_aborted config s Hinv _ Hin). lia. }
      rewrite bool_decide_eq_false_2 by exact Hnot. now destruct o. }
    repeat split.
    + congruence.
    + simpl. congruence.
    + constructor; [reflexivity | exact Hall].
    + intros o. constructor; [apply Hsettled|].
      eapply Forall_impl; [exact Hall|]. simpl. intros p ->. apply Hsettled.
Qed.

(** C1 on three concurrent [GET /users/1] issued to a fresh manager: one
    execution, one promise. *)
Lemma C1_single_flight_witness :
  let s : Dedup.State nat := initial (mkDeduplicationConfig None None None) in
  let r := requests [0; 0; 0]%Z "GET" "/users/1" None None s in
  executions (snd r) = 1%nat /\ fst r = [0; 0; 0]%nat.
Proof.
  intros s r.
  destruct (C1_single_flight (mkDeduplicationConfig None None None) s
              "GET" "/users/1" None None (reachable_initial _)) as [_ H].
  destruct (H [0; 0; 0]%Z) as [Hexec [Hlen [Hall _]]];
    [reflexivity | reflexivity | discriminate |].
  split; [exact Hexec|].
  fold r in Hlen, Hall.
  destruct (fst r) as [|p1 [|p2 [|p3 [|p4 ps]]]]; try discriminate Hlen.
  inversion Hall as [|? ? H1 Hall1]; subst.
  inversion Hall1 as [|? ? H2 Hall2]; subst.
  inversion Hall2 as [|? ? H3 _]; subst.
  reflexivity.
Defined.

End DedupFacts.

(* ===================================================================== *)
(** ** Properties of the credential refresh coordinator *)
(* ===================================================================== *)
Module AuthFacts.
Import Errors Effect Auth.

(** Inversion of lookups in updated maps and of memberships. *)
Ltac map_inv :=
  repeat match goal with
  | H : (<[_ := _]> _) !! _ = Some _ |- _ =>
      apply lookup_insert_Some in H as [[? ?]|[? H]]; subst
  | H : delete _ _ !! _ = Some _ |- _ => apply lookup_delete_Some in H as [? H]
  | H : ∅ !! _ = Some _ |- _ => rewrite lookup_empty in H; discriminate H
  | H : _ ∈ _ ∪ _ |- _ => apply elem_of_union in H as [H|H]
  | H : _ ∈ {[ _ ]} |- _ => apply elem_of_singleton in H; subst
  | H : _ ∈ _ ∖ _ |- _ => apply elem_of_difference in H as [H ?]
  | H : _ ∈ ∅ |- _ => apply elem_of_empty in H; contradiction
  | H : Some _ = Some _ |- _ => inversion H; subst; clear H
  end.

Section Coordinator.

Variable config : AuthConfig.
Variable stored : TokenStorage.

(** What holds of every state of the coordinator. *)
Record invariant (s : State) : Prop := mkInvariant {
  inv_enabled : enabled (manager s) = default true (ac_enabled config);
  inv_disabled : enabled (manager s) = false -> tasks s = ∅;
  inv_task :
    forall p phase, tasks s !! p = Some phase ->
                    refreshPromise (manager s) = Some p;
  inv_waiting :
    forall p, p ∈ waiting s -> refreshPromise (manager s) = Some p;
  inv_running :
    forall p phase, tasks s !! p = Some phase -> settled s !! p = None;
  inv_created_promise :
    forall p, refreshPromise (manager s) = Some p -> (p < created s)%nat;
  inv_created_settled :
    forall p o, settled s !! p = Some o -> (p < created s)%nat
}.

(** The consequences of the invariant for the facts at hand. *)
Ltac saturate Hinv :=
  repeat match goal with
  | H : tasks _ !! ?p = Some _ |- _ =>
      lazymatch goal with
      | _ : refreshPromise _ = Some p |- _ => fail
      | _ => pose proof (inv_task _ Hinv _ _ H); pose proof (inv_running _ Hinv _ _ H)
      end
  | H : ?p ∈ waiting _ |- _ =>
      lazymatch goal with
      | _ : refreshPromise _ = Some p |- _ => fail
      | _ => pose proof (inv_waiting _ Hinv _ H)
      end
  | H : settled _ !! ?p = Some _ |- _ =>
      lazymatch goal with
      | _ : (p < created _)%nat |- _ => fail
      | _ => pose proof (inv_created_settled _ Hinv _ _ H)
      end
  | H : refreshPromise _ = Some ?p |- _ =>
      lazymatch goal with
      | _ : (p < created _)%nat |- _ => fail
      | _ => pose proof (inv_created_promise _ Hinv _ H)
      end
  end.

(** One field of the invariant after a step. *)
Ltac close Hinv :=
  simpl; intros; map_inv;
  try match goal with
      | |- ?x !! ?k = None => destruct (x !! k) eqn:?; [exfalso|reflexivity]
      end;
  saturate Hinv;
  pose proof (inv_enabled _ Hinv);
  try match goal with
      | Hf : enabled _ = false, Hp : tasks _ !! _ = Some _ |- _ =>
          rewrite (inv_disabled _ Hinv Hf), lookup_empty in Hp; discriminate Hp
      | Hf : enabled _ = false |- _ = ∅ =>
          first [ exact (inv_disabled _ Hinv Hf)
                | rewrite (inv_disabled _ Hinv Hf); apply delete_empty ]
      end;
  try discriminate; try congruence; try lia;
  try match goal with
      | H : _ ∉ {[ _ ]} |- _ =>
          exfalso; apply H; apply elem_of_singleton; congruence
      end;
  rewrite ?lookup_insert_ne, ?lookup_delete_ne by congruence;
  eauto using Nat.lt_lt_succ_r.

Lemma refresh_invariant_initial : invariant (initial config stored).
Proof. split; simpl; intros; map_inv; try discriminate; reflexivity. Qed.

Lemma invariant_refreshToken s : invariant s -> invariant (snd (refreshToken s)).
Proof.
  intros Hinv. unfold refreshToken.
  destruct (enabled (manager s)) eqn:Hen; simpl; [|exact Hinv].
  destruct (refreshPromise (manager s)) as [p|] eqn:Hrp; simpl; [exact Hinv|].
  split; close Hinv.
Qed.

Lemma invariant_resume s p : invariant s -> invariant (resume p s).
Proof.
  intros Hinv. unfold resume.
  destruct (tasks s !! p) as [[stored'|stored' k]|] eqn:Hp; try exact Hinv.
  destruct (refresh_guard (manager s) stored') as [e|]; split; close Hinv.
Qed.

Lemma setTokens_fields tokens m :
  enabled (setTokens tokens m) = enabled m /\
  refreshPromise (setTokens tokens m) = refreshPromise m.
Proof. unfold setTokens. destruct (enabled m) eqn:He; simpl; auto. Qed.

Lemma refresh_finish_fields stored' response m :
  enabled (snd (refresh_finish stored' response m)) = enabled m /\
  refreshPromise (snd (refresh_finish stored' response m)) = refreshPromise m.
Proof.
  unfold refresh_finish. destruct response; simpl; [apply setTokens_fields|auto].
Qed.

Lemma invariant_respond s p response : invariant s -> invariant (respond p response s).
Proof.
  intros Hinv. unfold respond.
  destruct (tasks s !! p) as [[stored'|stored' k]|] eqn:Hp; try exact Hinv.
  pose proof (refresh_finish_fields stored' response (manager s)) as [Hfe Hfp].
  destruct (refresh_finish stored' response (manager s)) as [o m]. simpl in *.
  split; simpl; rewrite ?Hfe, ?Hfp; close Hinv.
Qed.

Lemma invariant_finally s p : invariant s -> invariant (finally p s).
Proof.
  intros Hinv. unfold finally.
  destruct (settled s !! p) as [o|] eqn:Hs; [|exact Hinv].
  destruct (bool_decide (p ∈ waiting s)) eqn:Hin; [|exact Hinv].
  apply bool_decide_eq_true in Hin.
  split; close Hinv.
Qed.

Lemma refresh_reachable_invariant s : reachable config stored s -> invariant s.
Proof.
  induction 1 as [|s ev _ IH].
  - apply refresh_invariant_initial.
  - destruct ev; simpl.
    + now apply invariant_refreshToken.
    + now apply invariant_resume.
    + now apply invariant_respond.
    + now apply invariant_finally.
    + pose proof (setTokens_fields tokens (manager s)) as [Hfe Hfp].
      split; simpl; rewrite ?Hfe, ?Hfp; close IH.
    + split; close IH.
Qed.

(** At most one refresh is in flight. *)
Lemma one_task s p q phase1 phase2 :
  invariant s ->
  tasks s !! p = Some phase1 -> tasks s !! q = Some phase2 -> p = q.
Proof.
  intros Hinv Hp Hq.
  pose proof (inv_task s Hinv _ _ Hp). pose proof (inv_task s Hinv _ _ Hq).
  congruence.
Qed.

(** A call made while a refresh is in flight returns its promise and
    changes nothing: no task is started, no request is sent. *)
Lemma refreshToken_pending s p phase :
  invariant s -> tasks s !! p = Some phase ->
  refreshToken s = (Returned p, s).
Proof.
  intros Hinv Hp. unfold refreshToken.
  destruct (enabled (manager s)) eqn:Hen; simpl.
  - now rewrite (inv_task s Hinv _ _ Hp).
  - rewrite (inv_disabled s Hinv Hen), lookup_empty in Hp. discriminate.
Qed.

(** A failure of the refresh endpoint clears the storage in the step that
    rejects the promise. *)
Lemma respond_failure_clears s p stored' k error :
  tasks s !! p = Some (Posting stored' k) ->
  settled (respond p (Rejected error) s) !! p
  = Some (Rejected (AuthError (refresh_failure_message error)
                      REFRESH_TOKEN_EXPIRED
                      (option_map resp_status (e_response error)))) /\
  storage (manager (respond p (Rejected error) s)) = mkTokenStorage None None.
Proof.
  intros Hp. unfold respond. rewrite Hp. simpl. split; [|reflexivity].
  apply lookup_insert_eq.
Qed.

(** A refresh refused by a guard of [performTokenRefresh] rejects the
    promise and leaves the storage as it was. *)
Lemma resume_guard_keeps s p stored' e :
  tasks s !! p = Some (ReadingStorage stored') ->
  refresh_guard (manager s) stored' = Some e ->
  settled (resume p s) !! p = Some (Rejected e) /\
  storage (manager (resume p s)) = storage (manager s) /\
  posts (resume p s) = posts s.
Proof.
  intros Hp Hg. unfold resume. rewrite Hp, Hg. simpl. split; [|split; reflexivity].
  apply lookup_insert_eq.
Qed.

End Coordinator.

(** A manager with the default configuration over a storage that holds an
    access token and no refresh token, after a call of [refreshToken()]. *)
Definition access_only : TokenStorage := mkTokenStorage (Some "A") None.
Definition defaultConfig : AuthConfig := mkAuthConfig None None None None None.
Definition refreshing : State :=
  step (initial defaultConfig access_only) RefreshToken.

Lemma refreshing_reachable : reachable defaultConfig access_only refreshing.
Proof. apply reachable_step, reachable_initial. Qed.




End AuthFacts.

(* ===================================================================== *)
(** ** Properties of the replay-once protocol, in the client *)
(* ===================================================================== *)
Module InterceptorFacts.
Import Errors Effect Http Interceptors Instance.

(** *** Running a computation whose parts are known *)

Lemma pbind_resolved {S X Y : Type} (m : PM S X) (k : X -> PM S Y) s x s' :
  m s = Some (Resolved x, s') -> pbind m k s = k x s'.
Proof. intros H. unfold pbind. now rewrite H. Qed.

Lemma pbind_rejected {S X Y : Type} (m : PM S X) (k : X -> PM S Y) s e s' :
  m s = Some (Rejected e, s') -> pbind m k s = Some (Rejected e, s').
Proof. intros H. unfold pbind. now rewrite H. Qed.

Lemma pbind_never {S X Y : Type} (m : PM S X) (k : X -> PM S Y) s :
  m s = None -> pbind m k s = None.
Proof. intros H. unfold pbind. now rewrite H. Qed.

Lemma ptry_catch_resolved {S X : Type} (m : PM S X) handler s x s' :
  m s = Some (Resolved x, s') -> ptry_catch m handler s = Some (Resolved x, s').
Proof. intros H. unfold ptry_catch. now rewrite H. Qed.

Lemma ptry_catch_rejected {S X : Type} (m : PM S X) handler s e s' :
  m s = Some (Rejected e, s') -> ptry_catch m handler s = handler e s'.
Proof. intros H. unfold ptry_catch. now rewrite H. Qed.

Lemma ptry_catch_never {S X : Type} (m : PM S X) handler s :
  m s = None -> ptry_catch m handler s = None.
Proof. intros H. unfold ptry_catch. now rewrite H. Qed.

Lemma settle_settled {X Y : Type} (m : PM World X) (k : Outcome X -> PM World Y)
    w o w' :
  m w = Some (o, w') -> settle m k w = k o w'.
Proof. intros H. unfold settle. now rewrite H. Qed.

Lemma settle_same {X Y : Type} (m m' : PM World X)
    (k : Outcome X -> PM World Y) w w' :
  m w = m' w' -> settle m k w = settle m' k w'.
Proof. intros H. unfold settle. now rewrite H. Qed.

Lemma settle_never {X Y : Type} (m : PM World X) (k : Outcome X -> PM World Y) w :
  m w = None -> settle m k w = None.
Proof. intros H. unfold settle. now rewrite H. Qed.

(** *** What a step leaves as it was *)

(** [w'] differs from [w] at most by readings of the environment. *)
Definition only_reads (w w' : World) : Prop :=
  w_auth w' = w_auth w /\ w_refreshPromises w' = w_refreshPromises w /\
  w_sent w' = w_sent w /\ w_log w' = w_log w.

(** [w'] holds the same coordinator and the same requests as [w]. *)
Definition quiet (w w' : World) : Prop :=
  w_auth w' = w_auth w /\ w_sent w' = w_sent w.

(** [config'] is [config] up to its headers and its [metadata]. *)
Definition same_target (config config' : RequestConfig) : Prop :=
  rq_method config' = rq_method config /\ rq_url config' = rq_url config /\
  rq_params config' = rq_params config /\ rq_data config' = rq_data config /\
  rq_skipAuth config' = rq_skipAuth config /\
  rq_retry config' = rq_retry config.

Lemma only_reads_refl w : only_reads w w.
Proof. repeat split. Qed.

Lemma only_reads_trans w1 w2 w3 :
  only_reads w1 w2 -> only_reads w2 w3 -> only_reads w1 w3.
Proof.
  intros (Ha1 & Hb1 & Hc1 & Hd1) (Ha2 & Hb2 & Hc2 & Hd2).
  repeat split; congruence.
Qed.

Lemma same_target_refl config : same_target config config.
Proof. repeat split. Qed.

Lemma same_target_trans c1 c2 c3 :
  same_target c1 c2 -> same_target c2 c3 -> same_target c1 c3.
Proof.
  intros (Ha1 & Hb1 & Hc1 & Hd1 & He1 & Hf1) (Ha2 & Hb2 & Hc2 & Hd2 & He2 & Hf2).
  repeat split; congruence.
Qed.

(** The validation interceptor lets the request pass. *)
Definition accepted (config : RequestConfig) : bool :=
  negb (String.eqb (rq_url config) "")
  && (String.eqb (Js.toUpperCase (rq_method config)) ""
      || Retry.includesS validMethods (Js.toUpperCase (rq_method config))).

Lemma validation_accepted config w :
  accepted config = true -> validation_onFulfilled config w = Some (Resolved config, w).
Proof.
  unfold accepted, validation_onFulfilled. intros H.
  apply andb_true_iff in H as [Hurl Hm].
  apply negb_true_iff in Hurl. rewrite Hurl.
  destruct (String.eqb (Js.toUpperCase (rq_method config)) ""); simpl in *.
  - reflexivity.
  - rewrite Hm. reflexivity.
Qed.

Lemma accepted_same_target config config' :
  same_target config config' -> accepted config' = accepted config.
Proof. intros (Hm & Hu & _). unfold accepted. now rewrite Hm, Hu. Qed.

Section Client.

Variable exp : string -> option Q.
Variable clock : nat -> Z.
Variable generateRequestId : nat -> string.
Variable toISOString : nat -> string.
Variable network : nat -> RequestConfig -> Outcome Response.
Variable authData : Response -> Auth.AuthResponse.
Variable defaultHeaders : list (string * string).
Variable refreshEndpoint : string.

Local Abbreviation instance :=
  (axiosInstance exp clock generateRequestId toISOString network authData
     defaultHeaders refreshEndpoint).
Local Abbreviation refresh_through :=
  (refreshToken authData refreshEndpoint).
Local Abbreviation chain :=
  (request_interceptors exp clock generateRequestId toISOString defaultHeaders).

(** No token is due for a refresh, whenever the clock is read. *)
Definition never_due : Prop :=
  forall m token k, AuthMore.isTokenExpiringSoon exp m token (clock k) = false.

Lemma reading_reads {X : Type} (oracle : nat -> X) w :
  exists w', reading oracle w = Some (Resolved (oracle (w_reads w)), w') /\
             only_reads w w'.
Proof. eexists. split; [reflexivity|]. repeat split. Qed.

(** With no token due, [getAccessToken] answers with the stored token and
    calls nothing. *)
Lemma getAccessToken_not_due refresh w :
  never_due ->
  exists token w',
    getAccessToken exp clock refresh w = Some (Resolved token, w') /\
    only_reads w w'.
Proof.
  intros Hdue. unfold getAccessToken.
  destruct (Auth.enabled (Auth.manager (w_auth w))); cbn [negb];
    [|eexists _, _; split; [reflexivity|apply only_reads_refl]].
  destruct (Auth.stored_accessToken (Auth.storage (Auth.manager (w_auth w))))
    as [token|]; [|eexists _, _; split; [reflexivity|apply only_reads_refl]].
  destruct (negb (Auth.truthy_string (Some token)));
    [eexists _, _; split; [reflexivity|apply only_reads_refl]|].
  destruct (Auth.autoRefresh (Auth.manager (w_auth w))).
  - unfold isTokenExpiringSoon, pbind, reading. cbn [w_auth].
    rewrite Hdue. eexists _, _. split; [reflexivity|]. repeat split.
  - unfold pbind, pret. eexists _, _. split; [reflexivity|apply only_reads_refl].
Qed.

Lemma auth_onFulfilled_not_due refresh config w :
  never_due ->
  exists config' w',
    auth_onFulfilled exp clock refresh config w = Some (Resolved config', w') /\
    only_reads w w' /\ same_target config config' /\
    rq_requestId config' = rq_requestId config.
Proof.
  intros Hdue. unfold auth_onFulfilled.
  destruct (negb (Auth.enabled (Auth.manager (w_auth w))));
    [eexists _, _; split; [reflexivity|]; repeat split|].
  destruct (rq_skipAuth config);
    [eexists _, _; split; [reflexivity|]; repeat split|].
  destruct (getAccessToken_not_due refresh w Hdue) as (token & w' & Hget & Hw).
  destruct (Auth.truthy_string token) eqn:Ht; eexists _, _;
    (split;
     [erewrite ptry_catch_resolved; [reflexivity|];
      erewrite pbind_resolved by exact Hget; rewrite Ht; reflexivity|]);
    (split; [exact Hw|]); repeat split.
Qed.

Lemma headers_onFulfilled_passes config w :
  exists config' w',
    headers_onFulfilled generateRequestId toISOString defaultHeaders config w
    = Some (Resolved config', w') /\
    only_reads w w' /\ same_target config config' /\
    rq_requestId config' = rq_requestId config.
Proof.
  unfold headers_onFulfilled.
  set (merged := spread _ _).
  destruct (Js.truthy_opt (Js.prop merged "X-Request-ID"));
    eexists _, _; (split; [reflexivity|]); repeat split.
Qed.

(** With no token due, the request interceptors hand an accepted request to
    the network, under a new identifier, and call nothing. *)
Lemma request_interceptors_not_due refresh config w :
  never_due ->
  accepted config = true ->
  exists config' w',
    chain refresh config w = Some (Resolved config', w') /\
    only_reads w w' /\ same_target config config' /\
    rq_requestId config' = Some (generateRequestId (w_reads w)).
Proof.
  intros Hdue Hok. unfold request_interceptors.
  destruct (auth_onFulfilled_not_due refresh
              (with_metadata config (generateRequestId (w_reads w)))
              (mkWorld (w_auth w) (w_refreshPromises w) (w_sent w) (w_log w)
                 (S (w_reads w))) Hdue)
    as (c2 & w2 & Hauth & Hw2 & Hc2 & Hid2).
  destruct (headers_onFulfilled_passes c2 w2) as (c3 & w3 & Hh & Hw3 & Hc3 & Hid3).
  assert (same_target config c3) as Hc.
  { eapply same_target_trans; [|exact Hc3].
    eapply same_target_trans; [|exact Hc2]. repeat split. }
  exists c3, w3. split.
  - erewrite pbind_resolved by reflexivity.
    erewrite pbind_resolved by reflexivity.
    erewrite pbind_resolved by exact Hauth.
    erewrite pbind_resolved by exact Hh.
    apply validation_accepted. rewrite (accepted_same_target _ _ Hc). exact Hok.
  - split; [|split; [exact Hc|]].
    + eapply only_reads_trans; [|exact Hw3].
      eapply only_reads_trans; [|exact Hw2]. repeat split.
    + rewrite Hid3, Hid2. reflexivity.
Qed.

(** *** One call of the instance *)

Lemma instance_S fuel request w :
  instance (S fuel) request w
  = settle (chain (refresh_through (instance fuel)) request)
      (fun prepared =>
         match prepared with
         | Resolved config =>
             settle (dispatch network config)
               (response_interceptors (refresh_through (instance fuel))
                  (instance fuel) config)
         | Rejected error =>
             response_interceptors (refresh_through (instance fuel))
               (instance fuel) request (Rejected error)
         end) w.
Proof. reflexivity. Qed.

(** A response goes through the response interceptors as it is. *)
Lemma response_interceptors_resolved refresh replay sent response w :
  exists w',
    response_interceptors refresh replay sent (Resolved response) w
    = Some (Resolved response, w') /\ quiet w w'.
Proof.
  unfold response_interceptors, settle, handed_on, authResponse, errorTransform,
    onFulfilled.
  destruct (rq_requestId (config response)) as [rid|].
  - destruct (negb (String.eqb rid "") && bool_decide (rid ∈ w_refreshPromises w));
      eexists; (split; [reflexivity|]); repeat split.
  - eexists; (split; [reflexivity|]); repeat split.
Qed.

(** An error that is not a first 401 goes through them to the last one,
    which makes an [ApiError] of it. *)
Lemma response_interceptors_rejected refresh replay sent error w :
  response_status_is error 401 && negb (rq_retry sent) = false ->
  exists w',
    response_interceptors refresh replay sent (Rejected error) w
    = Some (Rejected (ApiErrors.fromAxiosError error (config_requestId error sent)),
            w') /\
    quiet w w' /\ w_refreshPromises w' = w_refreshPromises w.
Proof.
  intros Hno.
  unfold response_interceptors, settle, handed_on, authResponse, errorTransform,
    onRejected.
  rewrite Hno.
  destruct (response_status_is error 403);
    eexists; (split; [reflexivity|]); repeat split.
Qed.

(** The instance on an accepted request whose answer is not a first 401:
    one request to the network; its response, or the [ApiError] made of its
    error. *)
Lemma instance_plain fuel request w answer :
  never_due ->
  accepted request = true ->
  (forall config, network (length (w_sent w)) config = answer) ->
  match answer with
  | Resolved _ => True
  | Rejected error =>
      response_status_is error 401 && negb (rq_retry request) = false
  end ->
  exists config w',
    instance (S fuel) request w
    = Some (match answer with
            | Resolved response => Resolved (answered response config)
            | Rejected error =>
                Rejected (ApiErrors.fromAxiosError error
                            (config_requestId error config))
            end, w') /\
    w_auth w' = w_auth w /\ w_sent w' = (w_sent w ++ [config])%list /\
    same_target request config.
Proof.
  intros Hdue Hok Hnet Hplain. rewrite instance_S.
  destruct (request_interceptors_not_due (refresh_through (instance fuel))
              request w Hdue Hok) as (config & w1 & Hchain & Hw1 & Hc & _).
  destruct Hw1 as (Ha1 & _ & Hs1 & _).
  erewrite settle_settled by exact Hchain. cbv beta iota.
  erewrite settle_settled by reflexivity.
  rewrite Hs1, Hnet.
  destruct answer as [response|error].
  - destruct (response_interceptors_resolved (refresh_through (instance fuel))
                (instance fuel) config (answered response config)
                (mkWorld (w_auth w1) (w_refreshPromises w1)
                   (w_sent w ++ [config]) (w_log w1) (w_reads w1)))
      as (w' & Hres & Ha & Hs).
    exists config, w'. split; [exact Hres|]. cbn [w_auth w_sent] in *.
    repeat split; try congruence; apply Hc.
  - destruct (response_interceptors_rejected (refresh_through (instance fuel))
                (instance fuel) config error
                (mkWorld (w_auth w1) (w_refreshPromises w1)
                   (w_sent w ++ [config]) (w_log w1) (w_reads w1)))
      as (w' & Hres & (Ha & Hs) & _).
    { destruct Hc as (_ & _ & _ & _ & _ & Hr). rewrite Hr. exact Hplain. }
    exists config, w'. split; [exact Hres|]. cbn [w_auth w_sent] in *.
    repeat split; try congruence; apply Hc.
Qed.

(** *** The refresh of the manager, sent through the instance *)

(** The request to the refresh endpoint is one the validation interceptor
    accepts. *)
Lemma refresh_request_accepted stored :
  refreshEndpoint <> "" -> accepted (refresh_request refreshEndpoint stored) = true.
Proof.
  intros Hne. unfold accepted, refresh_request. cbn [rq_url rq_method].
  apply String.eqb_neq in Hne. rewrite Hne. reflexivity.
Qed.

(** A refresh that finds another one in flight and not settled never
    returns. *)
Lemma refreshToken_in_flight post w p :
  Auth.enabled (Auth.manager (w_auth w)) = true ->
  Auth.refreshPromise (Auth.manager (w_auth w)) = Some p ->
  Auth.settled (w_auth w) !! p = None ->
  refresh_through post w = None.
Proof.
  intros Hen Hp Hs. unfold refreshToken, Auth.refreshToken.
  rewrite Hen, Hp. cbn [negb]. cbv iota. rewrite Hs. reflexivity.
Qed.

(** The guards of the refresh fail: no request is made. *)
Lemma refreshToken_guarded post w e :
  Auth.enabled (Auth.manager (w_auth w)) = true ->
  Auth.refreshPromise (Auth.manager (w_auth w)) = None ->
  Auth.refresh_guard (Auth.manager (w_auth w))
    (Auth.stored_refreshToken (Auth.storage (Auth.manager (w_auth w)))) = Some e ->
  exists w',
    refresh_through post w = Some (Rejected e, w') /\
    w_sent w' = w_sent w /\
    Auth.enabled (Auth.manager (w_auth w')) = true.
Proof.
  intros Hen Hidle Hguard. unfold refreshToken, Auth.refreshToken.
  rewrite Hen, Hidle. cbn [negb]. cbv iota.
  unfold Auth.resume. cbn [Auth.tasks Auth.manager]. rewrite lookup_insert_eq.
  assert (Auth.refresh_guard
            (Auth.with_refreshPromise (Auth.manager (w_auth w))
               (Some (Auth.created (w_auth w))))
            (Auth.stored_refreshToken (Auth.storage (Auth.manager (w_auth w))))
          = Some e) as Hg by exact Hguard.
  rewrite Hg. cbn [Auth.tasks]. rewrite lookup_delete_eq.
  unfold await_settled, Auth.finally. cbn [w_auth with_auth Auth.settled Auth.waiting].
  rewrite lookup_insert_eq.
  rewrite bool_decide_eq_true_2
      by (apply elem_of_union_l, elem_of_singleton; reflexivity).
  cbn [Auth.settled]. rewrite lookup_insert_eq.
  eexists. split; [reflexivity|]. split; [reflexivity|]. exact Hen.
Qed.

(** The guards pass and the refresh endpoint does not answer 401: one
    request, whose answer decides. *)
Lemma refreshToken_posts fuel w stored answer :
  never_due ->
  refreshEndpoint <> "" ->
  Auth.enabled (Auth.manager (w_auth w)) = true ->
  Auth.refreshPromise (Auth.manager (w_auth w)) = None ->
  Auth.stored_refreshToken (Auth.storage (Auth.manager (w_auth w))) = Some stored ->
  stored <> "" ->
  Auth.axiosInstance (Auth.manager (w_auth w)) = true ->
  (forall config, network (length (w_sent w)) config = answer) ->
  match answer with
  | Resolved _ => True
  | Rejected error => response_status_is error 401 = false
  end ->
  exists post o w',
    refresh_through (instance (S fuel)) w = Some (o, w') /\
    w_sent w' = (w_sent w ++ [post])%list /\
    same_target (refresh_request refreshEndpoint stored) post /\
    match answer with
    | Resolved response =>
        o = Resolved (Auth.ar_accessToken (authData (answered response post))) /\
        Auth.stored_accessToken (Auth.storage (Auth.manager (w_auth w')))
        = Some (Auth.ar_accessToken (authData (answered response post)))
    | Rejected _ =>
        o = Rejected (AuthError "Token refresh failed" REFRESH_TOKEN_EXPIRED None) /\
        Auth.storage (Auth.manager (w_auth w')) = Auth.mkTokenStorage None None
    end.
Proof.
  intros Hdue Hne Hen Hidle Hstored Htruthy Hax Hnet Hplain.
  unfold refreshToken, Auth.refreshToken.
  rewrite Hen, Hidle. cbn [negb]. cbv iota.
  unfold Auth.resume. cbn [Auth.tasks Auth.manager]. rewrite lookup_insert_eq.
  unfold Auth.refresh_guard. rewrite Hstored.
  cbn [Auth.truthy_string Auth.axiosInstance Auth.with_refreshPromise].
  apply String.eqb_neq in Htruthy. rewrite Htruthy, Hax. cbn [negb]. cbv iota.
  cbn [Auth.tasks]. rewrite lookup_insert_eq. cbn [default].
  set (a1 := Auth.mkState _ _ _ _ _ _).
  destruct (instance_plain fuel (refresh_request refreshEndpoint stored)
              (with_auth w a1) answer Hdue
              (refresh_request_accepted stored Hne) Hnet)
    as (post & w2 & Hpost & Ha2 & Hs2 & Hc2).
  { destruct answer as [|error]; [exact I|]. rewrite Hplain. reflexivity. }
  erewrite settle_settled by exact Hpost. cbv beta.
  cbn [w_auth with_auth w_sent] in Ha2, Hs2.
  rewrite Ha2. unfold Auth.respond. subst a1. cbn [Auth.tasks].
  rewrite lookup_insert_eq.
  exists post.
  destruct answer as [response|error].
  - cbn [Auth.refresh_finish Auth.manager].
    unfold await_settled, Auth.finally.
    cbn [w_auth with_auth Auth.settled Auth.waiting].
    rewrite lookup_insert_eq.
    rewrite bool_decide_eq_true_2
      by (apply elem_of_union_l, elem_of_singleton; reflexivity).
    cbn [Auth.settled]. rewrite lookup_insert_eq.
    eexists _, _. split; [reflexivity|]. split; [exact Hs2|]. split; [exact Hc2|].
    split; [reflexivity|].
    cbn [w_auth with_auth Auth.manager Auth.with_refreshPromise Auth.storage].
    unfold Auth.setTokens, Auth.with_refreshPromise. cbn [Auth.enabled].
    rewrite Hen. reflexivity.
  - assert (Auth.refresh_failure_message
              (ApiErrors.fromAxiosError error (config_requestId error post))
            = "Token refresh failed") as Hmsg by reflexivity.
    cbn [Auth.refresh_finish Auth.manager]. rewrite Hmsg.
    unfold await_settled, Auth.finally.
    cbn [w_auth with_auth Auth.settled Auth.waiting].
    rewrite lookup_insert_eq.
    rewrite bool_decide_eq_true_2
      by (apply elem_of_union_l, elem_of_singleton; reflexivity).
    cbn [Auth.settled]. rewrite lookup_insert_eq.
    eexists _, _. split; [reflexivity|]. split; [exact Hs2|]. split; [exact Hc2|].
    split; reflexivity.
Qed.

(** *** A 401 while a refresh is in flight *)

(** The interceptor awaits the refresh in flight: its call never returns. *)
Lemma handleUnauthorized_in_flight post replay error request w p :
  Auth.enabled (Auth.manager (w_auth w)) = true ->
  rq_retry request = false ->
  Auth.refreshPromise (Auth.manager (w_auth w)) = Some p ->
  Auth.settled (w_auth w) !! p = None ->
  handleUnauthorized (refresh_through post) (fun _ => None) replay error request w
  = None.
Proof.
  intros Hen Hr Hp Hs. unfold handleUnauthorized. rewrite Hen, Hr. cbn [negb].
  destruct (bool_decide (requestId_of request ∈ w_refreshPromises w));
    [reflexivity|].
  apply ptry_catch_never.
  erewrite pbind_resolved by reflexivity.
  erewrite pbind_resolved by reflexivity.
  apply pbind_never. unfold performTokenRefreshAndRetry.
  apply ptry_catch_never. apply pbind_never.
  apply refreshToken_in_flight with (p := p); assumption.
Qed.

(** So does the call of the instance whose request is answered 401. *)
Lemma instance_in_flight fuel request w p error :
  never_due ->
  accepted request = true ->
  rq_retry request = false ->
  Auth.enabled (Auth.manager (w_auth w)) = true ->
  Auth.refreshPromise (Auth.manager (w_auth w)) = Some p ->
  Auth.settled (w_auth w) !! p = None ->
  (forall config, network (length (w_sent w)) config = Rejected error) ->
  response_status_is error 401 = true ->
  instance fuel request w = None.
Proof.
  intros Hdue Hok Hr Hen Hp Hs Hnet H401.
  destruct fuel as [|fuel]; [reflexivity|]. rewrite instance_S.
  destruct (request_interceptors_not_due (refresh_through (instance fuel))
              request w Hdue Hok) as (config & w1 & Hchain & Hw1 & Hc & _).
  destruct Hw1 as (Ha1 & _ & Hs1 & _).
  erewrite settle_settled by exact Hchain. cbv beta iota.
  erewrite settle_settled by reflexivity.
  rewrite Hs1, Hnet.
  unfold response_interceptors.
  apply settle_never. apply settle_never.
  erewrite settle_settled by reflexivity.
  unfold authResponse, onRejected.
  destruct Hc as (_ & _ & _ & _ & _ & Hr'). rewrite H401, Hr', Hr.
  cbn [negb andb].
  apply handleUnauthorized_in_flight with (p := p); cbn [w_auth];
    congruence.
Qed.

(** The refresh endpoint answers 401: the refresh never returns. *)
Lemma refreshToken_unauthorized fuel w stored error :
  never_due ->
  refreshEndpoint <> "" ->
  Auth.enabled (Auth.manager (w_auth w)) = true ->
  Auth.refreshPromise (Auth.manager (w_auth w)) = None ->
  Auth.settled (w_auth w) !! Auth.created (w_auth w) = None ->
  Auth.stored_refreshToken (Auth.storage (Auth.manager (w_auth w))) = Some stored ->
  stored <> "" ->
  Auth.axiosInstance (Auth.manager (w_auth w)) = true ->
  (forall config, network (length (w_sent w)) config = Rejected error) ->
  response_status_is error 401 = true ->
  refresh_through (instance fuel) w = None.
Proof.
  intros Hdue Hne Hen Hidle Hfresh Hstored Htruthy Hax Hnet H401.
  unfold refreshToken, Auth.refreshToken.
  rewrite Hen, Hidle. cbn [negb]. cbv iota.
  unfold Auth.resume. cbn [Auth.tasks Auth.manager]. rewrite lookup_insert_eq.
  unfold Auth.refresh_guard. rewrite Hstored.
  cbn [Auth.truthy_string Auth.axiosInstance Auth.with_refreshPromise].
  apply String.eqb_neq in Htruthy. rewrite Htruthy, Hax. cbn [negb]. cbv iota.
  cbn [Auth.tasks]. rewrite lookup_insert_eq. cbn [default].
  apply settle_never.
  apply instance_in_flight with (p := Auth.created (w_auth w)) (error := error);
    try assumption; try reflexivity.
  - apply refresh_request_accepted. exact Hne.
Qed.

(** *** The protocol of the interceptor *)

(** The error with which the interceptor ends when the refresh or the replay
    failed. *)
Definition refresh_failed : JsError :=
  AuthError "Failed to refresh authentication token" REFRESH_TOKEN_EXPIRED None.

(** The stored tokens of a world. *)
Definition stored_tokens (w : World) : Auth.TokenStorage :=
  Auth.storage (Auth.manager (w_auth w)).

(** The world in which the refresh starts, and the one in which the replay
    starts. *)
Definition attempting (requestId : string) (w : World) : World :=
  mkWorld (w_auth w) ({[requestId]} ∪ w_refreshPromises w) (w_sent w)
    (w_log w ++ [LogAuth "token_refresh_attempt" requestId]) (w_reads w).

Definition refreshed (requestId : string) (w : World) : World :=
  mkWorld (w_auth w) (w_refreshPromises w) (w_sent w)
    (w_log w ++ [LogAuth "token_refreshed" requestId]) (w_reads w).

(** The request that [performTokenRefreshAndRetry] replays: the marked
    request with the new token in the authorization header and [skipRetry]
    set. *)
Definition replayed (m : Auth.AuthManager) (request : RequestConfig)
    (newToken : string) : RequestConfig :=
  mkRequestConfig (rq_method request) (rq_url request)
    (set_header (rq_headers request) (Auth.tokenHeader m)
       (Auth.bearerPrefix m +:+ " " +:+ newToken))
    (rq_params request) (rq_data request) (rq_cache request)
    (rq_skipAuth request) (rq_skipCache request) true true
    (rq_requestId request).

Section Protocol.

Variable refresh : PM World string.
Variable inflight : string -> option (Outcome Response).
Variable replay : RequestConfig -> PM World Response.
Variable error : JsError.
Variable request : RequestConfig.
Variable w : World.

Hypothesis Henabled : Auth.enabled (Auth.manager (w_auth w)) = true.
Hypothesis Hunmarked : rq_retry request = false.
Hypothesis Hnew : requestId_of request ∉ w_refreshPromises w.

Local Abbreviation handle :=
  (handleUnauthorized refresh inflight replay error request w).

(** The refresh fails: no replay, the tokens are cleared. *)
Lemma handleUnauthorized_refresh_failed e w2 :
  refresh (attempting (requestId_of request) w) = Some (Rejected e, w2) ->
  exists w',
    handle = Some (Rejected refresh_failed, w') /\
    w_sent w' = w_sent w2 /\
    stored_tokens w' = Auth.mkTokenStorage None None.
Proof.
  intros Hrefresh. unfold handleUnauthorized.
  rewrite Henabled, Hunmarked. cbn [negb].
  rewrite bool_decide_eq_false_2 by exact Hnew.
  erewrite ptry_catch_rejected.
  2:{ erewrite pbind_resolved by reflexivity.
      erewrite pbind_resolved by reflexivity.
      erewrite pbind_rejected; [reflexivity|].
      unfold performTokenRefreshAndRetry.
      erewrite ptry_catch_rejected; [reflexivity|].
      erewrite pbind_rejected; [reflexivity|]. exact Hrefresh. }
  eexists. split; [reflexivity|]. split; reflexivity.
Qed.

(** The refresh never returns: nor does the interceptor. *)
Lemma handleUnauthorized_refresh_never :
  refresh (attempting (requestId_of request) w) = None -> handle = None.
Proof.
  intros Hrefresh. unfold handleUnauthorized.
  rewrite Henabled, Hunmarked. cbn [negb].
  rewrite bool_decide_eq_false_2 by exact Hnew.
  apply ptry_catch_never.
  erewrite pbind_resolved by reflexivity.
  erewrite pbind_resolved by reflexivity.
  apply pbind_never. unfold performTokenRefreshAndRetry.
  apply ptry_catch_never. apply pbind_never. exact Hrefresh.
Qed.

(** The refresh succeeds: the marked request is replayed, and the outcome
    of the replay decides. *)
Lemma handleUnauthorized_replays newToken w2 o w3 :
  refresh (attempting (requestId_of request) w) = Some (Resolved newToken, w2) ->
  replay (replayed (Auth.manager (w_auth w2)) request newToken)
    (refreshed (requestId_of request) w2) = Some (o, w3) ->
  exists w',
    w_sent w' = w_sent w3 /\
    match o with
    | Resolved response =>
        handle = Some (Resolved response, w') /\ w_auth w' = w_auth w3
    | Rejected _ =>
        handle = Some (Rejected refresh_failed, w') /\
        stored_tokens w' = Auth.mkTokenStorage None None
    end.
Proof.
  intros Hrefresh Hreplay. unfold handleUnauthorized.
  rewrite Henabled, Hunmarked. cbn [negb].
  rewrite bool_decide_eq_false_2 by exact Hnew.
  assert (performTokenRefreshAndRetry refresh replay (mark_retried request)
            (requestId_of request)
            (attempting (requestId_of request) w)
          = match o with
            | Resolved response => Some (Resolved response, w3)
            | Rejected _ => Some (Rejected refresh_failed, w3)
            end) as Hperform.
  { unfold performTokenRefreshAndRetry.
    assert ((newToken <- refresh ;;
             logAuth "token_refreshed" (requestId_of request) ;;
             (fun w0 =>
                replay
                  (mkRequestConfig (rq_method (mark_retried request))
                     (rq_url (mark_retried request))
                     (set_header (rq_headers (mark_retried request))
                        (Auth.tokenHeader (Auth.manager (w_auth w0)))
                        (Auth.bearerPrefix (Auth.manager (w_auth w0))
                         +:+ " " +:+ newToken))
                     (rq_params (mark_retried request))
                     (rq_data (mark_retried request))
                     (rq_cache (mark_retried request))
                     (rq_skipAuth (mark_retried request))
                     (rq_skipCache (mark_retried request)) true
                     (rq_retry (mark_retried request))
                     (rq_requestId (mark_retried request))) w0))%partial
              (attempting (requestId_of request) w) = Some (o, w3)) as Hbody.
    { erewrite pbind_resolved by exact Hrefresh.
      erewrite pbind_resolved by reflexivity. exact Hreplay. }
    destruct o as [response|e].
    - erewrite ptry_catch_resolved; [reflexivity|exact Hbody].
    - erewrite ptry_catch_rejected; [reflexivity|exact Hbody]. }
  destruct o as [response|e].
  - erewrite ptry_catch_resolved.
    2:{ erewrite pbind_resolved by reflexivity.
        erewrite pbind_resolved by reflexivity.
        erewrite pbind_resolved by exact Hperform.
        erewrite pbind_resolved by reflexivity. reflexivity. }
    eexists. split; [|split; [reflexivity|]]; reflexivity.
  - erewrite ptry_catch_rejected.
    2:{ erewrite pbind_resolved by reflexivity.
        erewrite pbind_resolved by reflexivity.
        erewrite pbind_rejected; [reflexivity|exact Hperform]. }
    eexists. split; [|split; [reflexivity|]]; reflexivity.
Qed.

End Protocol.

(** *** A request that the network answers with 401 *)

(** The error the caller of the instance gets when the interceptor ended
    with [refresh_failed]: the [ApiError] that the error transform
    interceptor makes of it. *)
Definition failure : JsError := ApiErrors.fromAxiosError refresh_failed None.

(** [replay] is [request] again, marked as retried. *)
Definition replay_of (request replay : RequestConfig) : Prop :=
  rq_method replay = rq_method request /\ rq_url replay = rq_url request /\
  rq_params replay = rq_params request /\ rq_data replay = rq_data request /\
  rq_retry replay = true.

Section Unauthorized.

Variable request : RequestConfig.
Variable w : World.
Variable error : JsError.

Hypothesis Hdue : never_due.
Hypothesis Hendpoint : refreshEndpoint <> "".
Hypothesis Haccepted : accepted request = true.
Hypothesis Hunmarked : rq_retry request = false.
Hypothesis Henabled : Auth.enabled (Auth.manager (w_auth w)) = true.
Hypothesis Hidle : Auth.refreshPromise (Auth.manager (w_auth w)) = None.
Hypothesis Hnone : w_refreshPromises w = ∅.
Hypothesis Hnetwork :
  forall config, network (length (w_sent w)) config = Rejected error.
Hypothesis H401 : response_status_is error 401 = true.

(** Up to the interceptor: the request goes out once, and the 401 reaches
    [handleUnauthorized]. *)
Lemma unauthorized_start fuel :
  exists first w1,
    same_target request first /\
    w_auth w1 = w_auth w /\ w_refreshPromises w1 = ∅ /\
    w_sent w1 = (w_sent w ++ [first])%list /\
    instance (S fuel) request w
    = settle
        (settle
           (handleUnauthorized (refresh_through (instance fuel)) (fun _ => None)
              (instance fuel) error first)
           handed_on)
        (errorTransform first) w1.
Proof.
  rewrite instance_S.
  destruct (request_interceptors_not_due (refresh_through (instance fuel))
              request w Hdue Haccepted) as (first & w0 & Hchain & Hw0 & Hc & _).
  destruct Hw0 as (Ha0 & Hp0 & Hs0 & _).
  erewrite settle_settled by exact Hchain. cbv beta iota.
  erewrite settle_settled by reflexivity.
  rewrite Hs0, Hnetwork.
  exists first. eexists. split; [exact Hc|].
  split; [|split; [|split]]; cycle 3.
  - unfold response_interceptors.
    apply settle_same, settle_same.
    erewrite settle_settled by reflexivity.
    unfold authResponse, onRejected.
    destruct Hc as (_ & _ & _ & _ & _ & Hr). rewrite H401, Hr, Hunmarked.
    cbn [negb andb]. reflexivity.
  - cbn [w_auth]. exact Ha0.
  - cbn [w_refreshPromises]. congruence.
  - reflexivity.
Qed.

(** What the caller gets of what the interceptor ended with. *)
Lemma unauthorized_end (handle : PM World Response) first w1 o w' :
  handle w1 = Some (o, w') ->
  settle (settle handle handed_on) (errorTransform first) w1
  = Some (match o with
          | Resolved response => Resolved response
          | Rejected e =>
              Rejected (ApiErrors.fromAxiosError e (config_requestId e first))
          end, w').
Proof. intros H. unfold settle. rewrite H. destruct o; reflexivity. Qed.

(** The guards of the refresh fail: one request in all. *)
Lemma unauthorized_guarded fuel e :
  Auth.refresh_guard (Auth.manager (w_auth w))
    (Auth.stored_refreshToken (Auth.storage (Auth.manager (w_auth w)))) = Some e ->
  exists first w',
    instance (S (S fuel)) request w = Some (Rejected failure, w') /\
    same_target request first /\
    w_sent w' = (w_sent w ++ [first])%list /\
    stored_tokens w' = Auth.mkTokenStorage None None.
Proof.
  intros Hguard.
  destruct (unauthorized_start (S fuel))
    as (first & w1 & Hc & Ha1 & Hp1 & Hs1 & Hstart).
  rewrite Hstart.
  destruct (refreshToken_guarded (instance (S fuel))
              (attempting (requestId_of first) w1) e)
    as (w2 & Hrefresh & Hs2 & _);
    try (cbn [w_auth attempting]; rewrite Ha1; assumption).
  destruct (handleUnauthorized_refresh_failed (refresh_through (instance (S fuel)))
              (fun _ => None) (instance (S fuel)) error first w1)
    with (e := e) (w2 := w2) as (w' & Hhandle & Hs' & Htokens);
    try assumption.
  - rewrite Ha1. exact Henabled.
  - destruct Hc as (_ & _ & _ & _ & _ & Hr). congruence.
  - rewrite Hp1. apply not_elem_of_empty.
  - exists first, w'. split.
    + erewrite unauthorized_end by exact Hhandle. reflexivity.
    + split; [exact Hc|]. split; [|exact Htokens].
      rewrite Hs', Hs2. exact Hs1.
Qed.

Section Posted.

Variable stored : string.
Hypothesis Hstored :
  Auth.stored_refreshToken (Auth.storage (Auth.manager (w_auth w))) = Some stored.
Hypothesis Htruthy : stored <> "".
Hypothesis Htransport : Auth.axiosInstance (Auth.manager (w_auth w)) = true.

(** The refresh endpoint refuses otherwise than with 401: two requests in
    all. *)
Lemma unauthorized_refresh_rejected fuel error1 :
  (forall config, network (S (length (w_sent w))) config = Rejected error1) ->
  response_status_is error1 401 = false ->
  exists first post w',
    instance (S (S fuel)) request w = Some (Rejected failure, w') /\
    same_target request first /\
    same_target (refresh_request refreshEndpoint stored) post /\
    w_sent w' = (w_sent w ++ [first; post])%list /\
    stored_tokens w' = Auth.mkTokenStorage None None.
Proof.
  intros Hnet1 Hnot.
  destruct (unauthorized_start (S fuel))
    as (first & w1 & Hc & Ha1 & Hp1 & Hs1 & Hstart).
  rewrite Hstart.
  destruct (refreshToken_posts fuel (attempting (requestId_of first) w1) stored
              (Rejected error1))
    as (post & o & w2 & Hrefresh & Hs2 & Hc2 & Ho & _);
    try (cbn [w_auth attempting]; rewrite Ha1; assumption); try assumption.
  { intros config. cbn [w_sent attempting]. rewrite Hs1, length_app.
    cbn [length]. rewrite Nat.add_1_r. apply Hnet1. }
  subst o.
  destruct (handleUnauthorized_refresh_failed (refresh_through (instance (S fuel)))
              (fun _ => None) (instance (S fuel)) error first w1)
    with (e := AuthError "Token refresh failed" REFRESH_TOKEN_EXPIRED None)
         (w2 := w2) as (w' & Hhandle & Hs' & Htokens);
    try assumption.
  - rewrite Ha1. exact Henabled.
  - destruct Hc as (_ & _ & _ & _ & _ & Hr). congruence.
  - rewrite Hp1. apply not_elem_of_empty.
  - exists first, post, w'. split.
    + erewrite unauthorized_end by exact Hhandle. reflexivity.
    + split; [exact Hc|]. split; [exact Hc2|]. split; [|exact Htokens].
      rewrite Hs', Hs2. cbn [w_sent attempting]. rewrite Hs1, <- app_assoc.
      reflexivity.
Qed.

(** The refresh endpoint answers 401: the call never returns. *)
Lemma unauthorized_refresh_unauthorized fuel error1 :
  Auth.settled (w_auth w) !! Auth.created (w_auth w) = None ->
  (forall config, network (S (length (w_sent w))) config = Rejected error1) ->
  response_status_is error1 401 = true ->
  instance fuel request w = None.
Proof.
  intros Hfresh Hnet1 H401'.
  destruct fuel as [|fuel]; [reflexivity|].
  destruct (unauthorized_start fuel)
    as (first & w1 & Hc & Ha1 & Hp1 & Hs1 & Hstart).
  rewrite Hstart.
  apply settle_never, settle_never.
  apply handleUnauthorized_refresh_never.
  - rewrite Ha1. exact Henabled.
  - destruct Hc as (_ & _ & _ & _ & _ & Hr). congruence.
  - rewrite Hp1. apply not_elem_of_empty.
  - apply refreshToken_unauthorized with (stored := stored) (error := error1);
      try (cbn [w_auth attempting]; rewrite Ha1; assumption); try assumption.
    intros config. cbn [w_sent attempting]. rewrite Hs1, length_app.
    cbn [length]. rewrite Nat.add_1_r. apply Hnet1.
Qed.

(** The refresh succeeds: three requests in all, the third one the replay,
    whose answer decides. *)
Lemma unauthorized_replayed fuel response answer :
  (forall config, network (S (length (w_sent w))) config = Resolved response) ->
  (forall config, network (S (S (length (w_sent w)))) config = answer) ->
  exists first post replay w',
    same_target request first /\
    same_target (refresh_request refreshEndpoint stored) post /\
    replay_of request replay /\
    w_sent w' = (w_sent w ++ [first; post; replay])%list /\
    match answer with
    | Resolved response2 =>
        instance (S (S fuel)) request w
        = Some (Resolved (answered response2 replay), w') /\
        Auth.stored_accessToken (stored_tokens w')
        = Some (Auth.ar_accessToken (authData (answered response post)))
    | Rejected _ =>
        instance (S (S fuel)) request w = Some (Rejected failure, w') /\
        stored_tokens w' = Auth.mkTokenStorage None None
    end.
Proof.
  intros Hnet1 Hnet2.
  destruct (unauthorized_start (S fuel))
    as (first & w1 & Hc & Ha1 & Hp1 & Hs1 & Hstart).
  rewrite Hstart.
  destruct (refreshToken_posts fuel (attempting (requestId_of first) w1) stored
              (Resolved response))
    as (post & o & w2 & Hrefresh & Hs2 & Hc2 & Ho & Htoken);
    try (cbn [w_auth attempting]; rewrite Ha1; assumption); try assumption;
    try exact I.
  { intros config. cbn [w_sent attempting]. rewrite Hs1, length_app.
    cbn [length]. rewrite Nat.add_1_r. apply Hnet1. }
  subst o. cbn [w_sent attempting] in Hs2.
  set (newToken := Auth.ar_accessToken (authData (answered response post))) in *.
  set (marked := replayed (Auth.manager (w_auth w2)) first newToken).
  destruct Hc as (Hm & Hu & Hpa & Hd & Hsk & Hr).
  destruct (instance_plain fuel marked (refreshed (requestId_of first) w2) answer
              Hdue)
    as (replay & w3 & Hreplay & Ha3 & Hs3 & Hc3).
  { unfold accepted, marked, replayed. cbn [rq_url rq_method].
    rewrite Hm, Hu. exact Haccepted. }
  { intros config. cbn [w_sent refreshed]. rewrite Hs2, Hs1, !length_app.
    cbn [length]. rewrite !Nat.add_1_r. apply Hnet2. }
  { destruct answer as [|e]; [exact I|]. unfold marked, replayed.
    cbn [rq_retry negb]. apply andb_false_r. }
  cbn [w_sent w_auth refreshed] in Ha3, Hs3.
  destruct (handleUnauthorized_replays (refresh_through (instance (S fuel)))
              (fun _ => None) (instance (S fuel)) error first w1)
    with (newToken := newToken) (w2 := w2)
         (o := match answer with
               | Resolved response2 => Resolved (answered response2 replay)
               | Rejected e =>
                   Rejected (ApiErrors.fromAxiosError e
                               (config_requestId e replay))
               end) (w3 := w3) as (w' & Hs' & Hcase);
    try assumption.
  - rewrite Ha1. exact Henabled.
  - congruence.
  - rewrite Hp1. apply not_elem_of_empty.
  - exists first, post, replay, w'.
    split; [repeat split; assumption|]. split; [exact Hc2|].
    split.
    { destruct Hc3 as (Hm3 & Hu3 & Hpa3 & Hd3 & _ & Hr3).
      unfold marked, replayed in *. cbn [rq_method rq_url rq_params rq_data rq_retry] in *.
      repeat split; congruence. }
    split.
    { rewrite Hs', Hs3, Hs2, Hs1, <- !app_assoc. reflexivity. }
    destruct answer as [response2|e].
    + destruct Hcase as [Hhandle Ha']. split.
      * erewrite unauthorized_end by exact Hhandle. reflexivity.
      * unfold stored_tokens. rewrite Ha', Ha3. exact Htoken.
    + destruct Hcase as [Hhandle Htokens]. split; [|exact Htokens].
      erewrite unauthorized_end by exact Hhandle. reflexivity.
Qed.

End Posted.

End Unauthorized.

End Client.

(** *** The error the caller gets *)

(** It is an [ApiError] with the code [NETWORK_ERROR], not an [AuthError];
    the [AuthError] of the interceptor is its cause. *)
Lemma failure_fields :
  instanceof failure CAuthError = false /\
  instanceof failure CApiError = true /\
  e_code failure = Some "NETWORK_ERROR" /\
  e_isRetryable failure = true /\
  e_cause failure = Some refresh_failed /\
  instanceof refresh_failed CAuthError = true.
Proof. repeat split. Qed.

(** The default retry condition of any retry manager accepts it. *)
Lemma failure_retryable rm : Retry.defaultRetryCondition rm failure = true.
Proof. reflexivity. Qed.

(** The loop of the retry manager never forgets a call. *)
Lemma attempts_calls_at_least {T : Type} (operation : nat -> Outcome T) random
    rm options requestId maxAttempts' retryCondition' remaining :
  forall attempt s,
    (Retry.ls_calls s
     <= Retry.run_calls
          (Retry.attempts operation random rm options requestId maxAttempts'
             retryCondition' remaining attempt s))%nat.
Proof.
  induction remaining as [|remaining IH]; intros attempt s; cbn [Retry.attempts].
  - reflexivity.
  - rewrite RetryFacts.before_call_calls.
    destruct (operation (Retry.ls_calls s)) as [result|e].
    + cbn [Retry.run_calls]. lia.
    + destruct (Z.eqb attempt maxAttempts' || negb (retryCondition' e)).
      * cbn [Retry.exhausted Retry.run_calls Retry.ls_calls]. lia.
      * etransitivity; [|apply IH]. cbn [Retry.ls_calls]. lia.
Qed.

(** An iteration of the loop makes a call. *)
Lemma attempts_calls_more {T : Type} (operation : nat -> Outcome T) random
    rm options requestId maxAttempts' retryCondition' remaining attempt s :
  (S (Retry.ls_calls s)
   <= Retry.run_calls
        (Retry.attempts operation random rm options requestId maxAttempts'
           retryCondition' (S remaining) attempt s))%nat.
Proof.
  cbn [Retry.attempts]. rewrite RetryFacts.before_call_calls.
  destruct (operation (Retry.ls_calls s)) as [result|e].
  - cbn [Retry.run_calls]. lia.
  - destruct (Z.eqb attempt maxAttempts' || negb (retryCondition' e)).
    + cbn [Retry.exhausted Retry.run_calls Retry.ls_calls]. lia.
    + etransitivity; [|apply attempts_calls_at_least]. cbn [Retry.ls_calls]. lia.
Qed.

(** A retry manager that is enabled, with its default retry condition and
    two attempts or more, calls an operation again when its first call failed
    with this error. *)
Lemma failure_retried {T : Type} (operation : nat -> Outcome T) random rm :
  Retry.enabled rm = true ->
  Retry.retryCondition rm = None ->
  (2 <= Retry.maxAttempts rm)%Z ->
  operation 0%nat = Rejected failure ->
  (2 <= Retry.run_calls
          (Retry.executeWithRetry operation random rm Retry.noOptions None))%nat.
Proof.
  intros Hen Hcond Hmax Hfirst. unfold Retry.executeWithRetry, Retry.bypassed.
  rewrite Hen. cbn [negb andb].
  change (Retry.effectiveMaxAttempts rm Retry.noOptions) with (Retry.maxAttempts rm).
  assert (Retry.effectiveRetryCondition rm Retry.noOptions
          = Retry.defaultRetryCondition rm) as Hc.
  { unfold Retry.effectiveRetryCondition, Retry.configRetryCondition.
    rewrite Hcond. reflexivity. }
  rewrite Hc.
  assert (2 <= Z.to_nat (Retry.maxAttempts rm))%nat as Hnat.
  { apply (Z2Nat.inj_le 2) in Hmax; [exact Hmax|lia|lia]. }
  destruct (Z.to_nat (Retry.maxAttempts rm)) as [|[|remaining]] eqn:Hn;
    [inversion Hnat|lia|].
  rewrite (RetryFacts.attempts_continue operation random _ _ None
             (Retry.maxAttempts rm) _ (S remaining) 1%Z
             (Retry.mkLoopState None 0 [] [] (Retry.stats rm))
             failure Hfirst).
  - etransitivity; [|apply attempts_calls_more]. cbn [Retry.ls_calls]. lia.
  - apply Z.eqb_neq. lia.
  - apply failure_retryable.
Qed.

(** The promise that the next refresh creates is not settled yet. *)
Lemma reachable_fresh config initially s :
  Auth.reachable config initially s ->
  Auth.settled s !! Auth.created s = None.
Proof.
  intros Hreach.
  pose proof (AuthFacts.refresh_reachable_invariant config initially s Hreach)
    as Hinv.
  destruct (Auth.settled s !! Auth.created s) as [o|] eqn:Hsettled;
    [|reflexivity].
  pose proof (AuthFacts.inv_created_settled config s Hinv _ _ Hsettled). lia.
Qed.

(** *** A client, a request, and a network *)

Definition unauthorized : JsError :=
  mkJsError CAxiosError "Request failed with status code 401" None None None
            (Some (mkErrResponse 401 None)) None None false None None None.

Definition users_request : RequestConfig :=
  mkRequestConfig "GET" "/users/1" None None None None false false false false
    None.

Definition world_of (stored : Auth.TokenStorage) : World :=
  mkWorld (Auth.initial (Auth.mkAuthConfig None None None None None) stored)
    ∅ [] [] 0.

(** Tokens that carry no expiry claim. *)
Definition opaque (_ : string) : option Q := None.

Definition midnight (_ : nat) : Z := 0%Z.

Definition numbered (k : nat) : string := "req_" +:+ pretty k.

Definition timestamp (_ : nat) : string := "1970-01-01T00:00:00.000Z".

(** The refresh endpoint answers with the access token [B]. *)
Definition new_tokens : Response :=
  mkResponse 200 "OK" [] (Some (Js.JObj [("accessToken", Js.JStr "B")]))
    users_request false.

Definition read_B (_ : Response) : Auth.AuthResponse :=
  Auth.mkAuthResponse "B" None None.

(** A network that answers 401 to everything but the second request, the
    one to the refresh endpoint. *)
Definition refuses_users (k : nat) (_ : RequestConfig) : Outcome Response :=
  match k with
  | 1%nat => Resolved new_tokens
  | _ => Rejected unauthorized
  end.

(** C2. The replay-once protocol as the client runs it, on a request that
    the network answers with 401 and that is not yet marked as retried, when
    the coordinator is enabled and idle, no token is due for a refresh and
    the validation interceptor accepts the request.  The request goes out
    once, and the interceptor starts one credential refresh.
    - If the refresh cannot start (no refresh token, or no transport), no
      other request is made, the stored credentials are cleared, and the
      call fails.
    - If the refresh endpoint answers with a response, the request is
      replayed once, marked as retried, as the third and last request; the
      response of the replay is the result and the new access token is
      stored; if the replay fails, with 401 or otherwise, the stored
      credentials are cleared and the call fails.
    - If the refresh endpoint refuses otherwise than with 401, there is no
      replay, the stored credentials are cleared, and the call fails.
    - If the refresh endpoint answers 401, the call never returns.
    Where the call fails, the [AuthError] of the interceptor does not
    reach the caller: the caller gets an [ApiError] with the code
    [NETWORK_ERROR] whose cause is the [AuthError]; the default retry
    condition accepts it, and a retry manager that is enabled, with that
    condition and two attempts or more, calls the operation once more. *)
Theorem C2_replay_once
    (exp : string -> option Q) (clock : nat -> Z)
    (generateRequestId toISOString : nat -> string)
    (network : nat -> RequestConfig -> Outcome Response)
    (authData : Response -> Auth.AuthResponse)
    (defaultHeaders : list (string * string)) (refreshEndpoint : string)
    (config : Auth.AuthConfig) (initially : Auth.TokenStorage)
    (request : RequestConfig) (w : World) (error : JsError) :
  let instance :=
    axiosInstance exp clock generateRequestId toISOString network authData
      defaultHeaders refreshEndpoint in
  let m := Auth.manager (w_auth w) in
  let n := length (w_sent w) in
  never_due exp clock ->
  refreshEndpoint <> "" ->
  accepted request = true ->
  rq_retry request = false ->
  Auth.reachable config initially (w_auth w) ->
  Auth.enabled m = true ->
  Auth.refreshPromise m = None ->
  w_refreshPromises w = ∅ ->
  (forall sent, network n sent = Rejected error) ->
  response_status_is error 401 = true ->
  (forall e fuel,
      Auth.refresh_guard m (Auth.stored_refreshToken (Auth.storage m)) = Some e ->
      exists first w',
        instance (S (S fuel)) request w = Some (Rejected failure, w') /\
        same_target request first /\
        w_sent w' = (w_sent w ++ [first])%list /\
        stored_tokens w' = Auth.mkTokenStorage None None) /\
  (forall stored,
      Auth.stored_refreshToken (Auth.storage m) = Some stored ->
      stored <> "" ->
      Auth.axiosInstance m = true ->
      (forall response answer fuel,
          (forall sent, network (S n) sent = Resolved response) ->
          (forall sent, network (S (S n)) sent = answer) ->
          exists first post replay w',
            same_target request first /\
            same_target (refresh_request refreshEndpoint stored) post /\
            replay_of request replay /\
            w_sent w' = (w_sent w ++ [first; post; replay])%list /\
            match answer with
            | Resolved response2 =>
                instance (S (S fuel)) request w
                = Some (Resolved (answered response2 replay), w') /\
                Auth.stored_accessToken (stored_tokens w')
                = Some (Auth.ar_accessToken (authData (answered response post)))
            | Rejected _ =>
                instance (S (S fuel)) request w = Some (Rejected failure, w') /\
                stored_tokens w' = Auth.mkTokenStorage None None
            end) /\
      (forall error1 fuel,
          (forall sent, network (S n) sent = Rejected error1) ->
          response_status_is error1 401 = false ->
          exists first post w',
            instance (S (S fuel)) request w = Some (Rejected failure, w') /\
            same_target request first /\
            same_target (refresh_request refreshEndpoint stored) post /\
            w_sent w' = (w_sent w ++ [first; post])%list /\
            stored_tokens w' = Auth.mkTokenStorage None None) /\
      (forall error1 fuel,
          (forall sent, network (S n) sent = Rejected error1) ->
          response_status_is error1 401 = true ->
          instance fuel request w = None)) /\
  instanceof failure CAuthError = false /\
  instanceof failure CApiError = true /\
  e_code failure = Some "NETWORK_ERROR" /\
  e_cause failure = Some refresh_failed /\
  instanceof refresh_failed CAuthError = true /\
  (forall rm, Retry.defaultRetryCondition rm failure = true) /\
  (forall (T : Type) (operation : nat -> Outcome T) random rm,
      Retry.enabled rm = true ->
      Retry.retryCondition rm = None ->
      (2 <= Retry.maxAttempts rm)%Z ->
      operation 0%nat = Rejected failure ->
      (2 <= Retry.run_calls
              (Retry.executeWithRetry operation random rm Retry.noOptions
                 None))%nat).
Proof.
  intros instance m n Hdue Hendpoint Haccepted Hunmarked Hreach Henabled Hidle
    Hnone Hnetwork H401.
  split; [|split].
  - intros e fuel Hguard. subst instance m n.
    eapply unauthorized_guarded; eassumption.
  - intros stored Hstored Htruthy Htransport. subst instance m n.
    split; [|split].
    + intros response answer fuel Hnet1 Hnet2.
      eapply unauthorized_replayed; eassumption.
    + intros error1 fuel Hnet1 Hnot.
      eapply unauthorized_refresh_rejected; eassumption.
    + intros error1 fuel Hnet1 H401'.
      eapply unauthorized_refresh_unauthorized; try eassumption.
      eapply reachable_fresh; eassumption.
  - destruct failure_fields as (H1 & H2 & H3 & _ & H5 & H6).
    repeat (split; [assumption|]). split.
    + exact failure_retryable.
    + intros T operation random rm. apply failure_retried.
Qed.

(** C2 on a request whose replay is answered 401 again: three requests, the
    stored tokens cleared, and an [ApiError] for the caller. *)
Lemma C2_replay_once_witness :
  exists first post replay w',
    axiosInstance opaque midnight numbered timestamp refuses_users read_B []
      "/auth/refresh" 2 users_request
      (world_of (Auth.mkTokenStorage (Some "A") (Some "R")))
    = Some (Rejected failure, w') /\
    w_sent w' = [first; post; replay] /\
    rq_url post = "/auth/refresh" /\
    replay_of users_request replay /\
    stored_tokens w' = Auth.mkTokenStorage None None.
Proof.
  destruct (C2_replay_once opaque midnight numbered timestamp refuses_users
              read_B [] "/auth/refresh"
              (Auth.mkAuthConfig None None None None None)
              (Auth.mkTokenStorage (Some "A") (Some "R"))
              users_request
              (world_of (Auth.mkTokenStorage (Some "A") (Some "R")))
              unauthorized)
    as (_ & Hposted & _).
  - intros m token k. reflexivity.
  - discriminate.
  - reflexivity.
  - reflexivity.
  - apply Auth.reachable_initial.
  - reflexivity.
  - reflexivity.
  - reflexivity.
  - intros sent. reflexivity.
  - reflexivity.
  - destruct (Hposted "R" eq_refl ltac:(discriminate) eq_refl) as (Hreplayed & _).
    destruct (Hreplayed new_tokens (Rejected unauthorized) 0%nat
                (fun _ => eq_refl) (fun _ => eq_refl))
      as (first & post & replay & w' & _ & Hpost & Hreplay & Hsent & Hresult
          & Htokens).
    exists first, post, replay, w'.
    split; [exact Hresult|]. split; [exact Hsent|].
    split; [apply Hpost|]. split; [exact Hreplay|exact Htokens].
Defined.

End InterceptorFacts.

(* ===================================================================== *)
(** ** Properties of the orchestrator *)
(* ===================================================================== *)
Module ClientFacts.
Import Errors Effect Http Client.

Section Facts.

Context {A : Type} `{Cache.CacheAdapter A}.
Variable serialize : Envelope -> string.
Variable deserialize : string -> Outcome Envelope.
Variable executeWithRetry :
  RequestConfig -> ApiRequestConfig -> M (ApiClient (A := A)) Response.

Local Abbreviation Client := (ApiClient (A := A)).

(** The cache probe never throws: whatever the cache does, the caller gets
    a response or a miss. *)
Lemma tryGetFromCache_total method url cfg now (c : Client) :
  exists r, fst (tryGetFromCache deserialize method url cfg now c) = Resolved r.
Proof.
  unfold tryGetFromCache.
  destruct (skipCache cfg || negb (Cache.cm_enabled (cacheManager c))
            || negb (String.eqb method "GET")); simpl; [eauto|].
  unfold try_catch, bind, on_cacheManager, zoom, log, modify, ret. simpl.
  destruct (Cache.get deserialize _ now (cacheManager c)) as [[[e|]|error] cm];
    simpl; eauto.
Qed.

(** A lookup that raises is logged and counts as a miss. *)
Lemma tryGetFromCache_failure method url cfg now (c : Client) error cm :
  skipCache cfg = false ->
  Cache.cm_enabled (cacheManager c) = true ->
  method = "GET" ->
  Cache.get deserialize
    (Cache.buildCacheKey url method (params cfg) (data cfg)) now (cacheManager c)
  = (Rejected error, cm) ->
  tryGetFromCache deserialize method url cfg now c
  = (Resolved None,
     mkApiClient cm (deduplicationManager c)
       (logger c ++ [LogWarn "Cache lookup failed" error])).
Proof.
  intros Hskip Hen -> Hget. unfold tryGetFromCache.
  rewrite Hskip, Hen. simpl.
  unfold try_catch, bind, on_cacheManager, zoom, log, modify, ret. simpl.
  rewrite Hget. reflexivity.
Qed.

(** The interceptor hands on the response it was given, whatever the cache
    does. *)
Lemma cache_onFulfilled_response response now
    (s : Interceptors.CacheSide (A := A)) :
  fst (Interceptors.cache_onFulfilled serialize response now s)
  = Resolved response.
Proof.
  unfold Interceptors.cache_onFulfilled.
  destruct (negb (rq_skipCache (config response))
            && Cache.cm_enabled (Interceptors.cs_cache s)
            && Interceptors.shouldCache response); [|reflexivity].
  unfold bind, try_catch, Interceptors.on_cache, zoom, Interceptors.log, modify, ret.
  simpl.
  destruct (Cache.set serialize _ _ _ now (Interceptors.cs_cache s)) as [[[]|error] cm];
    reflexivity.
Qed.

(** A write that raises is logged. *)
Lemma cache_onFulfilled_failure response now
    (s : Interceptors.CacheSide (A := A)) error cm :
  rq_skipCache (config response) = false ->
  Cache.cm_enabled (Interceptors.cs_cache s) = true ->
  Interceptors.shouldCache response = true ->
  Cache.set serialize (Interceptors.buildCacheKey (config response))
    (mkEnvelope (Http.status response) (Http.statusText response) (Http.headers response)
       (Http.data response))
    (default Cache.noCacheOptions (rq_cache (config response))) now
    (Interceptors.cs_cache s)
  = (Rejected error, cm) ->
  Interceptors.cache_onFulfilled serialize response now s
  = (Resolved response,
     Interceptors.mkCacheSide cm
       (Interceptors.cs_log s ++ [LogWarn "Failed to cache response" error])).
Proof.
  intros Hskip Hen Hshould Hset. unfold Interceptors.cache_onFulfilled.
  rewrite Hskip, Hen, Hshould. simpl.
  unfold bind, try_catch, Interceptors.on_cache, zoom, Interceptors.log, modify, ret.
  simpl. rewrite Hset. reflexivity.
Qed.

(** C9. Cache failures never abort the primary request.  The cache probe of
    the read path never throws; when the lookup raises an error, the error is
    logged, the probe reports a miss, and the request executor goes on to the
    execution, whose result is the result of the request.  The cache write of
    the response path always hands on the response it was given; when the
    write raises an error, the error is logged and the response is returned
    unchanged. *)
Theorem C9_cache_failures_swallowed (method url : string)
    (cfg : ApiRequestConfig) (now : Z) (c : Client) (response : Response)
    (s : Interceptors.CacheSide (A := A)) :
  (exists r, fst (tryGetFromCache deserialize method url cfg now c) = Resolved r) /\
  (forall error cm,
      skipCache cfg = false ->
      Cache.cm_enabled (cacheManager c) = true ->
      method = "GET" ->
      Cache.get deserialize
        (Cache.buildCacheKey url method (params cfg) (data cfg)) now
        (cacheManager c)
      = (Rejected error, cm) ->
      let c' :=
        mkApiClient cm (deduplicationManager c)
          (logger c ++ [LogWarn "Cache lookup failed" error]) in
      tryGetFromCache deserialize method url cfg now c = (Resolved None, c') /\
      requestExecutor deserialize executeWithRetry method url cfg now c
      = executeWithRetry
          (mkRequestConfig method url (headers cfg) (params cfg) (data cfg)
             (cache cfg) (skipAuth cfg) (skipCache cfg) (skipRetry cfg) false None)
          cfg c') /\
  fst (Interceptors.cache_onFulfilled serialize response now s)
  = Resolved response /\
  (forall error cm,
      rq_skipCache (config response) = false ->
      Cache.cm_enabled (Interceptors.cs_cache s) = true ->
      Interceptors.shouldCache response = true ->
      Cache.set serialize (Interceptors.buildCacheKey (config response))
        (mkEnvelope (Http.status response) (Http.statusText response) (Http.headers response)
           (Http.data response))
        (default Cache.noCacheOptions (rq_cache (config response))) now
        (Interceptors.cs_cache s)
      = (Rejected error, cm) ->
      Interceptors.cache_onFulfilled serialize response now s
      = (Resolved response,
         Interceptors.mkCacheSide cm
           (Interceptors.cs_log s ++ [LogWarn "Failed to cache response" error]))).
Proof.
  split; [apply tryGetFromCache_total|]. split; [|split].
  - intros error cm Hskip Hen Hm Hget c'.
    pose proof (tryGetFromCache_failure method url cfg now c error cm
                  Hskip Hen Hm Hget) as Htry.
    split; [exact Htry|].
    unfold requestExecutor, bind. rewrite Htry. reflexivity.
  - apply cache_onFulfilled_response.
  - intros error cm. apply cache_onFulfilled_failure.
Qed.

(** *** Validation *)

Lemma validateData_body method body :
  Retry.includesS methodsWithBody (Js.toUpperCase method) = false ->
  validateData (Some body) method
  = Rejected (ValidationError
                (Js.toUpperCase method +:+ " requests should not have a body")
                "data").
Proof. intros Hm. unfold validateData. now rewrite Hm. Qed.

(** A request that fails validation ends before the single-flight table,
    the cache and the execution are touched, and what the caller gets is the
    error rethrown by the [catch] of [request]. *)
Lemma request_invalid method url cfg now (c : Client) error :
  validate method url cfg = Rejected error ->
  request deserialize executeWithRetry method url cfg now c
  = (Completed (Rejected (rethrown error)), c).
Proof. intros Hv. unfold request. now rewrite Hv. Qed.

(** The [catch] of [request] turns a [ValidationError] into an [ApiError]
    that keeps its message only. *)
Lemma rethrown_ValidationError message field :
  rethrown (ValidationError message field) = ApiError_of_message message /\
  e_class (rethrown (ValidationError message field)) = CApiError /\
  e_code (rethrown (ValidationError message field)) = Some (code_string API_ERROR).
Proof. repeat split. Qed.

(** C10, on the code.  A request with a valid URL and valid headers, a
    method that takes no body (GET, DELETE, HEAD or OPTIONS) and a defined
    [data] is refused by [validateData] with a [ValidationError] before the
    single-flight table, the cache and the execution are reached, and the
    state of the client is unchanged; but the [catch] of [request] rethrows
    that error as an [ApiError] with the code [API_ERROR], so the caller does
    not get a [ValidationError]. *)
Theorem C10_body_on_bodyless_method (method url : string)
    (cfg : ApiRequestConfig) (body : Js.JSON) (now : Z) (c : Client) :
  validateUrl url = Resolved tt ->
  validateHeaders (headers cfg) = Resolved tt ->
  In method ["GET"; "DELETE"; "HEAD"; "OPTIONS"] ->
  data cfg = Some body ->
  validateData (data cfg) method
  = Rejected (ValidationError (method +:+ " requests should not have a body")
                "data") /\
  request deserialize executeWithRetry method url cfg now c
  = (Completed
       (Rejected (ApiError_of_message
                    (method +:+ " requests should not have a body"))),
     c) /\
  instanceof (ApiError_of_message (method +:+ " requests should not have a body"))
             CValidationError = false.
Proof.
  intros Hurl Hh Hm Hd.
  assert (Js.toUpperCase method = method /\
          Retry.includesS validMethods (Js.toUpperCase method) = true /\
          Retry.includesS methodsWithBody (Js.toUpperCase method) = false)
    as [Hup [Hvalid Hbody]].
  { simpl in Hm. destruct Hm as [<-|[<-|[<-|[<-|[]]]]]; repeat split. }
  rewrite Hd. rewrite (validateData_body method body Hbody), Hup.
  split; [reflexivity|]. split; [|reflexivity].
  rewrite (request_invalid method url cfg now c
             (ValidationError (method +:+ " requests should not have a body") "data")).
  - reflexivity.
  - unfold validate, validateMethod. rewrite Hurl, Hvalid, Hh, Hd. simpl.
    rewrite (validateData_body method body Hbody), Hup. reflexivity.
Qed.

End Facts.

(** *** The theorems on concrete clients *)

#[local] Existing Instance Cache.unreachableAdapter.
#[local] Existing Instance Cache.memoryAdapter.

(** A client whose cache is enabled and whose store refuses every
    operation. *)
Definition unreachable_client : ApiClient (A := Cache.UnreachableStore) :=
  mkApiClient
    (Cache.mkCacheManager true 300000 "api_cache_"
       (Cache.mkUnreachableStore (PlainError "ECONNREFUSED"))
       (Cache.stats (Cache.new None None None None)))
    (Dedup.initial (Dedup.mkDeduplicationConfig None None None))
    [].

(** A client with the cache of the defaults, in memory. *)
Definition memory_client : ApiClient (A := Cache.MemoryCacheAdapter) :=
  mkApiClient (Cache.new None None None None)
    (Dedup.initial (Dedup.mkDeduplicationConfig None None None))
    [].

Definition ok_response (rq : RequestConfig) : Response :=
  mkResponse 200 "OK" [] (Some (Js.JStr "ok")) rq false.

(** An execution that answers 200 at once. *)
Definition answer_ok {A : Type} `{Cache.CacheAdapter A}
    (rq : RequestConfig) (_ : ApiRequestConfig) : M (ApiClient (A := A)) Response :=
  ret (ok_response rq).

Definition no_envelope (_ : string) : Outcome Envelope :=
  Rejected (PlainError "Unexpected end of JSON input").

(** C9 on [GET /users/1] through a client whose store is unreachable: the
    probe reports a miss and the execution's answer is the request's. *)
Lemma C9_cache_failures_swallowed_witness :
  fst (tryGetFromCache no_envelope "GET" "/users/1" noConfig 0 unreachable_client)
  = Resolved None /\
  fst (requestExecutor no_envelope answer_ok "GET" "/users/1" noConfig 0
         unreachable_client)
  = Resolved (ok_response
                (mkRequestConfig "GET" "/users/1" None None None None
                   false false false false None)).
Proof.
  destruct (C9_cache_failures_swallowed (fun _ => "") no_envelope answer_ok
              "GET" "/users/1" noConfig 0 unreachable_client
              (ok_response (mkRequestConfig "GET" "/users/1" None None None None
                              false false false false None))
              (Interceptors.mkCacheSide (cacheManager unreachable_client) []))
    as [_ [Hread _]].
  destruct (Hread _ _ eq_refl eq_refl eq_refl eq_refl) as [Hprobe Hexec].
  rewrite Hprobe, Hexec. split; reflexivity.
Defined.

(** C10 on [GET /users/1] with a body: the caller gets an [ApiError], the
    client is as it was. *)
Lemma C10_body_on_bodyless_method_witness :
  let cfg :=
    mkApiRequestConfig None None (Some (Js.JObj [("x", Js.JNum 1)])) None None
      false false false in
  request no_envelope answer_ok "GET" "/users/1" cfg 0 memory_client
  = (Completed (Rejected (ApiError_of_message "GET requests should not have a body")),
     memory_client).
Proof.
  intros cfg.
  destruct (C10_body_on_bodyless_method no_envelope answer_ok "GET" "/users/1"
              cfg (Js.JObj [("x", Js.JNum 1)]) 0 memory_client
              eq_refl eq_refl (or_introl eq_refl) eq_refl) as [_ [Hrequest _]].
  exact Hrequest.
Defined.

End ClientFacts.

(* ===================================================================== *)
(** ** The single-flight table: statistics, eviction and cancellation *)
(* ===================================================================== *)
Module DedupMore.
Import Errors Dedup.

Section Facts.

Context {T : Type}.
Variable config : DeduplicationConfig.

Local Abbreviation State := (Dedup.State T).

(** What the table and the counters of every state satisfy: an entry names
    an execution that is still running and was registered under the key of
    the entry, and its controller was not aborted; no request is counted as deduplicated that was not counted;
    [activeRequests] is the size of the table; the rate is a percentage. *)
Record accounted (s : State) : Prop := mkAccounted {
  acc_running :
    forall key request,
      pendingRequests (manager s) !! key = Some request ->
      running s !! promise request = Some (mkExecution (Some key));
  acc_fresh : forall p, (executions s <= p)%nat -> running s !! p = None;
  acc_live :
    forall key request,
      pendingRequests (manager s) !! key = Some request ->
      promise request ∉ aborted s;
  acc_aborted : forall p, p ∈ aborted s -> (p < executions s)%nat;
  acc_counted :
    (deduplicatedRequests (stats (manager s))
     <= totalRequests (stats (manager s)))%nat;
  acc_active :
    activeRequests (stats (manager s)) = size (pendingRequests (manager s));
  acc_rate :
    (0 <= deduplicationRate (stats (manager s)))%Q /\
    (deduplicationRate (stats (manager s)) <= 100 # 1)%Q
}.

Lemma rate_bounds (d t : nat) :
  (d <= t)%nat -> (0 < t)%nat ->
  (0 <= inject_Z (Z.of_nat d) / inject_Z (Z.of_nat t) * (100 # 1))%Q /\
  (inject_Z (Z.of_nat d) / inject_Z (Z.of_nat t) * (100 # 1) <= 100 # 1)%Q.
Proof.
  intros Hdt Ht.
  assert (0 < inject_Z (Z.of_nat t))%Q as Hpos.
  { change 0%Q with (inject_Z 0). rewrite <- Zlt_Qlt. lia. }
  assert (0 <= inject_Z (Z.of_nat d))%Q as Hd.
  { change 0%Q with (inject_Z 0). rewrite <- Zle_Qle. lia. }
  assert (inject_Z (Z.of_nat d) <= inject_Z (Z.of_nat t))%Q as Hle.
  { rewrite <- Zle_Qle. lia. }
  assert (0 <= inject_Z (Z.of_nat d) / inject_Z (Z.of_nat t))%Q as H0.
  { apply Qle_shift_div_l; [exact Hpos|]. lra. }
  assert (inject_Z (Z.of_nat d) / inject_Z (Z.of_nat t) <= 1)%Q as H1.
  { apply Qle_shift_div_r; [exact Hpos|]. lra. }
  split; lra.
Qed.

Lemma accounted_initial : accounted (initial config).
Proof.
  split; simpl.
  - intros key request Hl. rewrite lookup_empty in Hl. discriminate.
  - intros p _. apply lookup_empty.
  - intros key request Hl. rewrite lookup_empty in Hl. discriminate.
  - intros p Hin. set_solver.
  - lia.
  - reflexivity.
  - split; lra.
Qed.

(** A promise named by the table was created before. *)
Lemma entry_created (s : State) key request :
  accounted s ->
  pendingRequests (manager s) !! key = Some request ->
  (promise request < executions s)%nat.
Proof.
  intros Hacc Hl. pose proof (acc_running s Hacc _ _ Hl) as Hr.
  destruct (Nat.lt_ge_cases (promise request) (executions s)) as [Hlt|Hge];
    [exact Hlt|].
  rewrite (acc_fresh s Hacc _ Hge) in Hr. discriminate.
Qed.

(** The promises whose entries a predicate selects. *)
Lemma selected_promise (m : gmap string PendingRequest)
    (P : string * PendingRequest -> Prop) `{!forall x, Decision (P x)} p :
  p ∈ (list_to_set (map (fun kr => promise (snd kr)) (map_to_list (filter P m)))
         : gset nat) ->
  exists key request, m !! key = Some request /\ P (key, request) /\
                      promise request = p.
Proof.
  intros Hin.
  apply elem_of_list_to_set, list_elem_of_In, in_map_iff in Hin
    as [[key request] [Hp Hin]].
  apply list_elem_of_In, elem_of_map_to_list, map_lookup_filter_Some in Hin
    as [Hl HP].
  exists key, request. auto.
Qed.

Lemma accounted_executeRequest (s : State) method url data params now :
  accounted s -> accounted (snd (executeRequest method url data params now s)).
Proof.
  intros Hacc. pose proof (entry_created s) as Hold.
  destruct Hacc as [Hrun Hfresh Hlive Hab Hcnt Hact Hrate].
  assert (accounted s) as Hacc by (split; assumption).
  unfold executeRequest.
  destruct (enabled (manager s)) eqn:Hen; simpl.
  - destruct (pendingRequests (manager s) !! _) as [existing|] eqn:Hlook; simpl.
    + split; unfold updateDeduplicationRate; simpl.
      * exact Hrun.
      * exact Hfresh.
      * exact Hlive.
      * exact Hab.
      * lia.
      * exact Hact.
      * apply rate_bounds; lia.
    + split; simpl.
      * intros key request Hl.
        destruct (decide (keyGenerator (manager s) method url data params = key))
          as [Heq|Hne].
        -- subst key. rewrite lookup_insert_eq in Hl. inversion Hl; subst.
           simpl. apply lookup_insert_eq.
        -- rewrite lookup_insert_ne in Hl by exact Hne.
           pose proof (Hold _ _ Hacc Hl).
           rewrite lookup_insert_ne by lia. eauto.
      * intros p Hp. rewrite lookup_insert_ne by lia. apply Hfresh. lia.
      * intros key request Hl.
        destruct (decide (keyGenerator (manager s) method url data params = key))
          as [Heq|Hne].
        -- subst key. rewrite lookup_insert_eq in Hl. inversion Hl; subst.
           simpl. intros Hin. pose proof (Hab _ Hin). lia.
        -- rewrite lookup_insert_ne in Hl by exact Hne. eauto.
      * intros p Hin. pose proof (Hab _ Hin). lia.
      * lia.
      * reflexivity.
      * exact Hrate.
  - split; simpl.
    + intros key request Hl. pose proof (Hold _ _ Hacc Hl).
      rewrite lookup_insert_ne by lia. eauto.
    + intros p Hp. rewrite lookup_insert_ne by lia. apply Hfresh. lia.
    + exact Hlive.
    + intros p Hin. pose proof (Hab _ Hin). lia.
    + exact Hcnt.
    + exact Hact.
    + exact Hrate.
Qed.

Lemma accounted_settle (s : State) p o : accounted s -> accounted (settle p o s).
Proof.
  intros [Hrun Hfresh Hlive Hab Hcnt Hact Hrate]. unfold settle.
  destruct (running s !! p) as [[[key|]]|] eqn:Hp; simpl.
  - split; simpl.
    + intros key' request Hl. apply lookup_delete_Some in Hl as [Hne Hl].
      pose proof (Hrun _ _ Hl) as Hr.
      rewrite lookup_delete_ne; [exact Hr|].
      intros Heq. rewrite <- Heq, Hp in Hr. congruence.
    + intros q Hq. apply lookup_delete_None. right. auto.
    + intros key' request Hl. apply lookup_delete_Some in Hl as [_ Hl]. eauto.
    + exact Hab.
    + exact Hcnt.
    + reflexivity.
    + exact Hrate.
  - split; simpl.
    + intros key' request Hl. pose proof (Hrun _ _ Hl) as Hr.
      rewrite lookup_delete_ne; [exact Hr|].
      intros Heq. rewrite <- Heq, Hp in Hr. congruence.
    + intros q Hq. apply lookup_delete_None. right. auto.
    + exact Hlive.
    + exact Hab.
    + exact Hcnt.
    + exact Hact.
    + exact Hrate.
  - now split.
Qed.

(** A sweep that finds nothing expired keeps the whole table. *)
Lemma nothing_expired (m : DeduplicationManager) now :
  size (filter (fun kr => expired m now (snd kr)) (pendingRequests m)) = 0%nat ->
  filter (fun kr => ~ expired m now (snd kr)) (pendingRequests m)
  = pendingRequests m.
Proof.
  intros Hsize. apply map_size_empty_iff in Hsize.
  apply map_eq. intros key.
  destruct (pendingRequests m !! key) as [request|] eqn:Hl.
  - apply map_lookup_filter_Some. split; [exact Hl|]. simpl. intros Hexp.
    assert (filter (fun kr => expired m now (snd kr)) (pendingRequests m) !! key
            = Some request) as Hin.
    { apply map_lookup_filter_Some. now split. }
    rewrite Hsize, lookup_empty in Hin. discriminate.
  - apply map_lookup_filter_None. left. exact Hl.
Qed.

Lemma accounted_cleanup (s : State) now :
  accounted s -> accounted (cleanupExpiredRequests now s).
Proof.
  intros Hacc. pose proof (entry_created s) as Hold.
  destruct Hacc as [Hrun Hfresh Hlive Hab Hcnt Hact Hrate].
  assert (accounted s) as Hacc by (split; assumption).
  unfold cleanupExpiredRequests.
  split; simpl.
  - intros key request Hl. apply map_lookup_filter_Some in Hl as [Hl _]. eauto.
  - exact Hfresh.
  - intros key request Hl. apply map_lookup_filter_Some in Hl as [Hl Hkeep].
    simpl in Hkeep. intros Hin. apply elem_of_union in Hin as [Hin|Hin].
    + exact (Hlive _ _ Hl Hin).
    + apply selected_promise in Hin as [key' [request' [Hl' [Hexp Hp]]]].
      simpl in Hexp.
      pose proof (Hrun _ _ Hl) as Hr. pose proof (Hrun _ _ Hl') as Hr'.
      rewrite Hp, Hr in Hr'. inversion Hr'; subst key'.
      rewrite Hl in Hl'. inversion Hl'; subst request'. exact (Hkeep Hexp).
  - intros p Hin. apply elem_of_union in Hin as [Hin|Hin]; [eauto|].
    apply selected_promise in Hin as [key [request [Hl [_ Hp]]]].
    subst p. eauto.
  - destruct (0 <? size _)%nat eqn:Hsz; simpl; exact Hcnt.
  - destruct (0 <? size _)%nat eqn:Hsz; simpl; [reflexivity|].
    apply Nat.ltb_ge in Hsz.
    rewrite nothing_expired by lia. exact Hact.
  - destruct (0 <? size _)%nat eqn:Hsz; simpl; exact Hrate.
Qed.

Lemma accounted_clear (s : State) : accounted s -> accounted (clear s).
Proof.
  intros Hacc. pose proof (entry_created s) as Hold.
  destruct Hacc as [Hrun Hfresh Hlive Hab Hcnt Hact Hrate].
  assert (accounted s) as Hacc by (split; assumption).
  unfold clear. split; simpl.
  - intros key request Hl. rewrite lookup_empty in Hl. discriminate.
  - exact Hfresh.
  - intros key request Hl. rewrite lookup_empty in Hl. discriminate.
  - intros p Hin. apply elem_of_union in Hin as [Hin|Hin]; [eauto|].
    apply elem_of_list_to_set, list_elem_of_In, in_map_iff in Hin
      as [[key request] [Hp Hin]].
    apply list_elem_of_In, elem_of_map_to_list in Hin. subst p. simpl. eauto.
  - exact Hcnt.
  - reflexivity.
  - exact Hrate.
Qed.

Lemma reachable_accounted (s : State) : reachable config s -> accounted s.
Proof.
  induction 1 as [|s ev _ IH].
  - apply accounted_initial.
  - destruct ev; simpl.
    + now apply accounted_executeRequest.
    + now apply accounted_settle.
    + now apply accounted_cleanup.
    + now apply accounted_clear.
Qed.

(** The flag, the key generator and the timeout never change. *)
Lemma step_config (s : State) ev :
  enabled (manager (step s ev)) = enabled (manager s) /\
  keyGenerator (manager (step s ev)) = keyGenerator (manager s) /\
  timeout (manager (step s ev)) = timeout (manager s).
Proof.
  destruct ev; simpl.
  - unfold executeRequest. destruct (enabled (manager s)) eqn:Hen; simpl.
    + destruct (pendingRequests (manager s) !! _); simpl; auto.
    + auto.
  - unfold settle. destruct (running s !! p) as [[[key|]]|]; simpl; auto.
  - auto.
  - auto.
Qed.

(** A disabled manager keeps no table and counts nothing. *)
Lemma disabled_idle (s : State) :
  dc_enabled config = Some false -> reachable config s ->
  enabled (manager s) = false /\
  pendingRequests (manager s) = ∅ /\
  stats (manager s) = mkDeduplicationStats 0 0 0 0%Q.
Proof.
  intros Hoff. induction 1 as [|s ev _ [Hen [Hp Hst]]].
  - simpl. rewrite Hoff. auto.
  - destruct (step_config s ev) as [Hen' _]. rewrite Hen in Hen'.
    split; [exact Hen'|].
    destruct ev; simpl.
    + unfold executeRequest. rewrite Hen. simpl. auto.
    + unfold settle. destruct (running s !! p) as [[[key|]]|]; simpl; auto.
      rewrite Hp, Hst. simpl. rewrite delete_empty. auto.
    + unfold cleanupExpiredRequests. simpl. rewrite Hp, Hst.
      rewrite !map_filter_empty. simpl. auto.
    + unfold clear. simpl. rewrite Hst. auto.
Qed.

End Facts.

(** X1. The sweep gives up on requests that are still running.  When the
    timer runs [cleanupExpiredRequests] and the entry of a key is older than
    the timeout, the entry is dropped and its controller aborted, but the
    execution goes on; the next identical request finds no entry, invokes its
    executor and gets a new promise.  Two executions of the same request then
    run at the same time. *)
Theorem sweep_restarts_execution {T : Type} (config : DeduplicationConfig)
    (s : Dedup.State T) (method url : string) (data params : option Js.JSON)
    (now : Z) (existing : PendingRequest) :
  reachable config s ->
  let key := keyGenerator (manager s) method url data params in
  pendingRequests (manager s) !! key = Some existing ->
  (timeout (manager s) < now - timestamp existing)%Z ->
  let swept := step s (Sweep now) in
  let again := executeRequest method url data params now swept in
  running swept !! promise existing = Some (mkExecution (Some key)) /\
  promise existing ∈ aborted swept /\
  pendingRequests (manager swept) !! key = None /\
  fst again <> promise existing /\
  executions (snd again) = S (executions s) /\
  running (snd again) !! promise existing = Some (mkExecution (Some key)) /\
  running (snd again) !! fst again = Some (mkExecution (Some key)).
Proof.
  intros Hreach key Hl Hold swept again.
  pose proof (reachable_accounted config s Hreach) as Hacc.
  pose proof (DedupFacts.pending_reachable_invariant config s Hreach) as Hinv.
  pose proof (acc_running s Hacc _ _ Hl) as Hrunning.
  destruct (DedupFacts.executeRequest_after_sweep config s method url data params
              now existing Hinv Hl Hold) as [Hrun [Hfst [Hne Hexec]]].
  assert (enabled (manager s) = true) as Hen.
  { destruct (enabled (manager s)) eqn:Hen; [reflexivity|].
    rewrite (DedupFacts.inv_disabled config s Hinv Hen), lookup_empty in Hl.
    discriminate. }
  assert (pendingRequests (manager swept) !! key = None) as Hgone.
  { unfold swept. simpl. apply map_lookup_filter_None. right.
    intros request Hl' Hkeep. simpl in Hl'. rewrite Hl in Hl'.
    inversion Hl'; subst. apply Hkeep. exact Hold. }
  destruct (DedupFacts.executeRequest_fresh swept method url data params now
              Hen Hgone) as [Hfst' [_ [_ [Hrun' _]]]].
  split; [exact Hrunning|]. split.
  { unfold swept. simpl. apply elem_of_union. right.
    apply elem_of_list_to_set, list_elem_of_In, in_map_iff.
    exists (key, existing). split; [reflexivity|].
    apply list_elem_of_In, elem_of_map_to_list, map_lookup_filter_Some.
    split; [exact Hl | exact Hold]. }
  split; [exact Hgone|]. split; [exact Hne|]. split; [exact Hexec|].
  unfold again. rewrite Hrun', Hfst'. split.
  - rewrite lookup_insert_ne; [exact Hrunning|].
    intros Heq. apply Hne. rewrite <- Heq. exact Hfst'.
  - apply lookup_insert_eq.
Qed.

(** A manager with the defaults, one request at time 0. *)
Definition one_request : Dedup.State nat :=
  step (initial (mkDeduplicationConfig None None None))
    (Request "GET" "/users/1" None None 0).

Lemma one_request_reachable :
  reachable (mkDeduplicationConfig None None None) one_request.
Proof. apply reachable_step, reachable_initial. Qed.

(** X1 on [GET /users/1] issued at time 0 and again after the sweep of time
    30001. *)
Lemma sweep_restarts_execution_witness :
  executions
    (snd (executeRequest "GET" "/users/1" None None 30001
            (step one_request (Sweep 30001))))
  = 2%nat.
Proof.
  destruct (sweep_restarts_execution (mkDeduplicationConfig None None None)
              one_request "GET" "/users/1" None None 30001
              (mkPendingRequest 0 0) one_request_reachable eq_refl)
    as [_ [_ [_ [_ [H _]]]]]; [reflexivity | exact H].
Defined.

(** X2. The [finally] handler of an evicted request unregisters its
    successor.  A request is registered, the sweep evicts its entry, an
    identical request registers a second execution, and then the first
    execution settles: its handler deletes the entry of the key, which by now
    belongs to the second execution.  The second execution is still running
    but no longer in the table, so a third identical request invokes its
    executor too. *)
Theorem evicted_request_unregisters_successor {T : Type}
    (config : DeduplicationConfig) (s : Dedup.State T) (method url : string)
    (data params : option Js.JSON) (t0 t1 t2 : Z) (o : Outcome T) :
  reachable config s ->
  enabled (manager s) = true ->
  let key := keyGenerator (manager s) method url data params in
  pendingRequests (manager s) !! key = None ->
  (timeout (manager s) < t1 - t0)%Z ->
  let first := executions s in
  let second := S (executions s) in
  let s1 := step s (Request method url data params t0) in
  let s2 := step s1 (Sweep t1) in
  let s3 := step s2 (Request method url data params t1) in
  let s4 := step s3 (Settle first o) in
  pendingRequests (manager s3) !! key = Some (mkPendingRequest second t1) /\
  running s4 !! second = Some (mkExecution (Some key)) /\
  pendingRequests (manager s4) !! key = None /\
  fst (executeRequest method url data params t2 s4) = S second /\
  executions (snd (executeRequest method url data params t2 s4)) = S (S second).
Proof.
  intros Hreach Hen key Hnone Hold first second s1 s2 s3 s4.
  destruct (DedupFacts.executeRequest_fresh s method url data params t0 Hen Hnone)
    as [Hp1 [Hex1 [Hpend1 [Hrun1 [_ [Hkg1 Hen1]]]]]].
  change (snd (executeRequest method url data params t0 s)) with s1
    in Hex1, Hpend1, Hrun1, Hkg1, Hen1.
  fold key in Hpend1, Hrun1.
  assert (reachable config s1) as Hreach1 by (apply reachable_step; exact Hreach).
  assert (timeout (manager s1) = timeout (manager s)) as Hto1
    by apply (step_config s (Request method url data params t0)).
  assert (keyGenerator (manager s1) method url data params = key) as Hkey1
    by (rewrite Hkg1; reflexivity).
  destruct (sweep_restarts_execution config s1 method url data params t1
              (mkPendingRequest first t0) Hreach1) as
    [_ [_ [Hgone [_ [Hex3 [Hrun3a Hrun3b]]]]]].
  { rewrite Hkey1. exact Hpend1. }
  { simpl. rewrite Hto1. exact Hold. }
  change (step s1 (Sweep t1)) with s2 in Hgone, Hex3, Hrun3a, Hrun3b.
  change (snd (executeRequest method url data params t1 s2)) with s3
    in Hex3, Hrun3a, Hrun3b.
  rewrite Hkey1 in Hgone, Hrun3a, Hrun3b. simpl in Hrun3a.
  assert (enabled (manager s2) = true) as Hen2.
  { unfold s2. rewrite (proj1 (step_config s1 (Sweep t1))). exact Hen1. }
  assert (keyGenerator (manager s2) method url data params = key) as Hkey2.
  { unfold s2.
    rewrite (proj1 (proj2 (step_config s1 (Sweep t1)))). exact Hkey1. }
  destruct (DedupFacts.executeRequest_fresh s2 method url data params t1 Hen2)
    as [Hp3 [_ [Hpend3 [_ [_ [Hkg3 Hen3]]]]]].
  { rewrite Hkey2. exact Hgone. }
  change (snd (executeRequest method url data params t1 s2)) with s3
    in Hpend3, Hkg3, Hen3.
  rewrite Hkey2 in Hpend3.
  assert (executions s2 = second) as Hex2 by exact Hex1.
  rewrite Hex2 in Hpend3. rewrite Hp3, Hex2 in Hrun3b.
  assert (running s4 !! second = Some (mkExecution (Some key)) /\
          pendingRequests (manager s4) !! key = None /\
          executions s4 = S second /\
          enabled (manager s4) = true /\
          keyGenerator (manager s4) = keyGenerator (manager s3)) as
    [Hrun4 [Hpend4 [Hex4 [Hen4 Hkg4]]]].
  { unfold s4. simpl. unfold settle. rewrite Hrun3a. simpl.
    rewrite lookup_delete_ne by (unfold first, second; lia).
    rewrite lookup_delete_eq. repeat split; auto.
    rewrite Hex3, Hex1. reflexivity. }
  assert (keyGenerator (manager s4) method url data params = key) as Hkey4.
  { rewrite Hkg4, Hkg3. exact Hkey2. }
  destruct (DedupFacts.executeRequest_fresh s4 method url data params t2 Hen4)
    as [Hp5 [Hex5 _]].
  { rewrite Hkey4. exact Hpend4. }
  split; [exact Hpend3|]. split; [exact Hrun4|]. split; [exact Hpend4|].
  rewrite Hp5, Hex5, Hex4. split; reflexivity.
Qed.

(** X2 on three [GET /users/1], at times 0, 30001 and 30002, the first of
    which fails at last: three executions. *)
Lemma evicted_request_unregisters_successor_witness :
  let s : Dedup.State nat := initial (mkDeduplicationConfig None None None) in
  let s4 :=
    step (step (step (step s (Request "GET" "/users/1" None None 0))
                  (Sweep 30001))
            (Request "GET" "/users/1" None None 30001))
      (Settle 0%nat (Rejected (PlainError "timeout of 30000ms exceeded"))) in
  executions (snd (executeRequest "GET" "/users/1" None None 30002 s4)) = 3%nat.
Proof.
  intros s s4.
  destruct (evicted_request_unregisters_successor
              (mkDeduplicationConfig None None None) s "GET" "/users/1" None None
              0 30001 30002 (Rejected (PlainError "timeout of 30000ms exceeded"))
              (reachable_initial _) eq_refl eq_refl)
    as [_ [_ [_ [_ H]]]]; [reflexivity | exact H].
Defined.

(** X3. The statistics of the table are consistent in every state a
    manager can reach: the deduplicated requests are among the counted ones,
    [activeRequests] is the number of entries of the table, the rate lies
    between 0 and 100, and every entry names an execution that is still
    running.  The rate is refreshed by deduplicated calls only: a call that
    starts an execution counts itself and leaves the rate as it was. *)
Theorem statistics_consistent {T : Type} (config : DeduplicationConfig)
    (s : Dedup.State T) :
  reachable config s ->
  let st := stats (manager s) in
  (deduplicatedRequests st <= totalRequests st)%nat /\
  activeRequests st = size (pendingRequests (manager s)) /\
  (0 <= deduplicationRate st)%Q /\ (deduplicationRate st <= 100 # 1)%Q /\
  (forall key request,
      pendingRequests (manager s) !! key = Some request ->
      running s !! promise request = Some (mkExecution (Some key))) /\
  (forall method url data params now,
      enabled (manager s) = true ->
      pendingRequests (manager s) !! keyGenerator (manager s) method url data params
      = None ->
      let st' := stats (manager (snd (executeRequest method url data params now s))) in
      totalRequests st' = S (totalRequests st) /\
      deduplicatedRequests st' = deduplicatedRequests st /\
      deduplicationRate st' = deduplicationRate st).
Proof.
  intros Hreach st.
  destruct (reachable_accounted config s Hreach)
    as [Hrun _ _ _ Hcnt Hact [Hr0 Hr1]].
  repeat split; try assumption.
  all: unfold executeRequest; rewrite H; simpl; rewrite H0; reflexivity.
Qed.

(** X3 on the manager that holds one request. *)
Lemma statistics_consistent_witness :
  activeRequests (stats (manager one_request)) = 1%nat.
Proof.
  destruct (statistics_consistent (mkDeduplicationConfig None None None)
              one_request one_request_reachable) as [_ [H _]].
  rewrite H. reflexivity.
Defined.

(** X4. A manager whose configuration disables deduplication hands every
    request to its executor: each call makes a promise of its own, nothing is
    ever put in the table, and the statistics stay at zero however many
    requests were made. *)
Theorem disabled_manager_passes_through {T : Type}
    (config : DeduplicationConfig) (s : Dedup.State T) (method url : string)
    (data params : option Js.JSON) (now : Z) :
  dc_enabled config = Some false ->
  reachable config s ->
  let r := executeRequest method url data params now s in
  fst r = executions s /\
  executions (snd r) = S (executions s) /\
  running (snd r) !! fst r = Some (mkExecution None) /\
  pendingRequests (manager (snd r)) = ∅ /\
  stats (manager (snd r)) = mkDeduplicationStats 0 0 0 0%Q.
Proof.
  intros Hoff Hreach r.
  destruct (disabled_idle config s Hoff Hreach) as [Hen [Hp Hst]].
  unfold r, executeRequest. rewrite Hen. simpl.
  rewrite lookup_insert_eq. auto.
Qed.

(** X4 on two identical requests to a disabled manager. *)
Lemma disabled_manager_passes_through_witness :
  let off := mkDeduplicationConfig (Some false) None None in
  let s : Dedup.State nat :=
    step (initial off) (Request "GET" "/users/1" None None 0) in
  fst (executeRequest "GET" "/users/1" None None 0 s) = 1%nat /\
  stats (manager (snd (executeRequest "GET" "/users/1" None None 0 s)))
  = mkDeduplicationStats 0 0 0 0%Q.
Proof.
  intros off s.
  destruct (disabled_manager_passes_through off s "GET" "/users/1" None None 0
              eq_refl (reachable_step off _ _ (reachable_initial off)))
    as [H1 [_ [_ [_ H2]]]].
  split; [exact H1 | exact H2].
Defined.

(** X5. Cancellation masks the error of a request but stops nothing.  When
    [clear()] or the sweep removes the entry of a request, its controller is
    aborted and the execution goes on: if it then fails, the callers of its
    promise get the error [Request was cancelled due to deduplication] in
    place of the error of the execution; if it succeeds they get its result.
    As long as the entry is in the table, the callers get the error of the
    execution itself. *)
Theorem cancellation_masks_error {T : Type} (config : DeduplicationConfig)
    (s : Dedup.State T) (key : string) (request : PendingRequest)
    (e : JsError) (v : T) (now : Z) :
  reachable config s ->
  pendingRequests (manager s) !! key = Some request ->
  let p := promise request in
  let cancelled :=
    Rejected (PlainError "Request was cancelled due to deduplication") in
  settled (settle p (Rejected e) s) !! p = Some (Rejected e) /\
  settled (settle p (Rejected e) (clear s)) !! p = Some cancelled /\
  settled (settle p (Resolved v) (clear s)) !! p = Some (Resolved v) /\
  ((timeout (manager s) < now - timestamp request)%Z ->
   settled (settle p (Rejected e) (cleanupExpiredRequests now s)) !! p
   = Some cancelled /\
   settled (settle p (Resolved v) (cleanupExpiredRequests now s)) !! p
   = Some (Resolved v)).
Proof.
  intros Hreach Hl p cancelled.
  pose proof (reachable_accounted config s Hreach) as Hacc.
  pose proof (acc_running s Hacc _ _ Hl) as Hrun.
  pose proof (acc_live s Hacc _ _ Hl) as Hlive.
  assert (p ∈ aborted (clear s)) as Hclear.
  { unfold clear. simpl. apply elem_of_union. right.
    apply elem_of_list_to_set, list_elem_of_In, in_map_iff.
    exists (key, request). split; [reflexivity|].
    apply list_elem_of_In, elem_of_map_to_list. exact Hl. }
  split; [|split; [|split]].
  - unfold settle. fold p in Hrun. rewrite Hrun. simpl.
    rewrite lookup_insert_eq, bool_decide_eq_false_2 by exact Hlive.
    reflexivity.
  - unfold settle at 1. change (running (clear s)) with (running s).
    fold p in Hrun. rewrite Hrun. simpl.
    rewrite lookup_insert_eq, bool_decide_eq_true_2 by exact Hclear.
    reflexivity.
  - unfold settle at 1. change (running (clear s)) with (running s).
    fold p in Hrun. rewrite Hrun. simpl.
    rewrite lookup_insert_eq. reflexivity.
  - intros Hold.
    assert (p ∈ aborted (cleanupExpiredRequests now s)) as Hswept.
    { unfold cleanupExpiredRequests. simpl. apply elem_of_union. right.
      apply elem_of_list_to_set, list_elem_of_In, in_map_iff.
      exists (key, request). split; [reflexivity|].
      apply list_elem_of_In, elem_of_map_to_list, map_lookup_filter_Some.
      split; [exact Hl | exact Hold]. }
    split.
    + unfold settle at 1.
      change (running (cleanupExpiredRequests now s)) with (running s).
      fold p in Hrun. rewrite Hrun. simpl.
      rewrite lookup_insert_eq, bool_decide_eq_true_2 by exact Hswept.
      reflexivity.
    + unfold settle at 1.
      change (running (cleanupExpiredRequests now s)) with (running s).
      fold p in Hrun. rewrite Hrun. simpl.
      rewrite lookup_insert_eq. reflexivity.
Qed.

(** X5 on the request of [one_request], cleared and then refused by the
    server. *)
Lemma cancellation_masks_error_witness :
  settled
    (settle 0%nat (Rejected (PlainError "Request failed with status code 500"))
       (clear one_request)) !! 0%nat
  = Some (Rejected (PlainError "Request was cancelled due to deduplication")).
Proof.
  destruct (cancellation_masks_error (mkDeduplicationConfig None None None)
              one_request "GET:/users/1::" (mkPendingRequest 0 0)
              (PlainError "Request failed with status code 500") 0%nat 0
              one_request_reachable eq_refl) as [_ [H _]].
  exact H.
Defined.

End DedupMore.

(* ===================================================================== *)
(** ** The retry engine: accounts of a run, edge policies, delays *)
(* ===================================================================== *)
Module RetryMore.
Import Errors Retry.

Section Loop.

Context {T : Type}.
Variable operation : nat -> Outcome T.
Variable random : nat -> Q.
Variables (rm : RetryManager) (options : RetryOptions).
Variable requestId : option string.
Variable maxAttempts' : Z.
Variable retryCondition' : JsError -> bool.

Local Abbreviation loop :=
  (attempts operation random rm options requestId maxAttempts' retryCondition').

(** One more retry counted when the attempt that ended the run was not the
    first. *)
Definition retried (attempt : Z) : nat := if Z.ltb 1 attempt then 1%nat else 0%nat.

(** What a run of the loop adds to the state it starts from: [it] calls of
    the operation, the delays [slept], and the counters. *)
Record accounts (attempt : Z) (s : LoopState) (run : Run (T := T)) (it : nat)
    (slept : list Q) : Prop := mkAccounts {
  acc_calls : run_calls run = (ls_calls s + it)%nat;
  acc_total :
    totalAttempts (stats (run_manager run))
    = (totalAttempts (ls_stats s) + it)%nat;
  acc_delays : run_delays run = (ls_delays s ++ slept)%list;
  acc_slept : (length slept + (1 - retried attempt) = it)%nat;
  acc_computed :
    Forall (fun q => exists r a, (1 <= a)%Z /\ q = calculateDelay rm r a options)
           slept;
  acc_max :
    maxRetryDelay (stats (run_manager run))
    = fold_left Qmax slept (maxRetryDelay (ls_stats s));
  acc_onRetry :
    length (run_onRetry run) = (length (ls_onRetry s) + length slept)%nat;
  acc_outcome :
    let last := (attempt + Z.of_nat it - 1)%Z in
    match run_outcome run with
    | Resolved _ =>
        successfulRetries (stats (run_manager run))
        = (successfulRetries (ls_stats s) + retried last)%nat /\
        failedRetries (stats (run_manager run)) = failedRetries (ls_stats s)
    | Rejected e =>
        successfulRetries (stats (run_manager run))
        = successfulRetries (ls_stats s) /\
        failedRetries (stats (run_manager run))
        = (failedRetries (ls_stats s) + retried last)%nat /\
        e_class e = CRetryExhaustedError /\
        e_attempts e = Some last
    end
}.

(** What the part of an iteration before the call does. *)
Lemma before_call_effect attempt s :
  let s1 := before_call random rm options attempt s in
  exists slept,
    ls_delays s1 = (ls_delays s ++ slept)%list /\
    length slept = retried attempt /\
    Forall (fun q => exists r a, (1 <= a)%Z /\ q = calculateDelay rm r a options)
           slept /\
    ls_calls s1 = ls_calls s /\
    totalAttempts (ls_stats s1) = S (totalAttempts (ls_stats s)) /\
    successfulRetries (ls_stats s1) = successfulRetries (ls_stats s) /\
    failedRetries (ls_stats s1) = failedRetries (ls_stats s) /\
    maxRetryDelay (ls_stats s1) = fold_left Qmax slept (maxRetryDelay (ls_stats s)) /\
    length (ls_onRetry s1) = (length (ls_onRetry s) + length slept)%nat.
Proof.
  intros s1. subst s1. unfold before_call, retried.
  destruct (Z.ltb 1 attempt) eqn:Hlt; simpl.
  - eexists [_]. repeat split; try reflexivity.
    + constructor; [|constructor]. eexists _, (attempt - 1).
      apply Z.ltb_lt in Hlt. split; [lia | reflexivity].
    + rewrite length_app. reflexivity.
  - exists []. rewrite app_nil_r. repeat split; try reflexivity.
    + constructor.
    + simpl. lia.
Qed.

Lemma resolved_accounts attempt s result :
  (1 <= attempt)%Z ->
  let s1 := before_call random rm options attempt s in
  accounts attempt s
    (mkRun (Resolved result) (S (ls_calls s1)) (ls_delays s1) (ls_onRetry s1)
       (with_stats rm
          (if Z.ltb 1 attempt then incr_successfulRetries (ls_stats s1)
           else ls_stats s1)))
    1 (skipn (length (ls_delays s)) (ls_delays s1)).
Proof.
  intros Ha s1. subst s1. unfold before_call, retried.
  destruct (Z.ltb 1 attempt) eqn:Hlt; simpl.
  - rewrite skipn_app, skipn_all, Nat.sub_diag. simpl.
    split; unfold retried; rewrite ?Hlt; simpl; try reflexivity; try lia.
    + constructor; [|constructor]. eexists _, (attempt - 1)%Z.
      apply Z.ltb_lt in Hlt. split; [lia | reflexivity].
    + rewrite length_app. reflexivity.
    + unfold retried. replace (attempt + Z.of_nat 1 - 1)%Z with attempt by lia.
      rewrite Hlt. split; reflexivity || lia.
  - rewrite skipn_all.
    split; unfold retried; rewrite ?Hlt; simpl; try reflexivity; try lia.
    + apply eq_sym, app_nil_r.
    + constructor.
    + unfold retried. replace (attempt + Z.of_nat 1 - 1)%Z with attempt by lia.
      rewrite Hlt. split; reflexivity || lia.
Qed.

Lemma exhausted_accounts attempt s error :
  (1 <= attempt)%Z ->
  let s1 := before_call random rm options attempt s in
  accounts attempt s
    (exhausted rm attempt requestId
       (mkLoopState (Some error) (S (ls_calls s1)) (ls_delays s1) (ls_onRetry s1)
          (if Z.ltb 1 attempt then incr_failedRetries (ls_stats s1)
           else ls_stats s1)))
    1 (skipn (length (ls_delays s)) (ls_delays s1)).
Proof.
  intros Ha s1. subst s1. unfold before_call, retried.
  destruct (Z.ltb 1 attempt) eqn:Hlt; simpl.
  - rewrite skipn_app, skipn_all, Nat.sub_diag. simpl.
    split; unfold retried; rewrite ?Hlt; simpl; try reflexivity; try lia.
    + constructor; [|constructor]. eexists _, (attempt - 1)%Z.
      apply Z.ltb_lt in Hlt. split; [lia | reflexivity].
    + rewrite length_app. reflexivity.
    + unfold retried. replace (attempt + Z.of_nat 1 - 1)%Z with attempt by lia.
      rewrite Hlt. repeat split; reflexivity || lia.
  - rewrite skipn_all.
    split; unfold retried; rewrite ?Hlt; simpl; try reflexivity; try lia.
    + apply eq_sym, app_nil_r.
    + constructor.
    + unfold retried. replace (attempt + Z.of_nat 1 - 1)%Z with attempt by lia.
      rewrite Hlt. repeat split; reflexivity || lia.
Qed.

Lemma retried_le attempt : (retried attempt <= 1)%nat.
Proof. unfold retried. destruct (Z.ltb 1 attempt); lia. Qed.

Lemma retried_next attempt : (1 <= attempt)%Z -> retried (attempt + 1) = 1%nat.
Proof.
  intros Ha. unfold retried.
  destruct (Z.ltb_spec 1 (attempt + 1)); [reflexivity | lia].
Qed.

(** One iteration of the loop. *)
Lemma attempts_S remaining attempt s :
  loop (S remaining) attempt s
  = let s1 := before_call random rm options attempt s in
    match operation (ls_calls s1) with
    | Resolved result =>
        mkRun (Resolved result) (S (ls_calls s1)) (ls_delays s1) (ls_onRetry s1)
          (with_stats rm
             (if Z.ltb 1 attempt then incr_successfulRetries (ls_stats s1)
              else ls_stats s1))
    | Rejected error =>
        if Z.eqb attempt maxAttempts' || negb (retryCondition' error) then
          exhausted rm attempt requestId
            (mkLoopState (Some error) (S (ls_calls s1)) (ls_delays s1)
               (ls_onRetry s1)
               (if Z.ltb 1 attempt then incr_failedRetries (ls_stats s1)
                else ls_stats s1))
        else
          loop remaining (attempt + 1)
            (mkLoopState (Some error) (S (ls_calls s1)) (ls_delays s1)
               (ls_onRetry s1) (ls_stats s1))
    end.
Proof. reflexivity. Qed.

(** The loop from any iteration on: it makes between one call and as many
    as it has iterations left, and accounts for each of them. *)
Lemma attempts_accounts remaining :
  forall attempt s,
    (1 <= attempt)%Z ->
    (attempt + Z.of_nat remaining = maxAttempts')%Z ->
    exists it slept,
      (1 <= it <= S remaining)%nat /\
      accounts attempt s (loop (S remaining) attempt s) it slept.
Proof.
  induction remaining as [|r IH]; intros attempt s Ha Hlast;
    rewrite attempts_S; cbv zeta;
    destruct (operation (ls_calls (before_call random rm options attempt s)))
      as [result|error] eqn:Hop.
  - eexists 1%nat, _. split; [lia | now apply resolved_accounts].
  - assert (Z.eqb attempt maxAttempts' = true) as -> by (apply Z.eqb_eq; lia).
    simpl. eexists 1%nat, _. split; [lia | now apply exhausted_accounts].
  - eexists 1%nat, _. split; [lia | now apply resolved_accounts].
  - destruct (Z.eqb attempt maxAttempts' || negb (retryCondition' error)) eqn:Hstop.
    + eexists 1%nat, _. split; [lia | now apply exhausted_accounts].
    + destruct (before_call_effect attempt s)
        as [slept [Hd [Hlen [Hall [Hc [Ht [Hs [Hf [Hm Ho]]]]]]]]].
      pose proof (retried_le attempt) as Hle.
      pose proof (retried_next attempt Ha) as Hnext.
      set (s2 := mkLoopState _ _ _ _ _).
      destruct (IH (attempt + 1)%Z s2) as [it [slept' [Hit Hacc]]]; [lia | lia |].
      destruct Hacc as [Acalls Atotal Adelays Aslept Acomp Amax Aon Aout].
      exists (S it), (slept ++ slept')%list. split; [lia|].
      split.
      * rewrite Acalls. subst s2. simpl. lia.
      * rewrite Atotal. subst s2. simpl. lia.
      * rewrite Adelays. subst s2. simpl. rewrite Hd. apply eq_sym, app_assoc.
      * rewrite length_app. lia.
      * apply Forall_app. split; assumption.
      * rewrite Amax. subst s2. simpl. rewrite Hm. apply eq_sym, fold_left_app.
      * rewrite Aon. subst s2. simpl. rewrite Ho, length_app. lia.
      * replace (attempt + Z.of_nat (S it) - 1)%Z
          with (attempt + 1 + Z.of_nat it - 1)%Z by lia.
        simpl in Aout. subst s2. simpl in Aout.
        rewrite Hs, Hf in Aout. exact Aout.
Qed.

(** The delays of any run are those of [calculateDelay] at 1, 2, ... *)
Lemma attempts_delays_any remaining :
  forall attempt s,
    (1 <= attempt)%Z ->
    ls_delays s
    = map (RetryFacts.nth_delay random rm options)
          (seq 0 (Z.to_nat (attempt - 2))) ->
    exists n,
      run_delays (loop (S remaining) attempt s)
      = map (RetryFacts.nth_delay random rm options) (seq 0 n).
Proof.
  induction remaining as [|r IH]; intros attempt s Ha Hd;
    pose proof (RetryFacts.before_call_delays random rm options attempt s Ha Hd)
      as Hd1;
    rewrite attempts_S; cbv zeta;
    destruct (operation (ls_calls (before_call random rm options attempt s)))
      as [result|error] eqn:Hop.
  - simpl. eauto.
  - destruct (Z.eqb attempt maxAttempts' || negb (retryCondition' error));
      simpl; eauto.
  - simpl. eauto.
  - destruct (Z.eqb attempt maxAttempts' || negb (retryCondition' error));
      [simpl; eauto|].
    apply IH; [lia|]. simpl.
    replace (attempt + 1 - 2)%Z with (attempt - 1)%Z by lia. exact Hd1.
Qed.

(** A run whose first [j] attempts fail with errors the predicate accepts
    and whose next attempt succeeds. *)
Lemma attempts_success j :
  forall remaining attempt s v,
    (attempt + Z.of_nat j <= maxAttempts')%Z ->
    (j <= remaining)%nat ->
    (forall i, (i < j)%nat ->
               exists e, operation (ls_calls s + i)%nat = Rejected e /\
                         retryCondition' e = true) ->
    operation (ls_calls s + j)%nat = Resolved v ->
    run_outcome (loop (S remaining) attempt s) = Resolved v /\
    run_calls (loop (S remaining) attempt s) = (ls_calls s + j + 1)%nat.
Proof.
  induction j as [|j IH]; intros remaining attempt s v Hmax Hrem Hfail Hok;
    rewrite attempts_S; cbv zeta;
    rewrite (RetryFacts.before_call_calls random rm options attempt s).
  - replace (ls_calls s + 0)%nat with (ls_calls s) in Hok by lia.
    rewrite Hok. simpl. split; [reflexivity | lia].
  - destruct (Hfail 0%nat) as [e [Hop Hc]]; [lia|].
    replace (ls_calls s + 0)%nat with (ls_calls s) in Hop by lia.
    rewrite Hop, Hc.
    assert (Z.eqb attempt maxAttempts' = false) as -> by (apply Z.eqb_neq; lia).
    simpl. destruct remaining as [|remaining]; [lia|].
    set (s2 := mkLoopState _ _ _ _ _).
    destruct (IH remaining (attempt + 1)%Z s2 v) as [Ho Hcalls].
    + lia.
    + lia.
    + intros i Hi. destruct (Hfail (S i)) as [e' [Hop' Hc']]; [lia|].
      exists e'. split; [|exact Hc']. rewrite <- Hop'. f_equal.
      subst s2. simpl. lia.
    + rewrite <- Hok. f_equal. subst s2. simpl. lia.
    + split; [exact Ho|]. rewrite Hcalls. subst s2. simpl. lia.
Qed.

End Loop.

Lemma retried_nat (n : nat) :
  retried (Z.of_nat n) = if (1 <? n)%nat then 1%nat else 0%nat.
Proof.
  unfold retried.
  destruct (Z.ltb_spec 1 (Z.of_nat n)); destruct (Nat.ltb_spec 1 n);
    reflexivity || lia.
Qed.

(** The account of a run; the theorem below states it. *)
Lemma executeWithRetry_accounts {T : Type} (operation : nat -> Outcome T)
    (random : nat -> Q) (rm : RetryManager) (options : RetryOptions)
    (requestId : option string) :
  bypassed rm options = false ->
  (1 <= effectiveMaxAttempts rm options)%Z ->
  let run := executeWithRetry operation random rm options requestId in
  let calls := run_calls run in
  let before := stats rm in
  let after := stats (run_manager run) in
  let retry := if (1 <? calls)%nat then 1%nat else 0%nat in
  (1 <= calls)%nat /\
  (Z.of_nat calls <= effectiveMaxAttempts rm options)%Z /\
  totalAttempts after = (totalAttempts before + calls)%nat /\
  run_delays run
  = map (RetryFacts.nth_delay random rm options) (seq 0 (calls - 1)) /\
  length (run_onRetry run) = (calls - 1)%nat /\
  maxRetryDelay after = fold_left Qmax (run_delays run) (maxRetryDelay before) /\
  match run_outcome run with
  | Resolved _ =>
      successfulRetries after = (successfulRetries before + retry)%nat /\
      failedRetries after = failedRetries before
  | Rejected e =>
      instanceof e CRetryExhaustedError = true /\
      e_attempts e = Some (Z.of_nat calls) /\
      successfulRetries after = successfulRetries before /\
      failedRetries after = (failedRetries before + retry)%nat
  end.
Proof.
  intros Hon Hmax run calls before after retry.
  subst retry after before calls run. unfold executeWithRetry. rewrite Hon.
  destruct (Z.to_nat (effectiveMaxAttempts rm options)) as [|r] eqn:Hn; [lia|].
  set (s0 := mkLoopState None 0%nat [] [] (stats rm)).
  destruct (attempts_accounts operation random rm options requestId
              (effectiveMaxAttempts rm options) (effectiveRetryCondition rm options)
              r 1 s0) as [it [slept [Hit Hacc]]]; [lia | lia |].
  destruct (attempts_delays_any operation random rm options requestId
              (effectiveMaxAttempts rm options) (effectiveRetryCondition rm options)
              r 1 s0) as [n Hdelays]; [lia | reflexivity |].
  destruct Hacc as [Acalls Atotal Adelays Aslept Acomp Amax Aon Aout].
  cbn [s0 ls_calls ls_delays ls_onRetry ls_stats app Nat.add length]
    in Acalls, Atotal, Adelays, Aslept, Amax, Aon, Aout.
  change (retried 1) with 0%nat in Aslept.
  assert (n = length slept) as Hlen.
  { rewrite <- Adelays, Hdelays, length_map, length_seq. reflexivity. }
  rewrite Acalls.
  replace (it - 1)%nat with n by lia.
  split; [lia|]. split; [lia|]. split; [exact Atotal|].
  split; [exact Hdelays|]. split; [rewrite Aon; lia|].
  split; [rewrite Adelays; exact Amax|].
  replace (1 + Z.of_nat it - 1)%Z with (Z.of_nat it) in Aout by lia.
  rewrite retried_nat in Aout.
  destruct (run_outcome _) as [v|e].
  - exact Aout.
  - destruct Aout as [H1 [H2 [H3 H4]]]. unfold instanceof. rewrite H3.
    repeat split; assumption.
Qed.


(** X6. What a run of [executeWithRetry] leaves behind, whatever the
    operation does, when retries are active and at least one attempt is
    allowed.  The operation is called at least once and at most [maxAttempts]
    times; [totalAttempts] grows by the number of calls; before each call but
    the first the run sleeps the delay [calculateDelay] gives for the number
    of the failed attempt, and reports it to [onRetry]; [maxRetryDelay] is the
    largest delay slept so far; a run that ends after a retry counts one
    successful or one failed retry; and a run that fails is rejected with a
    [RetryExhaustedError] whose [attempts] is the number of calls made. *)
Theorem run_accounted {T : Type} (operation : nat -> Outcome T)
    (random : nat -> Q) (rm : RetryManager) (options : RetryOptions)
    (requestId : option string) :
  bypassed rm options = false ->
  (1 <= effectiveMaxAttempts rm options)%Z ->
  let run := executeWithRetry operation random rm options requestId in
  let calls := run_calls run in
  let before := stats rm in
  let after := stats (run_manager run) in
  let retry := if (1 <? calls)%nat then 1%nat else 0%nat in
  (1 <= calls)%nat /\
  (Z.of_nat calls <= effectiveMaxAttempts rm options)%Z /\
  totalAttempts after = (totalAttempts before + calls)%nat /\
  run_delays run
  = map (RetryFacts.nth_delay random rm options) (seq 0 (calls - 1)) /\
  length (run_onRetry run) = (calls - 1)%nat /\
  maxRetryDelay after = fold_left Qmax (run_delays run) (maxRetryDelay before) /\
  match run_outcome run with
  | Resolved _ =>
      successfulRetries after = (successfulRetries before + retry)%nat /\
      failedRetries after = failedRetries before
  | Rejected e =>
      instanceof e CRetryExhaustedError = true /\
      e_attempts e = Some (Z.of_nat calls) /\
      successfulRetries after = successfulRetries before /\
      failedRetries after = (failedRetries before + retry)%nat
  end.
Proof. apply executeWithRetry_accounts. Qed.

(** An operation that is always answered 503. *)
Definition unavailable : nat -> Outcome nat :=
  fun _ => Rejected (mkJsError CAxiosError "Request failed with status code 503"
                       None None None (Some (mkErrResponse 503 None))
                       None None false None None None).

(** X6 on three attempts that all fail with 503. *)
Lemma run_accounted_witness :
  let run :=
    executeWithRetry unavailable (fun _ => (1 # 2)%Q) (new emptyConfig)
      noOptions None in
  totalAttempts (stats (run_manager run)) = 3%nat /\
  length (run_delays run) = 2%nat.
Proof.
  intros run.
  destruct (run_accounted unavailable (fun _ => (1 # 2)%Q) (new emptyConfig)
              noOptions None eq_refl) as [_ [_ [Ht [Hd _]]]].
  - vm_compute. discriminate.
  - split; [exact Ht|]. fold run in Hd. rewrite Hd, length_map, length_seq.
    reflexivity.
Defined.

(** X7. A run succeeds as soon as an attempt does.  When the first [k]
    attempts fail with errors the retry predicate accepts and the next one
    succeeds, with [k + 1] attempts allowed, the run resolves to the result
    of that attempt after exactly [k + 1] calls of the operation and [k]
    delays; it counts one successful retry when [k] is not 0, and no failed
    one. *)
Theorem succeeds_after_retries {T : Type} (operation : nat -> Outcome T)
    (random : nat -> Q) (rm : RetryManager) (options : RetryOptions)
    (requestId : option string) (k : nat) (v : T) :
  bypassed rm options = false ->
  (Z.of_nat k < effectiveMaxAttempts rm options)%Z ->
  (forall i, (i < k)%nat ->
             exists e, operation i = Rejected e /\
                       effectiveRetryCondition rm options e = true) ->
  operation k = Resolved v ->
  let run := executeWithRetry operation random rm options requestId in
  run_outcome run = Resolved v /\
  run_calls run = S k /\
  run_delays run = map (RetryFacts.nth_delay random rm options) (seq 0 k) /\
  successfulRetries (stats (run_manager run))
  = (successfulRetries (stats rm) + if (0 <? k)%nat then 1 else 0)%nat /\
  failedRetries (stats (run_manager run)) = failedRetries (stats rm).
Proof.
  intros Hon Hmax Hfail Hok run.
  destruct (executeWithRetry_accounts operation random rm options requestId Hon)
    as [_ [_ [_ [Hd [_ [_ Hout]]]]]]; [lia|].
  fold run in Hd, Hout.
  assert (run_outcome run = Resolved v /\ run_calls run = S k) as [Ho Hc].
  { unfold run, executeWithRetry. rewrite Hon.
    destruct (Z.to_nat (effectiveMaxAttempts rm options)) as [|r] eqn:Hn; [lia|].
    destruct (attempts_success operation random rm options requestId
                (effectiveMaxAttempts rm options)
                (effectiveRetryCondition rm options) k r 1
                (mkLoopState None 0%nat [] [] (stats rm)) v) as [H1 H2].
    - lia.
    - lia.
    - intros i Hi. simpl. apply Hfail. exact Hi.
    - exact Hok.
    - split; [exact H1|]. rewrite H2. simpl. lia. }
  rewrite Ho in Hout. rewrite Hc in Hd, Hout.
  replace (S k - 1)%nat with k in Hd by lia.
  split; [exact Ho|]. split; [exact Hc|]. split; [exact Hd|].
  destruct Hout as [Hs Hf]. split; [|exact Hf].
  rewrite Hs. reflexivity.
Qed.

(** X7 on an operation that is answered 503 once and then succeeds. *)
Lemma succeeds_after_retries_witness :
  let op : nat -> Outcome nat :=
    fun k => match k with O => unavailable 0%nat | _ => Resolved 7%nat end in
  let run :=
    executeWithRetry op (fun _ => (1 # 2)%Q) (new emptyConfig) noOptions None in
  run_outcome run = Resolved 7%nat /\ run_calls run = 2%nat.
Proof.
  intros op run.
  destruct (succeeds_after_retries op (fun _ => (1 # 2)%Q) (new emptyConfig)
              noOptions None 1 7%nat eq_refl) as [Ho [Hc _]].
  - reflexivity.
  - intros i Hi. assert (i = 0%nat) as -> by lia.
    eexists. split; reflexivity.
  - reflexivity.
  - split; [exact Ho | exact Hc].
Defined.

(** X8. A policy that allows no attempt.  When retries are active and the
    number of attempts in force is 0 or negative (the per-call
    [options.maxAttempts] is not validated), the loop body never runs: the
    operation is not called at all, and the statement after the loop fails
    while it builds the [RetryExhaustedError], for there is no last error to
    read the message of.  The caller gets a [TypeError], and the statistics
    are as they were. *)
Theorem no_attempt_allowed {T : Type} (operation : nat -> Outcome T)
    (random : nat -> Q) (rm : RetryManager) (options : RetryOptions)
    (requestId : option string) :
  bypassed rm options = false ->
  (effectiveMaxAttempts rm options <= 0)%Z ->
  let run := executeWithRetry operation random rm options requestId in
  run_calls run = 0%nat /\
  run_delays run = [] /\
  stats (run_manager run) = stats rm /\
  exists e, run_outcome run = Rejected e /\
            instanceof e CTypeError = true /\
            instanceof e CRetryExhaustedError = false.
Proof.
  intros Hon Hmax run. unfold run, executeWithRetry. rewrite Hon.
  replace (Z.to_nat (effectiveMaxAttempts rm options)) with 0%nat by lia.
  simpl. repeat split. eexists. repeat split.
Qed.

(** X8 on a request made with [retry: { maxAttempts: 0 }]. *)
Lemma no_attempt_allowed_witness :
  run_calls
    (executeWithRetry unavailable (fun _ => (1 # 2)%Q) (new emptyConfig)
       (mkRetryOptions None (Some 0) None None None) None)
  = 0%nat.
Proof.
  destruct (no_attempt_allowed unavailable (fun _ => (1 # 2)%Q) (new emptyConfig)
              (mkRetryOptions None (Some 0) None None None) None eq_refl)
    as [H _]; [vm_compute; discriminate | exact H].
Defined.

(** X9. A fixed per-call delay.  With [options.retryDelay] set to a value
    other than 0, every delay of the run is [min(retryDelay, maxDelay)],
    whatever the number of the attempt, the backoff factor and the jitter. *)
Theorem fixed_retry_delay {T : Type} (operation : nat -> Outcome T)
    (random : nat -> Q) (rm : RetryManager) (options : RetryOptions)
    (requestId : option string) (d : Q) :
  retryDelay_set options = Some d ->
  Forall (fun q => q = Qmin d (maxDelay rm))
         (run_delays (executeWithRetry operation random rm options requestId)).
Proof.
  intros Hd.
  destruct (bypassed rm options) eqn:Hon.
  { unfold executeWithRetry. rewrite Hon. constructor. }
  destruct (Z.le_gt_cases 1 (effectiveMaxAttempts rm options)) as [Hmax|Hmax].
  - destruct (executeWithRetry_accounts operation random rm options requestId
                Hon Hmax) as [_ [_ [_ [Hdelays _]]]].
    rewrite Hdelays. apply Forall_map, Forall_forall. intros k _.
    unfold RetryFacts.nth_delay, calculateDelay. rewrite Hd. reflexivity.
  - unfold executeWithRetry. rewrite Hon.
    replace (Z.to_nat (effectiveMaxAttempts rm options)) with 0%nat by lia.
    constructor.
Qed.

(** X9 on three failing attempts with [retry: { retryDelay: 250 }]. *)
Lemma fixed_retry_delay_witness :
  Forall (fun q => q = Qmin (250 # 1) (30000 # 1))
    (run_delays
       (executeWithRetry unavailable (fun _ => (1 # 2)%Q) (new emptyConfig)
          (mkRetryOptions None None None (Some (250 # 1)%Q) None) None)).
Proof.
  exact (fixed_retry_delay unavailable (fun _ => (1 # 2)%Q) (new emptyConfig)
           (mkRetryOptions None None None (Some (250 # 1)%Q) None) None
           (250 # 1)%Q eq_refl).
Defined.

Local Open Scope Q_scope.

(** The exponential grows with the number of the attempt. *)
Lemma exponential_grows (base factor : Q) (n : Z) :
  0 <= base -> 1 <= factor -> (1 <= n)%Z ->
  0 <= base * factor ^ (n - 1) /\
  base * factor ^ (n - 1) <= base * factor ^ (n + 1 - 1).
Proof.
  intros Hb Hf Hn.
  assert (0 <= factor ^ (n - 1)) as Hp by (apply Qpower_0_le; lra).
  assert (factor ^ (n + 1 - 1) == factor ^ (n - 1) * factor) as Hstep.
  { replace (n + 1 - 1)%Z with ((n - 1) + 1)%Z by lia.
    rewrite Qpower_plus by lra. simpl. reflexivity. }
  assert (0 <= base * factor ^ (n - 1)) as H0
    by (apply Qmult_le_0_compat; assumption).
  split; [exact H0|]. rewrite Hstep.
  assert (1 * (base * factor ^ (n - 1)) <= factor * (base * factor ^ (n - 1)))
    as H1 by (apply Qmult_le_compat_r; assumption).
  lra.
Qed.

(** X10. Without jitter the delays never shrink.  For a policy without a
    fixed per-call delay and without jitter, with a base delay that is not
    negative and a backoff factor of at least 1 (what the configuration
    validator accepts), the delay after the failed attempt [n + 1] is at
    least the delay after the failed attempt [n], both are at most
    [maxDelay], and neither is negative unless [maxDelay] is. *)
Theorem delay_never_shrinks (rm : RetryManager) (options : RetryOptions)
    (random random' : Q) (n : Z) :
  jitter rm = false ->
  retryDelay_set options = None ->
  0 <= baseDelay rm -> 1 <= backoffFactor rm -> (1 <= n)%Z ->
  calculateDelay rm random n options
  <= calculateDelay rm random' (n + 1) options /\
  calculateDelay rm random' (n + 1) options <= maxDelay rm /\
  (0 <= maxDelay rm -> 0 <= calculateDelay rm random n options).
Proof.
  intros Hj Hd Hb Hf Hn. unfold calculateDelay. rewrite Hd, Hj.
  destruct (exponential_grows (baseDelay rm) (backoffFactor rm) n Hb Hf Hn)
    as [H0 Hle].
  set (E := baseDelay rm * backoffFactor rm ^ (n - 1)) in *.
  set (E' := baseDelay rm * backoffFactor rm ^ (n + 1 - 1)) in *.
  destruct (Q.min_spec E (maxDelay rm)) as [[H1 ->]|[H1 ->]];
    destruct (Q.min_spec E' (maxDelay rm)) as [[H2 ->]|[H2 ->]];
    repeat split; try intros; lra.
Qed.

(** X10 at the defaults without jitter: 1000 after the first failure, 2000
    after the second. *)
Lemma delay_never_shrinks_witness :
  let rm := new (mkRetryConfig None None None None None None None (Some false)) in
  calculateDelay rm 0 1 noOptions <= calculateDelay rm 0 2 noOptions.
Proof.
  intros rm.
  destruct (delay_never_shrinks rm noOptions 0 0 1 eq_refl eq_refl) as [H _];
    [vm_compute; discriminate | vm_compute; discriminate | lia | exact H].
Defined.

Close Scope Q_scope.

End RetryMore.

(* ===================================================================== *)
(** ** Transformed errors and the retry decision *)
(* ===================================================================== *)
Module ErrorFacts.
Import Errors Retry ApiErrors Helpers.

(** No member of [ErrorCode] is one of the connection-level codes of Node. *)
Lemma code_string_not_network (c : ErrorCode) (e : JsError) :
  e_code e = Some (code_string c) -> networkCode e = false.
Proof. intros H. unfold networkCode, code_is. rewrite H. now destruct c. Qed.

(** The code of a response status, by ranges. *)
Lemma getErrorCodeFromStatus_ranges (status : Z) :
  let code := getErrorCodeFromStatus status in
  (status < 400 -> code = UNKNOWN_ERROR) /\
  (400 <= status < 500 ->
   In code [BAD_REQUEST; UNAUTHORIZED; FORBIDDEN; NOT_FOUND; METHOD_NOT_ALLOWED;
            CONFLICT; RATE_LIMITED; API_ERROR]) /\
  (500 <= status -> code = SERVER_ERROR \/ code = SERVICE_UNAVAILABLE) /\
  (code = SERVICE_UNAVAILABLE <-> status = 502 \/ status = 503 \/ status = 504).
Proof.
  intros code. subst code. unfold getErrorCodeFromStatus.
  repeat match goal with
         | |- context [Z.eqb status ?k] =>
             destruct (Z.eqb_spec status k); [subst; simpl; intuition (lia || congruence)|]
         end.
  simpl.
  destruct (Z.leb_spec 400 status); destruct (Z.ltb_spec status 500); simpl;
    try destruct (Z.leb_spec 500 status); simpl; intuition (lia || congruence).
Qed.

(** X11. The [ApiError] made of a transport error.  It keeps the error as
    its cause and the request id it is given.  For an error with a response
    the code is that of the status, the status and the body are those of the
    response, and the error is flagged retryable exactly when the status is
    500 or more: a 408 or a 429 is not flagged, though the retry engine
    retries them.  For an error without a response the code is
    [TIMEOUT_ERROR] when the error code is [ECONNABORTED] and
    [NETWORK_ERROR] otherwise, and the error is flagged retryable. *)
Theorem fromAxiosError_classifies (error : JsError) (requestId : option string) :
  let x := fromAxiosError error requestId in
  instanceof x CApiError = true /\
  e_cause x = Some error /\
  e_requestId x = requestId /\
  match e_response error with
  | Some r =>
      e_code x = Some (code_string (getErrorCodeFromStatus (resp_status r))) /\
      e_status x = Some (resp_status r) /\
      e_data x = resp_data r /\
      e_isRetryable x = Z.leb 500 (resp_status r)
  | None =>
      e_code x
      = Some (code_string (if code_is error "ECONNABORTED" then TIMEOUT_ERROR
                           else NETWORK_ERROR)) /\
      e_status x = None /\
      e_isRetryable x = true
  end.
Proof.
  intros x. subst x. unfold fromAxiosError.
  destruct (e_response error) as [r|]; simpl.
  - repeat split.
    destruct (getErrorCodeFromStatus_ranges (resp_status r)) as [H1 [H2 [H3 H4]]].
    destruct (Z.leb_spec 500 (resp_status r)) as [Hge|Hlt].
    + destruct (Z.eqb_spec (resp_status r) 0); [lia|]. simpl.
      apply orb_true_r.
    + rewrite andb_false_r, orb_false_r.
      destruct (Z_lt_le_dec (resp_status r) 400) as [Hlow|Hmid].
      * rewrite (H1 Hlow). reflexivity.
      * assert (400 <= resp_status r < 500) as Hr by lia.
        specialize (H2 Hr). simpl in H2.
        destruct H2 as [<-|[<-|[<-|[<-|[<-|[<-|[<-|[<-|[]]]]]]]]]; reflexivity.
  - destruct (code_is error "ECONNABORTED"); repeat split.
Qed.

(** X12. What the retry engine decides about a transformed error.  The
    default retry condition treats the [ApiError] made of an error with a
    response as it treats the error itself: by the membership of the status
    in [retryStatusCodes].  The [ApiError] made of an error without a
    response is always retried, also when the error itself is not: a timeout
    of the transport ([ECONNABORTED]) is retried only once it is
    transformed. *)
Theorem transformed_error_retry_decision (rm : RetryManager) (error : JsError)
    (requestId : option string) :
  let x := fromAxiosError error requestId in
  match e_response error with
  | Some r =>
      resp_status r <> 0 ->
      defaultRetryCondition rm x = includesZ (retryStatusCodes rm) (resp_status r) /\
      (networkCode error = false ->
       defaultRetryCondition rm x = defaultRetryCondition rm error)
  | None =>
      defaultRetryCondition rm x = true /\
      (code_is error "ECONNABORTED" = true -> e_status error = None ->
       defaultRetryCondition rm error = false)
  end.
Proof.
  intros x.
  assert (networkCode x = false) as Hx.
  { subst x. unfold fromAxiosError.
    eapply code_string_not_network. reflexivity. }
  destruct (e_response error) as [r|] eqn:Hr.
  - intros Hz.
    assert (defaultRetryCondition rm x
            = includesZ (retryStatusCodes rm) (resp_status r)) as Hd.
    { apply RetryFacts.defaultRetryCondition_status; [exact Hx | | exact Hz].
      subst x. unfold fromAxiosError, statusCode. rewrite Hr. reflexivity. }
    split; [exact Hd|]. intros Hn. rewrite Hd. symmetry.
    apply RetryFacts.defaultRetryCondition_status; [exact Hn | | exact Hz].
    unfold statusCode. rewrite Hr.
    destruct (Z.eqb_spec (resp_status r) 0); [contradiction | reflexivity].
  - split.
    + unfold defaultRetryCondition. rewrite Hx.
      subst x. unfold fromAxiosError, statusCode, customCodeCondition.
      rewrite Hr. simpl. destruct (code_is error "ECONNABORTED"); reflexivity.
    + intros Hc Hs. unfold code_is in Hc.
      destruct (e_code error) as [c|] eqn:Hcode; [|discriminate].
      apply String.eqb_eq in Hc. subst c.
      unfold defaultRetryCondition, networkCode, code_is, statusCode,
        customCodeCondition.
      rewrite Hcode, Hr, Hs. reflexivity.
Qed.

(** X12 on a response with status 503. *)
Lemma transformed_error_retry_decision_witness :
  defaultRetryCondition (new emptyConfig)
    (fromAxiosError (RetryFacts.status_error 503) (Some "req_1"))
  = true.
Proof.
  pose proof (transformed_error_retry_decision (new emptyConfig)
                (RetryFacts.status_error 503) (Some "req_1")) as H.
  simpl in H. destruct H as [H _]; [discriminate|]. rewrite H. reflexivity.
Defined.

(** X13. Two notions of a retryable error.  On an error with a response the
    helper [isRetryableError] accepts what the default retry condition of the
    engine accepts and, besides, every status of 500 or more; on an error
    without a response it accepts the four connection-level codes only, and
    none of the error codes of the library. *)
Theorem isRetryableError_against_default (error : JsError) :
  match e_response error with
  | Some r =>
      resp_status r <> 0 ->
      isRetryableError error
      = defaultRetryCondition (new emptyConfig) error || Z.leb 500 (resp_status r)
  | None => isRetryableError error = networkCode error
  end.
Proof.
  unfold isRetryableError. fold (networkCode error).
  destruct (e_response error) as [r|] eqn:Hr.
  - intros Hz. unfold defaultRetryCondition, statusCode. rewrite Hr.
    destruct (networkCode error); [reflexivity|].
    destruct (Z.eqb_spec (resp_status r) 0) as [|_]; [contradiction|]. simpl.
    destruct (Z.eqb_spec (resp_status r) 0) as [|_]; [contradiction|]. simpl.
    unfold includesZ. simpl.
    destruct (Z.eqb_spec (resp_status r) 408); [reflexivity|].
    destruct (Z.eqb_spec (resp_status r) 429); [reflexivity|]. simpl.
    destruct (Z.leb_spec 500 (resp_status r)) as [Hge|Hlt].
    + now rewrite !orb_true_r.
    + rewrite !orb_false_r.
      repeat match goal with
             | |- context [Z.eqb (resp_status r) ?k] =>
                 destruct (Z.eqb_spec (resp_status r) k); [lia|]
             end.
      reflexivity.
  - destruct (networkCode error); reflexivity.
Qed.

(** X13 on a response with status 501: the helper accepts it, the engine
    does not. *)
Lemma isRetryableError_against_default_witness :
  isRetryableError (RetryFacts.status_error 501) = true /\
  defaultRetryCondition (new emptyConfig) (RetryFacts.status_error 501) = false.
Proof.
  pose proof (isRetryableError_against_default (RetryFacts.status_error 501))
    as H.
  simpl in H. split; [apply H; discriminate | reflexivity].
Defined.

End ErrorFacts.

(* ===================================================================== *)
(** ** Properties of the helpers *)
(* ===================================================================== *)
Module HelperFacts.
Import Errors Helpers.

(** *** Objects *)

Lemma prop_assign_same props key value :
  prop (assign props key value) key = Some value.
Proof.
  induction props as [|[k v] rest IH]; simpl.
  - now rewrite String.eqb_refl.
  - destruct (String.eqb k key) eqn:Hk; simpl; rewrite Hk; auto.
Qed.

Lemma prop_assign_other props key value key' :
  key <> key' -> prop (assign props key value) key' = prop props key'.
Proof.
  intros Hne. induction props as [|[k v] rest IH]; simpl.
  - destruct (String.eqb_spec key key'); [contradiction | reflexivity].
  - destruct (String.eqb_spec k key) as [->|Hk]; simpl.
    + destruct (String.eqb_spec key key'); [contradiction | reflexivity].
    + destruct (String.eqb k key'); auto.
Qed.

Lemma prop_missing props key : prop props key = None <-> ~ In key (map fst props).
Proof.
  induction props as [|[k v] rest IH]; simpl.
  - tauto.
  - destruct (String.eqb_spec k key) as [->|Hk].
    + split; [discriminate | tauto].
    + rewrite IH. tauto.
Qed.

(** The keys of an object survive an assignment, in their places. *)
Lemma assign_keys props key value :
  exists more, map fst (assign props key value) = (map fst props ++ more)%list.
Proof.
  induction props as [|[k v] rest [more IH]]; simpl.
  - exists [key]. reflexivity.
  - destruct (String.eqb k key); simpl.
    + exists []. now rewrite app_nil_r.
    + exists more. now rewrite IH.
Qed.

(** One step of the loop of [deepMerge]. *)
Definition merge_step
    (merge : Value -> list (string * Value) -> list (string * Value))
    (result : list (string * Value)) (key : string) (sourceValue : Value)
    : list (string * Value) :=
  match sourceValue, prop result key with
  | VObj _, Some (VObj targetValue) =>
      assign result key (VObj (merge sourceValue targetValue))
  | VUndefined, _ => result
  | _, _ => assign result key sourceValue
  end.

Lemma merge_props_cons merge key sourceValue rest result :
  merge_props merge ((key, sourceValue) :: rest) result
  = merge_props merge rest (merge_step merge result key sourceValue).
Proof. reflexivity. Qed.

Lemma merge_step_other merge result key sourceValue key' :
  key <> key' ->
  prop (merge_step merge result key sourceValue) key' = prop result key'.
Proof.
  intros Hne. unfold merge_step.
  destruct sourceValue; try (now apply prop_assign_other); try reflexivity.
  destruct (prop result key) as [[]|]; now apply prop_assign_other.
Qed.

(** The loop leaves alone the properties its source does not name. *)
Lemma merge_props_other merge src :
  forall result key,
    ~ In key (map fst src) ->
    prop (merge_props merge src result) key = prop result key.
Proof.
  induction src as [|[k sv] rest IH]; intros result key Hnot; [reflexivity|].
  rewrite merge_props_cons, IH.
  - apply merge_step_other. simpl in Hnot. tauto.
  - simpl in Hnot. tauto.
Qed.

(** What the loop makes of a property its source names once. *)
Lemma merge_props_named merge src :
  forall result key sourceValue,
    List.NoDup (map fst src) ->
    prop src key = Some sourceValue ->
    prop (merge_props merge src result) key
    = prop (merge_step merge result key sourceValue) key.
Proof.
  induction src as [|[k sv] rest IH]; intros result key sourceValue Hnd Hp;
    [discriminate|].
  simpl in Hp. inversion Hnd as [|? ? Hnotin Hnd']; subst.
  rewrite merge_props_cons.
  destruct (String.eqb_spec k key) as [->|Hk].
  - inversion Hp; subst. apply merge_props_other. exact Hnotin.
  - rewrite (IH _ key sourceValue Hnd' Hp).
    pose proof (merge_step_other merge result k sv key Hk) as Hsame.
    set (r1 := merge_step merge result k sv) in *.
    unfold merge_step. rewrite Hsame.
    destruct sourceValue; try exact Hsame;
      try (rewrite !prop_assign_same; reflexivity).
    destruct (prop result key) as [[]|]; rewrite !prop_assign_same; reflexivity.
Qed.

Lemma deepMerge_unfold target source :
  deepMerge target source = merge_props deepMerge_into source target.
Proof. reflexivity. Qed.

Lemma deepMerge_into_obj source target :
  deepMerge_into (VObj source) target = deepMerge target source.
Proof. reflexivity. Qed.

(** [deepMerge], property by property. *)
Lemma deepMerge_prop target source key :
  List.NoDup (map fst source) ->
  prop (deepMerge target source) key
  = match prop source key with
    | None | Some VUndefined => prop target key
    | Some (VObj sourceProps) =>
        match prop target key with
        | Some (VObj targetProps) =>
            Some (VObj (deepMerge targetProps sourceProps))
        | _ => Some (VObj sourceProps)
        end
    | Some sourceValue => Some sourceValue
    end.
Proof.
  intros Hnd. rewrite deepMerge_unfold.
  destruct (prop source key) as [sourceValue|] eqn:Hp.
  - rewrite (merge_props_named _ source target key sourceValue Hnd Hp).
    unfold merge_step.
    destruct sourceValue; try apply prop_assign_same; try reflexivity.
    destruct (prop target key) as [[]|]; apply prop_assign_same.
  - apply merge_props_other. now apply prop_missing.
Qed.

Lemma well_formed_prop props key value :
  well_formed (VObj props) -> prop props key = Some value -> well_formed value.
Proof.
  intros [_ Hall]. induction props as [|[k v] rest IH]; simpl; [discriminate|].
  destruct Hall as [Hv Hrest].
  destruct (String.eqb k key); [intros H; inversion H; subst; exact Hv|].
  now apply IH.
Qed.


(** The retry section of a default configuration, and an override that
    changes the number of attempts and the list of status codes. *)
Definition default_retry : list (string * Value) :=
  [("retry", VObj [("enabled", VBool false); ("maxAttempts", VNum (3 # 1));
                   ("retryStatusCodes", VArr [VNum (408 # 1); VNum (429 # 1)])]);
   ("timeout", VNum (30000 # 1))].

Definition user_retry : list (string * Value) :=
  [("retry", VObj [("maxAttempts", VNum (5 # 1));
                   ("retryStatusCodes", VArr [VNum (503 # 1)])])].


(** *** Strings *)

Lemma length_append (a b : string) :
  String.length (a +:+ b) = (String.length a + String.length b)%nat.
Proof. induction a as [|c a IH]; simpl; [reflexivity | now rewrite IH]. Qed.

Lemma length_substring0 (n : nat) (str : string) :
  String.length (String.substring 0 n str) = Nat.min n (String.length str).
Proof.
  revert n. induction str as [|c str IH]; intros [|n]; simpl; try reflexivity.
  now rewrite IH.
Qed.

(** X15. The length of a truncated string.  [truncateString] returns a
    string of at most [maxLength] characters as it is; a longer one is cut
    to [maxLength - 3] characters followed by three dots, which makes
    [maxLength] characters when [maxLength] is 3 or more, and three
    characters, more than asked for, when it is less. *)
Theorem truncateString_length (str : string) (maxLength : Z) :
  let result := truncateString str maxLength in
  (Z.of_nat (String.length str) <= maxLength -> result = str) /\
  (maxLength < Z.of_nat (String.length str) ->
   result = substring0 str (maxLength - 3) +:+ "..." /\
   Z.of_nat (String.length result) = Z.max maxLength 3).
Proof.
  intros result. subst result. unfold truncateString.
  destruct (Z.leb_spec (Z.of_nat (String.length str)) maxLength) as [Hle|Hgt].
  - split; [reflexivity | lia].
  - split; [lia|]. intros _. split; [reflexivity|].
    unfold substring0. rewrite length_append, length_substring0. simpl. lia.
Qed.

End HelperFacts.

(* ===================================================================== *)
(** ** Facts: the in-memory cache store under any sequence of calls *)
(* ===================================================================== *)
Module CacheAdminFacts.
Import Errors Effect Cache CacheAdmin.

(** *** The [Map] of the in-memory store *)

Section Maps.
Context {V : Type}.
Implicit Types m : list (string * V).

Lemma map_delete_keys m key :
  map fst (map_delete m key)
  = List.filter (fun k => negb (String.eqb k key)) (map fst m).
Proof.
  unfold map_delete. induction m as [|[k v] rest IH]; simpl; [reflexivity|].
  destruct (String.eqb k key); simpl; now rewrite IH.
Qed.

Lemma map_delete_length m key : (length (map_delete m key) <= length m)%nat.
Proof. unfold map_delete. apply List.filter_length_le. Qed.

Lemma map_delete_absent m key :
  map_get m key = None -> map_delete m key = m.
Proof.
  unfold map_delete. induction m as [|[k v] rest IH]; simpl; [reflexivity|].
  destruct (String.eqb k key); simpl; [discriminate|].
  intros Hg. now rewrite IH.
Qed.

Lemma map_delete_present m key v :
  map_get m key = Some v -> (length (map_delete m key) < length m)%nat.
Proof.
  unfold map_delete. induction m as [|[k w] rest IH]; simpl; [discriminate|].
  destruct (String.eqb k key); simpl.
  - intros _. pose proof (List.filter_length_le
                           (fun kv : string * V => negb (String.eqb (fst kv) key)) rest).
    lia.
  - intros Hg. specialize (IH Hg). lia.
Qed.

Lemma map_delete_NoDup m key :
  List.NoDup (map fst m) -> List.NoDup (map fst (map_delete m key)).
Proof. intros Hnd. rewrite map_delete_keys. now apply List.NoDup_filter. Qed.

Lemma map_delete_Forall (P : string * V -> Prop) m key :
  Forall P m -> Forall P (map_delete m key).
Proof.
  unfold map_delete. rewrite !List.Forall_forall. intros HP x Hin.
  apply List.filter_In in Hin. apply HP, Hin.
Qed.

Lemma map_get_delete_other m key key' :
  key <> key' -> map_get (map_delete m key) key' = map_get m key'.
Proof.
  intros Hne. unfold map_delete.
  induction m as [|[k v] rest IH]; simpl; [reflexivity|].
  destruct (String.eqb_spec k key) as [->|Hk]; simpl.
  - destruct (String.eqb_spec key key'); [contradiction | exact IH].
  - now rewrite IH.
Qed.

Lemma map_get_In m key :
  map_get m key = None <-> ~ In key (map fst m).
Proof.
  induction m as [|[k v] rest IH]; simpl; [tauto|].
  destruct (String.eqb_spec k key) as [->|Hk].
  - split; [discriminate | tauto].
  - rewrite IH. tauto.
Qed.

(** [set] on a key that is present rewrites its value where it is. *)
Lemma map_set_present m key value v :
  map_get m key = Some v -> map fst (map_set m key value) = map fst m.
Proof.
  induction m as [|[k w] rest IH]; simpl; [discriminate|].
  destruct (String.eqb_spec k key) as [->|Hk]; simpl; [reflexivity|].
  intros Hg. now rewrite IH.
Qed.

(** [set] on a key that is absent appends it. *)
Lemma map_set_absent m key value :
  map_get m key = None -> map_set m key value = (m ++ [(key, value)])%list.
Proof.
  induction m as [|[k w] rest IH]; simpl; [reflexivity|].
  destruct (String.eqb_spec k key) as [->|Hk]; simpl; [discriminate|].
  intros Hg. now rewrite IH.
Qed.

Lemma map_get_set_other m key value key' :
  key <> key' -> map_get (map_set m key value) key' = map_get m key'.
Proof.
  intros Hne. induction m as [|[k v] rest IH]; simpl.
  - destruct (String.eqb_spec key key'); [contradiction | reflexivity].
  - destruct (String.eqb_spec k key) as [->|Hk]; simpl.
    + destruct (String.eqb_spec key key'); [contradiction | reflexivity].
    + now rewrite IH.
Qed.

Lemma filter_NoDup_keys m (f : string * V -> bool) :
  List.NoDup (map fst m) -> List.NoDup (map fst (List.filter f m)).
Proof.
  induction m as [|kv l IHl]; simpl; intros Hnd; [constructor|].
  inversion Hnd as [|? ? Hnot Hnd']; subst.
  destruct (f kv); simpl; [|now apply IHl].
  constructor; [|now apply IHl].
  intros Hin. apply Hnot. apply in_map_iff in Hin as [x [Hx Hin]].
  apply List.filter_In in Hin as [Hin _]. apply in_map_iff. eauto.
Qed.

(** With distinct keys, the entries of a key that a test [d] selects are
    the entry of the key, when the test selects it. *)
Lemma filter_key m key (d : string * V -> bool) :
  List.NoDup (map fst m) ->
  List.filter (fun kv => String.eqb (fst kv) key && d kv) m
  = match map_get m key with
    | Some v => if d (key, v) then [(key, v)] else []
    | None => []
    end.
Proof.
  induction m as [|[k v] rest IH]; simpl; intros Hnd; [reflexivity|].
  inversion Hnd as [|? ? Hnot Hnd']; subst.
  destruct (String.eqb_spec k key) as [->|Hk]; simpl.
  - apply map_get_In in Hnot. rewrite (IH Hnd'), Hnot.
    now destruct (d (key, v)).
  - exact (IH Hnd').
Qed.

Lemma filter_not_key m key (d : string * V -> bool) :
  List.NoDup (map fst m) ->
  List.filter (fun kv => negb (String.eqb (fst kv) key && d kv)) m
  = match map_get m key with
    | Some v => if d (key, v) then map_delete m key else m
    | None => m
    end.
Proof.
  induction m as [|[k v] rest IH]; simpl; intros Hnd; [reflexivity|].
  inversion Hnd as [|? ? Hnot Hnd']; subst.
  unfold map_delete. simpl.
  destruct (String.eqb_spec k key) as [->|Hk]; simpl.
  - apply map_get_In in Hnot. specialize (IH Hnd'). rewrite Hnot in IH.
    destruct (d (key, v)); simpl.
    + rewrite IH. symmetry. now apply map_delete_absent.
    + now rewrite IH.
  - rewrite (IH Hnd'). destruct (map_get rest key) as [w|]; [|reflexivity].
    now destruct (d (key, w)).
Qed.

End Maps.

Lemma filter_twice {X} (f g : X -> bool) (l : list X) :
  List.filter f (List.filter g l) = List.filter (fun x => g x && f x) l.
Proof.
  induction l as [|x l IH]; simpl; [reflexivity|].
  destruct (g x); simpl; [destruct (f x)|]; now rewrite IH.
Qed.

Lemma filter_or_length {X} (f g : X -> bool) (l : list X) :
  length (List.filter (fun x => f x || g x) l)
  = (length (List.filter f l)
     + length (List.filter g (List.filter (fun x => negb (f x)) l)))%nat.
Proof.
  induction l as [|x l IH]; simpl; [reflexivity|].
  destruct (f x); simpl; [|destruct (g x); simpl]; lia.
Qed.

Lemma filter_none {X} (l : list X) : List.filter (fun _ => false) l = [].
Proof. induction l; simpl; auto. Qed.

Lemma filter_length_all {X} (f : X -> bool) (l : list X) :
  length (List.filter f l) = 0%nat ->
  List.filter (fun x => negb (f x)) l = l.
Proof.
  induction l as [|x l IH]; simpl; [reflexivity|].
  destruct (f x); simpl; [discriminate|]. intros H. now rewrite IH.
Qed.

(** *** What every call keeps *)

Section Store.

Context {Data : Type}.
Variable serialize : Data -> string.
Variable deserialize : string -> Outcome Data.
Variable RegExp : string -> Outcome (string -> bool).
Variable enabled0 : option bool.
Variables ttl0 maxSize0 : option Z.
Variable prefix0 : option string.

Local Abbreviation Manager := (CacheManager MemoryCacheAdapter).

(** The entries of the store, oldest first. *)
Definition store (cm : Manager) : list (string * CacheEntry) :=
  mem_cache (adapter cm).

(** The rate [updateHitRate] computes from the counters. *)
Definition rate (st : CacheStats) : Q :=
  if (0 <? hits st + misses st)%nat
  then (inject_Z (Z.of_nat (hits st))
        / inject_Z (Z.of_nat (hits st + misses st)))%Q
  else 0%Q.

(** What holds of a manager made by [new CacheManager(config)] after any
    calls: its configuration is the one it was made with; the keys of the
    store are distinct and carry the prefix; [stats.size] is the number of
    entries and [stats.hitRate] the rate of the counters; and a store whose
    keys cannot be empty holds at most [maxSize] entries. *)
Record kept (cm : Manager) : Prop := mkKept {
  kept_enabled : cm_enabled cm = default true enabled0;
  kept_prefix : keyPrefix cm = default "api_cache_" prefix0;
  kept_ttl : defaultTTL cm = default 300000 ttl0;
  kept_maxSize : mem_maxSize (adapter cm) = default 1000 maxSize0;
  kept_NoDup : List.NoDup (map fst (store cm));
  kept_prefixed :
    Forall (fun k => exists key, k = default "api_cache_" prefix0 +:+ key)
           (map fst (store cm));
  kept_size : size (stats cm) = length (store cm);
  kept_rate : hitRate (stats cm) = rate (stats cm);
  kept_bound :
    (1 <= default 1000 maxSize0)%Z -> default "api_cache_" prefix0 <> "" ->
    (Z.of_nat (length (store cm)) <= default 1000 maxSize0)%Z
}.

Lemma kept_new : kept (new enabled0 ttl0 maxSize0 prefix0).
Proof.
  split; try reflexivity.
  - constructor.
  - constructor.
  - intros H1 _. change (0 <= default 1000 maxSize0)%Z. lia.
Qed.

Lemma prefixed_nonempty (p key : string) : p <> "" -> p +:+ key <> "".
Proof. destruct p; [congruence | discriminate]. Qed.

(** A manager that differs from a kept one by deletions and by its
    counters. *)
Lemma kept_smaller (cm cm' : Manager) :
  kept cm ->
  cm_enabled cm' = cm_enabled cm -> keyPrefix cm' = keyPrefix cm ->
  defaultTTL cm' = defaultTTL cm ->
  mem_maxSize (adapter cm') = mem_maxSize (adapter cm) ->
  (exists keep, map fst (store cm') = List.filter keep (map fst (store cm))) ->
  size (stats cm') = length (store cm') ->
  hitRate (stats cm') = rate (stats cm') ->
  kept cm'.
Proof.
  intros [He Hp Ht Hm Hnd Hpre Hsz Hr Hb] He' Hp' Ht' Hm' [keep Hkeys] Hsz' Hr'.
  split; try congruence.
  - rewrite Hkeys. now apply List.NoDup_filter.
  - rewrite Hkeys. rewrite List.Forall_forall in *. intros k Hin.
    apply List.filter_In in Hin. apply Hpre, Hin.
  - intros H1 H2. specialize (Hb H1 H2).
    assert (length (store cm') <= length (store cm))%nat; [|lia].
    rewrite <- (length_map fst (store cm')), Hkeys, <- (length_map fst (store cm)).
    apply List.filter_length_le.
Qed.

(** A manager that differs from a kept one by the entries it has lost and
    by its counters. *)
Lemma kept_filtered (cm cm' : Manager) f :
  kept cm ->
  cm_enabled cm' = cm_enabled cm -> keyPrefix cm' = keyPrefix cm ->
  defaultTTL cm' = defaultTTL cm ->
  mem_maxSize (adapter cm') = mem_maxSize (adapter cm) ->
  store cm' = List.filter f (store cm) ->
  size (stats cm') = length (store cm') ->
  hitRate (stats cm') = rate (stats cm') ->
  kept cm'.
Proof.
  intros [He Hp Ht Hm Hnd Hpre Hsz Hr Hb] He' Hp' Ht' Hm' Hstore Hsz' Hr'.
  split; try congruence.
  - rewrite Hstore. now apply filter_NoDup_keys.
  - rewrite Hstore. rewrite List.Forall_forall in *. intros k Hin.
    apply in_map_iff in Hin as [kv [<- Hin]].
    apply List.filter_In in Hin as [Hin _]. apply Hpre. now apply in_map.
  - intros H1 H2. specialize (Hb H1 H2).
    assert (length (store cm') <= length (store cm))%nat; [|lia].
    rewrite Hstore. apply List.filter_length_le.
Qed.

Lemma filter_all {X} (l : list X) : l = List.filter (fun _ => true) l.
Proof. induction l; simpl; congruence. Qed.

Local Arguments memory_set : simpl never.

Ltac open_call :=
  unfold Cache.get, Cache.set, Cache.delete, clear, has, cleanup,
    invalidatePattern, as_CacheError, try_catch, bind, on_adapter, zoom,
    refresh_size, set_size, count_miss, count_hit, modify, ret, gets, throw,
    buildKey; simpl.

Lemma kept_delete (cm : Manager) key : kept cm -> kept (snd (Cache.delete key cm)).
Proof.
  intros Hk. open_call.
  destruct (cm_enabled cm) eqn:Hen; simpl; [|exact Hk].
  open_call. unfold map_has.
  destruct (map_get (mem_cache (adapter cm)) (keyPrefix cm +:+ key))
    as [entry|] eqn:Hg; simpl.
  - apply (kept_smaller cm); try reflexivity; try assumption.
    + eexists. unfold store. simpl. apply map_delete_keys.
    + simpl. unfold rate. simpl. apply (kept_rate cm Hk).
  - apply (kept_smaller cm); try reflexivity; try assumption.
    + eexists. unfold store. simpl. apply map_delete_keys.
    + unfold store. simpl. rewrite map_delete_absent by exact Hg.
      apply (kept_size cm Hk).
    + simpl. apply (kept_rate cm Hk).
Qed.

Lemma rate_updateHitRate st : hitRate (updateHitRate st) = rate (updateHitRate st).
Proof. reflexivity. Qed.

Lemma kept_get (cm : Manager) key now :
  kept cm -> kept (snd (Cache.get deserialize key now cm)).
Proof.
  intros Hk. open_call.
  destruct (cm_enabled cm) eqn:Hen; simpl; [|exact Hk].
  open_call.
  destruct (map_get (mem_cache (adapter cm)) (keyPrefix cm +:+ key))
    as [entry|] eqn:Hg; simpl.
  - destruct (isExpired now entry) eqn:Hexp; simpl.
    + rewrite Hen. simpl. open_call. unfold map_has. rewrite Hg. simpl.
      apply (kept_smaller cm); try reflexivity; try assumption.
      eexists. unfold store. simpl. apply map_delete_keys.
    + assert (kept
                (with_stats
                   (with_adapter cm
                      (memory_set (keyPrefix cm +:+ key)
                         (mkCacheEntry (ce_data entry) (expiresAt entry)
                            (createdAt entry) (S (ce_hits entry)))
                         (adapter cm)))
                   (updateHitRate
                      (mkCacheStats (S (hits (stats cm))) (misses (stats cm))
                         (sets (stats cm)) (deletes (stats cm))
                         (size (stats cm)) (hitRate (stats cm)))))) as Hk'.
      { assert (map fst (mem_cache
                           (memory_set (keyPrefix cm +:+ key)
                              (mkCacheEntry (ce_data entry) (expiresAt entry)
                                 (createdAt entry) (S (ce_hits entry)))
                              (adapter cm)))
                = map fst (mem_cache (adapter cm))) as Hkeys.
        { unfold memory_set, map_has. rewrite Hg. simpl.
          rewrite andb_false_r. eapply map_set_present. exact Hg. }
        apply (kept_smaller cm); try reflexivity; try assumption.
        - eexists. unfold store. cbn [adapter with_stats with_adapter].
          rewrite Hkeys. apply filter_all.
        - unfold store. cbn [adapter with_stats with_adapter stats size].
          rewrite <- (length_map fst), Hkeys, length_map.
          apply (kept_size cm Hk). }
      destruct (deserialize (ce_data entry)); simpl; exact Hk'.
  - apply (kept_smaller cm); try reflexivity; try assumption.
    + eexists. apply filter_all.
    + simpl. apply (kept_size cm Hk).
Qed.

(** What [Map.set] finds in the store, after the eviction that may come
    first. *)
Definition evicted (key : string) (a : MemoryCacheAdapter)
    : list (string * CacheEntry) :=
  if Z.leb (mem_maxSize a) (Z.of_nat (length (mem_cache a)))
     && negb (map_has (mem_cache a) key)
  then
    match mem_cache a with
    | (firstKey, _) :: _ =>
        if negb (String.eqb firstKey "") then map_delete (mem_cache a) firstKey
        else mem_cache a
    | [] => mem_cache a
    end
  else mem_cache a.

Lemma memory_set_evicted key value a :
  mem_cache (memory_set key value a) = map_set (evicted key a) key value.
Proof. reflexivity. Qed.

Lemma evicted_keys key a :
  exists keep, map fst (evicted key a) = List.filter keep (map fst (mem_cache a)).
Proof.
  unfold evicted.
  destruct (Z.leb _ _ && negb _); [|eexists; apply filter_all].
  destruct (mem_cache a) as [|[firstKey v] rest] eqn:Hc; [exists (fun _ => true); reflexivity|].
  destruct (negb (String.eqb firstKey "")); [|eexists; apply filter_all].
  eexists. apply map_delete_keys.
Qed.

Lemma evicted_get key a :
  map_get (mem_cache a) key = None -> map_get (evicted key a) key = None.
Proof.
  intros Hg. apply map_get_In. destruct (evicted_keys key a) as [keep Hk].
  rewrite Hk. intros Hin. apply List.filter_In in Hin as [Hin _].
  now apply map_get_In in Hg.
Qed.

Lemma evicted_present key a v :
  map_get (mem_cache a) key = Some v -> evicted key a = mem_cache a.
Proof.
  intros Hg. unfold evicted, map_has. rewrite Hg. simpl.
  now rewrite andb_false_r.
Qed.

(** The room the eviction makes in a full store whose keys are not empty. *)
Lemma evicted_room key a :
  (1 <= mem_maxSize a)%Z ->
  Forall (fun k => k <> "") (map fst (mem_cache a)) ->
  (Z.of_nat (length (mem_cache a)) <= mem_maxSize a)%Z ->
  map_get (mem_cache a) key = None ->
  (Z.of_nat (length (evicted key a)) < mem_maxSize a)%Z.
Proof.
  intros Hmax Hne Hlen Hg. unfold evicted, map_has. rewrite Hg. simpl.
  rewrite andb_true_r.
  destruct (Z.leb_spec (mem_maxSize a) (Z.of_nat (length (mem_cache a))))
    as [Hfull|Hroom]; [|lia].
  destruct (mem_cache a) as [|[firstKey v] rest] eqn:Hc; [simpl in *; lia|].
  inversion Hne as [|? ? Hfirst _]; subst.
  destruct (String.eqb_spec firstKey ""); [contradiction|]. simpl negb. cbv iota.
  assert (map_get ((firstKey, v) :: rest) firstKey = Some v) as Hp
    by (simpl; now rewrite String.eqb_refl).
  pose proof (map_delete_present _ _ _ Hp). lia.
Qed.

Lemma kept_set (cm : Manager) key data options now :
  kept cm -> kept (snd (Cache.set serialize key data options now cm)).
Proof.
  intros Hk. open_call.
  destruct (cm_enabled cm) eqn:Hen; simpl; [|exact Hk].
  open_call.
  destruct Hk as [He Hp Ht Hm Hnd Hpre Hsz Hr Hb].
  set (M := default 1000 maxSize0) in *.
  set (P := default "api_cache_" prefix0) in *.
  set (k := keyPrefix cm +:+ key).
  set (entry := mkCacheEntry _ _ _ _).
  pose proof (memory_set_evicted k entry (adapter cm)) as Hset.
  destruct (evicted_keys k (adapter cm)) as [keep Hkeep].
  split; unfold store;
    cbn [adapter with_stats with_adapter stats size hitRate cm_enabled
         keyPrefix defaultTTL]; try assumption; try reflexivity.
  - rewrite Hset.
    destruct (map_get (mem_cache (adapter cm)) k) as [v|] eqn:Hg.
    + rewrite (evicted_present k (adapter cm) v Hg).
      rewrite (map_set_present _ _ _ _ Hg). exact Hnd.
    + rewrite map_set_absent by (now apply evicted_get).
      rewrite map_app. simpl. apply List.NoDup_app.
      * rewrite Hkeep. now apply List.NoDup_filter.
      * constructor; [intros [] | constructor].
      * intros x Hin Hx. simpl in Hx. destruct Hx as [<-|[]].
        rewrite Hkeep in Hin. apply List.filter_In in Hin as [Hin _].
        now apply map_get_In in Hg.
  - rewrite Hset.
    destruct (map_get (mem_cache (adapter cm)) k) as [v|] eqn:Hg.
    + rewrite (evicted_present k (adapter cm) v Hg).
      rewrite (map_set_present _ _ _ _ Hg). exact Hpre.
    + rewrite map_set_absent by (now apply evicted_get).
      rewrite map_app. simpl. apply Forall_app. split.
      * rewrite Hkeep. rewrite List.Forall_forall in *. intros x Hin.
        apply List.filter_In in Hin. apply Hpre, Hin.
      * constructor; [|constructor]. exists key. unfold k. now rewrite Hp.
  - intros H1 H2. specialize (Hb H1 H2). rewrite Hset.
    destruct (map_get (mem_cache (adapter cm)) k) as [v|] eqn:Hg.
    + rewrite (evicted_present k (adapter cm) v Hg).
      rewrite <- (length_map fst), (map_set_present _ _ _ _ Hg), length_map.
      exact Hb.
    + rewrite map_set_absent by (now apply evicted_get).
      rewrite length_app. simpl.
      assert (Z.of_nat (length (evicted k (adapter cm))) < mem_maxSize (adapter cm))%Z;
        [|lia].
      unfold store in *. apply evicted_room.
      * lia.
      * rewrite List.Forall_forall in *. intros x Hin.
        destruct (Hpre x Hin) as [key' ->]. now apply prefixed_nonempty.
      * lia.
      * exact Hg.
Qed.

(** *** The loops that delete *)

(** The entries whose key is one of [keys]. *)
Definition named (keys : list string) (kv : string * CacheEntry) : bool :=
  existsb (String.eqb (fst kv)) keys.

(** A loop body that deletes the entry of its key when [doomed] selects it
    and answers whether it did, and changes nothing else. *)
Definition deletes_doomed (doomed : string * CacheEntry -> bool)
    (body : string -> M Manager bool) : Prop :=
  forall key (cm : Manager),
    exists b cm',
      body key cm = (Resolved b, cm') /\
      stats cm' = stats cm /\ cm_enabled cm' = cm_enabled cm /\
      keyPrefix cm' = keyPrefix cm /\ defaultTTL cm' = defaultTTL cm /\
      mem_maxSize (adapter cm') = mem_maxSize (adapter cm) /\
      match map_get (store cm) key with
      | Some entry =>
          b = doomed (key, entry) /\
          store cm' = if doomed (key, entry) then map_delete (store cm) key
                      else store cm
      | None => b = false /\ store cm' = store cm
      end.

Lemma count_keys_deletes doomed body :
  deletes_doomed doomed body ->
  forall keys count (cm : Manager),
    List.NoDup (map fst (store cm)) ->
    exists n cm',
      count_keys body keys count cm = (Resolved n, cm') /\
      stats cm' = stats cm /\ cm_enabled cm' = cm_enabled cm /\
      keyPrefix cm' = keyPrefix cm /\ defaultTTL cm' = defaultTTL cm /\
      mem_maxSize (adapter cm') = mem_maxSize (adapter cm) /\
      store cm'
      = List.filter (fun kv => negb (named keys kv && doomed kv)) (store cm) /\
      n = (count
           + length (List.filter (fun kv => named keys kv && doomed kv)
                       (store cm)))%nat.
Proof.
  intros Hbody keys. induction keys as [|key rest IH]; intros count cm Hnd.
  - exists count, cm. simpl. repeat split; try reflexivity.
    + apply filter_all.
    + rewrite filter_none. simpl. lia.
  - destruct (Hbody key cm) as [b [cm1 [Hb [Hst [He [Hp [Ht [Hm Hcase]]]]]]]].
    assert (store cm1
            = List.filter (fun kv => negb (String.eqb (fst kv) key && doomed kv))
                (store cm) /\
            (if b then 1 else 0)%nat
            = length (List.filter (fun kv => String.eqb (fst kv) key && doomed kv)
                        (store cm))) as [Hstore1 Hcount1].
    { rewrite filter_key, filter_not_key by exact Hnd.
      destruct (map_get (store cm) key) as [entry|].
      - destruct Hcase as [-> ->]. now destruct (doomed (key, entry)).
      - destruct Hcase as [-> ->]. auto. }
    assert (List.NoDup (map fst (store cm1))) as Hnd1.
    { rewrite Hstore1. now apply filter_NoDup_keys. }
    destruct (IH (if b then S count else count) cm1 Hnd1)
      as [n [cm' [Hrun [Hst' [He' [Hp' [Ht' [Hm' [Hstore' Hn]]]]]]]]].
    exists n, cm'. cbn [count_keys]. unfold bind at 1. rewrite Hb.
    split; [exact Hrun|].
    repeat split; try congruence.
    + rewrite Hstore', Hstore1, filter_twice. apply List.filter_ext.
      intros kv. unfold named. simpl.
      destruct (String.eqb (fst kv) key), (existsb _ rest), (doomed kv);
        reflexivity.
    + rewrite Hn, Hstore1.
      rewrite (List.filter_ext (fun kv => named (key :: rest) kv && doomed kv)
                 (fun kv => (String.eqb (fst kv) key && doomed kv)
                            || (named rest kv && doomed kv))).
      * rewrite filter_or_length. destruct b; lia.
      * intros kv. unfold named. simpl.
        destruct (String.eqb (fst kv) key), (existsb _ rest), (doomed kv);
          reflexivity.
Qed.

(** The body of the loop of [cleanup]. *)
Definition cleanup_body (now : Z) (key : string) : M Manager bool :=
  (entry <- on_adapter (adapter_get key) ;;
   match entry with
   | Some e =>
       if isExpired now e
       then (on_adapter (adapter_delete key) ;; ret true)
       else ret false
   | None => ret false
   end)%effect.

(** The body of the loop of [invalidatePattern]. *)
Definition invalidate_body (test : string -> bool) (key : string)
    : M Manager bool :=
  if test key then on_adapter (adapter_delete key) else ret false.

Lemma cleanup_body_deletes now :
  deletes_doomed (fun kv => isExpired now (snd kv)) (cleanup_body now).
Proof.
  intros key cm. unfold cleanup_body, bind, on_adapter, zoom, ret, store. simpl.
  destruct (map_get (mem_cache (adapter cm)) key) as [entry|] eqn:Hg; simpl.
  - destruct (isExpired now entry) eqn:Hexp; simpl;
      eexists _, _; repeat split; reflexivity.
  - eexists _, _; repeat split; reflexivity.
Qed.

Lemma invalidate_body_deletes test :
  deletes_doomed (fun kv => test (fst kv)) (invalidate_body test).
Proof.
  intros key cm. unfold invalidate_body, on_adapter, zoom, ret, store. simpl.
  destruct (test key) eqn:Htest; simpl.
  - unfold map_has.
    destruct (map_get (mem_cache (adapter cm)) key) as [entry|] eqn:Hg; simpl;
      eexists _, _; repeat split; try reflexivity.
    simpl. now apply map_delete_absent.
  - destruct (map_get (mem_cache (adapter cm)) key) as [entry|] eqn:Hg; simpl;
      eexists _, _; repeat split; reflexivity.
Qed.

(** The store after a loop over all its keys. *)
Lemma count_keys_all doomed body (cm : Manager) :
  deletes_doomed doomed body ->
  List.NoDup (map fst (store cm)) ->
  exists cm',
    count_keys body (map fst (store cm)) 0 cm
    = (Resolved (length (List.filter doomed (store cm))), cm') /\
    stats cm' = stats cm /\ cm_enabled cm' = cm_enabled cm /\
    keyPrefix cm' = keyPrefix cm /\ defaultTTL cm' = defaultTTL cm /\
    mem_maxSize (adapter cm') = mem_maxSize (adapter cm) /\
    store cm' = List.filter (fun kv => negb (doomed kv)) (store cm).
Proof.
  intros Hbody Hnd.
  destruct (count_keys_deletes doomed body Hbody (map fst (store cm)) 0%nat cm Hnd)
    as [n [cm' [Hrun [Hst [He [Hp [Ht [Hm [Hstore Hn]]]]]]]]].
  assert (forall kv, In kv (store cm) -> named (map fst (store cm)) kv = true)
    as Hnamed.
  { intros kv Hin. unfold named. apply existsb_exists. exists (fst kv).
    split; [now apply in_map | apply String.eqb_refl]. }
  exists cm'. repeat split; try assumption.
  - rewrite Hrun, Hn. simpl. do 3 f_equal. apply List.filter_ext_in.
    intros kv Hin. now rewrite (Hnamed kv Hin).
  - rewrite Hstore. apply List.filter_ext_in.
    intros kv Hin. now rewrite (Hnamed kv Hin).
Qed.

(** [this.stats.size = n] on a manager. *)
Definition sized (cm : Manager) (n : nat) : Manager :=
  with_stats cm
    (mkCacheStats (hits (stats cm)) (misses (stats cm)) (sets (stats cm))
       (deletes (stats cm)) n (hitRate (stats cm))).

(** What the end of [cleanup] and of [invalidatePattern] does with the
    count. *)
Definition counted (count : nat) (cm : Manager) : Outcome nat * Manager :=
  (Resolved count,
   if (0 <? count)%nat then sized cm (length (store cm)) else cm).

Lemma cleanup_unfold now (cm : Manager) :
  cm_enabled cm = true ->
  cleanup now cm
  = match count_keys (cleanup_body now) (map fst (store cm)) 0 cm with
    | (Resolved count, cm') => counted count cm'
    | (Rejected error, cm') =>
        (Rejected (CacheError ("Failed to cleanup cache" +:+ ": "
                               +:+ e_message error)), cm')
    end.
Proof.
  intros Hen. unfold cleanup. rewrite Hen. simpl negb. cbv iota.
  unfold as_CacheError, try_catch. unfold bind at 1.
  destruct cm as [en ttl pre a st].
  change (on_adapter adapter_keys (mkCacheManager en ttl pre a st))
    with (Resolved (map fst (store (mkCacheManager en ttl pre a st))),
          mkCacheManager en ttl pre a st).
  cbv iota. unfold bind at 1. fold (cleanup_body now).
  destruct (count_keys (cleanup_body now) _ 0 _) as [[count|error] cm'];
    [|reflexivity].
  unfold counted. destruct cm' as [en' ttl' pre' a' st'].
  now destruct (0 <? count)%nat.
Qed.

Lemma invalidatePattern_unfold pattern (cm : Manager) :
  cm_enabled cm = true ->
  invalidatePattern RegExp pattern cm
  = match RegExp pattern with
    | Resolved test =>
        match count_keys (invalidate_body test) (map fst (store cm)) 0 cm with
        | (Resolved count, cm') => counted count cm'
        | (Rejected error, cm') =>
            (Rejected (CacheError ("Failed to invalidate pattern" +:+ ": "
                                   +:+ e_message error)), cm')
        end
    | Rejected error =>
        (Rejected (CacheError ("Failed to invalidate pattern" +:+ ": "
                               +:+ e_message error)), cm)
    end.
Proof.
  intros Hen. unfold invalidatePattern. rewrite Hen. simpl negb. cbv iota.
  unfold as_CacheError, try_catch. unfold bind at 1.
  destruct cm as [en ttl pre a st].
  change (on_adapter adapter_keys (mkCacheManager en ttl pre a st))
    with (Resolved (map fst (store (mkCacheManager en ttl pre a st))),
          mkCacheManager en ttl pre a st).
  cbv iota. destruct (RegExp pattern) as [test|error]; [|reflexivity].
  unfold bind at 1. fold (invalidate_body test).
  destruct (count_keys (invalidate_body test) _ 0 _) as [[count|error] cm'];
    [|reflexivity].
  unfold counted. destruct cm' as [en' ttl' pre' a' st'].
  now destruct (0 <? count)%nat.
Qed.

(** A loop over all the keys, followed by the update of [stats.size]. *)
Lemma counted_all doomed body (cm : Manager) :
  deletes_doomed doomed body ->
  List.NoDup (map fst (store cm)) ->
  size (stats cm) = length (store cm) ->
  exists cm',
    match count_keys body (map fst (store cm)) 0 cm with
    | (Resolved count, cm1) => counted count cm1
    | (Rejected error, cm1) => (Rejected error, cm1)
    end
    = (Resolved (length (List.filter doomed (store cm))), cm') /\
    store cm' = List.filter (fun kv => negb (doomed kv)) (store cm) /\
    cm_enabled cm' = cm_enabled cm /\
    keyPrefix cm' = keyPrefix cm /\ defaultTTL cm' = defaultTTL cm /\
    mem_maxSize (adapter cm') = mem_maxSize (adapter cm) /\
    hits (stats cm') = hits (stats cm) /\
    misses (stats cm') = misses (stats cm) /\
    sets (stats cm') = sets (stats cm) /\
    deletes (stats cm') = deletes (stats cm) /\
    hitRate (stats cm') = hitRate (stats cm) /\
    size (stats cm') = length (store cm').
Proof.
  intros Hbody Hnd Hsz.
  destruct (count_keys_all doomed body cm Hbody Hnd)
    as [cm1 [Hrun [Hst [He [Hp [Ht [Hm Hstore]]]]]]].
  rewrite Hrun. unfold counted.
  destruct (0 <? length (List.filter doomed (store cm)))%nat eqn:Hpos.
  - exists (sized cm1 (length (store cm1))).
    unfold sized, store in *. simpl. rewrite Hst. repeat split; assumption.
  - exists cm1. rewrite Hst. repeat split; try assumption.
    apply Nat.ltb_ge in Hpos.
    rewrite Hstore, filter_length_all by lia. exact Hsz.
Qed.

Lemma kept_clear (cm : Manager) : kept cm -> kept (snd (clear cm)).
Proof.
  intros Hk. open_call.
  destruct (cm_enabled cm) eqn:Hen; simpl; [|exact Hk].
  apply (kept_smaller cm); try reflexivity; try assumption.
  - exists (fun _ => false). unfold store. simpl. now rewrite filter_none.
  - simpl. apply (kept_rate cm Hk).
Qed.

Lemma kept_has (cm : Manager) key now : kept cm -> kept (snd (has key now cm)).
Proof.
  intros Hk. pose proof (kept_delete cm key Hk) as Hd. revert Hd. open_call.
  destruct (cm_enabled cm) eqn:Hen; simpl; [|intros _; exact Hk].
  open_call. unfold map_has.
  destruct (map_get (mem_cache (adapter cm)) (keyPrefix cm +:+ key))
    as [entry|] eqn:Hg; simpl.
  - rewrite Hg. destruct (isExpired now entry) eqn:Hexp; simpl.
    + rewrite Hen. simpl. open_call. unfold map_has. rewrite Hg. simpl.
      intros Hd. exact Hd.
    + intros _. apply (kept_smaller cm); try reflexivity; try apply Hk.
      eexists. apply filter_all.
  - intros _. apply (kept_smaller cm); try reflexivity; try apply Hk.
    eexists. apply filter_all.
Qed.

Lemma kept_counted doomed body (cm : Manager) :
  deletes_doomed doomed body -> kept cm ->
  kept (snd match count_keys body (map fst (store cm)) 0 cm with
            | (Resolved count, cm1) => counted count cm1
            | (Rejected error, cm1) => (Rejected error, cm1)
            end).
Proof.
  intros Hbody Hk.
  destruct (counted_all doomed body cm Hbody (kept_NoDup cm Hk) (kept_size cm Hk))
    as [cm' [-> [Hstore [He [Hp [Ht [Hm [Hh [Hmi [_ [_ [Hr Hsz]]]]]]]]]]]].
  simpl. apply (kept_filtered cm cm' (fun kv => negb (doomed kv)) Hk);
    try assumption.
  rewrite Hr, (kept_rate cm Hk). unfold rate. now rewrite Hh, Hmi.
Qed.

Lemma kept_cleanup (cm : Manager) now : kept cm -> kept (snd (cleanup now cm)).
Proof.
  intros Hk. destruct (cm_enabled cm) eqn:Hen.
  - rewrite cleanup_unfold by exact Hen.
    pose proof (kept_counted _ _ cm (cleanup_body_deletes now) Hk) as Hc.
    destruct (count_keys (cleanup_body now) _ 0 _) as [[count|error] cm'];
      exact Hc.
  - unfold cleanup. rewrite Hen. exact Hk.
Qed.

Lemma kept_invalidatePattern (cm : Manager) pattern :
  kept cm -> kept (snd (invalidatePattern RegExp pattern cm)).
Proof.
  intros Hk. destruct (cm_enabled cm) eqn:Hen.
  - rewrite invalidatePattern_unfold by exact Hen.
    destruct (RegExp pattern) as [test|error]; [|exact Hk].
    pose proof (kept_counted _ _ cm (invalidate_body_deletes test) Hk) as Hc.
    destruct (count_keys (invalidate_body test) _ 0 _) as [[count|error] cm'];
      exact Hc.
  - unfold invalidatePattern. rewrite Hen. exact Hk.
Qed.

Lemma reachable_kept (cm : Manager) :
  reachable serialize deserialize RegExp enabled0 ttl0 maxSize0 prefix0 cm ->
  kept cm.
Proof.
  induction 1 as [|cm call _ IH]; [apply kept_new|].
  destruct call; simpl.
  - now apply kept_get.
  - now apply kept_set.
  - now apply kept_delete.
  - now apply kept_clear.
  - now apply kept_has.
  - now apply kept_cleanup.
  - now apply kept_invalidatePattern.
Qed.

End Store.

Lemma hit_rate_bounds (st : CacheStats) : (0 <= rate st)%Q /\ (rate st <= 1)%Q.
Proof.
  unfold rate. destruct (Nat.ltb_spec 0 (hits st + misses st)) as [Hpos|_].
  - assert (0 < inject_Z (Z.of_nat (hits st + misses st)))%Q as Ht.
    { change 0%Q with (inject_Z 0). rewrite <- Zlt_Qlt. lia. }
    assert (0 <= inject_Z (Z.of_nat (hits st)))%Q as Hh.
    { change 0%Q with (inject_Z 0). rewrite <- Zle_Qle. lia. }
    assert (inject_Z (Z.of_nat (hits st))
            <= inject_Z (Z.of_nat (hits st + misses st)))%Q as Hle.
    { rewrite <- Zle_Qle. lia. }
    split.
    + apply Qle_shift_div_l; [exact Ht|]. now rewrite Qmult_0_l.
    + apply Qle_shift_div_r; [exact Ht|]. now rewrite Qmult_1_l.
  - split; [apply Qle_refl | discriminate].
Qed.

(** *** A store of strings, for the examples *)

(** [new RegExp(pattern)] for a pattern without special characters: the
    test is that the string contains the pattern. *)
Definition literal (pattern : string) : Outcome (string -> bool) :=
  Resolved (fun key =>
    match String.index 0 pattern key with Some _ => true | None => false end).

Definition text_store (maxSize : Z) (calls : list (Call (Data := string)))
    : CacheManager MemoryCacheAdapter :=
  fold_left (after (fun data => data) Resolved literal) calls
    (new None None (Some maxSize) None).

Lemma text_store_reachable maxSize calls :
  reachable (fun data => data) Resolved literal None None (Some maxSize) None
    (text_store maxSize calls).
Proof.
  unfold text_store.
  assert (forall cm,
            reachable (fun data : string => data) Resolved literal None None
              (Some maxSize) None cm ->
            reachable (fun data : string => data) Resolved literal None None
              (Some maxSize) None
              (fold_left (after (fun data => data) Resolved literal) calls cm))
    as Hfold.
  { induction calls as [|call calls IH]; intros cm Hcm; simpl; [exact Hcm|].
    apply IH. now constructor. }
  apply Hfold. constructor.
Qed.

(** Three entries written into a store of two. *)
Definition three_into_two : list (Call (Data := string)) :=
  [CallSet "/a" "A" noCacheOptions 0; CallSet "/b" "B" noCacheOptions 1;
   CallGet "/a" 2; CallSet "/c" "C" noCacheOptions 3].

(** X16. In-memory cache, capacity: after any calls on a manager made with
    [maxSize >= 1] and a key prefix that is not empty, the store holds at
    most [maxSize] entries. *)
Theorem store_within_capacity {Data : Type} (serialize : Data -> string)
    (deserialize : string -> Outcome Data)
    (RegExp : string -> Outcome (string -> bool))
    (enabled : option bool) (ttl maxSize : option Z) (prefix : option string)
    (cm : CacheManager MemoryCacheAdapter) :
  reachable serialize deserialize RegExp enabled ttl maxSize prefix cm ->
  (1 <= default 1000 maxSize)%Z ->
  default "api_cache_" prefix <> "" ->
  (Z.of_nat (length (store cm)) <= default 1000 maxSize)%Z.
Proof.
  intros Hr H1 H2.
  exact (kept_bound _ _ _ _ _ (reachable_kept _ _ _ _ _ _ _ _ Hr) H1 H2).
Qed.

Lemma store_within_capacity_witness :
  (Z.of_nat (length (store (text_store 2 three_into_two))) <= 2)%Z.
Proof.
  apply (store_within_capacity (fun data => data) Resolved literal None None
           (Some 2) None (text_store 2 three_into_two)).
  - apply text_store_reachable.
  - simpl. lia.
  - discriminate.
Defined.

(** X17. In-memory cache, statistics: after any calls [stats.size] is the
    number of entries in the store, [stats.hitRate] is
    [hits / (hits + misses)] (0 before the first lookup) and lies between 0
    and 1, and the keys of the store are distinct and carry the prefix. *)
Theorem statistics_accurate {Data : Type} (serialize : Data -> string)
    (deserialize : string -> Outcome Data)
    (RegExp : string -> Outcome (string -> bool))
    (enabled : option bool) (ttl maxSize : option Z) (prefix : option string)
    (cm : CacheManager MemoryCacheAdapter) :
  reachable serialize deserialize RegExp enabled ttl maxSize prefix cm ->
  size (stats cm) = length (store cm) /\
  hitRate (stats cm)
  = (if (0 <? hits (stats cm) + misses (stats cm))%nat
     then (inject_Z (Z.of_nat (hits (stats cm)))
           / inject_Z (Z.of_nat (hits (stats cm) + misses (stats cm))))%Q
     else 0%Q) /\
  (0 <= hitRate (stats cm))%Q /\ (hitRate (stats cm) <= 1)%Q /\
  List.NoDup (map fst (store cm)) /\
  Forall (fun k => exists key, k = default "api_cache_" prefix +:+ key)
         (map fst (store cm)).
Proof.
  intros Hr. pose proof (reachable_kept _ _ _ _ _ _ _ _ Hr) as Hk.
  destruct Hk as [He Hp Ht Hm Hnd Hpre Hsz Hrate Hb].
  repeat split; try assumption.
  - rewrite Hrate. apply hit_rate_bounds.
  - rewrite Hrate. apply hit_rate_bounds.
Qed.

Lemma statistics_accurate_witness :
  size (stats (text_store 2 three_into_two)) = 2%nat /\
  (hitRate (stats (text_store 2 three_into_two)) == 1)%Q.
Proof.
  destruct (statistics_accurate (fun data => data) Resolved literal None None
              (Some 2) None (text_store 2 three_into_two)
              (text_store_reachable 2 three_into_two))
    as [Hsz [Hrate _]].
  split.
  - rewrite Hsz. reflexivity.
  - rewrite Hrate. reflexivity.
Defined.

(** X18. In-memory cache, eviction: the store evicts by age of insertion,
    not of use.  In a full store a read that hits the oldest entry counts
    a hit but leaves the entry where it is, and the next write of a new key
    evicts that entry: the keys are then those that followed it, with the
    new key last. *)
Theorem eviction_ignores_reads {Data : Type} (serialize : Data -> string)
    (deserialize : string -> Outcome Data)
    (cm : CacheManager MemoryCacheAdapter)
    (oldest : string) (entry : CacheEntry) (rest : list (string * CacheEntry))
    (key : string) (data : Data) (options : CacheOptions) (now now' : Z) :
  cm_enabled cm = true ->
  List.NoDup (map fst (store cm)) ->
  store cm = (buildKey cm oldest, entry) :: rest ->
  buildKey cm oldest <> "" ->
  mem_maxSize (adapter cm) = Z.of_nat (length (store cm)) ->
  isExpired now entry = false ->
  map_get (store cm) (buildKey cm key) = None ->
  let cm1 := snd (Cache.get deserialize oldest now cm) in
  let cm2 := snd (Cache.set serialize key data options now' cm1) in
  hits (stats cm1) = S (hits (stats cm)) /\
  map fst (store cm1) = map fst (store cm) /\
  map fst (store cm2) = (map fst rest ++ [buildKey cm key])%list /\
  map_get (store cm2) (buildKey cm oldest) = None.
Proof.
  intros Hen Hnd Hstore Hfirst Hfull Hexp Habsent.
  destruct cm as [en ttl pre [cache maxSize] st].
  unfold store, buildKey in *. simpl in Hen, Hnd, Hstore, Hfirst, Hfull, Habsent.
  subst en cache. cbn [keyPrefix].
  set (k0 := pre +:+ oldest) in *. set (k := pre +:+ key) in *.
  set (entry' := mkCacheEntry (ce_data entry) (expiresAt entry)
                   (createdAt entry) (S (ce_hits entry))).
  assert (String.eqb k0 k = false) as Hne.
  { destruct (String.eqb_spec k0 k) as [Heq|]; [|reflexivity].
    simpl in Habsent. rewrite <- Heq, String.eqb_refl in Habsent. discriminate. }
  simpl in Hnd. apply List.NoDup_cons_iff in Hnd as [Hnot Hnd'].
  assert (map_delete ((k0, entry') :: rest) k0 = rest) as Hdel.
  { unfold map_delete. simpl. rewrite String.eqb_refl. simpl.
    apply map_delete_absent. now apply map_get_In. }
  assert (map_get rest k = None) as Hrest.
  { simpl in Habsent. now rewrite Hne in Habsent. }
  assert (map_get rest k0 = None) as Hrest0 by now apply map_get_In.
  assert (snd (Cache.get deserialize oldest now
                 (mkCacheManager true ttl pre
                    (mkMemoryCacheAdapter ((k0, entry) :: rest) maxSize) st))
          = mkCacheManager true ttl pre
              (mkMemoryCacheAdapter ((k0, entry') :: rest) maxSize)
              (updateHitRate
                 (mkCacheStats (S (hits st)) (misses st) (sets st) (deletes st)
                    (size st) (hitRate st)))) as Hcm1.
  { unfold Cache.get, as_CacheError, try_catch, bind, on_adapter, zoom,
      count_hit, modify, gets, ret, throw, buildKey. simpl. fold k0.
    rewrite String.eqb_refl. simpl. rewrite Hexp. simpl.
    unfold memory_set, map_has. simpl. rewrite String.eqb_refl. simpl.
    rewrite andb_false_r. simpl. rewrite String.eqb_refl.
    now destruct (deserialize (ce_data entry)). }
  cbv zeta. rewrite Hcm1. cbn [stats hits updateHitRate adapter mem_cache map fst].
  split; [reflexivity|]. split; [reflexivity|].
  assert (mem_cache (adapter (snd (Cache.set serialize key data options now'
            (mkCacheManager true ttl pre
              (mkMemoryCacheAdapter ((k0, entry') :: rest) maxSize)
              (updateHitRate
                 (mkCacheStats (S (hits st)) (misses st) (sets st) (deletes st)
                    (size st) (hitRate st)))))))
          = (rest ++ [(k, mkCacheEntry (serialize data)
                           (now' + default ttl (co_ttl options)) now' 0)])%list)
    as Hcm2.
  { unfold Cache.set, as_CacheError, try_catch, bind, on_adapter, zoom,
      refresh_size, modify, gets, ret, throw, buildKey. simpl. fold k.
    unfold memory_set, map_has.
    cbn [mem_cache mem_maxSize map_get]. rewrite Hne, Hrest, Hfull.
    replace (length ((k0, entry') :: rest)) with (length ((k0, entry) :: rest))
      by reflexivity.
    rewrite Z.leb_refl.
    destruct (String.eqb_spec k0 ""); [contradiction|].
    cbn [negb andb]. rewrite String.eqb_refl. cbn [negb].
    rewrite (map_delete_absent rest k0 Hrest0). now apply map_set_absent. }
  rewrite Hcm2. split.
  - now rewrite map_app.
  - clear -Hrest0 Hne. clearbody k k0.
    induction rest as [|[k1 v1] rest IH]; simpl.
    + now rewrite String.eqb_sym, Hne.
    + simpl in Hrest0. destruct (String.eqb k1 k0); [discriminate|].
      now apply IH.
Qed.

Lemma eviction_ignores_reads_witness :
  map fst (store (text_store 2 three_into_two))
  = ["api_cache_/b"; "api_cache_/c"].
Proof.
  refine (proj1 (proj2 (proj2
    (eviction_ignores_reads (fun data => data) Resolved
       (text_store 2 [CallSet "/a" "A" noCacheOptions 0;
                      CallSet "/b" "B" noCacheOptions 1])
       "/a" (mkCacheEntry "A" 300000 0 0)
       [("api_cache_/b", mkCacheEntry "B" 300001 1 0)]
       "/c" "C" noCacheOptions 2 3 _ _ _ _ _ _ _)))).
  - reflexivity.
  - repeat constructor; simpl; intuition discriminate.
  - reflexivity.
  - discriminate.
  - reflexivity.
  - reflexivity.
  - reflexivity.
Defined.

(** The result of a loop over all keys that ends as [cleanup] and
    [invalidatePattern] end. *)
Lemma counted_result (doomed : string * CacheEntry -> bool)
    (body : string -> M (CacheManager MemoryCacheAdapter) bool)
    (what : string) (cm : CacheManager MemoryCacheAdapter) :
  deletes_doomed doomed body ->
  List.NoDup (map fst (store cm)) ->
  size (stats cm) = length (store cm) ->
  exists cm',
    match count_keys body (map fst (store cm)) 0 cm with
    | (Resolved count, cm1) => counted count cm1
    | (Rejected error, cm1) =>
        (Rejected (CacheError (what +:+ ": " +:+ e_message error)), cm1)
    end
    = (Resolved (length (List.filter doomed (store cm))), cm') /\
    store cm' = List.filter (fun kv => negb (doomed kv)) (store cm) /\
    size (stats cm') = length (store cm') /\
    hits (stats cm') = hits (stats cm) /\
    misses (stats cm') = misses (stats cm) /\
    sets (stats cm') = sets (stats cm) /\
    deletes (stats cm') = deletes (stats cm).
Proof.
  intros Hbody Hnd Hsz.
  destruct (counted_all doomed body cm Hbody Hnd Hsz)
    as [cm' [Hrun [Hstore [_ [_ [_ [_ [Hh [Hmi [Hs [Hd [_ Hsz']]]]]]]]]]]].
  exists cm'. split; [|repeat split; assumption].
  destruct (count_keys body (map fst (store cm)) 0 cm) as [[count|error] cm1];
    [exact Hrun | discriminate].
Qed.

(** X19. [CacheManager.cleanup] on the in-memory store: it removes exactly
    the entries whose time has passed, keeps the others in their order,
    returns the number it removed and leaves [stats.size] at the number
    that remain; the counters of hits, misses and deletes do not move.  A
    second [cleanup] at the same time finds nothing to remove. *)
Theorem cleanup_removes_expired {Data : Type} (serialize : Data -> string)
    (deserialize : string -> Outcome Data)
    (RegExp : string -> Outcome (string -> bool))
    (enabled : option bool) (ttl maxSize : option Z) (prefix : option string)
    (cm : CacheManager MemoryCacheAdapter) (now : Z) :
  reachable serialize deserialize RegExp enabled ttl maxSize prefix cm ->
  default true enabled = true ->
  exists cm',
    cleanup now cm
    = (Resolved (length (List.filter (fun kv => isExpired now (snd kv))
                           (store cm))), cm') /\
    store cm'
    = List.filter (fun kv => negb (isExpired now (snd kv))) (store cm) /\
    size (stats cm') = length (store cm') /\
    hits (stats cm') = hits (stats cm) /\
    misses (stats cm') = misses (stats cm) /\
    deletes (stats cm') = deletes (stats cm) /\
    fst (cleanup now cm') = Resolved 0%nat.
Proof.
  intros Hr Hon. pose proof (reachable_kept _ _ _ _ _ _ _ _ Hr) as Hk.
  assert (cm_enabled cm = true) as Hen by (now rewrite (kept_enabled _ _ _ _ _ Hk)).
  destruct (counted_result _ _ "Failed to cleanup cache" cm
              (cleanup_body_deletes now) (kept_NoDup _ _ _ _ _ Hk)
              (kept_size _ _ _ _ _ Hk))
    as [cm' [Hrun [Hstore [Hsz [Hh [Hmi [_ Hd]]]]]]].
  rewrite <- cleanup_unfold in Hrun by exact Hen.
  exists cm'. repeat split; try assumption.
  assert (kept enabled ttl maxSize prefix cm') as Hk'.
  { replace cm' with (snd (cleanup now cm)) by now rewrite Hrun.
    now apply kept_cleanup. }
  assert (cm_enabled cm' = true) as Hen'
    by (now rewrite (kept_enabled _ _ _ _ _ Hk')).
  destruct (counted_result _ _ "Failed to cleanup cache" cm'
              (cleanup_body_deletes now) (kept_NoDup _ _ _ _ _ Hk')
              (kept_size _ _ _ _ _ Hk'))
    as [cm'' [Hrun' _]].
  rewrite <- cleanup_unfold in Hrun' by exact Hen'.
  rewrite Hrun', Hstore, filter_twice. simpl. f_equal.
  rewrite (List.filter_ext _ (fun _ => false)), filter_none; [reflexivity|].
  intros kv. now destruct (isExpired now (snd kv)).
Qed.

(** Two entries of one minute, then one of an hour. *)
Definition short_and_long : list (Call (Data := string)) :=
  [CallSet "/a" "A" (mkCacheOptions (Some 60000)) 0;
   CallSet "/b" "B" (mkCacheOptions (Some 3600000)) 0;
   CallSet "/c" "C" (mkCacheOptions (Some 60000)) 0].

Lemma cleanup_removes_expired_witness :
  exists cm',
    cleanup 60001 (text_store 10 short_and_long) = (Resolved 2%nat, cm') /\
    map fst (store cm') = ["api_cache_/b"].
Proof.
  destruct (cleanup_removes_expired (fun data => data) Resolved literal None None
              (Some 10) None (text_store 10 short_and_long) 60001
              (text_store_reachable 10 short_and_long) eq_refl)
    as [cm' [Hrun [Hstore _]]].
  exists cm'. split; [exact Hrun | now rewrite Hstore].
Defined.

(** X20. [CacheManager.has] on the in-memory store never throws and answers
    [true] exactly when the key has an entry whose time has not passed.  It
    then changes nothing; otherwise the key has no entry afterwards.  It
    counts neither a hit nor a miss itself, and it answers [true] exactly
    when [get] at that moment would count a hit, [false] exactly when [get]
    would count a miss.  (What [get] returns is not compared: a stored
    [null] is a hit that returns [null].) *)
Theorem has_answers_as_get_counts {Data : Type}
    (deserialize : string -> Outcome Data)
    (cm : CacheManager MemoryCacheAdapter) (key : string) (now : Z) :
  cm_enabled cm = true ->
  exists b cm',
    has key now cm = (Resolved b, cm') /\
    (b = true <-> exists entry,
        map_get (store cm) (buildKey cm key) = Some entry /\
        isExpired now entry = false) /\
    (b = true -> store cm' = store cm /\ stats cm' = stats cm) /\
    (b = false -> map_get (store cm') (buildKey cm key) = None) /\
    hits (stats cm') = hits (stats cm) /\
    misses (stats cm') = misses (stats cm) /\
    (b = true <->
     hits (stats (snd (Cache.get deserialize key now cm))) = S (hits (stats cm))) /\
    (b = false <->
     misses (stats (snd (Cache.get deserialize key now cm)))
     = S (misses (stats cm))).
Proof.
  intros Hen. destruct cm as [en ttl pre [cache maxSize] st].
  simpl in Hen. subst en.
  unfold has, Cache.get, Cache.delete, as_CacheError, try_catch, bind,
    on_adapter, zoom, refresh_size, count_miss, count_hit, modify, gets, ret,
    throw, buildKey, store. simpl. unfold map_has.
  destruct (map_get cache (pre +:+ key)) as [entry|] eqn:Hg; simpl.
  - rewrite Hg. destruct (isExpired now entry) eqn:Hexp; simpl.
    + unfold map_has. rewrite Hg. simpl. eexists _, _. split; [reflexivity|].
      simpl. repeat split; try discriminate; try reflexivity; try lia.
      * intros [e [He1 He2]]. congruence.
      * intros _. apply CacheFacts.map_get_delete_same.
    + eexists _, _. split; [reflexivity|].
      simpl. repeat split; try discriminate; try reflexivity;
        try (destruct (deserialize (ce_data entry)); simpl; lia);
        try (destruct (deserialize (ce_data entry)); reflexivity).
      intros _. eauto.
  - eexists _, _. split; [reflexivity|].
    simpl. repeat split; try discriminate; try reflexivity; try lia;
      try (intros _; exact Hg).
    intros [e [He1 He2]]. discriminate.
Qed.

Lemma has_answers_as_get_counts_witness :
  fst (has "/a" 60001 (text_store 10 short_and_long)) = Resolved false /\
  fst (has "/b" 60001 (text_store 10 short_and_long)) = Resolved true.
Proof.
  split.
  - destruct (has_answers_as_get_counts (Data := string) Resolved
                (text_store 10 short_and_long) "/a" 60001 eq_refl)
      as [b [cm' [Hrun [_ [_ [_ [_ [_ [_ Hget]]]]]]]]].
    rewrite Hrun. simpl. f_equal. apply Hget. reflexivity.
  - destruct (has_answers_as_get_counts (Data := string) Resolved
                (text_store 10 short_and_long) "/b" 60001 eq_refl)
      as [b [cm' [Hrun [Htrue _]]]].
    rewrite Hrun. simpl. f_equal. apply Htrue.
    eexists. split; reflexivity.
Defined.

(** X21. [CacheManager.invalidatePattern] on the in-memory store: the
    expression is tested on the stored keys, which carry the prefix.  It
    removes exactly the entries whose stored key matches, returns their
    number and leaves [stats.size] at the number that remain, without
    counting them as deletes.  A pattern that is no regular expression
    gives a [CacheError] with the message of the constructor and removes
    nothing. *)
Theorem invalidatePattern_removes_matching {Data : Type}
    (serialize : Data -> string) (deserialize : string -> Outcome Data)
    (RegExp : string -> Outcome (string -> bool))
    (enabled : option bool) (ttl maxSize : option Z) (prefix : option string)
    (cm : CacheManager MemoryCacheAdapter) (pattern : string) :
  reachable serialize deserialize RegExp enabled ttl maxSize prefix cm ->
  default true enabled = true ->
  match RegExp pattern with
  | Resolved test =>
      exists cm',
        invalidatePattern RegExp pattern cm
        = (Resolved (length (List.filter (fun kv => test (fst kv)) (store cm))),
           cm') /\
        store cm' = List.filter (fun kv => negb (test (fst kv))) (store cm) /\
        size (stats cm') = length (store cm') /\
        deletes (stats cm') = deletes (stats cm)
  | Rejected error =>
      invalidatePattern RegExp pattern cm
      = (Rejected (CacheError ("Failed to invalidate pattern: "
                               +:+ e_message error)), cm)
  end.
Proof.
  intros Hr Hon. pose proof (reachable_kept _ _ _ _ _ _ _ _ Hr) as Hk.
  assert (cm_enabled cm = true) as Hen by (now rewrite (kept_enabled _ _ _ _ _ Hk)).
  rewrite invalidatePattern_unfold by exact Hen.
  destruct (RegExp pattern) as [test|error]; [|reflexivity].
  destruct (counted_result _ _ "Failed to invalidate pattern" cm
              (invalidate_body_deletes test) (kept_NoDup _ _ _ _ _ Hk)
              (kept_size _ _ _ _ _ Hk))
    as [cm' [Hrun [Hstore [Hsz [_ [_ [_ Hd]]]]]]].
  exists cm'. repeat split; assumption.
Qed.

Lemma invalidatePattern_removes_matching_witness :
  exists cm',
    invalidatePattern literal "/a" (text_store 10 short_and_long)
    = (Resolved 1%nat, cm') /\
    map fst (store cm') = ["api_cache_/b"; "api_cache_/c"].
Proof.
  destruct (invalidatePattern_removes_matching (fun data => data) Resolved
              literal None None (Some 10) None (text_store 10 short_and_long)
              "/a" (text_store_reachable 10 short_and_long) eq_refl)
    as [cm' [Hrun [Hstore _]]].
  exists cm'. split; [exact Hrun | now rewrite Hstore].
Defined.

(** X22. [ApiClient.invalidateCache] without a pattern, or with the empty
    one, empties the in-memory store and sets [stats.size] to 0, but
    answers 0 however many entries it removed, and keeps the counters of
    hits, misses, sets and deletes. *)
Theorem invalidateCache_without_pattern
    (RegExp : string -> Outcome (string -> bool))
    (cm : CacheManager MemoryCacheAdapter) (pattern : option string) :
  cm_enabled cm = true ->
  pattern = None \/ pattern = Some "" ->
  exists cm',
    invalidateCache RegExp pattern cm = (Resolved 0%nat, cm') /\
    store cm' = [] /\ size (stats cm') = 0%nat /\
    hits (stats cm') = hits (stats cm) /\
    misses (stats cm') = misses (stats cm) /\
    sets (stats cm') = sets (stats cm) /\
    deletes (stats cm') = deletes (stats cm) /\
    hitRate (stats cm') = hitRate (stats cm).
Proof.
  intros Hen Hp. unfold invalidateCache. rewrite Hen. simpl negb. cbv iota.
  assert (exists cm',
            (clear ;; ret 0%nat)%effect cm = (Resolved 0%nat, cm') /\
            store cm' = [] /\ size (stats cm') = 0%nat /\
            hits (stats cm') = hits (stats cm) /\
            misses (stats cm') = misses (stats cm) /\
            sets (stats cm') = sets (stats cm) /\
            deletes (stats cm') = deletes (stats cm) /\
            hitRate (stats cm') = hitRate (stats cm)) as Hclear.
  { unfold clear, bind, as_CacheError, try_catch, on_adapter, zoom, set_size,
      modify, ret. rewrite Hen. simpl. eexists. split; [reflexivity|].
    repeat split. }
  destruct Hp as [->| ->]; exact Hclear.
Qed.

Lemma invalidateCache_without_pattern_witness :
  exists cm',
    invalidateCache literal None (text_store 10 short_and_long)
    = (Resolved 0%nat, cm') /\ store cm' = [].
Proof.
  destruct (invalidateCache_without_pattern literal
              (text_store 10 short_and_long) None eq_refl (or_introl eq_refl))
    as [cm' [Hrun [Hstore _]]].
  exists cm'. split; assumption.
Defined.

End CacheAdminFacts.

(* ===================================================================== *)
(** ** Facts: from the cache interceptor to the cache probe *)
(* ===================================================================== *)
Module CacheRoundTrip.
Import Errors Effect Http Cache Client Interceptors.

#[local] Existing Instance Cache.memoryAdapter.

(** What the response interceptor stores for a response. *)
Definition envelope_of (response : Response) : Envelope :=
  mkEnvelope (status response) (statusText response) (Http.headers response)
    (Http.data response).

(** The time-to-live of a call: [config.cache.ttl], else the default of the
    manager. *)
Definition ttl_of (cm : CacheManager MemoryCacheAdapter) (cfg : ApiRequestConfig)
    : Z :=
  default (defaultTTL cm) (co_ttl (default noCacheOptions (cache cfg))).

Lemma set_keeps_hits {Data : Type} (serialize : Data -> string)
    (cm : CacheManager MemoryCacheAdapter) key data options now :
  hits (stats (snd (Cache.set serialize key data options now cm)))
  = hits (stats cm).
Proof. unfold Cache.set. now destruct (cm_enabled cm). Qed.

Lemma get_hit_counted {Data : Type} (serialize : Data -> string)
    (deserialize : string -> Outcome Data)
    (cm : CacheManager MemoryCacheAdapter) key data expiry now :
  cm_enabled cm = true ->
  deserialize (serialize data) = Resolved data ->
  CacheFacts.stores serialize cm key data expiry ->
  (now <= expiry)%Z ->
  exists cm',
    Cache.get deserialize key now cm = (Resolved (Some data), cm') /\
    hits (stats cm') = S (hits (stats cm)).
Proof.
  intros Hen Hround [entry [Hget [Hdata Hexp]]] Hnow.
  unfold Cache.get. rewrite Hen. simpl.
  unfold as_CacheError, try_catch, bind, on_adapter, zoom. simpl.
  rewrite Hget. unfold isExpired.
  assert (Z.ltb (expiresAt entry) now = false) as -> by (apply Z.ltb_ge; lia).
  simpl. rewrite Hdata, Hround. simpl. eexists. split; reflexivity.
Qed.


(** The answer 200 to [GET /users/1], and a codec that writes and reads its
    envelope. *)
Definition users_response : Response :=
  mkResponse 200 "OK" [("content-type", "application/json")]
    (Some (Js.JObj [("id", Js.JNum 1)]))
    (mkRequestConfig "GET" "/users/1" None None None None false false false
       false (Some "req_1"))
    false.

Definition users_codec : (Envelope -> string) * (string -> Outcome Envelope) :=
  (fun _ => "{status:200}", fun _ => Resolved (envelope_of users_response)).


End CacheRoundTrip.

(* ===================================================================== *)
(** ** Facts: what a validated configuration gives, and [updateConfig] *)
(* ===================================================================== *)
Module ValidatorFacts.
Import Errors Helpers Validators.

Lemma below_false bound n : below bound n = false <-> (bound <= n)%Q.
Proof.
  unfold below. destruct (Qcompare_spec n bound) as [Heq|Hlt|Hgt].
  - split; [|reflexivity]. intros _. rewrite Heq. apply Qle_refl.
  - split; [discriminate|]. intros Hle. exfalso.
    exact (Qlt_not_le _ _ Hlt Hle).
  - split; [|reflexivity]. intros _. now apply Qlt_le_weak.
Qed.

Lemma above_false bound n : above bound n = false <-> (n <= bound)%Q.
Proof.
  unfold above. destruct (Qcompare_spec n bound) as [Heq|Hlt|Hgt].
  - split; [|reflexivity]. intros _. rewrite Heq. apply Qle_refl.
  - split; [|reflexivity]. intros _. now apply Qlt_le_weak.
  - split; [discriminate|]. intros Hle. exfalso.
    exact (Qlt_not_le _ _ Hgt Hle).
Qed.

(** What the validator reads in a typed configuration. *)
Lemma retry_object_fields rc :
  truthy (retry_object rc) = true /\
  get (retry_object rc) "maxAttempts"
  = match Retry.rc_maxAttempts rc with
    | Some n => VNum (inject_Z n)
    | None => VUndefined
    end /\
  get (retry_object rc) "backoffFactor"
  = match Retry.rc_backoffFactor rc with
    | Some n => VNum n
    | None => VUndefined
    end /\
  get (retry_object rc) "baseDelay"
  = match Retry.rc_baseDelay rc with
    | Some n => VNum n
    | None => VUndefined
    end.
Proof.
  destruct rc as [[?|] [?|] [?|] [?|] [?|] [?|] [?|] [?|]]; repeat split.
Qed.

Lemma cache_object_fields enabled ttl maxSize prefix :
  truthy (cache_object enabled ttl maxSize prefix) = true /\
  get (cache_object enabled ttl maxSize prefix) "defaultTTL"
  = match ttl with Some n => VNum (inject_Z n) | None => VUndefined end /\
  get (cache_object enabled ttl maxSize prefix) "maxSize"
  = match maxSize with Some n => VNum (inject_Z n) | None => VUndefined end.
Proof.
  destruct enabled as [?|], ttl as [?|], maxSize as [?|], prefix as [?|];
    repeat split.
Qed.

(** The bounds of a retry configuration that the validator accepts. *)
Lemma validateRetry_accepts rc :
  validateRetry (retry_object rc) = Resolved tt ->
  (1 <= Retry.maxAttempts (Retry.new rc) <= 10)%Z /\
  (1 <= Retry.backoffFactor (Retry.new rc))%Q /\
  (0 <= Retry.baseDelay (Retry.new rc))%Q.
Proof.
  unfold validateRetry.
  destruct (retry_object_fields rc) as [-> [-> [-> ->]]]. simpl negb. cbv iota.
  unfold Retry.new. simpl.
  destruct (Retry.rc_maxAttempts rc) as [n|]; simpl.
  - destruct (below 1 (inject_Z n)) eqn:H1; [discriminate|].
    destruct (above (10 # 1) (inject_Z n)) eqn:H2; [discriminate|]. simpl.
    apply below_false in H1. apply above_false in H2.
    change 1%Q with (inject_Z 1) in H1. change (10 # 1)%Q with (inject_Z 10) in H2.
    rewrite <- Zle_Qle in H1, H2.
    destruct (Retry.rc_backoffFactor rc) as [f|]; simpl.
    + destruct (below 1 f) eqn:H3; [discriminate|]. apply below_false in H3.
      destruct (Retry.rc_baseDelay rc) as [b|]; simpl.
      * destruct (below 0 b) eqn:H4; [discriminate|]. apply below_false in H4.
        intros _. repeat split; assumption.
      * intros _. repeat split; try assumption. discriminate.
    + destruct (Retry.rc_baseDelay rc) as [b|]; simpl.
      * destruct (below 0 b) eqn:H4; [discriminate|]. apply below_false in H4.
        intros _. repeat split; try assumption. discriminate.
      * intros _. repeat split; try assumption; discriminate.
  - destruct (Retry.rc_backoffFactor rc) as [f|]; simpl.
    + destruct (below 1 f) eqn:H3; [discriminate|]. apply below_false in H3.
      destruct (Retry.rc_baseDelay rc) as [b|]; simpl.
      * destruct (below 0 b) eqn:H4; [discriminate|]. apply below_false in H4.
        intros _. repeat split; try assumption; lia.
      * intros _. repeat split; try assumption; try lia. discriminate.
    + destruct (Retry.rc_baseDelay rc) as [b|]; simpl.
      * destruct (below 0 b) eqn:H4; [discriminate|]. apply below_false in H4.
        intros _. repeat split; try assumption; try lia. discriminate.
      * intros _. repeat split; try lia; discriminate.
Qed.

Lemma validateCache_accepts enabled ttl maxSize prefix :
  validateCache (cache_object enabled ttl maxSize prefix) = Resolved tt ->
  (0 <= default 300000 ttl)%Z /\ (1 <= default 1000 maxSize)%Z.
Proof.
  unfold validateCache.
  destruct (cache_object_fields enabled ttl maxSize prefix) as [-> [-> ->]].
  simpl negb. cbv iota.
  destruct ttl as [t|]; simpl.
  - destruct (below 0 (inject_Z t)) eqn:H1; [discriminate|].
    apply below_false in H1. change 0%Q with (inject_Z 0) in H1.
    rewrite <- Zle_Qle in H1.
    destruct maxSize as [m|]; simpl.
    + destruct (below 1 (inject_Z m)) eqn:H2; [discriminate|].
      apply below_false in H2. change 1%Q with (inject_Z 1) in H2.
      rewrite <- Zle_Qle in H2. intros _. split; assumption.
    + intros _. split; [assumption | lia].
  - destruct maxSize as [m|]; simpl.
    + destruct (below 1 (inject_Z m)) eqn:H2; [discriminate|].
      apply below_false in H2. change 1%Q with (inject_Z 1) in H2.
      rewrite <- Zle_Qle in H2. intros _. split; [lia | assumption].
    + intros _. split; lia.
Qed.

(** X24. A retry configuration that [ConfigValidator.validateRetry] accepts
    gives a retry manager that calls the operation at least once and at
    most ten times for a request without per-call retry options, whatever
    the operation answers; its backoff factor is at least 1 and its base
    delay is not negative.  (Numbers are finite; [maxDelay] is not
    validated.) *)
Theorem validated_retry_bounds_calls {T : Type} (operation : nat -> Outcome T)
    (random : nat -> Q) (rc : Retry.RetryConfig) (requestId : option string) :
  validateRetry (retry_object rc) = Resolved tt ->
  (1 <= Retry.run_calls
          (Retry.executeWithRetry operation random (Retry.new rc)
             Retry.noOptions requestId) <= 10)%nat /\
  (1 <= Retry.backoffFactor (Retry.new rc))%Q /\
  (0 <= Retry.baseDelay (Retry.new rc))%Q.
Proof.
  intros Hok. destruct (validateRetry_accepts rc Hok) as [[Hlo Hhi] [Hf Hb]].
  split; [|split; assumption].
  destruct (Retry.bypassed (Retry.new rc) Retry.noOptions) eqn:Hby.
  - unfold Retry.executeWithRetry. rewrite Hby. simpl. lia.
  - destruct (RetryMore.executeWithRetry_accounts operation random (Retry.new rc)
                Retry.noOptions requestId Hby) as [H1 [H2 _]].
    + exact Hlo.
    + cbv zeta in H1, H2.
      change (Retry.effectiveMaxAttempts (Retry.new rc) Retry.noOptions)
        with (Retry.maxAttempts (Retry.new rc)) in H2.
      lia.
Qed.

(** An operation that always fails with 503, under a policy of five
    attempts. *)
Definition five_attempts : Retry.RetryConfig :=
  Retry.mkRetryConfig None (Some 5) None None None None None None.

Definition always_unavailable (_ : nat) : Outcome unit :=
  Rejected (mkJsError CAxiosError "Request failed with status code 503" None
              None None (Some (mkErrResponse 503 None)) None None false None
              None None).

Lemma validated_retry_bounds_calls_witness :
  (1 <= Retry.run_calls
          (Retry.executeWithRetry always_unavailable (fun _ => 0%Q)
             (Retry.new five_attempts) Retry.noOptions None) <= 10)%nat.
Proof.
  apply (validated_retry_bounds_calls always_unavailable (fun _ => 0%Q)
           five_attempts None).
  reflexivity.
Defined.

(** A field that the validator lets pass: absent, or a number of at least
    [bound]. *)
Definition at_least (bound : Q) (value : Value) : Prop :=
  match value with
  | VUndefined => True
  | VNum n => (bound <= n)%Q
  | _ => False
  end.

Lemma field_check bound value :
  defined value && not_number_or (below bound) value = false <->
  at_least bound value.
Proof.
  destruct value; simpl; try (split; [discriminate | tauto]);
    try (split; auto; fail).
  apply below_false.
Qed.

(** What [validateCache] accepts. *)
Lemma validateCache_region cache :
  validateCache cache = Resolved tt <->
  truthy cache = false \/
  (at_least 0 (get cache "defaultTTL") /\ at_least 1 (get cache "maxSize")).
Proof.
  unfold validateCache. destruct (truthy cache); simpl.
  - rewrite <- !field_check.
    destruct (defined (get cache "defaultTTL")
              && not_number_or (below 0) (get cache "defaultTTL"));
      [split; [discriminate | intros [H|[H _]]; discriminate]|].
    destruct (defined (get cache "maxSize")
              && not_number_or (below 1) (get cache "maxSize"));
      [split; [discriminate | intros [H|[_ H]]; discriminate]|].
    split; auto.
  - split; auto.
Qed.

(** X25. What [ConfigValidator.validateCache] accepts, and what that gives.
    It accepts a configuration exactly when the configuration is falsy, or
    [defaultTTL] is undefined or a number of at least 0 and [maxSize] is
    undefined or a number of at least 1 (numbers are finite; [null] and
    values that are no numbers are refused).  It does not ask for an
    integer: every [maxSize] of at least 1, such as 1.5, is accepted.  For an
    accepted configuration whose [maxSize] is an integer or absent and whose
    key prefix is not empty, the in-memory cache never holds more than
    [maxSize] entries (1000 when absent), whatever calls are made on it, and
    its default time-to-live is not negative.  Nothing is said here of the
    store under a [maxSize] that is not an integer. *)
Theorem validateCache_accepts_and_bounds {Data : Type}
    (serialize : Data -> string) (deserialize : string -> Outcome Data)
    (RegExp : string -> Outcome (string -> bool)) :
  (forall cache,
      validateCache cache = Resolved tt <->
      truthy cache = false \/
      (at_least 0 (get cache "defaultTTL") /\ at_least 1 (get cache "maxSize"))) /\
  (forall n : Q, (1 <= n)%Q ->
      validateCache (VObj [("maxSize", VNum n)]) = Resolved tt) /\
  (forall enabled ttl maxSize prefix cm,
      validateCache (cache_object enabled ttl maxSize prefix) = Resolved tt ->
      default "api_cache_" prefix <> "" ->
      CacheAdmin.reachable serialize deserialize RegExp enabled ttl maxSize
        prefix cm ->
      (Z.of_nat (length (CacheAdminFacts.store cm)) <= default 1000 maxSize)%Z /\
      (0 <= Cache.defaultTTL cm)%Z).
Proof.
  split; [exact validateCache_region|]. split.
  - intros n Hn. apply validateCache_region. right. simpl. split; [exact I | exact Hn].
  - intros enabled ttl maxSize prefix cm Hok Hprefix Hr.
    destruct (validateCache_accepts enabled ttl maxSize prefix Hok) as [Httl Hmax].
    pose proof (CacheAdminFacts.reachable_kept _ _ _ _ _ _ _ _ Hr) as Hk.
    split.
    + exact (CacheAdminFacts.kept_bound _ _ _ _ _ Hk Hmax Hprefix).
    + now rewrite (CacheAdminFacts.kept_ttl _ _ _ _ _ Hk).
Qed.

(** X25 on a store of two made by three writes, and on the size 3/2. *)
Lemma validateCache_accepts_and_bounds_witness :
  (Z.of_nat (length (CacheAdminFacts.store
                       (CacheAdminFacts.text_store 2
                          CacheAdminFacts.three_into_two))) <= 2)%Z /\
  validateCache (VObj [("maxSize", VNum (3 # 2))]) = Resolved tt.
Proof.
  destruct (validateCache_accepts_and_bounds (fun data : string => data)
              Resolved CacheAdminFacts.literal) as [_ [Hfraction Hbound]].
  split.
  - apply (Hbound None None (Some 2%Z) None
             (CacheAdminFacts.text_store 2 CacheAdminFacts.three_into_two)).
    + reflexivity.
    + discriminate.
    + apply CacheAdminFacts.text_store_reachable.
  - apply Hfraction. discriminate.
Defined.


(** A client for [https://api.example.com] whose timeout is then changed,
    once to a valid value and once to a negative one. *)
Definition example_client : ClientConfig :=
  mkClientConfig
    [("baseURL", VStr "https://api.example.com"); ("timeout", VNum (30000 # 1))]
    (VStr "https://api.example.com") (VNum (30000 # 1)).


End ValidatorFacts.

(* ===================================================================== *)
(** ** Facts: access tokens, login and logout *)
(* ===================================================================== *)
Module AuthMoreFacts.
Import Errors Effect Http Auth AuthMore.

(** [await refreshToken()] when no refresh is in flight. *)
Lemma refreshToken_await_idle (endpoint : nat -> Outcome AuthResponse) (s : State) :
  enabled (manager s) = true ->
  refreshPromise (manager s) = None ->
  exists o s',
    refreshToken_await endpoint s = Some (o, s') /\
    refreshPromise (manager s') = None /\
    enabled (manager s') = true /\
    match refresh_guard (manager s) (stored_refreshToken (storage (manager s))) with
    | Some e =>
        o = Rejected e /\ storage (manager s') = storage (manager s) /\
        posts s' = posts s
    | None =>
        posts s' = S (posts s) /\
        match endpoint (posts s) with
        | Resolved authData =>
            o = Resolved (ar_accessToken authData) /\
            stored_accessToken (storage (manager s'))
            = Some (ar_accessToken authData)
        | Rejected error =>
            o = Rejected
                  (AuthError (refresh_failure_message error) REFRESH_TOKEN_EXPIRED
                     (option_map resp_status (e_response error))) /\
            storage (manager s') = mkTokenStorage None None
        end
    end.
Proof.
  intros Hen Hidle. unfold refreshToken_await, refreshToken.
  rewrite Hen, Hidle. simpl negb. cbv iota.
  unfold await_refresh, resume. simpl. rewrite lookup_insert_eq.
  unfold refresh_guard. simpl.
  destruct (truthy_string (stored_refreshToken (storage (manager s)))) eqn:Hrt;
    simpl.
  - destruct (axiosInstance (manager s)) eqn:Hax; simpl.
    + rewrite lookup_insert_eq. unfold respond. simpl. rewrite lookup_insert_eq.
      destruct (endpoint (posts s)) as [authData|error] eqn:Hend; simpl.
      * unfold finally. simpl. rewrite lookup_insert_eq.
        rewrite bool_decide_eq_true_2 by set_solver. simpl.
        rewrite lookup_insert_eq. eexists _, _. split; [reflexivity|].
        simpl. unfold setTokens. simpl. rewrite Hen. simpl.
        repeat split; assumption.
      * unfold finally. simpl. rewrite lookup_insert_eq.
        rewrite bool_decide_eq_true_2 by set_solver. simpl.
        rewrite lookup_insert_eq. eexists _, _. split; [reflexivity|].
        simpl. repeat split; assumption.
    + rewrite lookup_delete_eq. unfold finally. simpl. rewrite lookup_insert_eq.
      rewrite bool_decide_eq_true_2 by set_solver. simpl.
      rewrite lookup_insert_eq. eexists _, _. split; [reflexivity|].
      simpl. repeat split; assumption.
  - rewrite lookup_delete_eq. unfold finally. simpl. rewrite lookup_insert_eq.
    rewrite bool_decide_eq_true_2 by set_solver. simpl.
    rewrite lookup_insert_eq. eexists _, _. split; [reflexivity|].
    simpl. repeat split; assumption.
Qed.

(** X27. [AuthManager.getAccessToken] with a token in the storage and no
    refresh in flight.  If auto-refresh is off or the token does not expire
    within the threshold, it returns the stored token and changes nothing.
    Otherwise it refreshes: on success it returns the new access token,
    which is then the stored one, after exactly one request to the refresh
    endpoint; on any failure it throws an [AuthError] with the message
    "Failed to refresh token" and the code [TOKEN_EXPIRED] in place of the
    cause, and leaves the storage empty and no timer armed.  In all cases
    no refresh is in flight afterwards. *)
Theorem getAccessToken_refreshes_or_clears (exp : string -> option Q)
    (endpoint : nat -> Outcome AuthResponse) (now : Z) (s : State)
    (token : string) :
  enabled (manager s) = true ->
  refreshPromise (manager s) = None ->
  stored_accessToken (storage (manager s)) = Some token ->
  token <> "" ->
  if autoRefresh (manager s) && isTokenExpiringSoon exp (manager s) token now
  then
    exists o s',
      getAccessToken exp endpoint now s = Some (o, s') /\
      refreshPromise (manager s') = None /\
      match o with
      | Resolved t =>
          exists newToken,
            t = Some newToken /\
            stored_accessToken (storage (manager s')) = Some newToken /\
            posts s' = S (posts s)
      | Rejected e =>
          e = AuthError "Failed to refresh token" TOKEN_EXPIRED None /\
          storage (manager s') = mkTokenStorage None None /\
          refreshTimer (manager s') = None
      end
  else getAccessToken exp endpoint now s = Some (Resolved (Some token), s).
Proof.
  intros Hen Hidle Htok Hne. unfold getAccessToken.
  rewrite Hen, Htok. cbn [negb].
  assert (truthy_string (Some token) = true) as ->.
  { simpl. now destruct (String.eqb_spec token ""). }
  cbn [negb].
  destruct (autoRefresh (manager s) && isTokenExpiringSoon exp (manager s) token now);
    [|reflexivity].
  destruct (refreshToken_await_idle endpoint s Hen Hidle)
    as [o [s' [Hrun [Hidle' [Hen' Hcase]]]]].
  unfold ptry_catch, pbind, pret, pthrow, clearTokens_now. rewrite Hrun.
  destruct (refresh_guard (manager s) (stored_refreshToken (storage (manager s))))
    as [e|].
  - destruct Hcase as [-> [Hst Hposts]].
    eexists _, _. split; [reflexivity|]. simpl. repeat split. exact Hidle'.
  - destruct Hcase as [Hposts Hcase].
    destruct (endpoint (posts s)) as [authData|error].
    + destruct Hcase as [-> Hstored].
      eexists _, _. split; [reflexivity|]. split; [exact Hidle'|].
      exists (ar_accessToken authData). repeat split; assumption.
    + destruct Hcase as [-> Hstored].
      eexists _, _. split; [reflexivity|]. simpl. repeat split. exact Hidle'.
Qed.

(** A manager that holds the tokens A and R; the token A expires at second
    100; the refresh endpoint answers with the access token B. *)
Definition holding : State :=
  initial (mkAuthConfig None None None None None)
    (mkTokenStorage (Some "A") (Some "R")).

Definition expires_at_100 (_ : string) : option Q := Some (100 # 1)%Q.

Definition answers_B (_ : nat) : Outcome AuthResponse :=
  Resolved (mkAuthResponse "B" None None).

Lemma getAccessToken_refreshes_or_clears_witness :
  exists o s',
    getAccessToken expires_at_100 answers_B 99000 holding = Some (o, s') /\
    refreshPromise (manager s') = None /\
    match o with
    | Resolved t =>
        exists newToken,
          t = Some newToken /\
          stored_accessToken (storage (manager s')) = Some newToken /\
          posts s' = S (posts holding)
    | Rejected e =>
        e = AuthError "Failed to refresh token" TOKEN_EXPIRED None /\
        storage (manager s') = mkTokenStorage None None /\
        refreshTimer (manager s') = None
    end.
Proof.
  apply (getAccessToken_refreshes_or_clears expires_at_100 answers_B 99000
           holding "A"); try reflexivity.
  discriminate.
Defined.

(** X29. [AuthManager.login] on a manager that has its transport.  A
    successful answer is returned as it is and its access token is stored;
    the stored refresh token is the answer's only if the answer carries a
    non-empty one, otherwise the refresh token of the previous session
    stays in the storage.  A disabled manager stores nothing and still
    returns the answer.  A failed request leaves the coordinator as it was
    and throws an [AuthError] with the code [AUTH_ERROR], the status of the
    response and the server's message or "Login failed". *)
Theorem login_keeps_old_refresh_token (answer : Outcome AuthResponse)
    (s : State) :
  axiosInstance (manager s) = true ->
  match answer with
  | Resolved authData =>
      fst (login answer s) = Resolved authData /\
      (enabled (manager s) = true ->
       stored_accessToken (storage (manager (snd (login answer s))))
       = Some (ar_accessToken authData) /\
       stored_refreshToken (storage (manager (snd (login answer s))))
       = if truthy_string (ar_refreshToken authData)
         then ar_refreshToken authData
         else stored_refreshToken (storage (manager s))) /\
      (enabled (manager s) = false ->
       storage (manager (snd (login answer s))) = storage (manager s))
  | Rejected error =>
      login answer s
      = (Rejected
           (AuthError (failure_message "Login failed" error) AUTH_ERROR
              (option_map resp_status (e_response error))), s)
  end.
Proof.
  intros Hax. unfold login. rewrite Hax. cbn [negb].
  destruct answer as [authData|error]; [|reflexivity].
  split; [reflexivity|]. unfold setTokens. simpl.
  split; intros Hen; rewrite Hen; simpl; [split|]; reflexivity.
Qed.

Lemma login_keeps_old_refresh_token_witness :
  stored_accessToken
    (storage (manager (snd (login (Resolved (mkAuthResponse "B" None None))
                              holding))))
  = Some "B" /\
  stored_refreshToken
    (storage (manager (snd (login (Resolved (mkAuthResponse "B" None None))
                              holding))))
  = Some "R".
Proof.
  exact (proj1 (proj2 (login_keeps_old_refresh_token
                         (Resolved (mkAuthResponse "B" None None)) holding
                         eq_refl)) eq_refl).
Defined.

(** X30. [AuthManager.logout] never throws and always leaves the storage
    empty and no timer armed, whether the logout endpoint is configured,
    answers or fails.  It does not touch a refresh in flight: the promise
    and its task stay, and when the refresh endpoint answers that request
    after the logout, the tokens of the answer are stored again. *)
Theorem logout_leaves_refresh_in_flight (logoutEndpoint : string)
    (answer : Outcome unit) (s : State) :
  exists s',
    logout logoutEndpoint answer s = (Resolved tt, s') /\
    storage (manager s') = mkTokenStorage None None /\
    refreshTimer (manager s') = None /\
    refreshPromise (manager s') = refreshPromise (manager s) /\
    tasks s' = tasks s /\
    forall p stored post authData,
      enabled (manager s) = true ->
      tasks s !! p = Some (Posting stored post) ->
      stored_accessToken
        (storage (manager (respond p (Resolved authData) s')))
      = Some (ar_accessToken authData).
Proof.
  exists (on_manager clearTokens s). split.
  - unfold logout, bind, try_catch, ret, modify.
    destruct (axiosInstance (manager s) && negb (String.eqb logoutEndpoint ""));
      [destruct answer|]; reflexivity.
  - repeat split. intros p stored post authData Hen Htask.
    unfold respond. simpl. rewrite Htask. simpl.
    unfold setTokens. simpl. rewrite Hen. reflexivity.
Qed.

(** The manager above once its refresh has sent the request to the refresh
    endpoint. *)
Definition refresh_posted : State :=
  resume 0 (snd (refreshToken holding)).

Lemma logout_leaves_refresh_in_flight_witness :
  exists s',
    logout "/auth/logout" (Resolved tt) refresh_posted = (Resolved tt, s') /\
    storage (manager s') = mkTokenStorage None None /\
    stored_accessToken
      (storage (manager (respond 0 (Resolved (mkAuthResponse "B" None None)) s')))
    = Some "B".
Proof.
  destruct (logout_leaves_refresh_in_flight "/auth/logout" (Resolved tt)
              refresh_posted)
    as [s' [Hrun [Hstorage [_ [_ [_ Hlater]]]]]].
  exists s'. split; [exact Hrun|]. split; [exact Hstorage|].
  apply (Hlater 0%nat "R" 0%nat); [reflexivity|].
  vm_compute. reflexivity.
Defined.

End AuthMoreFacts.

(* ===================================================================== *)
(** ** The request interceptor that attaches the token, in the client *)
(* ===================================================================== *)
Module AttachFacts.
Import Errors Effect Http Interceptors Instance InterceptorFacts.

(** The request with the header that carries [token]. *)
Definition attached (m : Auth.AuthManager) (request : RequestConfig)
    (token : string) : RequestConfig :=
  with_headers request
    (set_header (rq_headers request) (Auth.tokenHeader m)
       (Auth.bearerPrefix m +:+ " " +:+ token)).

Section Client.

Variable exp : string -> option Q.
Variable clock : nat -> Z.
Variable generateRequestId : nat -> string.
Variable toISOString : nat -> string.
Variable network : nat -> RequestConfig -> Outcome Response.
Variable authData : Response -> Auth.AuthResponse.
Variable defaultHeaders : list (string * string).
Variable refreshEndpoint : string.

Local Abbreviation instance :=
  (axiosInstance exp clock generateRequestId toISOString network authData
     defaultHeaders refreshEndpoint).
Local Abbreviation refresh_through :=
  (refreshToken authData refreshEndpoint).
Local Abbreviation chain :=
  (request_interceptors exp clock generateRequestId toISOString defaultHeaders).
Local Abbreviation attach := (auth_onFulfilled exp clock).

(** Whatever the refresh does, the interceptor does not reject. *)
Lemma auth_onFulfilled_total refresh request w e w' :
  attach refresh request w <> Some (Rejected e, w').
Proof.
  unfold auth_onFulfilled.
  destruct (negb (Auth.enabled (Auth.manager (w_auth w)))); [discriminate|].
  destruct (rq_skipAuth request); [discriminate|].
  unfold ptry_catch, pbind.
  destruct (getAccessToken exp clock refresh w) as [[[token|e0] w0]|];
    try discriminate.
  destruct (Auth.truthy_string token); discriminate.
Qed.

(** Nothing to attach: the request goes on as it is. *)
Lemma auth_onFulfilled_nothing refresh request w :
  Auth.enabled (Auth.manager (w_auth w)) = false \/ rq_skipAuth request = true \/
  Auth.truthy_string
    (Auth.stored_accessToken (Auth.storage (Auth.manager (w_auth w)))) = false ->
  attach refresh request w = Some (Resolved request, w).
Proof.
  intros Hcase. unfold auth_onFulfilled.
  destruct (Auth.enabled (Auth.manager (w_auth w))) eqn:Hen; [|reflexivity].
  cbn [negb].
  destruct (rq_skipAuth request) eqn:Hskip; [reflexivity|].
  destruct Hcase as [H|[H|H]]; try discriminate.
  unfold ptry_catch, pbind, getAccessToken. rewrite Hen. cbn [negb].
  destruct (Auth.stored_accessToken (Auth.storage (Auth.manager (w_auth w))))
    as [token|]; [|reflexivity].
  rewrite H. reflexivity.
Qed.

Section Token.

Variable request : RequestConfig.
Variable w : World.
Variable token : string.

Hypothesis Henabled : Auth.enabled (Auth.manager (w_auth w)) = true.
Hypothesis Hauth : rq_skipAuth request = false.
Hypothesis Htoken :
  Auth.stored_accessToken (Auth.storage (Auth.manager (w_auth w))) = Some token.
Hypothesis Htruthy : token <> "".

(** A token that is not due is attached, and nothing is called. *)
Lemma auth_onFulfilled_attaches refresh :
  Auth.autoRefresh (Auth.manager (w_auth w)) = false \/
  AuthMore.isTokenExpiringSoon exp (Auth.manager (w_auth w)) token
    (clock (w_reads w)) = false ->
  exists w',
    attach refresh request w
    = Some (Resolved (attached (Auth.manager (w_auth w)) request token), w') /\
    only_reads w w'.
Proof.
  intros Hcase. unfold auth_onFulfilled. rewrite Henabled, Hauth. cbn [negb].
  unfold ptry_catch, pbind, getAccessToken. rewrite Henabled, Htoken.
  cbn [negb Auth.truthy_string].
  apply String.eqb_neq in Htruthy. rewrite Htruthy. cbn [negb].
  destruct (Auth.autoRefresh (Auth.manager (w_auth w))) eqn:Hauto.
  - destruct Hcase as [H|H]; [discriminate|].
    unfold isTokenExpiringSoon, pbind, reading, pret. cbn [w_auth].
    rewrite H. cbn [Auth.truthy_string]. rewrite ?Htruthy. cbn [negb].
    eexists. split; [reflexivity|]. repeat split.
  - unfold pbind, pret. cbn [Auth.truthy_string]. rewrite ?Htruthy. cbn [negb].
    eexists. split; [reflexivity|]. repeat split.
Qed.

Hypothesis Hauto : Auth.autoRefresh (Auth.manager (w_auth w)) = true.

(** What the interceptor does once the token is found due. *)
Lemma auth_onFulfilled_due refresh :
  AuthMore.isTokenExpiringSoon exp (Auth.manager (w_auth w)) token
    (clock (w_reads w)) = true ->
  attach refresh request w
  = ptry_catch
      (token <- ptry_catch
                  (newToken <- refresh ;; pret (Some newToken))
                  (fun _ =>
                     clearTokens ;;
                     pthrow (AuthError "Failed to refresh token" TOKEN_EXPIRED
                               None)) ;;
       if Auth.truthy_string token then
         fun w' =>
           pret (attached (Auth.manager (w_auth w')) request (default "" token)) w'
       else pret request)%partial
      (fun _ => pret request)
      (mkWorld (w_auth w) (w_refreshPromises w) (w_sent w) (w_log w)
         (S (w_reads w))).
Proof.
  intros Hdue. unfold auth_onFulfilled. rewrite Henabled, Hauth. cbn [negb].
  unfold ptry_catch at 1. unfold pbind at 1. unfold getAccessToken.
  rewrite Henabled, Htoken. cbn [negb Auth.truthy_string].
  apply String.eqb_neq in Htruthy. rewrite Htruthy. cbn [negb].
  rewrite Hauto. unfold pbind at 1. unfold isTokenExpiringSoon at 1.
  unfold pbind at 1. unfold reading at 1. cbn [w_auth]. unfold pret at 1.
  rewrite Hdue. reflexivity.
Qed.

(** A token that is due while a refresh is in flight: the interceptor
    awaits that refresh, and never returns. *)
Lemma auth_onFulfilled_in_flight post p :
  AuthMore.isTokenExpiringSoon exp (Auth.manager (w_auth w)) token
    (clock (w_reads w)) = true ->
  Auth.refreshPromise (Auth.manager (w_auth w)) = Some p ->
  Auth.settled (w_auth w) !! p = None ->
  attach (refresh_through post) request w = None.
Proof.
  intros Hdue Hp Hs. rewrite auth_onFulfilled_due by exact Hdue.
  apply ptry_catch_never, pbind_never, ptry_catch_never, pbind_never.
  apply refreshToken_in_flight with (p := p); assumption.
Qed.

End Token.

(** So does every request sent meanwhile through the instance, if the
    token is due whenever the clock is read. *)
Lemma instance_due_in_flight fuel request w token p :
  Auth.enabled (Auth.manager (w_auth w)) = true ->
  rq_skipAuth request = false ->
  Auth.stored_accessToken (Auth.storage (Auth.manager (w_auth w))) = Some token ->
  token <> "" ->
  Auth.autoRefresh (Auth.manager (w_auth w)) = true ->
  (forall k, AuthMore.isTokenExpiringSoon exp (Auth.manager (w_auth w)) token
               (clock k) = true) ->
  Auth.refreshPromise (Auth.manager (w_auth w)) = Some p ->
  Auth.settled (w_auth w) !! p = None ->
  instance fuel request w = None.
Proof.
  intros Hen Hauth Htoken Htruthy Hauto Hdue Hp Hs.
  destruct fuel as [|fuel]; [reflexivity|].
  rewrite instance_S. apply settle_never. unfold request_interceptors.
  erewrite pbind_resolved by reflexivity.
  erewrite pbind_resolved by reflexivity.
  apply pbind_never.
  apply auth_onFulfilled_in_flight with (token := token) (p := p);
    try assumption.
  apply Hdue.
Qed.

(** The token is due and the refresh cannot start: the tokens are cleared
    and the request goes on as it is. *)
Lemma auth_onFulfilled_refresh_guarded post request w token e :
  Auth.enabled (Auth.manager (w_auth w)) = true ->
  rq_skipAuth request = false ->
  Auth.stored_accessToken (Auth.storage (Auth.manager (w_auth w))) = Some token ->
  token <> "" ->
  Auth.autoRefresh (Auth.manager (w_auth w)) = true ->
  AuthMore.isTokenExpiringSoon exp (Auth.manager (w_auth w)) token
    (clock (w_reads w)) = true ->
  Auth.refreshPromise (Auth.manager (w_auth w)) = None ->
  Auth.refresh_guard (Auth.manager (w_auth w))
    (Auth.stored_refreshToken (Auth.storage (Auth.manager (w_auth w)))) = Some e ->
  exists w',
    attach (refresh_through post) request w = Some (Resolved request, w') /\
    w_sent w' = w_sent w /\
    stored_tokens w' = Auth.mkTokenStorage None None.
Proof.
  intros Hen Hauth Htoken Htruthy Hauto Hdue Hidle Hguard.
  rewrite (auth_onFulfilled_due request w token Hen Hauth Htoken Htruthy Hauto _
             Hdue).
  destruct (refreshToken_guarded authData refreshEndpoint post
              (mkWorld (w_auth w) (w_refreshPromises w) (w_sent w) (w_log w)
                 (S (w_reads w))) e Hen Hidle Hguard)
    as (w2 & Hrefresh & Hs2 & _).
  erewrite ptry_catch_rejected.
  2:{ erewrite pbind_rejected; [reflexivity|].
      erewrite ptry_catch_rejected; [reflexivity|].
      erewrite pbind_rejected; [reflexivity|exact Hrefresh]. }
  eexists. split; [reflexivity|]. split; [exact Hs2|reflexivity].
Qed.

(** The token is due and the refresh can start: its request goes through
    this very interceptor, which awaits the refresh; nothing returns. *)
Lemma auth_onFulfilled_waits fuel request w token :
  Auth.enabled (Auth.manager (w_auth w)) = true ->
  rq_skipAuth request = false ->
  Auth.stored_accessToken (Auth.storage (Auth.manager (w_auth w))) = Some token ->
  token <> "" ->
  Auth.autoRefresh (Auth.manager (w_auth w)) = true ->
  (forall k, AuthMore.isTokenExpiringSoon exp (Auth.manager (w_auth w)) token
               (clock k) = true) ->
  Auth.refreshPromise (Auth.manager (w_auth w)) = None ->
  Auth.settled (w_auth w) !! Auth.created (w_auth w) = None ->
  Auth.refresh_guard (Auth.manager (w_auth w))
    (Auth.stored_refreshToken (Auth.storage (Auth.manager (w_auth w)))) = None ->
  attach (refresh_through (instance fuel)) request w = None.
Proof.
  intros Hen Hauth Htoken Htruthy Hauto Hdue Hidle Hfresh Hguard.
  rewrite (auth_onFulfilled_due request w token Hen Hauth Htoken Htruthy Hauto _
             (Hdue _)).
  apply ptry_catch_never, pbind_never, ptry_catch_never, pbind_never.
  unfold refreshToken, Auth.refreshToken. cbn [w_auth].
  rewrite Hen, Hidle. cbn [negb]. cbv iota.
  unfold Auth.resume. cbn [Auth.tasks Auth.manager]. rewrite lookup_insert_eq.
  assert (Auth.refresh_guard
            (Auth.with_refreshPromise (Auth.manager (w_auth w))
               (Some (Auth.created (w_auth w))))
            (Auth.stored_refreshToken (Auth.storage (Auth.manager (w_auth w))))
          = None) as Hg by exact Hguard.
  rewrite Hg. cbn [Auth.tasks]. rewrite lookup_insert_eq.
  apply settle_never.
  apply instance_due_in_flight
    with (token := token) (p := Auth.created (w_auth w));
    try assumption; try reflexivity.
Qed.

End Client.

(** A token that expires one second after midnight. *)
Definition expiring (_ : string) : option Q := Some (1 # 1)%Q.

(** X28. The request interceptor that attaches the token, in the client:
    the coordinator sends its refresh request through the instance that
    carries this interceptor.  The interceptor never rejects.  With
    authentication disabled, [skipAuth] set, or no access token stored, the
    request goes on as it is and nothing changes.  With a token that is not
    due for a refresh (or [autoRefresh] off), the request goes on with the
    header named by [tokenHeader] set to the bearer prefix, a space and the
    stored token, and nothing is called.  With [autoRefresh] on, no refresh
    in flight and a token that is due: if the refresh cannot start (no
    refresh token, or no transport), the stored tokens are cleared and the
    request goes on as it is, no request being made; if the refresh can
    start and the token is due whenever the clock is read, the interceptor
    never returns, because the refresh request waits in this interceptor for
    the refresh that sends it. *)
Theorem auth_interceptor_in_client
    (exp : string -> option Q) (clock : nat -> Z)
    (generateRequestId toISOString : nat -> string)
    (network : nat -> RequestConfig -> Outcome Response)
    (authData : Response -> Auth.AuthResponse)
    (defaultHeaders : list (string * string)) (refreshEndpoint : string)
    (config : Auth.AuthConfig) (initially : Auth.TokenStorage)
    (fuel : nat) (request : RequestConfig) (w : World) :
  let attach :=
    auth_onFulfilled exp clock
      (refreshToken authData refreshEndpoint
         (axiosInstance exp clock generateRequestId toISOString network authData
            defaultHeaders refreshEndpoint fuel)) in
  let m := Auth.manager (w_auth w) in
  (forall e w', attach request w <> Some (Rejected e, w')) /\
  (Auth.enabled m = false \/ rq_skipAuth request = true \/
   Auth.truthy_string (Auth.stored_accessToken (Auth.storage m)) = false ->
   attach request w = Some (Resolved request, w)) /\
  (forall token,
      Auth.enabled m = true ->
      rq_skipAuth request = false ->
      Auth.stored_accessToken (Auth.storage m) = Some token ->
      token <> "" ->
      (Auth.autoRefresh m = false \/
       AuthMore.isTokenExpiringSoon exp m token (clock (w_reads w)) = false ->
       exists w',
         attach request w = Some (Resolved (attached m request token), w') /\
         only_reads w w') /\
      (Auth.autoRefresh m = true ->
       Auth.refreshPromise m = None ->
       (forall e,
           AuthMore.isTokenExpiringSoon exp m token (clock (w_reads w)) = true ->
           Auth.refresh_guard m (Auth.stored_refreshToken (Auth.storage m))
           = Some e ->
           exists w',
             attach request w = Some (Resolved request, w') /\
             w_sent w' = w_sent w /\
             stored_tokens w' = Auth.mkTokenStorage None None) /\
       ((forall k, AuthMore.isTokenExpiringSoon exp m token (clock k) = true) ->
        Auth.refresh_guard m (Auth.stored_refreshToken (Auth.storage m)) = None ->
        Auth.reachable config initially (w_auth w) ->
        attach request w = None))).
Proof.
  intros attach m. subst attach m. split; [|split].
  - intros e w'. apply auth_onFulfilled_total.
  - apply auth_onFulfilled_nothing.
  - intros token Hen Hauth Htoken Htruthy. split.
    + apply auth_onFulfilled_attaches; assumption.
    + intros Hauto Hidle. split.
      * intros e Hdue Hguard.
        eapply auth_onFulfilled_refresh_guarded; eassumption.
      * intros Hdue Hguard Hreach.
        eapply auth_onFulfilled_waits; try eassumption.
        eapply reachable_fresh; eassumption.
Qed.

(** X28 on a client that holds a token due for a refresh and a refresh
    token: the interceptor does not return. *)
Lemma auth_interceptor_in_client_witness :
  auth_onFulfilled expiring midnight
    (refreshToken read_B "/auth/refresh"
       (axiosInstance expiring midnight numbered timestamp refuses_users read_B
          [] "/auth/refresh" 3))
    users_request (world_of (Auth.mkTokenStorage (Some "A") (Some "R")))
  = None.
Proof.
  destruct (auth_interceptor_in_client expiring midnight numbered timestamp
              refuses_users read_B [] "/auth/refresh"
              (Auth.mkAuthConfig None None None None None)
              (Auth.mkTokenStorage (Some "A") (Some "R"))
              3 users_request
              (world_of (Auth.mkTokenStorage (Some "A") (Some "R"))))
    as (_ & _ & Htoken).
  destruct (Htoken "A" eq_refl eq_refl eq_refl ltac:(discriminate))
    as (_ & Hdue).
  destruct (Hdue eq_refl eq_refl) as (_ & Hwaits).
  apply Hwaits.
  - intros k. reflexivity.
  - reflexivity.
  - apply Auth.reachable_initial.
Defined.

End AttachFacts.
